(** * Recover_MS_Edge_Open_Tabs_v54: a shallow embedding of the extraction core

    The development follows [Recover_MS_Edge_Open_Tabs_v54.py].  Byte buffers
    are [list byte], display text is [list ascii] (every display character is
    printable ASCII or the pipe), offsets are [nat], a failed search ([-1] in
    the source) is [None], and an operation that can raise in Python returns
    [option], with [None] standing for the raised exception. *)

From Stdlib.Strings Require Import Ascii String Byte.
From Stdlib Require Import List Arith ZArith Lia Bool.
From Stdlib Require Import Sorted Permutation.
Import ListNotations.

(** ** Element equality, shared by byte strings and text *)

Class Eqb (A : Type) := {
  elt_eqb : A -> A -> bool;
  elt_eqb_eq : forall x y, elt_eqb x y = true <-> x = y
}.

#[export] Instance ascii_Eqb : Eqb ascii :=
  {| elt_eqb := Ascii.eqb; elt_eqb_eq := Ascii.eqb_eq |}.

#[export] Instance byte_Eqb : Eqb byte :=
  {| elt_eqb := Byte.eqb;
     elt_eqb_eq := fun x y => conj (Byte.byte_dec_bl x y) (@Byte.byte_dec_lb x y) |}.

Definition text := list ascii.

Definition txt (s : string) : text := list_ascii_of_string s.

(** ** Python sequence primitives used by the program *)

Module Py.
Section Seq.
Context {A : Type} `{Eqb A}.

(** [s[i:j]] for non-negative [i], [j]: both ends are clamped. *)
Definition slice (s : list A) (i j : nat) : list A :=
  firstn (j - i) (skipn i s).

(** [t.startswith(sub)] *)
Fixpoint startswith (sub t : list A) : bool :=
  match sub, t with
  | [], _ => true
  | _ :: _, [] => false
  | x :: sub', y :: t' => elt_eqb x y && startswith sub' t'
  end.

(** [sub] occurs in [s] at offset [i], wholly inside [s]. *)
Definition occurs_at (sub s : list A) (i : nat) : bool :=
  (i <=? length s) && startswith sub (skipn i s).

(** Scan of the suffix [t] of the text that begins at offset [i]. *)
Fixpoint find_in (sub t : list A) (i : nat) : option nat :=
  if startswith sub t then Some i
  else match t with
       | [] => None
       | _ :: t' => find_in sub t' (S i)
       end.

(** [s.find(sub, start)]: lowest offset [>= start] of an occurrence. *)
Definition find (s sub : list A) (start : nat) : option nat :=
  if start <=? length s then find_in sub (skipn start s) start else None.

(** Candidates [lo .. lo+k-1], highest first. *)
Fixpoint rfind_loop (s sub : list A) (lo k : nat) : option nat :=
  match k with
  | 0 => None
  | S k' => if occurs_at sub s (lo + k') then Some (lo + k')
            else rfind_loop s sub lo k'
  end.

(** [s.rfind(sub, start, stop)]: highest offset of an occurrence lying
    inside [s[start:stop]]. *)
Definition rfind (s sub : list A) (start stop : nat) : option nat :=
  let e := Nat.min stop (length s) in
  if start + length sub <=? e
  then rfind_loop s sub start (e - length sub - start + 1)
  else None.

Fixpoint list_eqb (a b : list A) : bool :=
  match a, b with
  | [], [] => true
  | x :: a', y :: b' => elt_eqb x y && list_eqb a' b'
  | _, _ => false
  end.

(** [','.join(parts)] with a one-element separator *)
Fixpoint join (sep : A) (parts : list A) : list A :=
  match parts with
  | [] => []
  | [c] => [c]
  | c :: rest => c :: sep :: join sep rest
  end.
End Seq.
End Py.

(** ** User-changeable parameters *)

Definition REPEAT_COUNT_REQUIRED : nat := 5.
Definition TAG_LENGTH_CHARS : nat := 19.
Definition ADVANCE_AFTER_TAG_TO_GROUP_START : nat := 4.
Definition REPLACEMENT_CHAR_PIPE : ascii := "|"%char.
Definition URL_RIGHTCONTEXT_MAX_CHARS : nat := 30000.

(** ** Helper functions *)

Definition convert_single_byte_to_display_char (byte_value : byte) : ascii :=
  let n := Byte.to_N byte_value in
  if (32 <=? n)%N && (n <=? 126)%N then ascii_of_byte byte_value
  else REPLACEMENT_CHAR_PIPE.

Definition display (bs : list byte) : text :=
  map convert_single_byte_to_display_char bs.

Definition bytes_of (s : string) : list byte := list_byte_of_string s.

Definition find_earliest_lowercase_http_position_in_bytes
    (byte_buffer : list byte) : nat :=
  let pos_http := Py.find byte_buffer (bytes_of "http://") 0 in
  let pos_https := Py.find byte_buffer (bytes_of "https://") 0 in
  match pos_http, pos_https with
  | Some p, Some q => Nat.min p q
  | Some p, None => p
  | None, Some q => q
  | None, None => length byte_buffer
  end.

Section NonOverlapping.
Context {A : Type} `{Eqb A}.

(** The [while True] loop of [find_non_overlapping_positions_in_text];
    [fuel] bounds the number of iterations and [None] means the bound was
    reached before the loop left through [break]. *)
Fixpoint find_non_overlapping_loop (fuel : nat) (full_text substring : list A)
    (start_idx : nat) (positions : list nat) : option (list nat) :=
  match fuel with
  | 0 => None
  | S fuel' =>
      match Py.find full_text substring start_idx with
      | None => Some positions
      | Some found =>
          find_non_overlapping_loop fuel' full_text substring
            (found + length substring) (positions ++ [found])
      end
  end.

Definition find_non_overlapping_positions_in_text
    (full_text substring : list A) : option (list nat) :=
  find_non_overlapping_loop (S (length full_text)) full_text substring 0 [].
End NonOverlapping.

Definition build_pipe_interleaved_text_for_url (url_text : text) : text :=
  match url_text with
  | [] => []
  | _ => REPLACEMENT_CHAR_PIPE :: Py.join REPLACEMENT_CHAR_PIPE url_text
           ++ [REPLACEMENT_CHAR_PIPE]
  end.

Definition build_pipe_interleaved_text_for_group_name (group_name : text) : text :=
  match group_name with
  | [] => []
  | _ => REPLACEMENT_CHAR_PIPE :: Py.join REPLACEMENT_CHAR_PIPE group_name
           ++ [REPLACEMENT_CHAR_PIPE]
  end.

(** ** Exceptions: [None] is a raised exception (or a loop that never ends) *)

Definition bind {A B : Type} (m : option A) (f : A -> option B) : option B :=
  match m with
  | Some a => f a
  | None => None
  end.

Notation "x <- m ;; k" := (bind m (fun x => k))
  (at level 61, m at next level, right associativity).

Fixpoint foldM {S X : Type} (f : S -> X -> option S) (xs : list X) (s : S)
    : option S :=
  match xs with
  | [] => Some s
  | x :: xs' => s' <- f s x ;; foldM f xs' s'
  end.

(** ** [list.sort(key=...)] and [sorted(..., key=...)]: a stable sort *)

Section Sort.
Context {A : Type} (key : A -> nat).

Fixpoint insert_by (x : A) (l : list A) : list A :=
  match l with
  | [] => [x]
  | y :: l' => if key x <=? key y then x :: y :: l' else y :: insert_by x l'
  end.

Fixpoint sort_by (l : list A) : list A :=
  match l with
  | [] => []
  | x :: l' => insert_by x (sort_by l')
  end.
End Sort.

(** ** Dictionaries in insertion order *)

Module Dict.
Section Dict.
Context {K V : Type} (keqb : K -> K -> bool).

Fixpoint lookup (k : K) (d : list (K * V)) : option V :=
  match d with
  | [] => None
  | (k', v) :: d' => if keqb k' k then Some v else lookup k d'
  end.

(** [d.get(k, default)] *)
Definition get (k : K) (d : list (K * V)) (default : V) : V :=
  match lookup k d with
  | Some v => v
  | None => default
  end.

(** [d[k] = v] *)
Fixpoint set (k : K) (v : V) (d : list (K * V)) : list (K * V) :=
  match d with
  | [] => [(k, v)]
  | (k', v') :: d' =>
      if keqb k' k then (k', v) :: d' else (k', v') :: set k v d'
  end.
End Dict.
End Dict.

Definition text_eqb (a b : text) : bool := Py.list_eqb a b.

Definition key_eqb (a b : text * nat) : bool :=
  text_eqb (fst a) (fst b) && (snd a =? snd b).

(** ** The regular expression [https?://[^|\s]+] with [re.IGNORECASE] *)

(** [str.isspace] on the characters a [list ascii] can hold. *)
Definition py_isspace (c : ascii) : bool :=
  let n := nat_of_ascii c in
  ((9 <=? n) && (n <=? 13)) || ((28 <=? n) && (n <=? 32))
  || (n =? 133) || (n =? 160).

Definition ascii_lower (c : ascii) : ascii :=
  let n := nat_of_ascii c in
  if (65 <=? n) && (n <=? 90) then ascii_of_nat (n + 32) else c.

Fixpoint startswith_ignorecase (pat t : text) : bool :=
  match pat, t with
  | [], _ => true
  | _ :: _, [] => false
  | x :: pat', y :: t' =>
      Ascii.eqb (ascii_lower x) (ascii_lower y) && startswith_ignorecase pat' t'
  end.

(** The class [[^|\s]]. *)
Definition url_char (c : ascii) : bool :=
  negb (Ascii.eqb c REPLACEMENT_CHAR_PIPE) && negb (py_isspace c).

Fixpoint run_length (t : text) : nat :=
  match t with
  | c :: t' => if url_char c then S (run_length t') else 0
  | [] => 0
  end.

(** Length of the match anchored at the head of [t], if there is one. *)
Definition url_regex_match (t : text) : option nat :=
  let scheme :=
    if startswith_ignorecase (txt "https://") t then Some 8
    else if startswith_ignorecase (txt "http://") t then Some 7
    else None in
  match scheme with
  | Some k =>
      let r := run_length (skipn k t) in
      if r =? 0 then None else Some (k + r)
  | None => None
  end.

(** [finditer]: [t] is the suffix at offset [i]; [skip] characters still
    belong to the previous match. *)
Fixpoint url_finditer_from (t : text) (i skip : nat) : list (nat * nat * text) :=
  match t with
  | [] => []
  | _ :: t' =>
      match skip with
      | S k => url_finditer_from t' (S i) k
      | 0 =>
          match url_regex_match t with
          | Some len => (i, i + len, firstn len t)
                          :: url_finditer_from t' (S i) (len - 1)
          | None => url_finditer_from t' (S i) 0
          end
      end
  end.

(** [url_regex.finditer(s)] as the list of [(m.start(), m.end(), m.group())]. *)
Definition url_finditer (s : text) : list (nat * nat * text) :=
  url_finditer_from s 0 0.

(** [str.strip()] and [s[0::2]] *)
Fixpoint lstrip (t : text) : text :=
  match t with
  | c :: t' => if py_isspace c then lstrip t' else t
  | [] => []
  end.

Definition strip (t : text) : text := rev (lstrip (rev (lstrip t))).

Fixpoint every_other {A : Type} (t : list A) : list A :=
  match t with
  | [] => []
  | [c] => [c]
  | c :: _ :: t' => c :: every_other t'
  end.

(** [bisect.bisect_right(a, x)]: the binary search of the standard library. *)
Fixpoint bisect_right_loop (fuel : nat) (a : list nat) (x lo hi : nat) : nat :=
  if lo <? hi then
    match fuel with
    | 0 => lo
    | S fuel' =>
        let mid := (lo + hi) / 2 in
        match nth_error a mid with
        | Some v => if x <? v then bisect_right_loop fuel' a x lo mid
                    else bisect_right_loop fuel' a x (mid + 1) hi
        | None => lo
        end
    end
  else lo.

Definition bisect_right (a : list nat) (x : nat) : nat :=
  bisect_right_loop (length a) a x 0 (length a).

(** ** The data of [main] *)

(** An entry of [session_tags_and_groups] as the tag detector appends it. *)
Module Detected.
Record t := mk {
  SessionTabGroupTag : text;
  PositionsRelInBlock : list nat;
  TagFirstPosAbs : nat
}.
End Detected.

(** An entry of [reconstructed]. *)
Module Group.
Record t := mk {
  SessionTabGroupTag : text;
  GroupSpaced : text;
  SessionTabGroup : text;
  TagFirstPosAbs : nat;
  GroupStartAbs : nat;
  GroupEndAbs : nat
}.
End Group.

(** An entry of [confirmed_interleaved_records]. *)
Module Confirmed.
Record t := mk {
  simple_start : nat;
  simple_end : nat;
  canonical_url_used : text;
  interleaved_start : nat;
  interleaved_end : nat;
  raw_url_original : text
}.
End Confirmed.

(** A value appended to [tag_occurrence_to_assigned_urls[key]]. *)
Module Assigned.
Record t := mk {
  u_start : nat;
  u_end : nat;
  canonical_url_used : text;
  raw_url_original : text
}.
End Assigned.

(** An entry of [produced_rows]. *)
Module Row.
Record t := mk {
  SessionTabGroup : text;
  URL : text;
  URL_Raw : text;
  URL_RightContext : text;
  TagText : text;
  TagOccurrencePos : nat;
  TagEndPos : nat;
  URL_StartPos : nat;
  URL_EndPos : nat
}.
End Row.

(** ** Block locator (lines 217-225) *)

Definition block_start_abs_of (session_bytes : list byte) : nat :=
  match Py.find session_bytes (bytes_of "}") 0 with
  | Some first_closing_brace_idx => first_closing_brace_idx + 1
  | None => 0
  end.

Definition session_tab_group_block_text_of (session_bytes : list byte) : text :=
  let block_start_abs := block_start_abs_of session_bytes in
  let first_http_abs :=
    find_earliest_lowercase_http_position_in_bytes session_bytes in
  if block_start_abs <? first_http_abs
  then display (Py.slice session_bytes block_start_abs first_http_abs)
  else [].

(** ** Tag detector (lines 244-262) *)

Definition detect_range (block_text : text) : list nat :=
  seq 0 (Z.to_nat (Z.max 0 (Z.of_nat (length block_text)
                            - Z.of_nat TAG_LENGTH_CHARS + 1))).

(** One iteration of the [for rel_pos] loop; the state is
    [(seen_candidates, session_tags_and_groups)]. *)
Definition detect_step (block_start_abs : nat) (block_text : text)
    (st : list text * list Detected.t) (rel_pos : nat)
    : option (list text * list Detected.t) :=
  let '(seen_candidates, session_tags_and_groups) := st in
  if negb (text_eqb (Py.slice block_text rel_pos (rel_pos + 3))
                    (repeat REPLACEMENT_CHAR_PIPE 3))
  then Some st
  else
    let candidate := Py.slice block_text rel_pos (rel_pos + TAG_LENGTH_CHARS) in
    if existsb (text_eqb candidate) seen_candidates then Some st
    else
      let seen_candidates := candidate :: seen_candidates in
      pos_list_rel <- find_non_overlapping_positions_in_text block_text candidate ;;
      if length pos_list_rel =? REPEAT_COUNT_REQUIRED then
        first_rel <- nth_error pos_list_rel 0 ;;
        let abs_first_pos := block_start_abs + first_rel in
        Some (seen_candidates,
              session_tags_and_groups
                ++ [Detected.mk candidate pos_list_rel abs_first_pos])
      else Some (seen_candidates, session_tags_and_groups).

Definition detect_tags (block_start_abs : nat) (block_text : text)
    : option (list Detected.t) :=
  st <- foldM (detect_step block_start_abs block_text)
              (detect_range block_text) ([], []) ;;
  Some (snd st).

(** ** Group name reconstructor (lines 264-306) *)

(** The [while scan_idx >= 0] loop, with [n = scan_idx + 1]: the result
    [Some None] leaves [group_spaced_end_abs] at [None]. *)
Fixpoint scan_back_loop (full_text : text) (n : nat) : option (option nat) :=
  match n with
  | 0 => Some None
  | S scan_idx =>
      c <- nth_error full_text scan_idx ;;
      if negb (Ascii.eqb c REPLACEMENT_CHAR_PIPE) then Some (Some scan_idx)
      else scan_back_loop full_text scan_idx
  end.

Definition presumptive_dollar_rel_of (block_text : text) (second_rel : nat) : Z :=
  let presumptive_dollar_rel := (Z.of_nat second_rel - 44)%Z in
  if (presumptive_dollar_rel <? 0)%Z then
    let search_left_rel := Z.max 0 (Z.of_nat second_rel - 80) in
    match Py.rfind block_text (txt "$") (Z.to_nat search_left_rel) second_rel with
    | Some found => Z.of_nat found
    | None => Z.max 0 (Z.of_nat second_rel - 44)
    end
  else presumptive_dollar_rel.

(** The body of [for ent in session_tags_and_groups]: [Some None] is
    [continue], [Some (Some g)] appends [g] to [reconstructed]. *)
Definition reconstruct_one (full_text block_text : text) (block_start_abs : nat)
    (ent : Detected.t) : option (option Group.t) :=
  let tag_text := Detected.SessionTabGroupTag ent in
  let pos_rel_list := Detected.PositionsRelInBlock ent in
  if length pos_rel_list <? 2 then Some None
  else
    second_rel <- nth_error pos_rel_list 1 ;;
    let first_abs := Detected.TagFirstPosAbs ent in
    let group_spaced_start_abs :=
      first_abs + TAG_LENGTH_CHARS + ADVANCE_AFTER_TAG_TO_GROUP_START in
    let presumptive_dollar_rel := presumptive_dollar_rel_of block_text second_rel in
    let presumptive_dollar_abs :=
      (Z.of_nat block_start_abs + presumptive_dollar_rel)%Z in
    let scan_idx := (presumptive_dollar_abs - 1)%Z in
    group_spaced_end_abs <- scan_back_loop full_text (Z.to_nat (scan_idx + 1)) ;;
    match group_spaced_end_abs with
    | None => Some None
    | Some group_spaced_end_abs =>
        if (Z.of_nat group_spaced_start_abs <? 0)%Z
           || (group_spaced_end_abs <? group_spaced_start_abs)
        then Some None
        else
          let group_spaced_text :=
            Py.slice full_text group_spaced_start_abs (group_spaced_end_abs + 1) in
          let group_name := strip (every_other group_spaced_text) in
          Some (Some (Group.mk tag_text group_spaced_text group_name first_abs
                               group_spaced_start_abs group_spaced_end_abs))
    end.

Definition reconstruct_step (full_text block_text : text) (block_start_abs : nat)
    (reconstructed : list Group.t) (ent : Detected.t) : option (list Group.t) :=
  r <- reconstruct_one full_text block_text block_start_abs ent ;;
  match r with
  | None => Some reconstructed
  | Some g => Some (reconstructed ++ [g])
  end.

(** Lines 241-306: the value of [session_tags_and_groups] after the
    [if session_tab_group_block_text:] statement. *)
Definition session_tags_and_groups_of (session_bytes : list byte)
    : option (list Group.t) :=
  let session_text_with_pipes := display session_bytes in
  let block_start_abs := block_start_abs_of session_bytes in
  let block_text := session_tab_group_block_text_of session_bytes in
  match block_text with
  | [] => Some []
  | _ =>
      detected <- detect_tags block_start_abs block_text ;;
      reconstructed <- foldM (reconstruct_step session_text_with_pipes block_text
                                               block_start_abs) detected [] ;;
      Some (sort_by Group.TagFirstPosAbs reconstructed)
  end.

(** ** Tag occurrence index (lines 308-315) *)

Definition index_step (full_text : text) (tag_to_all_occurrences : list (text * list nat))
    (ent : Group.t) : option (list (text * list nat)) :=
  let tag := Group.SessionTabGroupTag ent in
  all_positions <- find_non_overlapping_positions_in_text full_text tag ;;
  Some (Dict.set text_eqb tag (sort_by (fun p => p) all_positions)
                 tag_to_all_occurrences).

Definition tag_to_all_occurrences_of (session_text_with_pipes : text)
    (session_tags_and_groups : list Group.t) : option (list (text * list nat)) :=
  match session_tags_and_groups, session_text_with_pipes with
  | _ :: _, _ :: _ =>
      foldM (index_step session_text_with_pipes) session_tags_and_groups []
  | _, _ => Some []
  end.

(** ** Interleaved-URL confirmer (lines 317-356) *)

Definition any_simple_url_between (position_a position_b : nat)
    (url_list : list (nat * nat * text)) : bool :=
  existsb (fun '(s, _, _) => (position_a <? s) && (s <? position_b)) url_list.

(** How one pass through the body of [for attempt in range(2)] ends. *)
Inductive attempt_outcome :=
| Break
| Continue
| Matched (r : Confirmed.t).

(** The body of the attempt loop: the new [candidate_url] and how the pass
    ended. *)
Definition attempt_body (session_text_with_pipes : text)
    (simple_url_matches : list (nat * nat * text))
    (s e : nat) (raw_url : text) (attempt : nat) (candidate_url : text)
    : text * attempt_outcome :=
  let candidate_url :=
    if attempt =? 1 then
      if 1 <? length candidate_url then removelast candidate_url else []
    else candidate_url in
  match candidate_url with
  | [] => (candidate_url, Break)
  | _ =>
      let interleaved := build_pipe_interleaved_text_for_url candidate_url in
      match Py.find session_text_with_pipes interleaved e with
      | None => (candidate_url, Continue)
      | Some interleaved_idx =>
          if any_simple_url_between e interleaved_idx simple_url_matches
          then (candidate_url, Continue)
          else (candidate_url,
                Matched (Confirmed.mk s e candidate_url interleaved_idx
                           (interleaved_idx + length interleaved) raw_url))
      end
  end.

Fixpoint attempt_loop (session_text_with_pipes : text)
    (simple_url_matches : list (nat * nat * text))
    (s e : nat) (raw_url : text) (attempts : list nat) (candidate_url : text)
    : option Confirmed.t :=
  match attempts with
  | [] => None
  | attempt :: rest =>
      match attempt_body session_text_with_pipes simple_url_matches
                         s e raw_url attempt candidate_url with
      | (_, Break) => None
      | (candidate_url, Continue) =>
          attempt_loop session_text_with_pipes simple_url_matches
                       s e raw_url rest candidate_url
      | (_, Matched r) => Some r
      end
  end.

(** The record appended for the simple URL [(s, e, raw_url)], if any. *)
Definition confirm_url (session_text_with_pipes : text)
    (simple_url_matches : list (nat * nat * text))
    (m : nat * nat * text) : option Confirmed.t :=
  let '(s, e, raw_url) := m in
  attempt_loop session_text_with_pipes simple_url_matches s e raw_url
               (seq 0 2) raw_url.

Definition option_to_list {A : Type} (o : option A) : list A :=
  match o with
  | Some a => [a]
  | None => []
  end.

Definition confirmed_interleaved_records_of (session_text_with_pipes : text)
    : list Confirmed.t :=
  let simple_url_matches := url_finditer session_text_with_pipes in
  sort_by Confirmed.interleaved_start
    (flat_map (fun m => option_to_list
                 (confirm_url session_text_with_pipes simple_url_matches m))
              simple_url_matches).

(** ** Assignment engine, step A (lines 358-387) *)

Definition combined_tag_occurrences_all_of
    (tag_to_all_occurrences : list (text * list nat)) : list (nat * text) :=
  sort_by fst
    (flat_map (fun '(tag, occ_list) => map (fun pos => (pos, tag)) occ_list)
              tag_to_all_occurrences).

(** The guard [idx < len(combined_positions)] makes both index expressions
    succeed, the two lists being projections of one list. *)
Definition find_first_tag_occurrence_after_abs_bisect
    (combined_positions : list nat) (combined_tags : list text)
    (position_abs : nat) : option (nat * text) :=
  let idx := bisect_right combined_positions position_abs in
  if idx <? length combined_positions then
    match nth_error combined_positions idx, nth_error combined_tags idx with
    | Some pos, Some tag => Some (pos, tag)
    | _, _ => None
    end
  else None.

(** [d.setdefault(key, []).append(x)] *)
Fixpoint setdefault_append {V : Type} (key : text * nat) (x : V)
    (d : list (text * nat * list V)) : list (text * nat * list V) :=
  match d with
  | [] => [(key, [x])]
  | (k, v) :: d' =>
      if key_eqb k key then (k, v ++ [x]) :: d'
      else (k, v) :: setdefault_append key x d'
  end.

Definition assign_step (combined_positions : list nat) (combined_tags : list text)
    (tag_occurrence_to_assigned_urls : list (text * nat * list Assigned.t))
    (r : Confirmed.t) : list (text * nat * list Assigned.t) :=
  match find_first_tag_occurrence_after_abs_bisect combined_positions combined_tags
          (Confirmed.interleaved_end r) with
  | None => tag_occurrence_to_assigned_urls
  | Some (tag_pos, tag_text) =>
      let key := (tag_text, tag_pos) in
      setdefault_append key
        (Assigned.mk (Confirmed.simple_start r) (Confirmed.simple_end r)
                     (Confirmed.canonical_url_used r)
                     (Confirmed.raw_url_original r))
        tag_occurrence_to_assigned_urls
  end.

Definition tag_occurrence_to_assigned_urls_of
    (tag_to_all_occurrences : list (text * list nat))
    (confirmed_interleaved_records : list Confirmed.t)
    : list (text * nat * list Assigned.t) :=
  let combined_tag_occurrences_all :=
    combined_tag_occurrences_all_of tag_to_all_occurrences in
  let combined_positions := map fst combined_tag_occurrences_all in
  let combined_tags := map snd combined_tag_occurrences_all in
  fold_left (assign_step combined_positions combined_tags)
            confirmed_interleaved_records [].

(** ** Assignment engine, step B (lines 389-399) *)

Definition eligible_of_tag (tag_to_all_occurrences : list (text * list nat))
    (ent : Group.t) : option (list (nat * text)) :=
  let tag := Group.SessionTabGroupTag ent in
  let occs := Dict.get text_eqb tag tag_to_all_occurrences [] in
  if 5 <=? length occs then
    fifth_pos <- nth_error occs 4 ;;
    let occs_after_or_equal_5th := filter (fun p => fifth_pos <=? p) occs in
    Some (map (fun p => (p, tag)) occs_after_or_equal_5th)
  else Some [].

Definition eligible_step (tag_to_all_occurrences : list (text * list nat))
    (combined_tag_occurrence_list : list (nat * text)) (ent : Group.t)
    : option (list (nat * text)) :=
  l <- eligible_of_tag tag_to_all_occurrences ent ;;
  Some (combined_tag_occurrence_list ++ l).

Definition combined_tag_occurrence_list_of
    (tag_to_all_occurrences : list (text * list nat))
    (session_tags_and_groups : list Group.t) : option (list (nat * text)) :=
  l <- foldM (eligible_step tag_to_all_occurrences) session_tags_and_groups [] ;;
  Some (sort_by fst l).

(** ** Tabs cross-confirmer (lines 429-453) *)

Definition Ungrouped : text := txt "Ungrouped".

Definition final_group_name_of (tabs_text_with_pipes : text)
    (tentative_group_name canonical_url_used : text) : text :=
  match tabs_text_with_pipes with
  | [] => tentative_group_name
  | _ =>
      match Py.find tabs_text_with_pipes canonical_url_used 0 with
      | Some tab_index =>
          let last_url_before :=
            last (map Some (url_finditer (firstn tab_index tabs_text_with_pipes)))
                 None in
          let interleaved_group :=
            build_pipe_interleaved_text_for_group_name tentative_group_name in
          match Py.rfind tabs_text_with_pipes interleaved_group 0 tab_index with
          | Some last_group_interleaved_pos =>
              match last_url_before with
              | None => tentative_group_name
              | Some (m_start, _, _) =>
                  if m_start <? last_group_interleaved_pos
                  then tentative_group_name
                  else Ungrouped
              end
          | None =>
              match last_url_before with
              | Some _ => Ungrouped
              | None => tentative_group_name
              end
          end
      | None => tentative_group_name
      end
  end.

(** ** Assignment engine, step C (lines 401-485) *)

Record LoopState := mkLoop {
  consecutive_empty_count_by_tag : list (text * nat);
  finished_tags : list text;
  produced_rows : list Row.t;
  prev_accepted_tag_end_pos : option nat;
  first_row_written : bool
}.

Section StepC.
Variable session_text_with_pipes : text.
Variable tabs_text_with_pipes : text.
Variable tag_to_groupname : list (text * text).
Variable tag_occurrence_to_assigned_urls : list (text * nat * list Assigned.t).

Definition make_row (final_group_name tag_text : text)
    (occ_pos tag_end_pos : nat) (a : Assigned.t) : Row.t :=
  Row.mk final_group_name (Assigned.canonical_url_used a)
    (Assigned.raw_url_original a)
    (match session_text_with_pipes with
     | [] => []
     | _ => firstn URL_RIGHTCONTEXT_MAX_CHARS
              (Py.slice session_text_with_pipes (Assigned.u_start a) occ_pos)
     end)
    tag_text occ_pos tag_end_pos (Assigned.u_start a) (Assigned.u_end a).

(** The body of [for (u_start, ...) in assigned_for_occ_sorted].  Comparing
    [u_start] with a [prev_accepted_tag_end_pos] that is still [None]
    raises [TypeError]. *)
Definition url_step (tag_text : text) (occ_pos tag_end_pos : nat)
    (st : LoopState) (a : Assigned.t) : option LoopState :=
  let tentative_group_name := Dict.get text_eqb tag_text tag_to_groupname [] in
  let final_group_name :=
    final_group_name_of tabs_text_with_pipes tentative_group_name
                        (Assigned.canonical_url_used a) in
  let row := make_row final_group_name tag_text occ_pos tag_end_pos a in
  if negb (first_row_written st) then
    Some (mkLoop (consecutive_empty_count_by_tag st) (finished_tags st)
                 (produced_rows st ++ [row]) (Some tag_end_pos) true)
  else
    prev <- prev_accepted_tag_end_pos st ;;
    if prev <? Assigned.u_start a then
      Some (mkLoop (consecutive_empty_count_by_tag st) (finished_tags st)
                   (produced_rows st ++ [row]) (Some tag_end_pos)
                   (first_row_written st))
    else Some st.

(** The body of [for (occ_pos, tag_text) in combined_tag_occurrence_list].
    [consecutive_empty_count_by_tag[tag_text] += 1] raises [KeyError] on a
    tag that is not a key. *)
Definition occ_step (st : LoopState) (occ : nat * text) : option LoopState :=
  let '(occ_pos, tag_text) := occ in
  if existsb (text_eqb tag_text) (finished_tags st) then Some st
  else
    let key := (tag_text, occ_pos) in
    let assigned_for_occ := Dict.get key_eqb key tag_occurrence_to_assigned_urls [] in
    match assigned_for_occ with
    | [] =>
        count <- Dict.lookup text_eqb tag_text (consecutive_empty_count_by_tag st) ;;
        let counts := Dict.set text_eqb tag_text (count + 1)
                               (consecutive_empty_count_by_tag st) in
        let finished :=
          if 2 <=? count + 1 then tag_text :: finished_tags st
          else finished_tags st in
        Some (mkLoop counts finished (produced_rows st)
                     (prev_accepted_tag_end_pos st) (first_row_written st))
    | _ =>
        let counts := Dict.set text_eqb tag_text 0
                               (consecutive_empty_count_by_tag st) in
        let tag_end_pos := occ_pos + length tag_text in
        let assigned_for_occ_sorted := sort_by Assigned.u_start assigned_for_occ in
        foldM (url_step tag_text occ_pos tag_end_pos) assigned_for_occ_sorted
              (mkLoop counts (finished_tags st) (produced_rows st)
                      (prev_accepted_tag_end_pos st) (first_row_written st))
    end.

Definition run_occurrences (occs : list (nat * text)) (st : LoopState)
    : option LoopState :=
  foldM occ_step occs st.
End StepC.

(** [{ent["SessionTabGroupTag"]: f(ent) for ent in session_tags_and_groups}] *)
Definition dict_comprehension {V : Type} (f : Group.t -> V)
    (session_tags_and_groups : list Group.t) : list (text * V) :=
  fold_left (fun d ent => Dict.set text_eqb (Group.SessionTabGroupTag ent) (f ent) d)
            session_tags_and_groups [].

Definition initial_state (session_tags_and_groups : list Group.t) : LoopState :=
  mkLoop (dict_comprehension (fun _ => 0) session_tags_and_groups) [] [] None false.

(** ** The core of [main]: from the two buffers to the catalogue and the rows *)

Record Output := mkOutput {
  out_session_tags_and_groups : list Group.t;
  out_produced_rows : list Row.t
}.

Definition main_core (session_bytes : list byte) (tabs_bytes : option (list byte))
    : option Output :=
  let session_text_with_pipes := display session_bytes in
  let tabs_text_with_pipes :=
    match tabs_bytes with
    | Some b => display b
    | None => []
    end in
  session_tags_and_groups <- session_tags_and_groups_of session_bytes ;;
  tag_to_all_occurrences <-
    tag_to_all_occurrences_of session_text_with_pipes session_tags_and_groups ;;
  let confirmed_interleaved_records :=
    confirmed_interleaved_records_of session_text_with_pipes in
  let tag_occurrence_to_assigned_urls :=
    tag_occurrence_to_assigned_urls_of tag_to_all_occurrences
                                       confirmed_interleaved_records in
  combined_tag_occurrence_list <-
    combined_tag_occurrence_list_of tag_to_all_occurrences session_tags_and_groups ;;
  let tag_to_groupname :=
    dict_comprehension Group.SessionTabGroup session_tags_and_groups in
  final <- run_occurrences session_text_with_pipes tabs_text_with_pipes
             tag_to_groupname tag_occurrence_to_assigned_urls
             combined_tag_occurrence_list
             (initial_state session_tags_and_groups) ;;
  Some (mkOutput session_tags_and_groups (produced_rows final)).

(** ** File name sanitiser (lines 120-127) *)

(** A file name is a [str] that need not be display text: it is modelled by
    its code points. *)
Definition ustr := list nat.

Definition ustr_of (s : string) : ustr := map nat_of_ascii (txt s).

(** The character class of the pattern: [<], [>], [:], the double quote (34),
    [/], the backslash, [|], [?], [*], the line feed (10), the carriage
    return (13) and the tab (9). *)
Definition illegal_filename_char (c : nat) : bool :=
  existsb (Nat.eqb c) (ustr_of "<>:/\|?*" ++ [34; 10; 13; 9]).

(** [re.sub(pattern, '_', s)], the pattern being one or more characters of
    the class: every maximal run of characters of the class becomes one
    underscore.  [in_run] tells that the character
    before the head of [s] was of the class. *)
Fixpoint sub_illegal_runs (in_run : bool) (s : ustr) : ustr :=
  match s with
  | [] => []
  | c :: s' =>
      if illegal_filename_char c then
        if in_run then sub_illegal_runs true s'
        else nat_of_ascii "_" :: sub_illegal_runs true s'
      else c :: sub_illegal_runs false s'
  end.

Definition sanitize_filename_component (s : ustr) : ustr :=
  match s with
  | [] => ustr_of "empty"
  | _ => firstn 200 (sub_illegal_runs false s)
  end.

(** ** Bookmark titles (lines 140-161) *)

Fixpoint take_while {A : Type} (p : A -> bool) (l : list A) : list A :=
  match l with
  | [] => []
  | x :: l' => if p x then x :: take_while p l' else []
  end.

(** [t.split(sep)] with a one-character separator. *)
Fixpoint split_on (sep : ascii) (t : text) : list text :=
  match t with
  | [] => [[]]
  | c :: t' =>
      if Ascii.eqb c sep then [] :: split_on sep t'
      else match split_on sep t' with
           | p :: ps => (c :: p) :: ps
           | [] => [[c]]
           end
  end.

Definition LINE_FEED : ascii := ascii_of_nat 10.

(** [re.match(pattern, u, re.IGNORECASE)] with the pattern of line 146: the
    scheme [http://] or [https://], a first group of one or more characters
    other than [/], and an optional second group of a [/] and any characters
    other than the line feed.  The result is the pair of [group(1)] and
    [group(2)], the latter [None] when the optional group took no part in the
    match.  Both groups are greedy: the first takes the longest run without a
    slash, the second runs up to the first line feed. *)
Definition title_regex_match (u : text) : option (text * option text) :=
  let scheme :=
    if startswith_ignorecase (txt "https://") u then Some 8
    else if startswith_ignorecase (txt "http://") u then Some 7
    else None in
  match scheme with
  | None => None
  | Some k =>
      let rest := skipn k u in
      let domain := take_while (fun c => negb (Ascii.eqb c "/")) rest in
      match domain with
      | [] => None
      | _ =>
          match skipn (length domain) rest with
          | c :: after =>
              Some (domain,
                    Some (c :: take_while (fun c => negb (Ascii.eqb c LINE_FEED))
                                          after))
          | [] => Some (domain, None)
          end
      end
  end.

(** No statement of the [try] block raises on a [str], so the handler
    [except Exception: return u] is never entered. *)
Definition make_bookmark_title_from_url (u : text) : text :=
  match title_regex_match u with
  | None => u
  | Some (domain, group2) =>
      let path := match group2 with Some p => p | None => [] end in
      let last_segment :=
        match path with
        | [] => []
        | _ =>
            let parts :=
              filter (fun p => negb (Nat.eqb (length p) 0)) (split_on "/" path) in
            match parts with
            | [] => []
            | _ =>
                let last_seg := last parts [] in
                if 1 <? length last_seg then "/"%char :: last_seg else []
            end
        end in
      let title := domain ++ last_segment in
      match title with
      | [] => u
      | _ => title
      end
  end.

(** ** Bookmarks file (lines 553-589) *)

Definition DOUBLE_QUOTE : ascii := ascii_of_nat 34.

(** [s.replace(old, new)] with a one-character [old]. *)
Definition replace_char (old : ascii) (new : text) (s : text) : text :=
  flat_map (fun c => if Ascii.eqb c old then new else [c]) s.

(** [html.escape(s, quote=True)] as the standard library defines it: five
    replacements in a row, the ampersand first. *)
Definition html_escape (s : text) : text :=
  let s := replace_char "&" (txt "&amp;") s in
  let s := replace_char "<" (txt "&lt;") s in
  let s := replace_char ">" (txt "&gt;") s in
  let s := replace_char DOUBLE_QUOTE (txt "&quot;") s in
  replace_char "'" (txt "&#x27;") s.

(** [groups_to_urls.setdefault(grp, []).append(url)] *)
Fixpoint group_append (grp url : text) (groups_to_urls : list (text * list text))
    : list (text * list text) :=
  match groups_to_urls with
  | [] => [(grp, [url])]
  | (k, v) :: d' =>
      if text_eqb k grp then (k, v ++ [url]) :: d'
      else (k, v) :: group_append grp url d'
  end.

(** [groups_to_urls.setdefault(grp, [])] *)
Fixpoint setdefault_empty (grp : text) (groups_to_urls : list (text * list text))
    : list (text * list text) :=
  match groups_to_urls with
  | [] => [(grp, [])]
  | (k, v) :: d' =>
      if text_eqb k grp then (k, v) :: d'
      else (k, v) :: setdefault_empty grp d'
  end.

(** [grp] of the row [r]: its group name, or ["Ungrouped"] for the empty one. *)
Definition grp_of_row (r : Row.t) : text :=
  match Row.SessionTabGroup r with
  | [] => Ungrouped
  | _ => Row.SessionTabGroup r
  end.

Definition groups_to_urls_of (produced_rows : list Row.t)
    : list (text * list text) :=
  setdefault_empty Ungrouped
    (fold_left (fun groups_to_urls r =>
                  group_append (grp_of_row r) (Row.URL r) groups_to_urls)
               produced_rows []).

(** The order of [str]: code point by code point, a proper prefix first. *)
Fixpoint text_leb (a b : text) : bool :=
  match a, b with
  | [], _ => true
  | _ :: _, [] => false
  | x :: a', y :: b' =>
      if nat_of_ascii x <? nat_of_ascii y then true
      else if nat_of_ascii y <? nat_of_ascii x then false
      else text_leb a' b'
  end.

Fixpoint insert_text (x : text) (l : list text) : list text :=
  match l with
  | [] => [x]
  | y :: l' => if text_leb x y then x :: y :: l' else y :: insert_text x l'
  end.

(** [sorted(keys)] for a list of [str]. *)
Fixpoint sorted_texts (l : list text) : list text :=
  match l with
  | [] => []
  | x :: l' => insert_text x (sorted_texts l')
  end.

(** The URLs the loop over [groups_to_urls[grp]] writes, [seen] being the set
    of those met before. *)
Fixpoint unseen_urls (seen urls : list text) : list text :=
  match urls with
  | [] => []
  | url :: rest =>
      if existsb (text_eqb url) seen then unseen_urls seen rest
      else url :: unseen_urls (url :: seen) rest
  end.

Definition bookmark_line (url : text) : text :=
  txt "            <DT><A HREF=" ++ [DOUBLE_QUOTE] ++ html_escape url
  ++ [DOUBLE_QUOTE] ++ txt ">" ++ html_escape (make_bookmark_title_from_url url)
  ++ txt "</A>".

(** The lines one pass of the loop over the sorted group names appends. *)
Definition group_lines (grp : text) (urls : list text) : list text :=
  [txt "        <DT><H3>" ++ html_escape grp ++ txt "</H3>";
   txt "        <DL><p>"]
  ++ map bookmark_line (unseen_urls [] urls)
  ++ [txt "        </DL><p>"].

(** The list [lines]; [generated_comment] is the comment line with the
    version and the time of the run, [parent_folder_name] the name of the
    output folder. *)
Definition bookmark_lines (generated_comment parent_folder_name : text)
    (produced_rows : list Row.t) : list text :=
  let groups_to_urls := groups_to_urls_of produced_rows in
  [txt "<!DOCTYPE NETSCAPE-Bookmark-file-1>";
   generated_comment;
   txt "<META HTTP-EQUIV=" ++ [DOUBLE_QUOTE] ++ txt "Content-Type"
   ++ [DOUBLE_QUOTE] ++ txt " CONTENT=" ++ [DOUBLE_QUOTE]
   ++ txt "text/html; charset=UTF-8" ++ [DOUBLE_QUOTE] ++ txt ">";
   txt "<TITLE>Bookmarks</TITLE>";
   txt "<H1>Bookmarks</H1>";
   txt "<DL><p>";
   txt "    <DT><H3>" ++ html_escape parent_folder_name ++ txt "</H3>";
   txt "    <DL><p>"]
  ++ flat_map (fun grp => group_lines grp (Dict.get text_eqb grp groups_to_urls []))
              (sorted_texts (map fst groups_to_urls))
  ++ [txt "    </DL><p>"; txt "</DL><p>"].

(** ** Predicates used to state the properties *)

(** The list a left-to-right scan for [sub] yields when it starts at [start]
    and resumes behind each hit. *)
Inductive greedy {A : Type} `{Eqb A} (s sub : list A) : nat -> list nat -> Prop :=
| greedy_stop start :
    Py.find s sub start = None -> greedy s sub start []
| greedy_hit start found l :
    Py.find s sub start = Some found ->
    greedy s sub (found + length sub) l ->
    greedy s sub start (found :: l).

(** Every offset is at least [lo] and each one is at least [L] beyond the one
    before it. *)
Fixpoint spaced (L lo : nat) (l : list nat) : Prop :=
  match l with
  | [] => True
  | p :: l' => lo <= p /\ spaced L (p + L) l'
  end.

(** No two offsets of the list overlap as occurrences of a string of length
    [L]: an earlier entry ends before a later one begins. *)
Definition non_overlapping (L : nat) (l : list nat) : Prop :=
  forall i j a b, i < j -> nth_error l i = Some a -> nth_error l j = Some b ->
                  a + L <= b.

(** [candidate] is the 19-character string read at an offset of the block
    the detector visits, and it begins with three sentinels. *)
Definition tag_candidate_at (block_text : text) (rel_pos : nat) (candidate : text)
    : Prop :=
  In rel_pos (detect_range block_text)
  /\ Py.slice block_text rel_pos (rel_pos + 3) = repeat REPLACEMENT_CHAR_PIPE 3
  /\ candidate = Py.slice block_text rel_pos (rel_pos + TAG_LENGTH_CHARS).

(** [candidate] is the tag of an entry the detector appended. *)
Definition accepted (detected : list Detected.t) (candidate : text) : Prop :=
  exists d, In d detected /\ Detected.SessionTabGroupTag d = candidate.

(** [candidate] has [n] non-overlapping occurrences in the block. *)
Definition occurrence_count (block_text candidate : text) (n : nat) : Prop :=
  exists pos_list_rel,
    find_non_overlapping_positions_in_text block_text candidate = Some pos_list_rel
    /\ length pos_list_rel = n.

(** What an appended entry records. *)
Definition detected_ok (block_start_abs : nat) (block_text : text) (d : Detected.t)
    : Prop :=
  (exists rel_pos, tag_candidate_at block_text rel_pos (Detected.SessionTabGroupTag d))
  /\ find_non_overlapping_positions_in_text block_text (Detected.SessionTabGroupTag d)
     = Some (Detected.PositionsRelInBlock d)
  /\ length (Detected.PositionsRelInBlock d) = REPEAT_COUNT_REQUIRED
  /\ exists first_rel, nth_error (Detected.PositionsRelInBlock d) 0 = Some first_rel
                       /\ Detected.TagFirstPosAbs d = block_start_abs + first_rel.

(** Invariant of the detector's loop. *)
Definition detect_inv (block_start_abs : nat) (block_text : text)
    (st : list text * list Detected.t) : Prop :=
  (forall d, In d (snd st) ->
             In (Detected.SessionTabGroupTag d) (fst st)
             /\ detected_ok block_start_abs block_text d)
  /\ (forall c, In c (fst st) ->
                occurrence_count block_text c REPEAT_COUNT_REQUIRED ->
                accepted (snd st) c).

(** No occurrence of [sub] in [s] begins before offset [b] and ends after
    it. *)
Definition no_straddle (s sub : text) (b : nat) : Prop :=
  forall j, Py.occurs_at sub s j = true -> j < b -> j + length sub <= b.

Definition strictly_ascending (l : list nat) : Prop :=
  forall i j a b, i < j -> nth_error l i = Some a -> nth_error l j = Some b ->
                  a < b.

(** Every block-relative occurrence of the entry reappears, shifted by the
    block start, in the list [occs]. *)
Definition index_covers_block (session_bytes : list byte) (d : Detected.t)
    (occs : list nat) : Prop :=
  forall p, In p (Detected.PositionsRelInBlock d) ->
            In (block_start_abs_of session_bytes + p) occs.

(** The list the index holds for [tag]: [sorted(all_positions)]. *)
Definition index_list_of (full_text tag : text) : option (list nat) :=
  all_positions <- find_non_overlapping_positions_in_text full_text tag ;;
  Some (sort_by (fun p => p) all_positions).

(** The interleaved form in the words of the specification: a sentinel before
    every character, and one more behind the last. *)
Definition interleaved_form (t : text) : text :=
  flat_map (fun c => [REPLACEMENT_CHAR_PIPE; c]) t ++ [REPLACEMENT_CHAR_PIPE].

(** One try of the confirmer succeeds with the interleaved twin at [idx]: the
    search from the candidate's end offset [e] finds it there, and no URL
    candidate starts strictly between [e] and [idx]. *)
Definition try_succeeds (full_text : text) (url_list : list (nat * nat * text))
    (e : nat) (candidate_url : text) (idx : nat) : Prop :=
  Py.find full_text (interleaved_form candidate_url) e = Some idx
  /\ forall s' e' raw', In (s', e', raw') url_list -> ~ (e < s' /\ s' < idx).

Definition try_fails (full_text : text) (url_list : list (nat * nat * text))
    (e : nat) (candidate_url : text) : Prop :=
  forall idx, ~ try_succeeds full_text url_list e candidate_url idx.

(** The confirmer's result for the candidate [(s, e, raw_url)], as the
    specification words it. *)
Inductive confirms (full_text : text) (url_list : list (nat * nat * text))
    (s e : nat) (raw_url : text) : option Confirmed.t -> Prop :=
| confirms_full idx :
    try_succeeds full_text url_list e raw_url idx ->
    confirms full_text url_list s e raw_url
      (Some (Confirmed.mk s e raw_url idx
               (idx + length (interleaved_form raw_url)) raw_url))
| confirms_trimmed idx :
    try_fails full_text url_list e raw_url ->
    1 < length raw_url ->
    try_succeeds full_text url_list e (removelast raw_url) idx ->
    confirms full_text url_list s e raw_url
      (Some (Confirmed.mk s e (removelast raw_url) idx
               (idx + length (interleaved_form (removelast raw_url))) raw_url))
| confirms_none :
    try_fails full_text url_list e raw_url ->
    (1 < length raw_url ->
     try_fails full_text url_list e (removelast raw_url)) ->
    confirms full_text url_list s e raw_url None.

(** The presumptive marker offset in the words of the specification:
    [second_rel - 44]; only when that is negative, the nearest ['$'] before
    [second_rel] inside the window of 80 characters, and [max(0, second_rel - 44)]
    when the window holds none. *)
Definition marker_offset_spec (block_text : text) (second_rel : nat) (marker : Z)
    : Prop :=
  let dollar := "$"%char in
  (0 <= Z.of_nat second_rel - 44 /\ marker = Z.of_nat second_rel - 44)%Z
  \/ ((Z.of_nat second_rel - 44 < 0)%Z
      /\ ((exists found,
             marker = Z.of_nat found
             /\ (Z.max 0 (Z.of_nat second_rel - 80) <= Z.of_nat found)%Z
             /\ found < second_rel
             /\ nth_error block_text found = Some dollar
             /\ forall j, found < j -> j < second_rel ->
                          nth_error block_text j <> Some dollar)
          \/ ((forall j, (Z.max 0 (Z.of_nat second_rel - 80) <= Z.of_nat j)%Z ->
                         j < second_rel ->
                         nth_error block_text j <> Some dollar)
              /\ marker = Z.max 0 (Z.of_nat second_rel - 44)))).

(** [group_end] is the first offset below [dollar_abs], scanning backward,
    whose character is not the sentinel. *)
Definition group_end_spec (full_text : text) (dollar_abs : Z) (group_end : nat)
    : Prop :=
  (Z.of_nat group_end < dollar_abs)%Z
  /\ (exists c, nth_error full_text group_end = Some c
                /\ c <> REPLACEMENT_CHAR_PIPE)
  /\ forall k, group_end < k -> (Z.of_nat k < dollar_abs)%Z ->
               nth_error full_text k = Some REPLACEMENT_CHAR_PIPE.

(** [u] holds the characters of [t] at the even indices. *)
Definition even_chars_of (t u : text) : Prop :=
  forall k, nth_error u k = nth_error t (2 * k).

(** [u] is [t] without its leading and trailing whitespace. *)
Definition trimmed_of (t u : text) : Prop :=
  exists l r, t = l ++ u ++ r
    /\ forallb py_isspace l = true /\ forallb py_isspace r = true
    /\ (forall c, hd_error u = Some c -> py_isspace c = false)
    /\ (forall c, hd_error (rev u) = Some c -> py_isspace c = false).

(** The group name in the words of the specification. *)
Definition group_name_spec (group_spaced_text group_name : text) : Prop :=
  exists evens, even_chars_of group_spaced_text evens /\ trimmed_of evens group_name.

(** The row a URL assigned to the occurrence becomes when the gate lets it
    pass. *)
Definition candidate_row (session_text_with_pipes tabs_text_with_pipes : text)
    (tag_to_groupname : list (text * text))
    (tag_text : text) (occ_pos tag_end_pos : nat) (a : Assigned.t) : Row.t :=
  make_row session_text_with_pipes
    (final_group_name_of tabs_text_with_pipes
       (Dict.get text_eqb tag_text tag_to_groupname [])
       (Assigned.canonical_url_used a))
    tag_text occ_pos tag_end_pos a.

(** The row accepted last, if any. *)
Definition last_error {A : Type} (l : list A) : option A :=
  nth_error l (length l - 1).

(** Each row's URL starts beyond the tag end of the row emitted before it. *)
Definition monotone_rows (rows : list Row.t) : Prop :=
  forall i r r', nth_error rows i = Some r -> nth_error rows (S i) = Some r' ->
                 Row.TagEndPos r < Row.URL_StartPos r'.

(** The tracker of the gate agrees with the rows emitted so far. *)
Definition tracker_ok (st : LoopState) : Prop :=
  match last_error (produced_rows st) with
  | None => first_row_written st = false
  | Some r => first_row_written st = true
              /\ prev_accepted_tag_end_pos st = Some (Row.TagEndPos r)
  end.

(** The order of two rows [r], [r'] with [r] emitted first. *)
Definition row_before (r r' : Row.t) : Prop :=
  Row.TagOccurrencePos r <= Row.TagOccurrencePos r'
  /\ Row.URL_StartPos r < Row.URL_StartPos r'.

(** Invariant of step C, with [lo] a lower bound of the offsets of the
    occurrences still to come. *)
Definition rows_inv (lo : nat) (st : LoopState) : Prop :=
  tracker_ok st
  /\ (forall r p, In r (produced_rows st) ->
                  prev_accepted_tag_end_pos st = Some p -> Row.URL_StartPos r < p)
  /\ (forall r, In r (produced_rows st) -> Row.TagOccurrencePos r <= lo)
  /\ StronglySorted row_before (produced_rows st)
  /\ monotone_rows (produced_rows st)
  /\ (forall r, In r (produced_rows st) ->
                Row.TagEndPos r = Row.TagOccurrencePos r + length (Row.TagText r)).

(** Every URL assigned to an occurrence starts before that occurrence. *)
Definition assigned_before
    (tag_occurrence_to_assigned_urls : list (text * nat * list Assigned.t)) : Prop :=
  forall key a,
    In a (Dict.get key_eqb key tag_occurrence_to_assigned_urls []) ->
    Assigned.u_start a < snd key.

Definition has_key (tag : text) (counts : list (text * nat)) : Prop :=
  exists c, Dict.lookup text_eqb tag counts = Some c.

(** [st'] extends the rows of [st] by rows that all carry a tag other than
    [tag]. *)
Definition no_new_rows_of (tag : text) (st st' : LoopState) : Prop :=
  exists new_rows,
    produced_rows st' = produced_rows st ++ new_rows
    /\ forall r, In r new_rows -> Row.TagText r <> tag.

Definition is_finished (tag : text) (st : LoopState) : bool :=
  existsb (text_eqb tag) (finished_tags st).

(** The list is in non-decreasing order. *)
Definition sorted_nat (a : list nat) : Prop :=
  forall i j u v, i <= j -> nth_error a i = Some u -> nth_error a j = Some v -> u <= v.

(** Every value of the dictionary is a list of URLs that start before the
    occurrence of their key. *)
Definition all_values_before (d : list (text * nat * list Assigned.t)) : Prop :=
  forall k v a, In (k, v) d -> In a v -> Assigned.u_start a < snd k.

(** The test of [convert_single_byte_to_display_char]. *)
Definition printable (b : byte) : bool :=
  (32 <=? Byte.to_N b)%N && (Byte.to_N b <=? 126)%N.

(** The bytes a display text is written back as. *)
Definition encode_text (t : text) : list byte := map byte_of_ascii t.

(** What step A has established once the records [seen] are processed: the
    keys of the dictionary are distinct; every value is a non-empty list whose
    entries come from processed records that the lookup sends to the key; and
    every processed record the lookup sends somewhere is in the list of that
    key. *)
Definition assignment_inv (combined_positions : list nat) (combined_tags : list text)
    (seen : list Confirmed.t) (d : list (text * nat * list Assigned.t)) : Prop :=
  NoDup (map fst d)
  /\ (forall key v, In (key, v) d ->
        v <> []
        /\ forall a, In a v ->
             exists r, In r seen
               /\ a = Assigned.mk (Confirmed.simple_start r) (Confirmed.simple_end r)
                        (Confirmed.canonical_url_used r) (Confirmed.raw_url_original r)
               /\ find_first_tag_occurrence_after_abs_bisect
                    combined_positions combined_tags (Confirmed.interleaved_end r)
                  = Some (snd key, fst key))
  /\ (forall r pos tag, In r seen ->
        find_first_tag_occurrence_after_abs_bisect
          combined_positions combined_tags (Confirmed.interleaved_end r)
        = Some (pos, tag) ->
        exists v, In ((tag, pos), v) d
          /\ In (Assigned.mk (Confirmed.simple_start r) (Confirmed.simple_end r)
                   (Confirmed.canonical_url_used r) (Confirmed.raw_url_original r)) v).

(** The counters and the finished set of step C agree: no counter exceeds 2,
    a tag is finished exactly when its counter stands at 2, and the finished
    set holds no tag twice. *)
Definition counters_inv (st : LoopState) : Prop :=
  (forall tag c,
      Dict.lookup text_eqb tag (consecutive_empty_count_by_tag st) = Some c -> c <= 2)
  /\ (forall tag,
        In tag (finished_tags st)
        <-> Dict.lookup text_eqb tag (consecutive_empty_count_by_tag st) = Some 2)
  /\ NoDup (finished_tags st).

(** Where a row comes from: its tag occurrence is one of [occs], and its
    other fields are those [make_row] computes for a URL assigned to that
    occurrence. *)
Definition row_origin (session_text_with_pipes tabs_text_with_pipes : text)
    (tag_to_groupname : list (text * text))
    (tag_occurrence_to_assigned_urls : list (text * nat * list Assigned.t))
    (occs : list (nat * text)) (r : Row.t) : Prop :=
  In (Row.TagOccurrencePos r, Row.TagText r) occs
  /\ exists a,
       In a (Dict.get key_eqb (Row.TagText r, Row.TagOccurrencePos r)
               tag_occurrence_to_assigned_urls [])
       /\ r = make_row session_text_with_pipes
                (final_group_name_of tabs_text_with_pipes
                   (Dict.get text_eqb (Row.TagText r) tag_to_groupname [])
                   (Assigned.canonical_url_used a))
                (Row.TagText r) (Row.TagOccurrencePos r)
                (Row.TagOccurrencePos r + length (Row.TagText r)) a.

(** The evidence behind a row [r] of the output: its tag is a catalogued tag
    and occurs in the session text at the row's occurrence offset; its group
    name is the catalogued name or ["Ungrouped"], and the catalogued name when
    no tabs buffer is given; its raw URL is a URL candidate of the session
    text at the row's URL offsets; its URL is the raw URL, possibly without
    its last character; the interleaved form of the URL stands in the text
    between the candidate's end and the tag occurrence; and its right context
    is the text from the URL's start to the tag occurrence, cut to
    [URL_RIGHTCONTEXT_MAX_CHARS]. *)
Definition row_backed (session_bytes : list byte) (tabs_bytes : option (list byte))
    (out : Output) (r : Row.t) : Prop :=
  let session_text_with_pipes := display session_bytes in
  (exists g, In g (out_session_tags_and_groups out)
        /\ Group.SessionTabGroupTag g = Row.TagText r
        /\ (Row.SessionTabGroup r = Group.SessionTabGroup g
            \/ Row.SessionTabGroup r = Ungrouped)
        /\ (tabs_bytes = None -> Row.SessionTabGroup r = Group.SessionTabGroup g))
  /\ Py.occurs_at (Row.TagText r) session_text_with_pipes (Row.TagOccurrencePos r) = true
  /\ Row.TagEndPos r = Row.TagOccurrencePos r + length (Row.TagText r)
  /\ In (Row.URL_StartPos r, Row.URL_EndPos r, Row.URL_Raw r)
        (url_finditer session_text_with_pipes)
  /\ (Row.URL r = Row.URL_Raw r \/ Row.URL r = removelast (Row.URL_Raw r))
  /\ (exists interleaved_start,
        Row.URL_EndPos r <= interleaved_start
        /\ interleaved_start + length (interleaved_form (Row.URL r))
           < Row.TagOccurrencePos r
        /\ Py.slice session_text_with_pipes interleaved_start
             (interleaved_start + length (interleaved_form (Row.URL r)))
           = interleaved_form (Row.URL r))
  /\ Row.URL_RightContext r
     = firstn URL_RIGHTCONTEXT_MAX_CHARS
         (Py.slice session_text_with_pipes (Row.URL_StartPos r)
            (Row.TagOccurrencePos r)).

(** [u] begins, in any letter case, with the scheme of [k] characters. *)
Definition has_scheme (k : nat) (u : text) : Prop :=
  (k = 8 /\ startswith_ignorecase (txt "https://") u = true)
  \/ (k = 7 /\ startswith_ignorecase (txt "http://") u = true).

(** A row without its group name, and a loop state with the group names of
    its rows left out. *)
Definition row_without_group (r : Row.t)
    : text * text * text * text * nat * nat * nat * nat :=
  (Row.URL r, Row.URL_Raw r, Row.URL_RightContext r, Row.TagText r,
   Row.TagOccurrencePos r, Row.TagEndPos r, Row.URL_StartPos r, Row.URL_EndPos r).

Definition state_without_groups (st : LoopState)
    : list (text * nat) * list text
      * list (text * text * text * text * nat * nat * nat * nat)
      * option nat * bool :=
  (consecutive_empty_count_by_tag st, finished_tags st,
   map row_without_group (produced_rows st),
   prev_accepted_tag_end_pos st, first_row_written st).

(** The rows the occurrence loop considers, in the order in which it
    considers them, whatever the gate decides: an occurrence of a finished tag
    gives none; an occurrence without assigned URLs gives none and counts for
    its tag, which is finished at the second such occurrence in a row; an
    occurrence with assigned URLs gives one candidate row for each of them,
    in the order of their start offsets, and resets the counter. *)
Fixpoint candidate_rows (session_text_with_pipes tabs_text_with_pipes : text)
    (tag_to_groupname : list (text * text))
    (tag_occurrence_to_assigned_urls : list (text * nat * list Assigned.t))
    (occs : list (nat * text)) (counts : list (text * nat)) (finished : list text)
    : list Row.t :=
  match occs with
  | [] => []
  | (occ_pos, tag_text) :: rest =>
      if existsb (text_eqb tag_text) finished then
        candidate_rows session_text_with_pipes tabs_text_with_pipes tag_to_groupname
          tag_occurrence_to_assigned_urls rest counts finished
      else
        match Dict.get key_eqb (tag_text, occ_pos) tag_occurrence_to_assigned_urls []
        with
        | [] =>
            let count := Dict.get text_eqb tag_text counts 0 + 1 in
            candidate_rows session_text_with_pipes tabs_text_with_pipes
              tag_to_groupname tag_occurrence_to_assigned_urls rest
              (Dict.set text_eqb tag_text count counts)
              (if 2 <=? count then tag_text :: finished else finished)
        | assigned_for_occ =>
            map (candidate_row session_text_with_pipes tabs_text_with_pipes
                   tag_to_groupname tag_text occ_pos (occ_pos + length tag_text))
                (sort_by Assigned.u_start assigned_for_occ)
            ++ candidate_rows session_text_with_pipes tabs_text_with_pipes
                 tag_to_groupname tag_occurrence_to_assigned_urls rest
                 (Dict.set text_eqb tag_text 0 counts) finished
        end
  end.

(** The gate in the words of the specification, [prev_accepted] being the row
    accepted last: with no row accepted yet the candidate is emitted; after
    that it is emitted exactly when its URL start offset is strictly greater
    than the tag end offset of the row accepted last; a rejected candidate is
    dropped and the row accepted last stays what it was. *)
Fixpoint gate (prev_accepted : option Row.t) (candidates : list Row.t)
    : list Row.t :=
  match candidates with
  | [] => []
  | r :: rest =>
      match prev_accepted with
      | None => r :: gate (Some r) rest
      | Some p =>
          if Row.TagEndPos p <? Row.URL_StartPos r then r :: gate (Some r) rest
          else gate prev_accepted rest
      end
  end.

(** ** Sample buffers *)

(** A session buffer without ['}']: one tag five times in the block, the name
    region [G|r|p], and two URLs, each followed by its interleaved twin and a
    further occurrence of the tag. *)
Definition sample_tag : text := txt "|||GROUPONE_TAG_XXX".

Definition sample_session : list byte :=
  bytes_of
    ("|||GROUPONE_TAG_XXX||||G|r|p||||||||||||||||||||||||||||||||"
     ++ "|||||||||||||||GROUPONE_TAG_XXX|||GROUPONE_TAG_XXX|||GROUPON"
     ++ "E_TAG_XXX|||GROUPONE_TAG_XXXhttp://a.b/c|h|t|t|p|:|/|/|a|.|b"
     ++ "|/|c|||||GROUPONE_TAG_XXX|http://d.e/f|h|t|t|p|:|/|/|d|.|e|/"
     ++ "|f|||||GROUPONE_TAG_XXX")%string.

Definition sample_detected : Detected.t :=
  Detected.mk sample_tag [0; 72; 91; 110; 129] 0.

Definition sample_tabs : list byte :=
  bytes_of "http://q.q/ http://a.b/c |G|r|p|http://d.e/f".

(** A session buffer whose tag holds ['}'] and overlaps itself across the
    block start: the text begins with the first 16 characters of the tag and
    the tag follows at offset 16, the first ['}'] being at offset 3. *)
Definition straddling_tag : text := txt "|||}ABCDEFGHIJKL|||".

Definition straddling_session : list byte :=
  bytes_of
    ("|||}ABCDEFGHIJKL|||}ABCDEFGHIJKL|||||||N|a|m|e||||||||||||||"
     ++ "|||||||||||||||||||||||||||||||||}ABCDEFGHIJKL||||||}ABCDEFG"
     ++ "HIJKL||||||}ABCDEFGHIJKL||||||}ABCDEFGHIJKL|||http://x.y/z||"
     ++ "h|t|t|p|:|/|/|x|.|y|/|z||||||}ABCDEFGHIJKL|||||")%string.

Definition straddling_detected : Detected.t :=
  Detected.mk straddling_tag [12; 86; 105; 124; 143] 16.

(** A buffer whose first URL comes before its first ['}']. *)
Definition degenerate_session : list byte := bytes_of "xx http://a.b/c }|||".

(** The catalogue of [sample_session]. *)
Definition sample_groups : list Group.t :=
  Eval vm_compute in
    match session_tags_and_groups_of sample_session with
    | Some groups => groups
    | None => []
    end.

(** The rows the core emits for [sample_session] without a tabs buffer. *)
Definition sample_rows : list Row.t :=
  Eval vm_compute in
    match main_core sample_session None with
    | Some out => out_produced_rows out
    | None => []
    end.

(** A state of step C with one tag, its counter at zero. *)
Definition sample_state : LoopState :=
  mkLoop [(sample_tag, 0)] [] [] None false.

(** * Proofs *)

(** ** Searching *)

Section SearchFacts.
Context {A : Type} `{Eqb A}.
Implicit Types s sub t : list A.

Lemma startswith_app sub t :
  Py.startswith sub t = true <-> exists rest, t = sub ++ rest.
Proof.
  revert t; induction sub as [|x sub IH]; intros t; simpl.
  - split; [intros _; now exists t | reflexivity].
  - destruct t as [|y t].
    + split; [discriminate | intros [rest Hr]; discriminate].
    + rewrite andb_true_iff, elt_eqb_eq, IH. split.
      * intros [-> [rest ->]]. now exists rest.
      * intros [rest Hr]. injection Hr as -> ->. split; [reflexivity | now exists rest].
Qed.

Lemma startswith_length sub t :
  Py.startswith sub t = true -> length sub <= length t.
Proof.
  intros Hs. apply startswith_app in Hs as [rest ->].
  rewrite length_app. lia.
Qed.

Lemma occurs_at_bound sub s i :
  Py.occurs_at sub s i = true -> i + length sub <= length s.
Proof.
  unfold Py.occurs_at. rewrite andb_true_iff, Nat.leb_le.
  intros [Hi Hs]. apply startswith_length in Hs.
  rewrite length_skipn in Hs. lia.
Qed.

Lemma occurs_at_split sub s i :
  Py.occurs_at sub s i = true <->
  exists pre post, s = pre ++ sub ++ post /\ length pre = i.
Proof.
  unfold Py.occurs_at. rewrite andb_true_iff, Nat.leb_le, startswith_app. split.
  - intros [Hi [rest Hr]]. exists (firstn i s), rest. split.
    + rewrite <- Hr. symmetry. apply firstn_skipn.
    + apply firstn_length_le. exact Hi.
  - intros [pre [post [-> <-]]]. split.
    + rewrite length_app. lia.
    + exists post. rewrite skipn_app, Nat.sub_diag, skipn_all. reflexivity.
Qed.

Lemma find_in_some sub t i r :
  Py.find_in sub t i = Some r ->
  exists k, r = i + k /\ k <= length t
            /\ Py.startswith sub (skipn k t) = true
            /\ forall j, j < k -> Py.startswith sub (skipn j t) = false.
Proof.
  revert i; induction t as [|c t IH]; intros i; simpl.
  - destruct (Py.startswith sub []) eqn:E; [|discriminate].
    intros [= <-]. exists 0. repeat split; try lia. exact E.
  - destruct (Py.startswith sub (c :: t)) eqn:E.
    + intros [= <-]. exists 0. repeat split; try lia. exact E.
    + intros Hf. apply IH in Hf as [k [-> [Hk [Hs Hmin]]]].
      exists (S k). repeat split; try lia.
      * exact Hs.
      * intros [|j] Hj; [exact E | apply Hmin; lia].
Qed.

Lemma find_in_none sub t i :
  Py.find_in sub t i = None ->
  forall k, k <= length t -> Py.startswith sub (skipn k t) = false.
Proof.
  revert i; induction t as [|c t IH]; intros i; simpl.
  - destruct (Py.startswith sub []) eqn:E; [discriminate|].
    intros _ k Hk. replace k with 0 by lia. exact E.
  - destruct (Py.startswith sub (c :: t)) eqn:E; [discriminate|].
    intros Hf [|k] Hk; [exact E|]. simpl. eapply IH; [exact Hf | lia].
Qed.

Lemma occurs_at_skipn sub s start k :
  start <= length s ->
  Py.occurs_at sub s (start + k)
  = (k <=? length (skipn start s)) && Py.startswith sub (skipn k (skipn start s)).
Proof.
  intros Hs. unfold Py.occurs_at.
  rewrite skipn_skipn, length_skipn, (Nat.add_comm k start). f_equal.
  apply eq_true_iff_eq. rewrite !Nat.leb_le. lia.
Qed.

Lemma find_some s sub start r :
  Py.find s sub start = Some r ->
  start <= r /\ Py.occurs_at sub s r = true
  /\ forall j, start <= j -> j < r -> Py.occurs_at sub s j = false.
Proof.
  unfold Py.find. destruct (start <=? length s) eqn:E; [|discriminate].
  apply Nat.leb_le in E. intros Hf.
  apply find_in_some in Hf as [k [-> [Hk [Hs Hmin]]]].
  split; [lia|]. split.
  - rewrite occurs_at_skipn by exact E. rewrite Hs.
    apply andb_true_iff. split; [now apply Nat.leb_le | reflexivity].
  - intros j Hj1 Hj2. replace j with (start + (j - start)) by lia.
    rewrite occurs_at_skipn by exact E. rewrite Hmin by lia.
    apply andb_false_r.
Qed.

Lemma find_none s sub start :
  Py.find s sub start = None ->
  forall j, start <= j -> Py.occurs_at sub s j = false.
Proof.
  unfold Py.find. destruct (start <=? length s) eqn:E.
  - apply Nat.leb_le in E. intros Hf j Hj.
    replace j with (start + (j - start)) by lia.
    rewrite occurs_at_skipn by exact E.
    destruct (j - start <=? length (skipn start s)) eqn:E2; [|reflexivity].
    apply Nat.leb_le in E2. rewrite (find_in_none _ _ _ Hf) by exact E2.
    reflexivity.
  - apply Nat.leb_gt in E. intros _ j Hj.
    unfold Py.occurs_at. replace (j <=? length s) with false; [reflexivity|].
    symmetry. apply Nat.leb_gt. lia.
Qed.

(** [find] returns exactly the least occurrence at or after [start]. *)
Lemma find_least s sub start r :
  start <= r -> Py.occurs_at sub s r = true ->
  (forall j, start <= j -> j < r -> Py.occurs_at sub s j = false) ->
  Py.find s sub start = Some r.
Proof.
  intros Hr Ho Hmin. destruct (Py.find s sub start) as [r'|] eqn:E.
  - apply find_some in E as [H1 [H2 H3]]. f_equal.
    destruct (Nat.lt_trichotomy r' r) as [Hlt | [Heq | Hgt]].
    + rewrite Hmin in H2 by lia. discriminate.
    + exact Heq.
    + rewrite H3 in Ho by lia. discriminate.
  - rewrite (find_none _ _ _ E) in Ho by exact Hr. discriminate.
Qed.

Lemma find_absent s sub start :
  (forall j, start <= j -> Py.occurs_at sub s j = false) ->
  Py.find s sub start = None.
Proof.
  intros Hno. destruct (Py.find s sub start) as [r|] eqn:E; [|reflexivity].
  apply find_some in E as [H1 [H2 _]]. rewrite Hno in H2 by exact H1.
  discriminate.
Qed.
End SearchFacts.

(** ** The non-overlapping position finder *)

Section ScanFacts.
Context {A : Type} `{Eqb A}.
Implicit Types s sub : list A.

Lemma loop_greedy fuel s sub : forall start acc r,
  find_non_overlapping_loop fuel s sub start acc = Some r ->
  exists l, r = acc ++ l /\ greedy s sub start l.
Proof.
  induction fuel as [|fuel IH]; intros start acc r; simpl; [discriminate|].
  destruct (Py.find s sub start) as [found|] eqn:E.
  - intros Hl. apply IH in Hl as [l [-> Hg]].
    exists (found :: l). split.
    + rewrite <- app_assoc. reflexivity.
    + now apply greedy_hit.
  - intros [= <-]. exists []. split; [now rewrite app_nil_r | now apply greedy_stop].
Qed.

Lemma greedy_loop s sub start l :
  greedy s sub start l ->
  forall fuel acc, length l < fuel ->
  find_non_overlapping_loop fuel s sub start acc = Some (acc ++ l).
Proof.
  induction 1 as [start E | start found l E Hg IH]; intros fuel acc Hf.
  - destruct fuel; [simpl in Hf; lia|]. simpl. rewrite E, app_nil_r. reflexivity.
  - destruct fuel; [simpl in Hf; lia|]. simpl in *. rewrite E.
    rewrite IH by lia. rewrite <- app_assoc. reflexivity.
Qed.

Lemma greedy_fun s sub start l :
  greedy s sub start l -> forall l', greedy s sub start l' -> l = l'.
Proof.
  induction 1 as [start E | start found l E Hg IH]; intros l' Hg'.
  - inversion Hg'; subst; [reflexivity | congruence].
  - inversion Hg' as [? E' | ? found' l2 E' Hg2]; subst; [congruence|].
    rewrite E in E'. injection E' as <-. f_equal. now apply IH.
Qed.

Lemma greedy_spaced s sub start l :
  greedy s sub start l -> spaced (length sub) start l.
Proof.
  induction 1 as [start E | start found l E Hg IH]; simpl; [exact I|].
  split; [|exact IH]. apply find_some in E. tauto.
Qed.

Lemma greedy_occurs s sub start l :
  greedy s sub start l -> forall p, In p l -> Py.occurs_at sub s p = true.
Proof.
  induction 1 as [start E | start found l E Hg IH]; intros p; simpl; [tauto|].
  intros [<- | Hp]; [|now apply IH]. apply find_some in E. tauto.
Qed.

(** With a non-empty substring the scan ends: each hit moves the start. *)
Lemma greedy_exists s sub :
  sub <> [] ->
  forall n start, length s - start <= n ->
  exists l, greedy s sub start l /\ length l <= n.
Proof.
  intros Hne.
  assert (Hlen : 0 < length sub) by (destruct sub; [congruence | simpl; lia]).
  induction n as [|n IH]; intros start Hn.
  - exists []. split; [|simpl; lia]. apply greedy_stop. apply find_absent.
    intros j Hj. destruct (Py.occurs_at sub s j) eqn:E; [|reflexivity].
    apply occurs_at_bound in E. lia.
  - destruct (Py.find s sub start) as [found|] eqn:E.
    + pose proof (find_some _ _ _ _ E) as [H1 [H2 _]].
      apply occurs_at_bound in H2.
      destruct (IH (found + length sub)) as [l [Hg Hl]]; [lia|].
      exists (found :: l). split; [now apply greedy_hit | simpl; lia].
    + exists []. split; [now apply greedy_stop | simpl; lia].
Qed.

Lemma find_non_overlapping_total s sub :
  sub <> [] ->
  exists l, find_non_overlapping_positions_in_text s sub = Some l
            /\ greedy s sub 0 l.
Proof.
  intros Hne.
  destruct (greedy_exists s sub Hne (length s) 0) as [l [Hg Hl]]; [lia|].
  exists l. split; [|exact Hg].
  unfold find_non_overlapping_positions_in_text.
  change (Some l) with (Some ([] ++ l)). apply greedy_loop; [exact Hg | lia].
Qed.

Lemma find_non_overlapping_greedy s sub l :
  find_non_overlapping_positions_in_text s sub = Some l -> greedy s sub 0 l.
Proof.
  intros Hl. apply loop_greedy in Hl as [l' [-> Hg]]. exact Hg.
Qed.

(** The empty substring is found at every start, which never moves: the
    loop of the source does not end. *)
Lemma find_non_overlapping_loop_empty fuel s : forall start acc,
  start <= length s ->
  find_non_overlapping_loop fuel s [] start acc = None.
Proof.
  induction fuel as [|fuel IH]; intros start acc Hs; simpl; [reflexivity|].
  rewrite (find_least s [] start start); [|lia| |intros; lia].
  - simpl. rewrite Nat.add_0_r. now apply IH.
  - unfold Py.occurs_at. apply andb_true_iff. split; [now apply Nat.leb_le|].
    reflexivity.
Qed.

Lemma spaced_weaken L lo lo' l : lo' <= lo -> spaced L lo l -> spaced L lo' l.
Proof.
  destruct l as [|p l]; simpl; [tauto|]. intros Hle [Hp Hs]. split; [lia | exact Hs].
Qed.

Lemma spaced_In L lo l p : spaced L lo l -> In p l -> lo <= p.
Proof.
  revert lo; induction l as [|q l IH]; intros lo; simpl; [tauto|].
  intros [Hq Hs] [<- | Hin]; [exact Hq|]. apply IH in Hs; [lia | exact Hin].
Qed.

Lemma spaced_non_overlapping L lo l : spaced L lo l -> non_overlapping L l.
Proof.
  revert lo; induction l as [|q l IH]; intros lo Hs i j a b Hij Hi Hj.
  - destruct i; discriminate.
  - simpl in Hs. destruct Hs as [Hq Hs]. destruct j as [|j]; [lia|].
    simpl in Hj. destruct i as [|i].
    + simpl in Hi. injection Hi as <-.
      apply nth_error_In in Hj. eapply spaced_In; eassumption.
    + simpl in Hi. eapply IH; [exact Hs | | exact Hi | exact Hj]. lia.
Qed.

Lemma non_overlapping_pairs L l a b :
  non_overlapping L l -> In a l -> In b l -> a < b -> a + L <= b.
Proof.
  intros Hno Ha Hb Hab.
  apply In_nth_error in Ha as [i Hi]. apply In_nth_error in Hb as [j Hj].
  destruct (Nat.lt_trichotomy i j) as [Hlt | [-> | Hgt]].
  - exact (Hno i j a b Hlt Hi Hj).
  - rewrite Hi in Hj. injection Hj as <-. lia.
  - pose proof (Hno j i b a Hgt Hj Hi). lia.
Qed.
End ScanFacts.

(** C8. For any text and any substring, a list returned by
    [find_non_overlapping_positions_in_text] never holds two offsets [a < b]
    with [b < a + len(substring)]: its entries are at least [len(substring)]
    apart, in increasing order.  The loop returns for every non-empty
    substring. *)
Theorem find_non_overlapping_positions_never_overlap :
  forall (full_text substring : text),
    (forall fuel positions,
        find_non_overlapping_loop fuel full_text substring 0 [] = Some positions ->
        non_overlapping (length substring) positions
        /\ forall a b, In a positions -> In b positions -> a < b ->
                       ~ b < a + length substring)
    /\ (substring <> [] ->
        exists positions,
          find_non_overlapping_positions_in_text full_text substring
          = Some positions).
Proof.
  intros full_text substring. split.
  - intros fuel positions Hl. apply loop_greedy in Hl as [l [-> Hg]]. simpl.
    apply greedy_spaced, spaced_non_overlapping in Hg. split; [exact Hg|].
    intros a b Ha Hb Hab. pose proof (non_overlapping_pairs _ _ _ _ Hg Ha Hb Hab). lia.
  - intros Hne. destruct (find_non_overlapping_total full_text substring Hne)
      as [l [Hl _]]. now exists l.
Qed.

Lemma find_non_overlapping_positions_never_overlap_witness :
  exists positions,
    find_non_overlapping_positions_in_text (txt "aaaaa") (txt "aa") = Some positions
    /\ non_overlapping 2 positions.
Proof.
  destruct (find_non_overlapping_positions_never_overlap (txt "aaaaa") (txt "aa"))
    as [Hsafe Hret].
  destruct (Hret ltac:(discriminate)) as [positions Hp].
  exists positions. split; [exact Hp|].
  exact (proj1 (Hsafe _ _ Hp)).
Defined.

(** ** Tag detector *)

Lemma list_eqb_eq {A : Type} `{Eqb A} (a b : list A) :
  Py.list_eqb a b = true <-> a = b.
Proof.
  revert b; induction a as [|x a IH]; intros [|y b]; simpl;
    try (split; [discriminate | discriminate]); try tauto.
  rewrite andb_true_iff, elt_eqb_eq, IH. split.
  - intros [-> ->]. reflexivity.
  - intros [= -> ->]. tauto.
Qed.

Lemma text_eqb_eq (a b : text) : text_eqb a b = true <-> a = b.
Proof. apply list_eqb_eq. Qed.

Lemma text_eqb_refl (a : text) : text_eqb a a = true.
Proof. now apply text_eqb_eq. Qed.

Lemma existsb_text_eqb (c : text) (l : list text) :
  existsb (text_eqb c) l = true <-> In c l.
Proof.
  rewrite existsb_exists. split.
  - intros [x [Hin Hx]]. apply text_eqb_eq in Hx. now subst.
  - intros Hin. exists c. split; [exact Hin | apply text_eqb_refl].
Qed.

Lemma slice_length {A : Type} (s : list A) (i j : nat) :
  j <= length s -> length (Py.slice s i j) = j - i.
Proof.
  intros Hj. unfold Py.slice. rewrite length_firstn, length_skipn. lia.
Qed.

Lemma detect_range_In (block_text : text) (rel_pos : nat) :
  In rel_pos (detect_range block_text) <->
  rel_pos + TAG_LENGTH_CHARS <= length block_text.
Proof.
  unfold detect_range, TAG_LENGTH_CHARS. rewrite in_seq. lia.
Qed.

Lemma tag_candidate_length block_text rel_pos candidate :
  tag_candidate_at block_text rel_pos candidate ->
  length candidate = TAG_LENGTH_CHARS.
Proof.
  intros [Hr [_ ->]]. apply detect_range_In in Hr.
  rewrite slice_length by exact Hr. lia.
Qed.

Lemma tag_candidate_nonempty block_text rel_pos candidate :
  tag_candidate_at block_text rel_pos candidate -> candidate <> [].
Proof.
  intros Hc ->. apply tag_candidate_length in Hc. discriminate.
Qed.

Lemma occurrence_count_fun block_text c n m :
  occurrence_count block_text c n -> occurrence_count block_text c m -> n = m.
Proof.
  intros [p [Hp <-]] [q [Hq <-]]. congruence.
Qed.

Lemma detect_step_inv block_start_abs block_text st rel_pos :
  In rel_pos (detect_range block_text) ->
  detect_inv block_start_abs block_text st ->
  exists st', detect_step block_start_abs block_text st rel_pos = Some st'
    /\ detect_inv block_start_abs block_text st'
    /\ (forall c, In c (fst st) -> In c (fst st'))
    /\ (forall candidate, tag_candidate_at block_text rel_pos candidate ->
                          In candidate (fst st')).
Proof.
  intros Hr [Hacc Hseen]. destruct st as [seen acc]. simpl in *.
  unfold detect_step.
  destruct (text_eqb (Py.slice block_text rel_pos (rel_pos + 3)) _) eqn:Epre;
    cbn [negb].
  2:{ exists (seen, acc). split; [reflexivity|]. split; [now split|].
      split; [auto|]. intros candidate [_ [Hp _]].
      apply text_eqb_eq in Hp. simpl in Hp. congruence. }
  apply text_eqb_eq in Epre.
  set (candidate := Py.slice block_text rel_pos (rel_pos + TAG_LENGTH_CHARS)).
  assert (Hcand : tag_candidate_at block_text rel_pos candidate)
    by (repeat split; auto).
  destruct (existsb (text_eqb candidate) seen) eqn:Eseen.
  { apply existsb_text_eqb in Eseen. exists (seen, acc).
    split; [reflexivity|]. split; [now split|]. split; [auto|].
    intros c [_ [_ ->]]. exact Eseen. }
  destruct (find_non_overlapping_total block_text candidate
              (tag_candidate_nonempty _ _ _ Hcand)) as [ps [Hps _]].
  rewrite Hps. simpl.
  destruct (length ps =? REPEAT_COUNT_REQUIRED) eqn:Elen.
  - apply Nat.eqb_eq in Elen.
    destruct ps as [|p0 ps']; [discriminate|]. simpl.
    eexists. split; [reflexivity|]. simpl. split; [split|split].
    + intros d Hd. apply in_app_or in Hd as [Hd | [<- | []]].
      * destruct (Hacc d Hd) as [H1 H2]. split; [now right | exact H2].
      * simpl. split; [now left|]. repeat split; auto.
        -- now exists rel_pos.
        -- now exists p0.
    + intros c [<- | Hc] Hcount.
      * eexists. split; [apply in_or_app; right; left; reflexivity | reflexivity].
      * destruct (Hseen c Hc Hcount) as [d [Hd Ht]].
        exists d. split; [apply in_or_app; now left | exact Ht].
    + intros c Hc. now right.
    + intros c [_ [_ ->]]. now left.
  - apply Nat.eqb_neq in Elen.
    eexists. split; [reflexivity|]. simpl. split; [split|split].
    + intros d Hd. destruct (Hacc d Hd) as [H1 H2]. split; [now right | exact H2].
    + intros c [<- | Hc] Hcount.
      * exfalso. apply Elen.
        exact (occurrence_count_fun _ _ _ _ (ex_intro _ ps (conj Hps eq_refl)) Hcount).
      * now apply Hseen.
    + intros c Hc. now right.
    + intros c [_ [_ ->]]. now left.
Qed.

Lemma detect_fold_inv block_start_abs block_text : forall xs st,
  (forall x, In x xs -> In x (detect_range block_text)) ->
  detect_inv block_start_abs block_text st ->
  exists st', foldM (detect_step block_start_abs block_text) xs st = Some st'
    /\ detect_inv block_start_abs block_text st'
    /\ (forall c, In c (fst st) -> In c (fst st'))
    /\ (forall rel_pos candidate, In rel_pos xs ->
          tag_candidate_at block_text rel_pos candidate -> In candidate (fst st')).
Proof.
  induction xs as [|x xs IH]; intros st Hxs Hinv; simpl.
  - exists st. split; [reflexivity|]. split; [exact Hinv|]. split; [auto|].
    intros ? ? [].
  - destruct (detect_step_inv block_start_abs block_text st x)
      as [st1 [Hs [Hinv1 [Hmono1 Hnew1]]]]; [apply Hxs; now left | exact Hinv |].
    rewrite Hs. simpl.
    destruct (IH st1) as [st2 [Hf [Hinv2 [Hmono2 Hnew2]]]];
      [intros; apply Hxs; now right | exact Hinv1 |].
    exists st2. split; [exact Hf|]. split; [exact Hinv2|]. split; [auto|].
    intros rel_pos candidate [<- | Hin] Hc; [apply Hmono2; eauto | eauto].
Qed.

(** The detector returns, every entry is as [detected_ok] says, and a
    candidate it visits is accepted exactly when it has the required
    count. *)
Lemma detect_tags_spec block_start_abs block_text :
  exists detected,
    detect_tags block_start_abs block_text = Some detected
    /\ (forall d, In d detected -> detected_ok block_start_abs block_text d)
    /\ (forall rel_pos candidate,
          tag_candidate_at block_text rel_pos candidate ->
          (accepted detected candidate
           <-> occurrence_count block_text candidate REPEAT_COUNT_REQUIRED)).
Proof.
  destruct (detect_fold_inv block_start_abs block_text
              (detect_range block_text) ([], []))
    as [[seen acc] [Hf [[Hacc Hseen] [_ Hall]]]]; [auto | |].
  { split; simpl; intros ? []. }
  exists acc. unfold detect_tags. rewrite Hf. simpl in *.
  split; [reflexivity|]. split.
  - intros d Hd. apply Hacc, Hd.
  - intros rel_pos candidate Hc. split.
    + intros [d [Hd <-]]. destruct (Hacc d Hd) as [_ [_ [Hps [Hlen _]]]].
      eexists. split; [exact Hps | exact Hlen].
    + apply Hseen. eapply Hall; [|exact Hc]. apply Hc.
Qed.

(** C7. The detector returns for every block, and a 19-character candidate
    beginning with three sentinels that it reads in the block is accepted if
    and only if its number of non-overlapping occurrences in the block is
    exactly [REPEAT_COUNT_REQUIRED]; a candidate with 4 or with 6 such
    occurrences is not accepted. *)
Theorem tag_accepted_iff_exact_repeat_count :
  forall (block_start_abs : nat) (block_text : text),
  exists detected,
    detect_tags block_start_abs block_text = Some detected
    /\ (forall rel_pos candidate,
          tag_candidate_at block_text rel_pos candidate ->
          (accepted detected candidate
           <-> occurrence_count block_text candidate REPEAT_COUNT_REQUIRED))
    /\ (forall rel_pos candidate n,
          tag_candidate_at block_text rel_pos candidate ->
          occurrence_count block_text candidate n ->
          n = 4 \/ n = 6 -> ~ accepted detected candidate).
Proof.
  intros block_start_abs block_text.
  destruct (detect_tags_spec block_start_abs block_text)
    as [detected [Hd [_ Hiff]]].
  exists detected. split; [exact Hd|]. split; [exact Hiff|].
  intros rel_pos candidate n Hc Hn Hn46 Hacc.
  apply (Hiff rel_pos candidate Hc) in Hacc.
  pose proof (occurrence_count_fun _ _ _ _ Hn Hacc) as Heq.
  unfold REPEAT_COUNT_REQUIRED in Heq. lia.
Qed.

(** ** Scanning a slice and scanning the whole text *)

Section SliceScan.
Context {A : Type} `{Eqb A}.
Implicit Types s sub t : list A.

Lemma occurs_at_firstn sub t n j :
  Py.occurs_at sub (firstn n t) j = true <->
  Py.occurs_at sub t j = true /\ j + length sub <= n.
Proof.
  split.
  - intros Ho. pose proof (occurs_at_bound _ _ _ Ho) as Hb.
    rewrite length_firstn in Hb. split; [|lia].
    apply occurs_at_split in Ho as [pre [post [Ho Hl]]].
    apply occurs_at_split. exists pre, (post ++ skipn n t). split; [|exact Hl].
    rewrite <- (firstn_skipn n t) at 1. rewrite Ho, <- !app_assoc. reflexivity.
  - intros [Ho Hn]. apply occurs_at_split in Ho as [pre [post [-> Hl]]].
    apply occurs_at_split.
    exists pre, (firstn (n - length pre - length sub) post). split; [|exact Hl].
    rewrite firstn_app. replace (firstn n pre) with pre
      by (symmetry; apply firstn_all2; lia).
    f_equal. rewrite firstn_app. f_equal. apply firstn_all2. lia.
Qed.

Lemma find_firstn_some sub t n start r :
  Py.find (firstn n t) sub start = Some r -> Py.find t sub start = Some r.
Proof.
  intros Hf. apply find_some in Hf as [H1 [H2 H3]].
  apply occurs_at_firstn in H2 as [H2 Hn].
  apply find_least; [exact H1 | exact H2 |].
  intros j Hj1 Hj2. destruct (Py.occurs_at sub t j) eqn:E; [|reflexivity].
  rewrite <- (H3 j Hj1 Hj2). symmetry. apply occurs_at_firstn. split; [exact E | lia].
Qed.

(** The scan of a prefix of the text is a prefix of the scan of the text. *)
Lemma greedy_firstn sub t n start l :
  sub <> [] -> greedy (firstn n t) sub start l ->
  exists l', greedy t sub start (l ++ l').
Proof.
  intros Hne. induction 1 as [start E | start found l E Hg IH].
  - destruct (greedy_exists t sub Hne (length t) start) as [l' [Hg' _]]; [lia|].
    now exists l'.
  - destruct IH as [l' Hg']. exists l'. simpl.
    apply greedy_hit; [now apply find_firstn_some in E | exact Hg'].
Qed.

Lemma occurs_at_shift sub s b k :
  b <= length s -> Py.occurs_at sub (skipn b s) k = Py.occurs_at sub s (b + k).
Proof.
  intros Hb. rewrite occurs_at_skipn by exact Hb. reflexivity.
Qed.

Lemma find_skipn_some sub s b start r :
  b <= length s ->
  Py.find (skipn b s) sub start = Some r -> Py.find s sub (b + start) = Some (b + r).
Proof.
  intros Hb Hf. apply find_some in Hf as [H1 [H2 H3]].
  apply find_least; [lia | now rewrite <- occurs_at_shift |].
  intros j Hj1 Hj2. replace j with (b + (j - b)) by lia.
  rewrite <- occurs_at_shift by exact Hb. apply H3; lia.
Qed.

Lemma find_skipn_none sub s b start :
  b <= length s ->
  Py.find (skipn b s) sub start = None -> Py.find s sub (b + start) = None.
Proof.
  intros Hb Hf. apply find_absent. intros j Hj.
  replace j with (b + (j - b)) by lia.
  rewrite <- occurs_at_shift by exact Hb.
  apply (find_none _ _ _ Hf). lia.
Qed.

(** The scan of a suffix is the scan of the text from the suffix's offset. *)
Lemma greedy_skipn sub s b start l :
  b <= length s -> greedy (skipn b s) sub start l ->
  greedy s sub (b + start) (map (Nat.add b) l).
Proof.
  intros Hb. induction 1 as [start E | start found l E Hg IH]; simpl.
  - apply greedy_stop. now apply find_skipn_none.
  - apply greedy_hit; [now apply find_skipn_some|].
    rewrite <- Nat.add_assoc. exact IH.
Qed.

(** A scan that no hit carries across [b] passes through the state of a
    scan started at [b]. *)
Lemma greedy_through sub s b start l :
  (forall j, Py.occurs_at sub s j = true -> j < b -> j + length sub <= b) ->
  greedy s sub start l -> start <= b ->
  exists l1 l2, l = l1 ++ l2 /\ greedy s sub b l2.
Proof.
  intros Hno. induction 1 as [start E | start found l E Hg IH]; intros Hb.
  - exists [], []. split; [reflexivity|]. apply greedy_stop, find_absent.
    intros j Hj. apply (find_none _ _ _ E). lia.
  - pose proof (find_some _ _ _ _ E) as [H1 [H2 H3]].
    destruct (Nat.lt_ge_cases found b) as [Hlt | Hge].
    + destruct IH as [l1 [l2 [-> Hg2]]]; [now apply Hno|].
      exists (found :: l1), l2. split; [reflexivity | exact Hg2].
    + exists [], (found :: l). split; [reflexivity|].
      apply greedy_hit; [|exact Hg].
      apply find_least; [exact Hge | exact H2 |].
      intros j Hj1 Hj2. apply H3; lia.
Qed.
End SliceScan.

Lemma display_slice (bs : list byte) (i j : nat) :
  display (Py.slice bs i j) = Py.slice (display bs) i j.
Proof.
  unfold display, Py.slice. rewrite skipn_map, firstn_map. reflexivity.
Qed.

Lemma block_text_cases (session_bytes : list byte) :
  let block_start_abs := block_start_abs_of session_bytes in
  let first_http_abs := find_earliest_lowercase_http_position_in_bytes session_bytes in
  (block_start_abs < first_http_abs
   /\ session_tab_group_block_text_of session_bytes
      = firstn (first_http_abs - block_start_abs)
               (skipn block_start_abs (display session_bytes)))
  \/ (first_http_abs <= block_start_abs
      /\ session_tab_group_block_text_of session_bytes = []).
Proof.
  cbv zeta. unfold session_tab_group_block_text_of.
  destruct (block_start_abs_of session_bytes
            <? find_earliest_lowercase_http_position_in_bytes session_bytes) eqn:E.
  - apply Nat.ltb_lt in E. left. split; [exact E|]. apply display_slice.
  - apply Nat.ltb_ge in E. right. split; [exact E | reflexivity].
Qed.

Lemma find_le_length {A : Type} `{Eqb A} (s sub : list A) start r :
  Py.find s sub start = Some r -> r + length sub <= length s.
Proof.
  intros Hf. apply find_some in Hf as [_ [Ho _]]. now apply occurs_at_bound.
Qed.

Lemma first_http_le_length (session_bytes : list byte) :
  find_earliest_lowercase_http_position_in_bytes session_bytes
  <= length session_bytes.
Proof.
  unfold find_earliest_lowercase_http_position_in_bytes.
  destruct (Py.find session_bytes (bytes_of "http://") 0) as [p|] eqn:E1;
    destruct (Py.find session_bytes (bytes_of "https://") 0) as [q|] eqn:E2;
    try apply find_le_length in E1; try apply find_le_length in E2; lia.
Qed.

(** The in-block scan is part of the full-text scan that starts at the block. *)
Lemma block_scan_in_full_scan (session_bytes : list byte) (tag : text) l :
  tag <> [] ->
  greedy (session_tab_group_block_text_of session_bytes) tag 0 l ->
  session_tab_group_block_text_of session_bytes <> [] ->
  exists l', greedy (display session_bytes) tag (block_start_abs_of session_bytes)
               (map (Nat.add (block_start_abs_of session_bytes)) (l ++ l')).
Proof.
  intros Hne Hg Hblock.
  destruct (block_text_cases session_bytes) as [[Hlt Hb] | [_ Hb]]; [|congruence].
  rewrite Hb in Hg. apply greedy_firstn in Hg as [l' Hg]; [|exact Hne].
  exists l'. rewrite <- (Nat.add_0_r (block_start_abs_of session_bytes)) at 1.
  apply greedy_skipn; [|exact Hg].
  unfold display. rewrite length_map.
  pose proof (first_http_le_length session_bytes). lia.
Qed.

(** ** Sorting and dictionaries *)

Section SortFacts.
Context {A : Type} (key : A -> nat).

Lemma insert_by_perm x l : Permutation (insert_by key x l) (x :: l).
Proof.
  induction l as [|y l IH]; simpl; [reflexivity|].
  destruct (key x <=? key y); [reflexivity|].
  rewrite IH. apply perm_swap.
Qed.

Lemma sort_by_perm l : Permutation (sort_by key l) l.
Proof.
  induction l as [|x l IH]; simpl; [reflexivity|].
  rewrite insert_by_perm. now apply perm_skip.
Qed.

Lemma sort_by_In l x : In x (sort_by key l) <-> In x l.
Proof.
  split; apply Permutation_in; [apply sort_by_perm|].
  symmetry. apply sort_by_perm.
Qed.

Lemma insert_by_sorted x l :
  StronglySorted (fun a b => key a <= key b) l ->
  StronglySorted (fun a b => key a <= key b) (insert_by key x l).
Proof.
  induction 1 as [|y l Hs IH Hy]; simpl.
  - constructor; [constructor | constructor].
  - destruct (key x <=? key y) eqn:E.
    + apply Nat.leb_le in E. constructor; [now constructor|].
      constructor; [exact E|].
      eapply Forall_impl; [|exact Hy]. intros a Ha. simpl in Ha. lia.
    + apply Nat.leb_gt in E. constructor; [exact IH|].
      eapply Permutation_Forall; [symmetry; apply insert_by_perm|].
      constructor; [lia | exact Hy].
Qed.

Lemma sort_by_sorted l :
  StronglySorted (fun a b => key a <= key b) (sort_by key l).
Proof.
  induction l as [|x l IH]; simpl; [constructor | now apply insert_by_sorted].
Qed.
End SortFacts.

Lemma sort_by_spaced L lo l : spaced L lo l -> sort_by (fun p => p) l = l.
Proof.
  revert lo; induction l as [|p l IH]; intros lo; simpl; [reflexivity|].
  intros [Hp Hs]. rewrite (IH _ Hs). destruct l as [|q l]; [reflexivity|].
  simpl. destruct Hs as [Hq _].
  replace (p <=? q) with true; [reflexivity|]. symmetry. apply Nat.leb_le. lia.
Qed.

Section DictFacts.
Context {K V : Type} (keqb : K -> K -> bool).
Hypothesis keqb_eq : forall a b, keqb a b = true <-> a = b.

Lemma lookup_set_eq k (v : V) d :
  Dict.lookup keqb k (Dict.set keqb k v d) = Some v.
Proof.
  induction d as [|[k' v'] d IH]; simpl.
  - replace (keqb k k) with true; [reflexivity|]. symmetry. now apply keqb_eq.
  - destruct (keqb k' k) eqn:E; simpl; rewrite E; [reflexivity | exact IH].
Qed.

Lemma lookup_set_ne k k' (v : V) d :
  k <> k' -> Dict.lookup keqb k' (Dict.set keqb k v d) = Dict.lookup keqb k' d.
Proof.
  intros Hne. induction d as [|[k0 v0] d IH]; simpl.
  - destruct (keqb k k') eqn:E; [|reflexivity]. apply keqb_eq in E. contradiction.
  - destruct (keqb k0 k) eqn:E; simpl.
    + apply keqb_eq in E. subst k0.
      destruct (keqb k k') eqn:E'; [|reflexivity].
      apply keqb_eq in E'. contradiction.
    + destruct (keqb k0 k'); [reflexivity | exact IH].
Qed.

Lemma lookup_set k k' (v : V) d :
  Dict.lookup keqb k' (Dict.set keqb k v d)
  = if keqb k k' then Some v else Dict.lookup keqb k' d.
Proof.
  destruct (keqb k k') eqn:E.
  - apply keqb_eq in E. subst. apply lookup_set_eq.
  - apply lookup_set_ne. intros ->.
    assert (keqb k' k' = true) by now apply keqb_eq. congruence.
Qed.
End DictFacts.

(** ** Tag occurrence index *)

Lemma non_overlapping_strict L l :
  0 < L -> non_overlapping L l -> strictly_ascending l.
Proof.
  intros HL Hno i j a b Hij Hi Hj. pose proof (Hno i j a b Hij Hi Hj). lia.
Qed.

Lemma index_list_of_spec full_text tag :
  tag <> [] ->
  exists occs, index_list_of full_text tag = Some occs
               /\ greedy full_text tag 0 occs.
Proof.
  intros Hne. destruct (find_non_overlapping_total full_text tag Hne) as [l [Hl Hg]].
  exists l. unfold index_list_of. rewrite Hl. simpl.
  rewrite (sort_by_spaced _ _ _ (greedy_spaced _ _ _ _ Hg)). split; [reflexivity |
      exact Hg].
Qed.

Lemma index_fold_lookup full_text : forall groups index0 index,
  foldM (index_step full_text) groups index0 = Some index ->
  (forall tag occs, Dict.lookup text_eqb tag index0 = Some occs ->
                    index_list_of full_text tag = Some occs) ->
  forall tag occs, Dict.lookup text_eqb tag index = Some occs ->
                   index_list_of full_text tag = Some occs.
Proof.
  induction groups as [|g groups IH]; intros index0 index; simpl.
  - intros [= <-] H0. exact H0.
  - unfold index_step at 1.
    destruct (find_non_overlapping_positions_in_text full_text
                (Group.SessionTabGroupTag g)) as [all|] eqn:E; simpl; [|discriminate].
    intros Hf H0. eapply IH; [exact Hf|].
    intros tag occs. rewrite (lookup_set text_eqb text_eqb_eq).
    destruct (text_eqb (Group.SessionTabGroupTag g) tag) eqn:Et.
    + apply text_eqb_eq in Et. subst tag. intros [= <-].
      unfold index_list_of. rewrite E. reflexivity.
    + apply H0.
Qed.

Lemma index_lookup full_text groups index tag occs :
  tag_to_all_occurrences_of full_text groups = Some index ->
  Dict.lookup text_eqb tag index = Some occs ->
  index_list_of full_text tag = Some occs.
Proof.
  unfold tag_to_all_occurrences_of.
  destruct groups as [|g groups]; [intros [= <-]; discriminate|].
  destruct full_text as [|c full_text]; [intros [= <-]; discriminate|].
  intros Hf. eapply index_fold_lookup; [exact Hf|]. intros ? ?. discriminate.
Qed.

(** C2 (amended). For every tag the detector accepts, the list the index
    builds for it is strictly ascending, without overlaps, and it holds every
    in-block occurrence [p] as [blockStart + p] provided no occurrence of the
    tag in the full text begins before the block start and ends after it. *)
Theorem tag_occurrence_index_covers_block_without_straddle :
  forall (session_bytes : list byte) detected d,
    detect_tags (block_start_abs_of session_bytes)
                (session_tab_group_block_text_of session_bytes) = Some detected ->
    In d detected ->
    exists occs,
      index_list_of (display session_bytes) (Detected.SessionTabGroupTag d)
      = Some occs
      /\ strictly_ascending occs
      /\ non_overlapping TAG_LENGTH_CHARS occs
      /\ (no_straddle (display session_bytes) (Detected.SessionTabGroupTag d)
                      (block_start_abs_of session_bytes) ->
          index_covers_block session_bytes d occs)
      /\ (forall groups index occs',
            tag_to_all_occurrences_of (display session_bytes) groups = Some index ->
            Dict.lookup text_eqb (Detected.SessionTabGroupTag d) index = Some occs' ->
            occs' = occs).
Proof.
  intros session_bytes detected d Hdet Hd.
  destruct (detect_tags_spec (block_start_abs_of session_bytes)
              (session_tab_group_block_text_of session_bytes))
    as [detected' [Hdet' [Hok _]]].
  rewrite Hdet in Hdet'. injection Hdet' as <-.
  destruct (Hok d Hd) as [[rel_pos Hcand] [Hps [Hlen _]]].
  pose proof (tag_candidate_nonempty _ _ _ Hcand) as Hne.
  pose proof (tag_candidate_length _ _ _ Hcand) as Htl.
  destruct (index_list_of_spec (display session_bytes) _ Hne) as [occs [Hocc Hg]].
  exists occs. split; [exact Hocc|].
  pose proof (spaced_non_overlapping _ _ _ (greedy_spaced _ _ _ _ Hg)) as Hno.
  rewrite Htl in Hno.
  split; [|split; [exact Hno|split]].
  - eapply non_overlapping_strict; [|exact Hno]. unfold TAG_LENGTH_CHARS. lia.
  - intros Hstr p Hp.
    apply find_non_overlapping_greedy in Hps.
    assert (Hblock : session_tab_group_block_text_of session_bytes <> []).
    { intros Hb. destruct Hcand as [Hr _]. apply detect_range_In in Hr.
      rewrite Hb in Hr. simpl in Hr. unfold TAG_LENGTH_CHARS in Hr. lia. }
    destruct (block_scan_in_full_scan session_bytes _ _ Hne Hps Hblock) as [l' Hfull].
    destruct (greedy_through _ _ (block_start_abs_of session_bytes) 0 occs Hstr Hg)
      as [l1 [l2 [-> Hg2]]]; [lia|].
    rewrite (greedy_fun _ _ _ _ Hg2 _ Hfull).
    apply in_or_app. right. apply in_map, in_or_app. now left.
  - intros groups index occs' Hidx Hl.
    pose proof (index_lookup _ _ _ _ _ Hidx Hl). congruence.
Qed.

(** ** URL candidates *)

Lemma startswith_ignorecase_length pat t :
  startswith_ignorecase pat t = true -> length pat <= length t.
Proof.
  revert t; induction pat as [|x pat IH]; intros [|y t]; simpl;
    try discriminate; try lia.
  rewrite andb_true_iff. intros [_ Hs]. apply IH in Hs. lia.
Qed.

Lemma run_length_le t : run_length t <= length t.
Proof.
  induction t as [|c t IH]; simpl; [lia|]. destruct (url_char c); lia.
Qed.

Lemma url_regex_match_bounds t len :
  url_regex_match t = Some len -> 8 <= len /\ len <= length t.
Proof.
  unfold url_regex_match.
  destruct (startswith_ignorecase (txt "https://") t) eqn:E1.
  - apply startswith_ignorecase_length in E1. simpl in E1.
    pose proof (run_length_le (skipn 8 t)) as Hr. rewrite length_skipn in Hr.
    set (r := run_length (skipn 8 t)) in *. clearbody r.
    destruct (r =? 0) eqn:E0; [discriminate|].
    apply Nat.eqb_neq in E0. intros [= <-]. lia.
  - destruct (startswith_ignorecase (txt "http://") t) eqn:E2; [|discriminate].
    apply startswith_ignorecase_length in E2. simpl in E2.
    pose proof (run_length_le (skipn 7 t)) as Hr. rewrite length_skipn in Hr.
    set (r := run_length (skipn 7 t)) in *. clearbody r.
    destruct (r =? 0) eqn:E0; [discriminate|].
    apply Nat.eqb_neq in E0. intros [= <-]. lia.
Qed.

Lemma url_finditer_from_bounds t : forall i skip ms me g,
  In (ms, me, g) (url_finditer_from t i skip) ->
  i <= ms /\ ms + 8 <= me /\ me <= i + length t /\ length g = me - ms.
Proof.
  induction t as [|c t IH]; intros i skip ms me g; simpl; [tauto|].
  destruct skip as [|k].
  - destruct (url_regex_match (c :: t)) as [len|] eqn:E.
    + apply url_regex_match_bounds in E as [H8 Hlen]. simpl in Hlen.
      intros [Heq | Hin].
      * injection Heq as <- <- <-. rewrite length_firstn. simpl. lia.
      * apply IH in Hin. lia.
    + intros Hin. apply IH in Hin. lia.
  - intros Hin. apply IH in Hin. lia.
Qed.

Lemma url_finditer_bounds s ms me g :
  In (ms, me, g) (url_finditer s) ->
  ms + 8 <= me /\ me <= length s /\ length g = me - ms.
Proof.
  intros Hin. apply url_finditer_from_bounds in Hin. lia.
Qed.

(** ** Interleaved-URL confirmer *)

Lemma join_interleave (t : text) :
  t <> [] ->
  REPLACEMENT_CHAR_PIPE :: Py.join REPLACEMENT_CHAR_PIPE t
  = flat_map (fun c => [REPLACEMENT_CHAR_PIPE; c]) t.
Proof.
  induction t as [|c t IH]; [congruence|]. intros _.
  destruct t as [|c' t]; [reflexivity|].
  change (Py.join REPLACEMENT_CHAR_PIPE (c :: c' :: t))
    with (c :: REPLACEMENT_CHAR_PIPE :: Py.join REPLACEMENT_CHAR_PIPE (c' :: t)).
  rewrite IH by discriminate. reflexivity.
Qed.

Lemma build_url_interleaved_form (url_text : text) :
  url_text <> [] ->
  build_pipe_interleaved_text_for_url url_text = interleaved_form url_text.
Proof.
  intros Hne. unfold build_pipe_interleaved_text_for_url, interleaved_form.
  destruct url_text as [|c t]; [congruence|].
  rewrite <- join_interleave by discriminate. reflexivity.
Qed.

Lemma any_simple_url_between_false a b url_list :
  any_simple_url_between a b url_list = false <->
  forall s' e' raw', In (s', e', raw') url_list -> ~ (a < s' /\ s' < b).
Proof.
  unfold any_simple_url_between. split.
  - intros Hf s' e' raw' Hin [H1 H2].
    assert (Ht : existsb (fun '(s, _, _) => (a <? s) && (s <? b)) url_list = true).
    { apply existsb_exists. exists (s', e', raw'). split; [exact Hin|].
      apply andb_true_iff. split; now apply Nat.ltb_lt. }
    congruence.
  - intros Hno. apply not_true_is_false. intros Ht.
    apply existsb_exists in Ht as [[[s' e'] raw'] [Hin Hb]].
    apply andb_true_iff in Hb as [H1 H2].
    apply Nat.ltb_lt in H1, H2. exact (Hno s' e' raw' Hin (conj H1 H2)).
Qed.

(** One pass of the attempt loop with a non-empty candidate. *)
Lemma attempt_matched full_text url_list s e raw_url candidate_url :
  candidate_url <> [] ->
  match Py.find full_text (build_pipe_interleaved_text_for_url candidate_url) e with
  | None => None
  | Some interleaved_idx =>
      if any_simple_url_between e interleaved_idx url_list then None
      else Some (Confirmed.mk s e candidate_url interleaved_idx
                   (interleaved_idx
                    + length (build_pipe_interleaved_text_for_url candidate_url))
                   raw_url)
  end
  = None ->
  try_fails full_text url_list e candidate_url.
Proof.
  intros Hne Hm idx [Hf Hno]. rewrite build_url_interleaved_form in Hm by exact Hne.
  rewrite Hf in Hm. apply any_simple_url_between_false in Hno. rewrite Hno in Hm.
  discriminate.
Qed.

Lemma removelast_nonempty {A : Type} (l : list A) :
  1 < length l -> removelast l <> [].
Proof.
  destruct l as [|x [|y l]]; simpl; try lia. discriminate.
Qed.

(** The pass with [attempt = 0] on a non-empty candidate. *)
Lemma attempt_body_first full_text url_list s e raw_url :
  raw_url <> [] ->
  (exists idx, try_succeeds full_text url_list e raw_url idx
     /\ attempt_body full_text url_list s e raw_url 0 raw_url
        = (raw_url, Matched (Confirmed.mk s e raw_url idx
                               (idx + length (interleaved_form raw_url)) raw_url)))
  \/ (try_fails full_text url_list e raw_url
      /\ attempt_body full_text url_list s e raw_url 0 raw_url
         = (raw_url, Continue)).
Proof.
  intros Hne. unfold attempt_body. cbn [Nat.eqb].
  pose proof (attempt_matched full_text url_list s e raw_url raw_url Hne) as Hfail.
  rewrite build_url_interleaved_form in * by exact Hne.
  destruct raw_url as [|c0 raw'] eqn:Eraw; [congruence|]. rewrite <- Eraw in *.
  destruct (Py.find full_text (interleaved_form raw_url) e) as [idx|] eqn:Ef.
  - destruct (any_simple_url_between e idx url_list) eqn:Eb.
    + right. split; [now apply Hfail | reflexivity].
    + left. exists idx. split; [|reflexivity]. split; [exact Ef|].
      now apply any_simple_url_between_false.
  - right. split; [now apply Hfail | reflexivity].
Qed.

(** The pass with [attempt = 1]. *)
Lemma attempt_body_second full_text url_list s e raw_url :
  (1 < length raw_url /\
   ((exists idx, try_succeeds full_text url_list e (removelast raw_url) idx
       /\ attempt_body full_text url_list s e raw_url 1 raw_url
          = (removelast raw_url,
             Matched (Confirmed.mk s e (removelast raw_url) idx
                        (idx + length (interleaved_form (removelast raw_url)))
                        raw_url)))
    \/ (try_fails full_text url_list e (removelast raw_url)
        /\ attempt_body full_text url_list s e raw_url 1 raw_url
           = (removelast raw_url, Continue))))
  \/ (~ 1 < length raw_url
      /\ attempt_body full_text url_list s e raw_url 1 raw_url = ([], Break)).
Proof.
  unfold attempt_body. cbn [Nat.eqb].
  destruct (1 <? length raw_url) eqn:E1.
  - apply Nat.ltb_lt in E1. left. split; [exact E1|].
    pose proof (removelast_nonempty raw_url E1) as Hne.
    pose proof (attempt_matched full_text url_list s e raw_url
                                (removelast raw_url) Hne) as Hfail.
    rewrite build_url_interleaved_form in * by exact Hne.
    destruct (removelast raw_url) as [|c0 raw'] eqn:Eraw; [congruence|].
    rewrite <- Eraw in *.
    destruct (Py.find full_text (interleaved_form (removelast raw_url)) e)
      as [idx|] eqn:Ef.
    + destruct (any_simple_url_between e idx url_list) eqn:Eb.
      * right. split; [now apply Hfail | reflexivity].
      * left. exists idx. split; [|reflexivity]. split; [exact Ef|].
        now apply any_simple_url_between_false.
    + right. split; [now apply Hfail | reflexivity].
  - apply Nat.ltb_ge in E1. right. split; [lia | reflexivity].
Qed.

Lemma confirm_url_confirms full_text url_list s e raw_url :
  raw_url <> [] ->
  confirms full_text url_list s e raw_url
           (confirm_url full_text url_list (s, e, raw_url)).
Proof.
  intros Hne. unfold confirm_url.
  change (seq 0 2) with [0; 1]. cbn [attempt_loop].
  destruct (attempt_body_first full_text url_list s e raw_url Hne)
    as [[idx [Hok ->]] | [Hfail1 ->]].
  - now apply confirms_full.
  - destruct (attempt_body_second full_text url_list s e raw_url)
      as [[Hlen [[idx [Hok ->]] | [Hfail2 ->]]] | [Hlen ->]].
    + now apply confirms_trimmed.
    + apply confirms_none; [exact Hfail1 | intros _; exact Hfail2].
    + apply confirms_none; [exact Hfail1 | intros H1; contradiction].
Qed.

Lemma confirms_fun full_text url_list s e raw_url r1 r2 :
  confirms full_text url_list s e raw_url r1 ->
  confirms full_text url_list s e raw_url r2 -> r1 = r2.
Proof.
  assert (Hidx : forall c i j, try_succeeds full_text url_list e c i ->
                               try_succeeds full_text url_list e c j -> i = j)
    by (intros c i j [Hi _] [Hj _]; congruence).
  intros H1 H2.
  destruct H1 as [i Hi | i Hf Hl Hi | Hf Hl];
    destruct H2 as [j Hj | j Hf' Hl' Hj | Hf' Hl'];
    try reflexivity;
    try (rewrite (Hidx _ _ _ Hi Hj); reflexivity);
    try (exfalso; eapply Hf; eassumption);
    try (exfalso; eapply Hf'; eassumption);
    try (exfalso; eapply (Hl Hl'); eassumption);
    try (exfalso; eapply (Hl' Hl); eassumption).
Qed.

(** C5. Every URL candidate [(s, e, raw)] is confirmed as [confirms] says:
    with the full text when the interleaved form -- a sentinel, the characters
    separated by sentinels, a trailing sentinel -- is found from [e] on with
    no URL candidate starting strictly between [e] and the hit; failing that,
    and only when the text is longer than one character, with the text less
    its last character under the same test; and not at all when both tries
    fail.  The result is determined by these rules. *)
Theorem interleaved_confirmation_two_tries :
  forall (full_text : text) (s e : nat) (raw_url : text),
    In (s, e, raw_url) (url_finditer full_text) ->
    build_pipe_interleaved_text_for_url raw_url = interleaved_form raw_url
    /\ confirms full_text (url_finditer full_text) s e raw_url
                (confirm_url full_text (url_finditer full_text) (s, e, raw_url))
    /\ (forall r, confirms full_text (url_finditer full_text) s e raw_url r ->
                  r = confirm_url full_text (url_finditer full_text) (s, e, raw_url))
    /\ build_pipe_interleaved_text_for_url (txt "https://a.b/c")
       = txt "|h|t|t|p|s|:|/|/|a|.|b|/|c|".
Proof.
  intros full_text s e raw_url Hin.
  assert (Hne : raw_url <> []).
  { apply url_finditer_bounds in Hin. intros ->. simpl in Hin. lia. }
  split; [now apply build_url_interleaved_form|].
  pose proof (confirm_url_confirms full_text (url_finditer full_text) s e raw_url Hne)
    as Hc.
  split; [exact Hc|]. split; [|reflexivity].
  intros r Hr. exact (confirms_fun _ _ _ _ _ _ _ Hr Hc).
Qed.

(** ** Backward search *)

Section RfindFacts.
Context {A : Type} `{Eqb A}.
Implicit Types s sub : list A.

Lemma rfind_loop_some s sub lo : forall k r,
  Py.rfind_loop s sub lo k = Some r ->
  lo <= r /\ r < lo + k /\ Py.occurs_at sub s r = true
  /\ forall j, r < j -> j < lo + k -> Py.occurs_at sub s j = false.
Proof.
  induction k as [|k IH]; intros r; simpl; [discriminate|].
  destruct (Py.occurs_at sub s (lo + k)) eqn:E.
  - intros [= <-]. split; [lia|]. split; [lia|]. split; [exact E|]. intros; lia.
  - intros Hf. apply IH in Hf as [H1 [H2 [H3 H4]]].
    split; [lia|]. split; [lia|]. split; [exact H3|].
    intros j Hj1 Hj2. destruct (Nat.eq_dec j (lo + k)) as [-> | Hne];
      [exact E | apply H4; lia].
Qed.

Lemma rfind_loop_none s sub lo : forall k,
  Py.rfind_loop s sub lo k = None ->
  forall j, lo <= j -> j < lo + k -> Py.occurs_at sub s j = false.
Proof.
  induction k as [|k IH]; simpl; [intros; lia|].
  destruct (Py.occurs_at sub s (lo + k)) eqn:E; [discriminate|].
  intros Hf j Hj1 Hj2. destruct (Nat.eq_dec j (lo + k)) as [-> | Hne];
    [exact E | apply IH; [exact Hf | lia | lia]].
Qed.

Lemma rfind_some s sub start stop r :
  Py.rfind s sub start stop = Some r ->
  start <= r /\ r + length sub <= Nat.min stop (length s)
  /\ Py.occurs_at sub s r = true
  /\ forall j, r < j -> j + length sub <= Nat.min stop (length s) ->
               Py.occurs_at sub s j = false.
Proof.
  unfold Py.rfind.
  destruct (start + length sub <=? Nat.min stop (length s)) eqn:E; [|discriminate].
  apply Nat.leb_le in E. intros Hf.
  apply rfind_loop_some in Hf as [H1 [H2 [H3 H4]]].
  split; [lia|]. split; [lia|]. split; [exact H3|].
  intros j Hj1 Hj2. apply H4; lia.
Qed.

Lemma rfind_none s sub start stop :
  Py.rfind s sub start stop = None ->
  forall j, start <= j -> j + length sub <= Nat.min stop (length s) ->
            Py.occurs_at sub s j = false.
Proof.
  unfold Py.rfind.
  destruct (start + length sub <=? Nat.min stop (length s)) eqn:E.
  - apply Nat.leb_le in E. intros Hf j Hj1 Hj2.
    eapply rfind_loop_none; [exact Hf | lia | lia].
  - apply Nat.leb_gt in E. intros _ j Hj1 Hj2. lia.
Qed.

(** The empty string is found last at the end of the searched range. *)
Lemma rfind_empty s stop :
  stop <= length s -> Py.rfind s [] 0 stop = Some stop.
Proof.
  intros Hs. unfold Py.rfind. cbn [length Nat.add].
  rewrite Nat.min_l by exact Hs.
  replace (stop - 0 - 0 + 1) with (S stop) by lia.
  cbn [Nat.leb Py.rfind_loop Nat.add]. unfold Py.occurs_at.
  replace (stop <=? length s) with true by (symmetry; now apply Nat.leb_le).
  reflexivity.
Qed.
End RfindFacts.

(** ** Tabs cross-confirmer *)

Lemma last_map_Some {A : Type} (l : list A) (x : A) :
  last (map Some l) None = Some x -> In x l.
Proof.
  induction l as [|y l IH]; simpl; [discriminate|].
  destruct l as [|z l]; simpl in *.
  - intros [= ->]. now left.
  - intros Hl. right. now apply IH.
Qed.

Lemma url_before_index (tabs_text_with_pipes : text) tab_index ms me g :
  In (ms, me, g) (url_finditer (firstn tab_index tabs_text_with_pipes)) ->
  ms < tab_index.
Proof.
  intros Hin. apply url_finditer_bounds in Hin as [H1 [H2 _]].
  rewrite length_firstn in H2. lia.
Qed.

Lemma final_group_name_of_empty (tabs_text_with_pipes canonical_url_used : text) :
  final_group_name_of tabs_text_with_pipes [] canonical_url_used = [].
Proof.
  unfold final_group_name_of.
  destruct tabs_text_with_pipes as [|c0 t0] eqn:Et; [reflexivity|].
  rewrite <- Et. clear c0 t0 Et.
  destruct (Py.find tabs_text_with_pipes canonical_url_used 0) as [tab_index|] eqn:Ef;
    [|reflexivity].
  pose proof (find_le_length _ _ _ _ Ef) as Hle.
  cbn [build_pipe_interleaved_text_for_group_name].
  rewrite rfind_empty by lia.
  destruct (last (map Some (url_finditer (firstn tab_index tabs_text_with_pipes))) None)
    as [[[ms me] g]|] eqn:El; [|reflexivity].
  apply last_map_Some, url_before_index in El.
  replace (ms <? tab_index) with true; [reflexivity|].
  symmetry. now apply Nat.ltb_lt.
Qed.

(** C10. With a tabs buffer that contains the row's URL at [tab_index], a row
    whose tentative group name is empty is never reclassified: the
    interleaved encoding of the empty name is the empty string, its last
    occurrence before [tab_index] is found at [tab_index] itself, every URL
    match before [tab_index] starts before that offset, and the group name
    stays empty, in particular it is not ["Ungrouped"]. *)
Theorem empty_group_name_never_ungrouped :
  forall (tabs_text_with_pipes canonical_url_used : text) (tab_index : nat),
    tabs_text_with_pipes <> [] ->
    Py.find tabs_text_with_pipes canonical_url_used 0 = Some tab_index ->
    build_pipe_interleaved_text_for_group_name [] = []
    /\ Py.rfind tabs_text_with_pipes
                (build_pipe_interleaved_text_for_group_name []) 0 tab_index
       = Some tab_index
    /\ (forall ms me g,
          In (ms, me, g) (url_finditer (firstn tab_index tabs_text_with_pipes)) ->
          ms < tab_index)
    /\ final_group_name_of tabs_text_with_pipes [] canonical_url_used = []
    /\ final_group_name_of tabs_text_with_pipes [] canonical_url_used <> Ungrouped.
Proof.
  intros tabs_text_with_pipes canonical_url_used tab_index _ Hf.
  pose proof (find_le_length _ _ _ _ Hf) as Hle.
  split; [reflexivity|]. split; [apply rfind_empty; lia|].
  split; [intros ms me g; apply url_before_index|].
  rewrite final_group_name_of_empty. split; [reflexivity | discriminate].
Qed.

(** ** Group name reconstructor *)

Lemma occurs_at_single (c : ascii) (s : text) (j : nat) :
  Py.occurs_at [c] s j = true <-> nth_error s j = Some c.
Proof.
  rewrite occurs_at_split. split.
  - intros [pre [post [-> <-]]]. rewrite nth_error_app2 by lia.
    rewrite Nat.sub_diag. reflexivity.
  - intros Hn. apply nth_error_split in Hn as [pre [post [-> Hl]]].
    now exists pre, post.
Qed.

Lemma presumptive_dollar_rel_spec (block_text : text) (second_rel : nat) :
  marker_offset_spec block_text second_rel
                     (presumptive_dollar_rel_of block_text second_rel).
Proof.
  unfold marker_offset_spec, presumptive_dollar_rel_of. cbv zeta.
  destruct (Z.of_nat second_rel - 44 <? 0)%Z eqn:E.
  - apply Z.ltb_lt in E. right. split; [exact E|].
    destruct (Py.rfind block_text (txt "$")
                (Z.to_nat (Z.max 0 (Z.of_nat second_rel - 80))) second_rel)
      as [found|] eqn:Er.
    + left. exists found. apply rfind_some in Er as [H1 [H2 [H3 H4]]].
      simpl in H2. split; [reflexivity|]. split; [lia|]. split; [lia|].
      split; [now apply occurs_at_single|].
      intros j Hj1 Hj2 Hd. apply occurs_at_single in Hd.
      pose proof (occurs_at_bound _ _ _ Hd) as Hb. simpl in Hb.
      rewrite H4 in Hd; [discriminate | exact Hj1 | simpl; lia].
    + right. split; [|reflexivity].
      intros j Hj1 Hj2 Hd. apply occurs_at_single in Hd.
      pose proof (occurs_at_bound _ _ _ Hd) as Hb. simpl in Hb.
      rewrite (rfind_none _ _ _ _ Er) in Hd; [discriminate | lia | simpl; lia].
  - apply Z.ltb_ge in E. left. split; [exact E | reflexivity].
Qed.

Lemma marker_offset_bounds block_text second_rel marker :
  marker_offset_spec block_text second_rel marker ->
  (0 <= marker <= Z.of_nat second_rel)%Z.
Proof.
  unfold marker_offset_spec. cbv zeta.
  intros [[H1 ->] | [H1 [[found [-> [H2 [H3 _]]]] | [_ ->]]]]; lia.
Qed.

Lemma scan_back_loop_spec (full_text : text) : forall n,
  n <= length full_text ->
  (exists ge, scan_back_loop full_text n = Some (Some ge)
              /\ group_end_spec full_text (Z.of_nat n) ge)
  \/ (scan_back_loop full_text n = Some None
      /\ forall ge, ~ group_end_spec full_text (Z.of_nat n) ge).
Proof.
  induction n as [|n IH]; intros Hn; simpl.
  - right. split; [reflexivity|]. intros ge [Hlt _]. lia.
  - destruct (nth_error full_text n) as [c|] eqn:Ec.
    2:{ apply nth_error_None in Ec. lia. }
    simpl. destruct (Ascii.eqb c REPLACEMENT_CHAR_PIPE) eqn:Eq; simpl.
    + apply Ascii.eqb_eq in Eq. subst c.
      destruct IH as [[ge [-> [H1 [H2 H3]]]] | [-> Hnone]]; [lia | |].
      * left. exists ge. split; [reflexivity|]. split; [lia|]. split; [exact H2|].
        intros k Hk1 Hk2. destruct (Nat.eq_dec k n) as [-> | Hne];
          [exact Ec | apply H3; lia].
      * right. split; [reflexivity|]. intros ge [H1 [[c [Hc Hcp]] H3]].
        destruct (Nat.eq_dec ge n) as [-> | Hne]; [congruence|].
        apply (Hnone ge). split; [lia|]. split; [now exists c|].
        intros k Hk1 Hk2. apply H3; lia.
    + apply Ascii.eqb_neq in Eq. left. exists n. split; [reflexivity|].
      split; [lia|]. split; [now exists c|]. intros k Hk1 Hk2. lia.
Qed.

Lemma group_end_spec_fun full_text dollar_abs ge ge' :
  group_end_spec full_text dollar_abs ge ->
  group_end_spec full_text dollar_abs ge' -> ge = ge'.
Proof.
  intros [H1 [[c [Hc Hcp]] H3]] [H1' [[c' [Hc' Hcp']] H3']].
  destruct (Nat.lt_trichotomy ge ge') as [Hlt | [Heq | Hgt]]; [|exact Heq|].
  - rewrite (H3 ge' Hlt H1') in Hc'. congruence.
  - rewrite (H3' ge Hgt H1) in Hc. congruence.
Qed.

Lemma every_other_even (t : text) : even_chars_of t (every_other t).
Proof.
  unfold even_chars_of.
  assert (Hboth : forall n (u : text), length u <= n ->
            forall k, nth_error (every_other u) k = nth_error u (2 * k)).
  { induction n as [|n IH]; intros u Hu k.
    - destruct u; [|simpl in Hu; lia]. simpl. now destruct k.
    - destruct u as [|a [|b u]].
      + simpl. now destruct k.
      + destruct k as [|k]; [reflexivity|]. simpl.
        replace (k + S (k + 0)) with (S (2 * k)) by lia. simpl. now destruct k.
      + destruct k as [|k]; [reflexivity|].
        change (every_other (a :: b :: u)) with (a :: every_other u).
        replace (2 * S k) with (S (S (2 * k))) by lia. simpl nth_error at 1 2.
        apply IH. simpl in Hu. lia. }
  intros k. now apply (Hboth (length t)).
Qed.

Lemma lstrip_spec (t : text) :
  exists l, t = l ++ lstrip t /\ forallb py_isspace l = true
            /\ forall c, hd_error (lstrip t) = Some c -> py_isspace c = false.
Proof.
  induction t as [|c t [l [Ht [Hl Hh]]]]; simpl.
  - exists []. split; [reflexivity|]. split; [reflexivity | discriminate].
  - destruct (py_isspace c) eqn:Ec.
    + exists (c :: l). split; [simpl; now f_equal|]. split; [|exact Hh].
      simpl. now rewrite Ec.
    + exists []. split; [reflexivity|]. split; [reflexivity|].
      simpl. intros c' [= <-]. exact Ec.
Qed.

Lemma forallb_rev {A : Type} (f : A -> bool) (l : list A) :
  forallb f (rev l) = forallb f l.
Proof.
  induction l as [|x l IH]; simpl; [reflexivity|].
  rewrite forallb_app, IH. simpl. rewrite andb_true_r. apply andb_comm.
Qed.

Lemma strip_trimmed (t : text) : trimmed_of t (strip t).
Proof.
  unfold trimmed_of, strip.
  destruct (lstrip_spec t) as [l [Ht [Hl Hh]]].
  destruct (lstrip_spec (rev (lstrip t))) as [r [Hr [Hrs Hrh]]].
  set (u := lstrip (rev (lstrip t))) in *.
  assert (Hmid : lstrip t = rev u ++ rev r).
  { rewrite <- rev_app_distr, <- Hr. symmetry. apply rev_involutive. }
  exists l, (rev r). split; [rewrite <- Hmid; exact Ht|]. split; [exact Hl|].
  split; [now rewrite forallb_rev|]. split.
  - intros c Hc. apply Hh. rewrite Hmid.
    destruct (rev u) as [|x xs]; [discriminate | exact Hc].
  - rewrite rev_involutive. exact Hrh.
Qed.

Lemma block_start_le_length (session_bytes : list byte) :
  block_start_abs_of session_bytes <= length session_bytes.
Proof.
  unfold block_start_abs_of.
  destruct (Py.find session_bytes (bytes_of "}") 0) as [i|] eqn:E; [|lia].
  apply find_le_length in E. simpl in E. lia.
Qed.

Lemma block_within_full (session_bytes : list byte) :
  block_start_abs_of session_bytes
  + length (session_tab_group_block_text_of session_bytes)
  <= length (display session_bytes).
Proof.
  pose proof (block_start_le_length session_bytes) as Hb.
  pose proof (first_http_le_length session_bytes) as Hh.
  unfold display at 1. rewrite length_map.
  destruct (block_text_cases session_bytes) as [[Hlt ->] | [Hge ->]].
  - rewrite length_firstn, length_skipn. unfold display. rewrite length_map. lia.
  - simpl. lia.
Qed.

Lemma detected_position_bound block_start_abs block_text d p :
  detected_ok block_start_abs block_text d ->
  In p (Detected.PositionsRelInBlock d) ->
  p + TAG_LENGTH_CHARS <= length block_text.
Proof.
  intros [[rel_pos Hc] [Hps _]] Hp.
  apply find_non_overlapping_greedy in Hps.
  pose proof (greedy_occurs _ _ _ _ Hps p Hp) as Ho.
  apply occurs_at_bound in Ho.
  rewrite (tag_candidate_length _ _ _ Hc) in Ho. exact Ho.
Qed.

Lemma reconstruct_one_spec :
  forall (session_bytes : list byte) detected d,
    detect_tags (block_start_abs_of session_bytes)
                (session_tab_group_block_text_of session_bytes) = Some detected ->
    In d detected ->
    exists second_rel marker,
      nth_error (Detected.PositionsRelInBlock d) 1 = Some second_rel
      /\ marker = presumptive_dollar_rel_of
                    (session_tab_group_block_text_of session_bytes) second_rel
      /\ marker_offset_spec (session_tab_group_block_text_of session_bytes)
                            second_rel marker
      /\ ((exists group_end group_name,
             group_end_spec (display session_bytes)
               (Z.of_nat (block_start_abs_of session_bytes) + marker) group_end
             /\ Detected.TagFirstPosAbs d + TAG_LENGTH_CHARS
                + ADVANCE_AFTER_TAG_TO_GROUP_START <= group_end
             /\ group_name_spec
                  (Py.slice (display session_bytes)
                     (Detected.TagFirstPosAbs d + TAG_LENGTH_CHARS
                      + ADVANCE_AFTER_TAG_TO_GROUP_START) (group_end + 1))
                  group_name
             /\ reconstruct_one (display session_bytes)
                  (session_tab_group_block_text_of session_bytes)
                  (block_start_abs_of session_bytes) d
                = Some (Some (Group.mk (Detected.SessionTabGroupTag d)
                    (Py.slice (display session_bytes)
                       (Detected.TagFirstPosAbs d + TAG_LENGTH_CHARS
                        + ADVANCE_AFTER_TAG_TO_GROUP_START) (group_end + 1))
                    group_name (Detected.TagFirstPosAbs d)
                    (Detected.TagFirstPosAbs d + TAG_LENGTH_CHARS
                     + ADVANCE_AFTER_TAG_TO_GROUP_START) group_end)))
          \/ (reconstruct_one (display session_bytes)
                (session_tab_group_block_text_of session_bytes)
                (block_start_abs_of session_bytes) d = Some None
              /\ ((forall group_end,
                     ~ group_end_spec (display session_bytes)
                         (Z.of_nat (block_start_abs_of session_bytes) + marker)
                         group_end)
                  \/ exists group_end,
                       group_end_spec (display session_bytes)
                         (Z.of_nat (block_start_abs_of session_bytes) + marker)
                         group_end
                       /\ group_end < Detected.TagFirstPosAbs d + TAG_LENGTH_CHARS
                                      + ADVANCE_AFTER_TAG_TO_GROUP_START))).
Proof.
  intros session_bytes detected d Hdet Hd.
  set (bs := block_start_abs_of session_bytes) in *.
  set (block := session_tab_group_block_text_of session_bytes) in *.
  set (full := display session_bytes).
  destruct (detect_tags_spec bs block) as [detected' [Hdet' [Hok _]]].
  rewrite Hdet in Hdet'. injection Hdet' as <-.
  pose proof (Hok d Hd) as Hdok.
  destruct Hdok as [_ [_ [Hlen _]]].
  destruct (Detected.PositionsRelInBlock d) as [|p0 [|second_rel rest]] eqn:Epos;
    try discriminate.
  exists second_rel, (presumptive_dollar_rel_of block second_rel).
  split; [reflexivity|]. split; [reflexivity|].
  pose proof (presumptive_dollar_rel_spec block second_rel) as Hm.
  split; [exact Hm|].
  pose proof (marker_offset_bounds _ _ _ Hm) as Hmb.
  assert (Hin : In second_rel (Detected.PositionsRelInBlock d))
    by (rewrite Epos; right; now left).
  pose proof (detected_position_bound _ _ _ _ (Hok d Hd) Hin) as Hpb.
  pose proof (block_within_full session_bytes) as Hbf.
  fold bs block full in Hbf.
  set (marker := presumptive_dollar_rel_of block second_rel) in *.
  set (gs := Detected.TagFirstPosAbs d + TAG_LENGTH_CHARS
             + ADVANCE_AFTER_TAG_TO_GROUP_START).
  assert (Hn : Z.to_nat (Z.of_nat bs + marker - 1 + 1) <= length full) by lia.
  assert (Hz : Z.of_nat (Z.to_nat (Z.of_nat bs + marker - 1 + 1))
               = (Z.of_nat bs + marker)%Z) by lia.
  unfold reconstruct_one. rewrite Epos.
  change (length (p0 :: second_rel :: rest) <? 2) with false.
  cbn [nth_error bind]. fold marker. fold gs.
  destruct (scan_back_loop_spec full _ Hn) as [[ge [-> Hge]] | [-> Hnone]];
    rewrite Hz in *; cbn [bind].
  - replace (Z.of_nat gs <? 0)%Z with false by (symmetry; apply Z.ltb_ge; lia).
    cbn [orb]. destruct (ge <? gs) eqn:Elt.
    + apply Nat.ltb_lt in Elt. right. split; [reflexivity|]. right. now exists ge.
    + apply Nat.ltb_ge in Elt. left.
      exists ge, (strip (every_other (Py.slice full gs (ge + 1)))).
      split; [exact Hge|]. split; [exact Elt|]. split; [|reflexivity].
      exists (every_other (Py.slice full gs (ge + 1))).
      split; [apply every_other_even | apply strip_trimmed].
  - right. split; [reflexivity|]. left. exact Hnone.
Qed.

(** C6. For every accepted tag: the presumptive marker offset is as
    [marker_offset_spec] says; the group end is the first non-sentinel offset
    scanning backward from the absolute marker offset minus one; the group is
    dropped exactly when there is no such offset or it lies before the group
    start; otherwise the name is the text between the two offsets reduced to
    its even-index characters and trimmed. *)
Theorem group_name_reconstruction_rule :
  forall (session_bytes : list byte) detected d,
    detect_tags (block_start_abs_of session_bytes)
                (session_tab_group_block_text_of session_bytes) = Some detected ->
    In d detected ->
    exists second_rel marker,
      nth_error (Detected.PositionsRelInBlock d) 1 = Some second_rel
      /\ marker = presumptive_dollar_rel_of
                    (session_tab_group_block_text_of session_bytes) second_rel
      /\ marker_offset_spec (session_tab_group_block_text_of session_bytes)
                            second_rel marker
      /\ ((exists group_end group_name,
             group_end_spec (display session_bytes)
               (Z.of_nat (block_start_abs_of session_bytes) + marker) group_end
             /\ Detected.TagFirstPosAbs d + TAG_LENGTH_CHARS
                + ADVANCE_AFTER_TAG_TO_GROUP_START <= group_end
             /\ group_name_spec
                  (Py.slice (display session_bytes)
                     (Detected.TagFirstPosAbs d + TAG_LENGTH_CHARS
                      + ADVANCE_AFTER_TAG_TO_GROUP_START) (group_end + 1))
                  group_name
             /\ reconstruct_one (display session_bytes)
                  (session_tab_group_block_text_of session_bytes)
                  (block_start_abs_of session_bytes) d
                = Some (Some (Group.mk (Detected.SessionTabGroupTag d)
                    (Py.slice (display session_bytes)
                       (Detected.TagFirstPosAbs d + TAG_LENGTH_CHARS
                        + ADVANCE_AFTER_TAG_TO_GROUP_START) (group_end + 1))
                    group_name (Detected.TagFirstPosAbs d)
                    (Detected.TagFirstPosAbs d + TAG_LENGTH_CHARS
                     + ADVANCE_AFTER_TAG_TO_GROUP_START) group_end)))
          \/ (reconstruct_one (display session_bytes)
                (session_tab_group_block_text_of session_bytes)
                (block_start_abs_of session_bytes) d = Some None
              /\ ((forall group_end,
                     ~ group_end_spec (display session_bytes)
                         (Z.of_nat (block_start_abs_of session_bytes) + marker)
                         group_end)
                  \/ exists group_end,
                       group_end_spec (display session_bytes)
                         (Z.of_nat (block_start_abs_of session_bytes) + marker)
                         group_end
                       /\ group_end < Detected.TagFirstPosAbs d + TAG_LENGTH_CHARS
                                      + ADVANCE_AFTER_TAG_TO_GROUP_START))).
Proof. exact reconstruct_one_spec. Qed.

(** ** Assignment engine, step C: the gate *)

Lemma last_error_snoc {A : Type} (l : list A) (x : A) :
  last_error (l ++ [x]) = Some x.
Proof.
  unfold last_error. rewrite length_app. simpl.
  rewrite nth_error_app2 by lia.
  replace (length l + 1 - 1 - length l) with 0 by lia. reflexivity.
Qed.

Lemma last_error_None {A : Type} (l : list A) : last_error l = None -> l = [].
Proof.
  unfold last_error. intros Hn. apply nth_error_None in Hn.
  destruct l; [reflexivity | simpl in Hn; lia].
Qed.

Lemma last_error_In {A : Type} (l : list A) (x : A) :
  last_error l = Some x -> In x l.
Proof. unfold last_error. apply nth_error_In. Qed.

Lemma monotone_rows_snoc rows row :
  monotone_rows rows ->
  (forall r, last_error rows = Some r -> Row.TagEndPos r < Row.URL_StartPos row) ->
  monotone_rows (rows ++ [row]).
Proof.
  intros Hm Hl i r r' Hi Hsi.
  assert (Hlt : S i < length (rows ++ [row]))
    by (apply nth_error_Some; congruence).
  rewrite length_app in Hlt. simpl in Hlt.
  destruct (Nat.eq_dec (S i) (length rows)) as [Heq | Hne].
  - rewrite nth_error_app1 in Hi by lia.
    rewrite nth_error_app2 in Hsi by lia.
    replace (S i - length rows) with 0 in Hsi by lia. injection Hsi as <-.
    apply Hl. unfold last_error. now replace (length rows - 1) with i by lia.
  - rewrite nth_error_app1 in Hi by lia. rewrite nth_error_app1 in Hsi by lia.
    exact (Hm i r r' Hi Hsi).
Qed.

Lemma StronglySorted_snoc {A : Type} (R : A -> A -> Prop) l x :
  StronglySorted R l -> Forall (fun y => R y x) l -> StronglySorted R (l ++ [x]).
Proof.
  induction 1 as [|y l Hs IH Hy]; intros Hall; simpl.
  - constructor; constructor.
  - inversion Hall as [|? ? Hyx Hall']; subst. constructor; [now apply IH|].
    apply Forall_app. split; [exact Hy | now constructor].
Qed.

Lemma StronglySorted_nth {A : Type} (R : A -> A -> Prop) l :
  StronglySorted R l ->
  forall i j x y, i < j -> nth_error l i = Some x -> nth_error l j = Some y -> R x y.
Proof.
  induction 1 as [|z l Hs IH Hz]; intros i j x y Hij Hi Hj.
  - destruct i; discriminate.
  - destruct j as [|j]; [lia|]. simpl in Hj. destruct i as [|i].
    + simpl in Hi. injection Hi as <-.
      rewrite Forall_forall in Hz. apply Hz. eapply nth_error_In; exact Hj.
    + simpl in Hi. eapply IH; [|exact Hi | exact Hj]. lia.
Qed.

Section GateFacts.
Variable session_text_with_pipes : text.
Variable tabs_text_with_pipes : text.
Variable tag_to_groupname : list (text * text).
Variable tag_occurrence_to_assigned_urls : list (text * nat * list Assigned.t).

(** The gate: what one URL of an occurrence does to the state. *)
Lemma url_step_gate tag_text occ_pos tag_end_pos st a :
  tracker_ok st ->
  (url_step session_text_with_pipes tabs_text_with_pipes tag_to_groupname) tag_text
      occ_pos tag_end_pos st a
  = Some
      (match last_error (produced_rows st) with
       | None =>
           mkLoop (consecutive_empty_count_by_tag st) (finished_tags st)
             (produced_rows st ++ [(candidate_row session_text_with_pipes
                 tabs_text_with_pipes tag_to_groupname) tag_text occ_pos tag_end_pos a])
             (Some tag_end_pos) true
       | Some r =>
           if Row.TagEndPos r <? Assigned.u_start a then
             mkLoop (consecutive_empty_count_by_tag st) (finished_tags st)
               (produced_rows st ++ [(candidate_row session_text_with_pipes
                   tabs_text_with_pipes tag_to_groupname) tag_text occ_pos tag_end_pos a])
               (Some tag_end_pos) true
           else st
       end).
Proof.
  unfold tracker_ok, url_step, candidate_row.
  destruct (last_error (produced_rows st)) as [r|].
  - intros [-> ->]. cbn [negb bind]. destruct (Row.TagEndPos r <? Assigned.u_start a);
      reflexivity.
  - intros ->. reflexivity.
Qed.

Lemma rows_inv_weaken lo lo' st : lo <= lo' -> rows_inv lo st -> rows_inv lo' st.
Proof.
  intros Hle [H1 [H2 [H3 [H4 [H5 H6]]]]].
  split; [exact H1|]. split; [exact H2|].
  split; [|split; [exact H4|split; [exact H5 | exact H6]]].
  intros r Hr. specialize (H3 r Hr). lia.
Qed.

Lemma rows_inv_emit occ_pos tag_text st a :
  rows_inv occ_pos st ->
  Assigned.u_start a < occ_pos ->
  (forall r, last_error (produced_rows st) = Some r ->
             Row.TagEndPos r < Assigned.u_start a) ->
  rows_inv occ_pos
    (mkLoop (consecutive_empty_count_by_tag st) (finished_tags st)
       (produced_rows st
        ++ [(candidate_row session_text_with_pipes tabs_text_with_pipes
            tag_to_groupname) tag_text occ_pos (occ_pos + length tag_text) a])
       (Some (occ_pos + length tag_text)) true).
Proof.
  intros [Ht [Hu [Ho [Hs [Hm He]]]]] Ha Hgate. unfold rows_inv. cbn [produced_rows
    prev_accepted_tag_end_pos first_row_written].
  assert (Hold : forall r, In r (produced_rows st) ->
                           Row.URL_StartPos r < Assigned.u_start a).
  { intros r Hr. unfold tracker_ok in Ht.
    destruct (last_error (produced_rows st)) as [rl|] eqn:El.
    - destruct Ht as [_ Hp]. specialize (Hu r _ Hr Hp).
      specialize (Hgate rl eq_refl). lia.
    - apply last_error_None in El. rewrite El in Hr. destruct Hr. }
  split; [|split; [|split; [|split; [|split]]]].
  - unfold tracker_ok. cbn [produced_rows first_row_written
      prev_accepted_tag_end_pos]. rewrite last_error_snoc. split; reflexivity.
  - intros r p Hr [= <-]. apply in_app_or in Hr as [Hr | [<- | []]].
    + specialize (Hold r Hr). lia.
    + simpl. lia.
  - intros r Hr. apply in_app_or in Hr as [Hr | [<- | []]]; [now apply Ho|].
    simpl. lia.
  - apply StronglySorted_snoc; [exact Hs|]. apply Forall_forall. intros r Hr.
    split; [simpl; now apply Ho | simpl; now apply Hold].
  - apply monotone_rows_snoc; [exact Hm | exact Hgate].
  - intros r Hr. apply in_app_or in Hr as [Hr | [<- | []]]; [now apply He|].
    reflexivity.
Qed.

Lemma url_step_inv occ_pos tag_text st a :
  rows_inv occ_pos st ->
  Assigned.u_start a < occ_pos ->
  exists st',
    (url_step session_text_with_pipes tabs_text_with_pipes tag_to_groupname) tag_text
        occ_pos (occ_pos + length tag_text) st a = Some st'
    /\ rows_inv occ_pos st'
    /\ consecutive_empty_count_by_tag st' = consecutive_empty_count_by_tag st
    /\ finished_tags st' = finished_tags st
    /\ (forall r, In r (produced_rows st') ->
                  In r (produced_rows st) \/ Row.TagText r = tag_text).
Proof.
  intros Hinv Ha. pose proof Hinv as [Ht _].
  rewrite (url_step_gate tag_text occ_pos (occ_pos + length tag_text) st a Ht).
  eexists. split; [reflexivity|].
  destruct (last_error (produced_rows st)) as [rl|] eqn:El.
  - destruct (Row.TagEndPos rl <? Assigned.u_start a) eqn:Eg.
    + apply Nat.ltb_lt in Eg. split; [|split; [reflexivity|split; [reflexivity|]]].
      * apply rows_inv_emit; [exact Hinv | exact Ha |].
        intros r Hr. rewrite El in Hr. injection Hr as <-. exact Eg.
      * cbn [produced_rows]. intros r Hr.
        apply in_app_or in Hr as [Hr | [<- | []]]; [now left | now right].
    + split; [exact Hinv|]. split; [reflexivity|]. split; [reflexivity|].
      intros r Hr. now left.
  - split; [|split; [reflexivity|split; [reflexivity|]]].
    + apply rows_inv_emit; [exact Hinv | exact Ha |].
      intros r Hr. rewrite El in Hr. discriminate.
    + cbn [produced_rows]. intros r Hr.
      apply in_app_or in Hr as [Hr | [<- | []]]; [now left | now right].
Qed.

Lemma url_fold_inv occ_pos tag_text : forall l st,
  rows_inv occ_pos st ->
  (forall a, In a l -> Assigned.u_start a < occ_pos) ->
  exists st',
    foldM ((url_step session_text_with_pipes tabs_text_with_pipes tag_to_groupname)
        tag_text occ_pos (occ_pos + length tag_text)) l st = Some st'
    /\ rows_inv occ_pos st'
    /\ consecutive_empty_count_by_tag st' = consecutive_empty_count_by_tag st
    /\ finished_tags st' = finished_tags st
    /\ (forall r, In r (produced_rows st') ->
                  In r (produced_rows st) \/ Row.TagText r = tag_text).
Proof.
  induction l as [|a l IH]; intros st Hinv Hl; simpl.
  - exists st. repeat (split; [auto|]). intros r Hr. now left.
  - destruct (url_step_inv occ_pos tag_text st a Hinv) as [st1 [Hs [Hinv1 [Hc1 [Hf1
      Hr1]]]]];
      [apply Hl; now left|].
    rewrite Hs. simpl.
    destruct (IH st1 Hinv1) as [st2 [Hs2 [Hinv2 [Hc2 [Hf2 Hr2]]]]];
      [intros; apply Hl; now right|].
    exists st2. split; [exact Hs2|]. split; [exact Hinv2|].
    split; [congruence|]. split; [congruence|].
    intros r Hr. apply Hr2 in Hr as [Hr | Hr]; [apply Hr1 in Hr; exact Hr | now right].
Qed.
End GateFacts.

(** ** Assignment engine, step C: the per-tag termination rule *)

Lemma foldM_app {S X : Type} (f : S -> X -> option S) (l1 l2 : list X) (s : S) :
  foldM f (l1 ++ l2) s = (s1 <- foldM f l1 s ;; foldM f l2 s1).
Proof.
  revert s; induction l1 as [|x l1 IH]; intros s; simpl; [reflexivity|].
  destruct (f s x) as [s'|]; simpl; [apply IH | reflexivity].
Qed.

Section TerminationFacts.
Variable session_text_with_pipes : text.
Variable tabs_text_with_pipes : text.
Variable tag_to_groupname : list (text * text).
Variable tag_occurrence_to_assigned_urls : list (text * nat * list Assigned.t).

(** A URL step touches neither the counters nor the finished set, and the
    only row it can append carries the tag of the occurrence. *)
Lemma url_step_frame tag_text occ_pos tag_end_pos st a st' :
  (url_step session_text_with_pipes tabs_text_with_pipes tag_to_groupname) tag_text
      occ_pos tag_end_pos st a = Some st' ->
  consecutive_empty_count_by_tag st' = consecutive_empty_count_by_tag st
  /\ finished_tags st' = finished_tags st
  /\ exists new_rows, produced_rows st' = produced_rows st ++ new_rows
                      /\ forall r, In r new_rows -> Row.TagText r = tag_text.
Proof.
  unfold url_step. destruct (negb (first_row_written st)).
  - intros [= <-]. cbn. split; [reflexivity|]. split; [reflexivity|].
    eexists. split; [reflexivity|]. intros r [<- | []]. reflexivity.
  - destruct (prev_accepted_tag_end_pos st) as [prev|]; [|discriminate].
    cbn [bind]. destruct (prev <? Assigned.u_start a).
    + intros [= <-]. cbn. split; [reflexivity|]. split; [reflexivity|].
      eexists. split; [reflexivity|]. intros r [<- | []]. reflexivity.
    + intros [= <-]. split; [reflexivity|]. split; [reflexivity|].
      exists []. split; [now rewrite app_nil_r | intros r []].
Qed.

Lemma url_fold_frame tag_text occ_pos tag_end_pos : forall l st st',
  foldM ((url_step session_text_with_pipes tabs_text_with_pipes tag_to_groupname)
      tag_text occ_pos tag_end_pos) l st = Some st' ->
  consecutive_empty_count_by_tag st' = consecutive_empty_count_by_tag st
  /\ finished_tags st' = finished_tags st
  /\ exists new_rows, produced_rows st' = produced_rows st ++ new_rows
                      /\ forall r, In r new_rows -> Row.TagText r = tag_text.
Proof.
  induction l as [|a l IH]; intros st st'; simpl.
  - intros [= <-]. split; [reflexivity|]. split; [reflexivity|].
    exists []. split; [now rewrite app_nil_r | intros r []].
  - destruct ((url_step session_text_with_pipes tabs_text_with_pipes tag_to_groupname)
      tag_text occ_pos tag_end_pos st a) as [st1|] eqn:E;
      [|discriminate].
    cbn [bind]. intros Hf. apply url_step_frame in E as [Hc [Hfin [n1 [Hr1 Ht1]]]].
    apply IH in Hf as [Hc2 [Hfin2 [n2 [Hr2 Ht2]]]].
    split; [congruence|]. split; [congruence|].
    exists (n1 ++ n2). split; [rewrite Hr2, Hr1, app_assoc; reflexivity|].
    intros r Hr. apply in_app_or in Hr as [Hr | Hr]; auto.
Qed.

(** The three ways through the body of the occurrence loop. *)
Lemma occ_step_skip st occ_pos tag_text :
  is_finished tag_text st = true ->
  (occ_step session_text_with_pipes tabs_text_with_pipes tag_to_groupname
       tag_occurrence_to_assigned_urls) st (occ_pos, tag_text) = Some st.
Proof.
  unfold is_finished, occ_step. intros ->. reflexivity.
Qed.

Lemma occ_step_empty st occ_pos tag_text :
  is_finished tag_text st = false ->
  (Dict.get key_eqb (tag_text, occ_pos) tag_occurrence_to_assigned_urls []) = [] ->
  (occ_step session_text_with_pipes tabs_text_with_pipes tag_to_groupname
       tag_occurrence_to_assigned_urls) st (occ_pos, tag_text)
  = (count <- Dict.lookup text_eqb tag_text (consecutive_empty_count_by_tag st) ;;
     Some (mkLoop
             (Dict.set text_eqb tag_text (count + 1)
                       (consecutive_empty_count_by_tag st))
             (if 2 <=? count + 1 then tag_text :: finished_tags st
              else finished_tags st)
             (produced_rows st) (prev_accepted_tag_end_pos st)
             (first_row_written st))).
Proof.
  unfold is_finished, occ_step. intros -> ->. reflexivity.
Qed.

Lemma occ_step_assigned st occ_pos tag_text :
  is_finished tag_text st = false ->
  (Dict.get key_eqb (tag_text, occ_pos) tag_occurrence_to_assigned_urls []) <> [] ->
  (occ_step session_text_with_pipes tabs_text_with_pipes tag_to_groupname
       tag_occurrence_to_assigned_urls) st (occ_pos, tag_text)
  = foldM ((url_step session_text_with_pipes tabs_text_with_pipes tag_to_groupname)
      tag_text occ_pos (occ_pos + length tag_text))
          (sort_by Assigned.u_start ((Dict.get key_eqb (tag_text, occ_pos)
              tag_occurrence_to_assigned_urls [])))
          (mkLoop (Dict.set text_eqb tag_text 0 (consecutive_empty_count_by_tag st))
                  (finished_tags st) (produced_rows st)
                  (prev_accepted_tag_end_pos st) (first_row_written st)).
Proof.
  unfold is_finished, occ_step. intros -> Hne.
  destruct (Dict.get key_eqb (tag_text, occ_pos) tag_occurrence_to_assigned_urls [])
    as [|a l]; [congruence | reflexivity].
Qed.

Lemma is_finished_In tag st : is_finished tag st = true <-> In tag (finished_tags st).
Proof. apply existsb_text_eqb. Qed.

(** What any pass through the body does to the state of a tag [tag]. *)
Lemma occ_step_frame st occ_pos tag_text st' :
  (occ_step session_text_with_pipes tabs_text_with_pipes tag_to_groupname
       tag_occurrence_to_assigned_urls) st (occ_pos, tag_text) = Some st' ->
  (forall t, In t (finished_tags st) -> In t (finished_tags st'))
  /\ (forall t, t <> tag_text ->
        Dict.lookup text_eqb t (consecutive_empty_count_by_tag st')
        = Dict.lookup text_eqb t (consecutive_empty_count_by_tag st)
        /\ is_finished t st' = is_finished t st)
  /\ exists new_rows,
       produced_rows st' = produced_rows st ++ new_rows
       /\ forall r, In r new_rows ->
                    Row.TagText r = tag_text /\ is_finished tag_text st = false.
Proof.
  intros Hs. destruct (is_finished tag_text st) eqn:Efin.
  - rewrite occ_step_skip in Hs by exact Efin. injection Hs as <-.
    split; [auto|]. split; [auto|]. exists []. split; [now rewrite app_nil_r|].
    intros r [].
  - destruct ((Dict.get key_eqb (tag_text, occ_pos) tag_occurrence_to_assigned_urls
      [])) as [|a0 l0] eqn:Ea.
    + rewrite occ_step_empty in Hs by assumption.
      destruct (Dict.lookup text_eqb tag_text (consecutive_empty_count_by_tag st))
        as [count|]; [|discriminate].
      cbn [bind] in Hs. remember (2 <=? count + 1) as fin eqn:Efb.
      injection Hs as <-. unfold is_finished.
      cbn [finished_tags consecutive_empty_count_by_tag produced_rows].
      split; [|split].
      * intros t Ht. destruct fin; [now right | exact Ht].
      * intros t Hne. split.
        -- apply (lookup_set_ne text_eqb text_eqb_eq). congruence.
        -- destruct fin; [|reflexivity].
           cbn [existsb]. destruct (text_eqb t tag_text) eqn:Et; [|reflexivity].
           apply text_eqb_eq in Et. contradiction.
      * exists []. split; [now rewrite app_nil_r | intros r []].
    + rewrite occ_step_assigned in Hs; [|exact Efin | rewrite Ea; discriminate].
      apply url_fold_frame in Hs as [Hc [Hf [new_rows [Hr Ht]]]]. cbn in Hc, Hf, Hr.
      split; [|split].
      * intros t Hin. rewrite Hf. exact Hin.
      * intros t Hne. split.
        -- rewrite Hc. apply (lookup_set_ne text_eqb text_eqb_eq). congruence.
        -- unfold is_finished. rewrite Hf. reflexivity.
      * exists new_rows. split; [exact Hr|]. intros r Hin. split; [now apply Ht |
          reflexivity].
Qed.

(** Once a tag is finished, no run adds a row of it, and it stays finished. *)
Lemma finished_is_final tag : forall occs st st',
  is_finished tag st = true ->
  (run_occurrences session_text_with_pipes tabs_text_with_pipes tag_to_groupname
       tag_occurrence_to_assigned_urls) occs st = Some st' ->
  is_finished tag st' = true /\ no_new_rows_of tag st st'.
Proof.
  unfold run_occurrences.
  induction occs as [|[occ_pos tag_text] occs IH]; intros st st' Hfin; cbn [foldM].
  - intros [= <-]. split; [exact Hfin|]. exists []. split; [now rewrite app_nil_r|].
    intros r [].
  - destruct ((occ_step session_text_with_pipes tabs_text_with_pipes tag_to_groupname
       tag_occurrence_to_assigned_urls) st (occ_pos, tag_text)) as [st1|] eqn:E;
           [|discriminate].
    cbn [bind]. intros Hrun.
    pose proof (occ_step_frame _ _ _ _ E) as [Hmono [_ [n1 [Hr1 Ht1]]]].
    assert (Hfin1 : is_finished tag st1 = true).
    { apply is_finished_In, Hmono, is_finished_In, Hfin. }
    destruct (IH st1 st' Hfin1 Hrun) as [Hfin' [n2 [Hr2 Ht2]]].
    split; [exact Hfin'|]. exists (n1 ++ n2).
    split; [rewrite Hr2, Hr1, app_assoc; reflexivity|].
    intros r Hr. apply in_app_or in Hr as [Hr | Hr]; [|now apply Ht2].
    destruct (Ht1 r Hr) as [Htag Hnf]. intros Heq. rewrite Htag in Heq.
    subst tag_text. congruence.
Qed.

(** Occurrences of other tags leave the counter and the status of [tag]. *)
Lemma others_keep_tag_state tag : forall occs st st',
  (forall o, In o occs -> snd o <> tag) ->
  (run_occurrences session_text_with_pipes tabs_text_with_pipes tag_to_groupname
       tag_occurrence_to_assigned_urls) occs st = Some st' ->
  Dict.lookup text_eqb tag (consecutive_empty_count_by_tag st')
  = Dict.lookup text_eqb tag (consecutive_empty_count_by_tag st)
  /\ is_finished tag st' = is_finished tag st.
Proof.
  unfold run_occurrences.
  induction occs as [|[occ_pos tag_text] occs IH]; intros st st' Hoth; cbn [foldM].
  - intros [= <-]. split; reflexivity.
  - destruct ((occ_step session_text_with_pipes tabs_text_with_pipes tag_to_groupname
       tag_occurrence_to_assigned_urls) st (occ_pos, tag_text)) as [st1|] eqn:E;
           [|discriminate].
    cbn [bind]. intros Hrun.
    pose proof (occ_step_frame _ _ _ _ E) as [_ [Hkeep _]].
    destruct (Hkeep tag) as [Hc Hf].
    { intros ->. apply (Hoth (occ_pos, tag_text)); [now left | reflexivity]. }
    destruct (IH st1 st') as [Hc' Hf']; [intros; apply Hoth; now right | exact Hrun |].
    split; congruence.
Qed.

Lemma others_add_no_rows tag : forall occs st st',
  (forall o, In o occs -> snd o <> tag) ->
  (run_occurrences session_text_with_pipes tabs_text_with_pipes tag_to_groupname
       tag_occurrence_to_assigned_urls) occs st = Some st' ->
  no_new_rows_of tag st st'.
Proof.
  unfold run_occurrences.
  induction occs as [|[occ_pos tag_text] occs IH]; intros st st' Hoth; cbn [foldM].
  - intros [= <-]. exists []. split; [now rewrite app_nil_r | intros r []].
  - destruct ((occ_step session_text_with_pipes tabs_text_with_pipes tag_to_groupname
       tag_occurrence_to_assigned_urls) st (occ_pos, tag_text)) as [st1|] eqn:E;
           [|discriminate].
    cbn [bind]. intros Hrun.
    pose proof (occ_step_frame _ _ _ _ E) as [_ [_ [n1 [Hr1 Ht1]]]].
    destruct (IH st1 st') as [n2 [Hr2 Ht2]];
      [intros; apply Hoth; now right | exact Hrun |].
    exists (n1 ++ n2). split; [rewrite Hr2, Hr1, app_assoc; reflexivity|].
    intros r Hr. apply in_app_or in Hr as [Hr | Hr]; [|now apply Ht2].
    destruct (Ht1 r Hr) as [-> _]. apply (Hoth (occ_pos, tag_text)). now left.
Qed.

(** Two eligible occurrences of [tag] in a row without assigned URLs
    finish the tag. *)
Lemma two_empty_finish tag p1 p2 mid st st' :
  (Dict.get key_eqb (tag, p1) tag_occurrence_to_assigned_urls []) = [] -> (Dict.get
      key_eqb (tag, p2) tag_occurrence_to_assigned_urls []) = [] ->
  (forall o, In o mid -> snd o <> tag) ->
  (run_occurrences session_text_with_pipes tabs_text_with_pipes tag_to_groupname
       tag_occurrence_to_assigned_urls) ((p1, tag) :: mid ++ [(p2, tag)]) st = Some st' ->
  is_finished tag st' = true /\ no_new_rows_of tag st st'.
Proof.
  intros Ha1 Ha2 Hmid Hrun.
  destruct (is_finished tag st) eqn:Efin.
  { eapply finished_is_final; eassumption. }
  unfold run_occurrences in Hrun. cbn [foldM] in Hrun.
  rewrite occ_step_empty in Hrun by assumption.
  destruct (Dict.lookup text_eqb tag (consecutive_empty_count_by_tag st))
    as [count|] eqn:Ecount; [|discriminate].
  cbn [bind] in Hrun.
  set (st1 := mkLoop _ _ _ _ _) in Hrun.
  assert (Hrows1 : produced_rows st1 = produced_rows st) by reflexivity.
  assert (Hlift : forall st'', no_new_rows_of tag st1 st'' ->
                               no_new_rows_of tag st st'').
  { intros st'' [n [Hn Ht]]. exists n. rewrite <- Hrows1. now split. }
  destruct (2 <=? count + 1) eqn:E2.
  { assert (Hf1 : is_finished tag st1 = true).
    { unfold is_finished, st1. cbn [finished_tags existsb].
      now rewrite text_eqb_refl. }
    destruct (finished_is_final tag _ _ _ Hf1 Hrun) as [Hf' Hn].
    split; [exact Hf' | now apply Hlift]. }
  assert (Hf1 : is_finished tag st1 = false).
  { unfold is_finished, st1. cbn [finished_tags]. exact Efin. }
  assert (Hc1 : Dict.lookup text_eqb tag (consecutive_empty_count_by_tag st1)
                = Some (count + 1)).
  { unfold st1. cbn [consecutive_empty_count_by_tag].
    apply (lookup_set_eq text_eqb text_eqb_eq). }
  change (foldM (occ_step session_text_with_pipes tabs_text_with_pipes tag_to_groupname
       tag_occurrence_to_assigned_urls) (mid ++ [(p2, tag)]) st1 = Some st') in Hrun.
  rewrite foldM_app in Hrun.
  destruct (foldM (occ_step session_text_with_pipes tabs_text_with_pipes tag_to_groupname
       tag_occurrence_to_assigned_urls) mid st1) as [st2|] eqn:Emid; [|discriminate].
  change ((run_occurrences session_text_with_pipes tabs_text_with_pipes tag_to_groupname
       tag_occurrence_to_assigned_urls) mid st1 = Some st2) in Emid.
  cbn [bind foldM] in Hrun.
  destruct (others_keep_tag_state tag mid st1 st2 Hmid Emid) as [Hc2 Hf2].
  rewrite Hc1 in Hc2. rewrite Hf1 in Hf2.
  pose proof (others_add_no_rows tag mid st1 st2 Hmid Emid) as Hn2.
  rewrite occ_step_empty in Hrun by assumption.
  rewrite Hc2 in Hrun. cbn [bind] in Hrun.
  replace (2 <=? count + 1 + 1) with true in Hrun
    by (symmetry; apply Nat.leb_le; lia).
  injection Hrun as <-.
  split.
  - unfold is_finished. cbn [finished_tags existsb]. now rewrite text_eqb_refl.
  - apply Hlift. destruct Hn2 as [n [Hn Ht]]. exists n.
    cbn [produced_rows]. now split.
Qed.
End TerminationFacts.

(** ** Assignment engine, step C: the whole pass *)

Section RunFacts.
Variable session_text_with_pipes : text.
Variable tabs_text_with_pipes : text.
Variable tag_to_groupname : list (text * text).
Variable tag_occurrence_to_assigned_urls : list (text * nat * list Assigned.t).
Hypothesis Hassigned : assigned_before tag_occurrence_to_assigned_urls.

Lemma rows_inv_ext lo st st' :
  rows_inv lo st ->
  produced_rows st' = produced_rows st ->
  prev_accepted_tag_end_pos st' = prev_accepted_tag_end_pos st ->
  first_row_written st' = first_row_written st ->
  rows_inv lo st'.
Proof.
  unfold rows_inv, tracker_ok. intros Hinv -> -> ->. exact Hinv.
Qed.

Lemma has_key_set t tag v counts :
  has_key t counts -> has_key t (Dict.set text_eqb tag v counts).
Proof.
  intros [c Hc]. unfold has_key. rewrite (lookup_set text_eqb text_eqb_eq).
  destruct (text_eqb tag t); eauto.
Qed.

Lemma occ_step_inv lo st occ_pos tag_text :
  rows_inv lo st -> lo <= occ_pos ->
  has_key tag_text (consecutive_empty_count_by_tag st) ->
  exists st',
    (occ_step session_text_with_pipes tabs_text_with_pipes tag_to_groupname
       tag_occurrence_to_assigned_urls) st (occ_pos, tag_text) = Some st'
    /\ rows_inv occ_pos st'
    /\ forall t, has_key t (consecutive_empty_count_by_tag st) ->
                 has_key t (consecutive_empty_count_by_tag st').
Proof.
  intros Hinv Hlo [count Hcount].
  apply (rows_inv_weaken lo occ_pos st Hlo) in Hinv.
  destruct (is_finished tag_text st) eqn:Efin.
  { exists st. rewrite occ_step_skip by exact Efin. auto. }
  destruct (Dict.get key_eqb (tag_text, occ_pos) tag_occurrence_to_assigned_urls [])
    as [|a0 l0] eqn:Ea.
  - rewrite occ_step_empty by assumption. rewrite Hcount. cbn [bind].
    eexists. split; [reflexivity|]. split.
    + eapply rows_inv_ext; [exact Hinv | reflexivity..].
    + intros t Ht. cbn [consecutive_empty_count_by_tag]. now apply has_key_set.
  - rewrite occ_step_assigned; [|exact Efin | rewrite Ea; discriminate].
    set (st0 := mkLoop _ _ _ _ _).
    assert (Hinv0 : rows_inv occ_pos st0)
      by (eapply rows_inv_ext; [exact Hinv | reflexivity..]).
    destruct (url_fold_inv session_text_with_pipes tabs_text_with_pipes
                tag_to_groupname occ_pos tag_text
                (sort_by Assigned.u_start
                   (Dict.get key_eqb (tag_text, occ_pos)
                      tag_occurrence_to_assigned_urls [])) st0 Hinv0)
      as [st' [Hf [Hinv' [Hc [_ _]]]]].
    { intros a Ha. apply sort_by_In in Ha.
      exact (Hassigned (tag_text, occ_pos) a Ha). }
    exists st'. split; [exact Hf|]. split; [exact Hinv'|].
    intros t Ht. rewrite Hc. unfold st0. cbn [consecutive_empty_count_by_tag].
    now apply has_key_set.
Qed.

Lemma run_inv : forall occs lo st,
  StronglySorted (fun x y : nat * text => fst x <= fst y) occs ->
  (forall o, In o occs ->
             lo <= fst o /\ has_key (snd o) (consecutive_empty_count_by_tag st)) ->
  rows_inv lo st ->
  exists st' lo', (run_occurrences session_text_with_pipes tabs_text_with_pipes
      tag_to_groupname
       tag_occurrence_to_assigned_urls) occs st = Some st' /\ rows_inv lo' st'.
Proof.
  unfold run_occurrences.
  induction occs as [|[occ_pos tag_text] occs IH]; intros lo st Hs Hocc Hinv;
    cbn [foldM].
  - exists st, lo. split; [reflexivity | exact Hinv].
  - inversion Hs as [|? ? Hs' Hhd]; subst.
    destruct (Hocc (occ_pos, tag_text) (or_introl eq_refl)) as [Hlo Hkey].
    cbn [fst snd] in Hlo, Hkey.
    destruct (occ_step_inv lo st occ_pos tag_text Hinv Hlo Hkey)
      as [st1 [Hstep [Hinv1 Hkeys]]].
    rewrite Hstep. cbn [bind].
    apply (IH occ_pos st1 Hs'); [|exact Hinv1].
    intros o Ho. split.
    + rewrite Forall_forall in Hhd. exact (Hhd o Ho).
    + apply Hkeys. apply Hocc. now right.
Qed.
End RunFacts.

Lemma rows_inv_initial session_tags_and_groups :
  rows_inv 0 (initial_state session_tags_and_groups).
Proof.
  unfold rows_inv, initial_state, tracker_ok. cbn.
  split; [reflexivity|]. split; [intros r p []|]. split; [intros r []|].
  split; [constructor|]. split; [|intros r []].
  intros i r r' Hi. destruct i; discriminate.
Qed.

(** ** [bisect_right] on a sorted list *)

Lemma half_between lo hi : lo < hi -> lo <= (lo + hi) / 2 /\ (lo + hi) / 2 < hi.
Proof.
  intros Hlt. pose proof (Nat.div_mod_eq (lo + hi) 2) as Hd.
  pose proof (Nat.mod_upper_bound (lo + hi) 2 ltac:(lia)) as Hm. lia.
Qed.

Lemma bisect_right_loop_spec (a : list nat) (x : nat) : forall fuel lo hi,
  sorted_nat a -> lo <= hi -> hi <= length a -> hi - lo <= fuel ->
  (forall i v, i < lo -> nth_error a i = Some v -> v <= x) ->
  (forall i v, hi <= i -> nth_error a i = Some v -> x < v) ->
  let idx := bisect_right_loop fuel a x lo hi in
  idx <= length a
  /\ (forall i v, i < idx -> nth_error a i = Some v -> v <= x)
  /\ (forall i v, idx <= i -> nth_error a i = Some v -> x < v).
Proof.
  induction fuel as [|fuel IH]; intros lo hi Hs Hle Hhi Hf Hlow Hhigh; cbv zeta.
  - assert (lo = hi) by lia. subst hi. simpl.
    rewrite Nat.ltb_irrefl. split; [lia|]. split; assumption.
  - cbn [bisect_right_loop]. destruct (lo <? hi) eqn:E.
    2:{ apply Nat.ltb_ge in E. assert (lo = hi) by lia. subst hi.
        split; [lia|]. split; assumption. }
    apply Nat.ltb_lt in E. destruct (half_between lo hi E) as [Hm1 Hm2].
    set (mid := (lo + hi) / 2) in *.
    destruct (nth_error a mid) as [v|] eqn:Ev.
    2:{ apply nth_error_None in Ev. lia. }
    destruct (x <? v) eqn:Ex.
    + apply Nat.ltb_lt in Ex. apply IH; try assumption; try lia.
      intros i w Hi Hw. pose proof (Hs mid i v w Hi Ev Hw). lia.
    + apply Nat.ltb_ge in Ex. apply IH; try assumption; try lia.
      intros i w Hi Hw. pose proof (Hs i mid w v ltac:(lia) Hw Ev). lia.
Qed.

Lemma bisect_right_spec (a : list nat) (x : nat) :
  sorted_nat a ->
  forall v, nth_error a (bisect_right a x) = Some v -> x < v.
Proof.
  intros Hs v Hv. unfold bisect_right in Hv.
  destruct (bisect_right_loop_spec a x (length a) 0 (length a) Hs)
    as [_ [_ Hhigh]]; try lia.
  - intros i w Hi Hw. assert (i < length a) by (apply nth_error_Some; congruence). lia.
  - exact (Hhigh _ v (Nat.le_refl _) Hv).
Qed.

Lemma sorted_nat_map_fst (l : list (nat * text)) :
  StronglySorted (fun x y : nat * text => fst x <= fst y) l ->
  sorted_nat (map fst l).
Proof.
  intros Hs i j u v Hij Hi Hj.
  rewrite nth_error_map in Hi, Hj.
  destruct (nth_error l i) as [x|] eqn:Ex; [|discriminate].
  destruct (nth_error l j) as [y|] eqn:Ey; [|discriminate].
  injection Hi as <-. injection Hj as <-.
  destruct (Nat.eq_dec i j) as [-> | Hne];
    [assert (x = y) by congruence; subst; lia|].
  exact (StronglySorted_nth _ _ Hs i j x y ltac:(lia) Ex Ey).
Qed.

(** ** Assignment engine, step A *)

Lemma key_eqb_eq (a b : text * nat) : key_eqb a b = true <-> a = b.
Proof.
  destruct a as [t n], b as [t' n']. unfold key_eqb. cbn [fst snd].
  rewrite andb_true_iff, text_eqb_eq, Nat.eqb_eq. split.
  - intros [-> ->]. reflexivity.
  - intros [= -> ->]. split; reflexivity.
Qed.

Lemma setdefault_append_before key x d :
  Assigned.u_start x < snd key ->
  all_values_before d -> all_values_before (setdefault_append key x d).
Proof.
  intros Hx. induction d as [|[k v] d IH]; intros Hd; simpl.
  - intros k' v' a [[= <- <-] | []] [<- | []]. exact Hx.
  - destruct (key_eqb k key) eqn:E.
    + apply key_eqb_eq in E. subst k. intros k' v' a [[= <- <-] | Hin] Ha.
      * apply in_app_or in Ha as [Ha | [<- | []]]; [|exact Hx].
        eapply Hd; [now left | exact Ha].
      * eapply Hd; [right; exact Hin | exact Ha].
    + intros k' v' a [[= <- <-] | Hin] Ha.
      * eapply Hd; [now left | exact Ha].
      * eapply IH; [|exact Hin | exact Ha].
        intros k2 v2 a2 Hin2. apply Hd. now right.
Qed.

Lemma lookup_In {V : Type} (key : text * nat) (d : list (text * nat * V)) v :
  Dict.lookup key_eqb key d = Some v -> In (key, v) d.
Proof.
  induction d as [|[k w] d IH]; simpl; [discriminate|].
  destruct (key_eqb k key) eqn:E.
  - apply key_eqb_eq in E. subst k. intros [= ->]. now left.
  - intros Hl. right. now apply IH.
Qed.

Lemma all_values_assigned_before d : all_values_before d -> assigned_before d.
Proof.
  intros Hd key a. unfold Dict.get.
  destruct (Dict.lookup key_eqb key d) as [v|] eqn:E; [|intros []].
  intros Ha. apply lookup_In in E. exact (Hd key v a E Ha).
Qed.

Lemma find_first_tag_occurrence_after (combined_positions : list nat)
    (combined_tags : list text) position_abs pos tag :
  sorted_nat combined_positions ->
  find_first_tag_occurrence_after_abs_bisect combined_positions combined_tags
    position_abs = Some (pos, tag) ->
  position_abs < pos.
Proof.
  intros Hs. unfold find_first_tag_occurrence_after_abs_bisect.
  destruct (bisect_right combined_positions position_abs <? length combined_positions);
    [|discriminate].
  destruct (nth_error combined_positions (bisect_right combined_positions position_abs))
    as [p|] eqn:Ep; [|discriminate].
  destruct (nth_error combined_tags (bisect_right combined_positions position_abs))
    as [t|]; [|discriminate].
  intros [= <- <-]. exact (bisect_right_spec _ _ Hs p Ep).
Qed.

Lemma assign_fold_before combined_positions combined_tags :
  sorted_nat combined_positions ->
  forall records d,
    (forall r, In r records ->
               Confirmed.simple_start r <= Confirmed.interleaved_end r) ->
    all_values_before d ->
    all_values_before
      (fold_left (assign_step combined_positions combined_tags) records d).
Proof.
  intros Hs. induction records as [|r records IH]; intros d Hr Hd; simpl; [exact Hd|].
  apply IH; [intros; apply Hr; now right|].
  unfold assign_step.
  destruct (find_first_tag_occurrence_after_abs_bisect combined_positions
              combined_tags (Confirmed.interleaved_end r))
    as [[tag_pos tag_text]|] eqn:E; [|exact Hd].
  apply find_first_tag_occurrence_after in E; [|exact Hs].
  apply setdefault_append_before; [|exact Hd].
  cbn [Assigned.u_start snd]. specialize (Hr r (or_introl eq_refl)). lia.
Qed.

Lemma confirm_url_order full_text url_list s e raw_url r :
  s <= e -> raw_url <> [] ->
  confirm_url full_text url_list (s, e, raw_url) = Some r ->
  Confirmed.simple_start r <= Confirmed.interleaved_end r.
Proof.
  intros Hse Hne Hc.
  pose proof (confirm_url_confirms full_text url_list s e raw_url Hne) as Hcf.
  rewrite Hc in Hcf.
  inversion Hcf as [idx [Hf _] | idx _ _ [Hf _] | ]; subst;
    apply find_some in Hf as [Hle _]; cbn; lia.
Qed.

Lemma confirmed_records_order session_text_with_pipes r :
  In r (confirmed_interleaved_records_of session_text_with_pipes) ->
  Confirmed.simple_start r <= Confirmed.interleaved_end r.
Proof.
  unfold confirmed_interleaved_records_of. intros Hin.
  apply sort_by_In, in_flat_map in Hin as [[[s e] raw_url] [Hm Hr]].
  pose proof (url_finditer_bounds _ _ _ _ Hm) as [H1 [H2 H3]].
  destruct (confirm_url session_text_with_pipes
              (url_finditer session_text_with_pipes) (s, e, raw_url))
    as [r'|] eqn:E; [|destruct Hr].
  destruct Hr as [<- | []].
  apply (confirm_url_order session_text_with_pipes
           (url_finditer session_text_with_pipes) s e raw_url r');
    [lia | | exact E].
  intros ->. simpl in H3. lia.
Qed.

Lemma assigned_urls_before tag_to_all_occurrences session_text_with_pipes :
  assigned_before
    (tag_occurrence_to_assigned_urls_of tag_to_all_occurrences
       (confirmed_interleaved_records_of session_text_with_pipes)).
Proof.
  apply all_values_assigned_before. unfold tag_occurrence_to_assigned_urls_of.
  apply assign_fold_before.
  - apply sorted_nat_map_fst. apply (sort_by_sorted fst).
  - intros r. apply confirmed_records_order.
  - intros k v a [].
Qed.

(** ** The whole core returns *)

Lemma reconstruct_fold (session_bytes : list byte) detected :
  detect_tags (block_start_abs_of session_bytes)
              (session_tab_group_block_text_of session_bytes) = Some detected ->
  forall l acc,
    (forall d, In d l -> In d detected) ->
    exists reconstructed,
      foldM (reconstruct_step (display session_bytes)
               (session_tab_group_block_text_of session_bytes)
               (block_start_abs_of session_bytes)) l acc = Some reconstructed
      /\ forall g, In g reconstructed ->
           In g acc
           \/ exists d, In d detected
                /\ Group.SessionTabGroupTag g = Detected.SessionTabGroupTag d.
Proof.
  intros Hdet. induction l as [|d l IH]; intros acc Hl; cbn [foldM].
  - exists acc. split; [reflexivity | auto].
  - assert (Hd : In d detected) by (apply Hl; now left).
    destruct (reconstruct_one_spec session_bytes detected d Hdet Hd)
      as [second_rel [marker [_ [_ [_ [[ge [name [_ [_ [_ Hr]]]]] | [Hr _]]]]]]];
      unfold reconstruct_step at 1; rewrite Hr; cbn [bind].
    + destruct (IH (acc ++ [Group.mk (Detected.SessionTabGroupTag d)
                    (Py.slice (display session_bytes)
                       (Detected.TagFirstPosAbs d + TAG_LENGTH_CHARS
                        + ADVANCE_AFTER_TAG_TO_GROUP_START) (ge + 1))
                    name (Detected.TagFirstPosAbs d)
                    (Detected.TagFirstPosAbs d + TAG_LENGTH_CHARS
                     + ADVANCE_AFTER_TAG_TO_GROUP_START) ge]))
        as [rec [Hf Hg]]; [intros; apply Hl; now right|].
      exists rec. split; [exact Hf|]. intros g Hin.
      destruct (Hg g Hin) as [Ha | Hex]; [|now right].
      apply in_app_or in Ha as [Ha | [<- | []]]; [now left | right].
      exists d. split; [exact Hd | reflexivity].
    + destruct (IH acc) as [rec [Hf Hg]]; [intros; apply Hl; now right|].
      exists rec. split; [exact Hf | exact Hg].
Qed.

(** The catalogue is built for every buffer, and its tags are tags the
    detector accepted. *)
Lemma session_tags_and_groups_spec (session_bytes : list byte) :
  exists detected groups,
    detect_tags (block_start_abs_of session_bytes)
                (session_tab_group_block_text_of session_bytes) = Some detected
    /\ session_tags_and_groups_of session_bytes = Some groups
    /\ (session_tab_group_block_text_of session_bytes = [] -> groups = [])
    /\ forall g, In g groups ->
         exists d, In d detected
           /\ Group.SessionTabGroupTag g = Detected.SessionTabGroupTag d.
Proof.
  destruct (detect_tags_spec (block_start_abs_of session_bytes)
              (session_tab_group_block_text_of session_bytes))
    as [detected [Hdet _]].
  exists detected. unfold session_tags_and_groups_of.
  destruct (session_tab_group_block_text_of session_bytes) as [|c0 b0] eqn:Eb.
  - exists []. split; [exact Hdet|]. split; [reflexivity|].
    split; [reflexivity | intros g []].
  - rewrite <- Eb in *. rewrite Hdet. cbn [bind].
    destruct (reconstruct_fold session_bytes detected Hdet detected [])
      as [rec [Hf Hg]]; [auto|].
    rewrite Hf. cbn [bind]. eexists. split; [reflexivity|]. split; [reflexivity|].
    split; [rewrite Eb; discriminate|].
    intros g Hin. apply sort_by_In in Hin.
    destruct (Hg g Hin) as [[] | Hex]. exact Hex.
Qed.

Lemma detected_tag_nonempty block_start_abs block_text d :
  detected_ok block_start_abs block_text d -> Detected.SessionTabGroupTag d <> [].
Proof.
  intros [[rel_pos Hc] _]. exact (tag_candidate_nonempty _ _ _ Hc).
Qed.

Lemma group_tags_nonempty (session_bytes : list byte) groups :
  session_tags_and_groups_of session_bytes = Some groups ->
  forall g, In g groups -> Group.SessionTabGroupTag g <> [].
Proof.
  intros Hg g Hin.
  destruct (session_tags_and_groups_spec session_bytes)
    as [detected [groups' [Hdet [Hg' [_ Htags]]]]].
  rewrite Hg in Hg'. injection Hg' as <-.
  destruct (Htags g Hin) as [d [Hd ->]].
  destruct (detect_tags_spec (block_start_abs_of session_bytes)
              (session_tab_group_block_text_of session_bytes))
    as [detected' [Hdet' [Hok _]]].
  rewrite Hdet in Hdet'. injection Hdet' as <-.
  exact (detected_tag_nonempty _ _ _ (Hok d Hd)).
Qed.

Lemma index_fold_total full_text : forall groups index0,
  (forall g, In g groups -> Group.SessionTabGroupTag g <> []) ->
  exists index, foldM (index_step full_text) groups index0 = Some index.
Proof.
  induction groups as [|g groups IH]; intros index0 Hne; cbn [foldM].
  - now exists index0.
  - unfold index_step at 1.
    destruct (find_non_overlapping_total full_text (Group.SessionTabGroupTag g))
      as [l [-> _]]; [apply Hne; now left|].
    cbn [bind]. apply IH. intros; apply Hne; now right.
Qed.

Lemma index_total full_text groups :
  (forall g, In g groups -> Group.SessionTabGroupTag g <> []) ->
  exists index, tag_to_all_occurrences_of full_text groups = Some index.
Proof.
  intros Hne. unfold tag_to_all_occurrences_of.
  destruct groups as [|g groups]; [now exists []|].
  destruct full_text as [|c full_text]; [now exists []|].
  now apply index_fold_total.
Qed.

Lemma eligible_of_tag_total index g :
  exists l, eligible_of_tag index g = Some l
            /\ forall o, In o l -> snd o = Group.SessionTabGroupTag g.
Proof.
  unfold eligible_of_tag.
  destruct (5 <=? length (Dict.get text_eqb (Group.SessionTabGroupTag g) index []))
    eqn:E.
  - apply Nat.leb_le in E.
    destruct (nth_error (Dict.get text_eqb (Group.SessionTabGroupTag g) index []) 4)
      as [fifth_pos|] eqn:E5.
    2:{ apply nth_error_None in E5. lia. }
    cbn [bind]. eexists. split; [reflexivity|].
    intros o Ho. apply in_map_iff in Ho as [p [<- _]]. reflexivity.
  - exists []. split; [reflexivity | intros o []].
Qed.

Lemma eligible_fold_total index : forall groups acc,
  exists l, foldM (eligible_step index) groups acc = Some l
            /\ forall o, In o l ->
                 In o acc \/ exists g, In g groups /\ snd o = Group.SessionTabGroupTag g.
Proof.
  induction groups as [|g groups IH]; intros acc; cbn [foldM].
  - exists acc. auto.
  - unfold eligible_step at 1.
    destruct (eligible_of_tag_total index g) as [l [-> Hl]]. cbn [bind].
    destruct (IH (acc ++ l)) as [l' [Hf Hl']]. exists l'. split; [exact Hf|].
    intros o Ho. destruct (Hl' o Ho) as [Ha | [g' [Hg' Ht]]].
    + apply in_app_or in Ha as [Ha | Ha]; [now left | right].
      exists g. split; [now left | now apply Hl].
    + right. exists g'. split; [now right | exact Ht].
Qed.

Lemma combined_tag_occurrence_list_spec index groups :
  exists occs,
    combined_tag_occurrence_list_of index groups = Some occs
    /\ StronglySorted (fun x y : nat * text => fst x <= fst y) occs
    /\ forall o, In o occs ->
         exists g, In g groups /\ snd o = Group.SessionTabGroupTag g.
Proof.
  unfold combined_tag_occurrence_list_of.
  destruct (eligible_fold_total index groups []) as [l [-> Hl]]. cbn [bind].
  eexists. split; [reflexivity|]. split; [apply (sort_by_sorted fst)|].
  intros o Ho. apply sort_by_In in Ho. destruct (Hl o Ho) as [[] | Hex]. exact Hex.
Qed.

Lemma dict_comprehension_keys {V : Type} (f : Group.t -> V) groups g :
  In g groups ->
  exists v, Dict.lookup text_eqb (Group.SessionTabGroupTag g)
              (dict_comprehension f groups) = Some v.
Proof.
  unfold dict_comprehension.
  assert (Hgen : forall l d,
             (exists v, Dict.lookup text_eqb (Group.SessionTabGroupTag g) d = Some v)
             \/ In g l ->
             exists v, Dict.lookup text_eqb (Group.SessionTabGroupTag g)
                         (fold_left (fun d ent =>
                            Dict.set text_eqb (Group.SessionTabGroupTag ent) (f ent) d)
                            l d) = Some v).
  { induction l as [|ent l IH]; intros d Hd; simpl.
    - destruct Hd as [Hd | []]. exact Hd.
    - apply IH. destruct Hd as [[v Hv] | [<- | Hin]].
      + left. rewrite (lookup_set text_eqb text_eqb_eq).
        destruct (text_eqb _ _); eauto.
      + left. rewrite (lookup_set_eq text_eqb text_eqb_eq). eauto.
      + now right. }
  intros Hin. apply Hgen. now right.
Qed.

(** The core returns for every pair of buffers, and step C ends in a state
    that satisfies [rows_inv]. *)
Lemma main_core_spec (session_bytes : list byte) (tabs_bytes : option (list byte)) :
  exists out st lo,
    main_core session_bytes tabs_bytes = Some out
    /\ session_tags_and_groups_of session_bytes
       = Some (out_session_tags_and_groups out)
    /\ out_produced_rows out = produced_rows st
    /\ rows_inv lo st.
Proof.
  unfold main_core.
  destruct (session_tags_and_groups_spec session_bytes)
    as [detected [groups [_ [Hg _]]]].
  rewrite Hg. cbn [bind].
  destruct (index_total (display session_bytes) groups
              (group_tags_nonempty session_bytes groups Hg)) as [index ->].
  cbn [bind].
  destruct (combined_tag_occurrence_list_spec index groups)
    as [occs [-> [Hsorted Htags]]].
  cbn [bind].
  destruct (run_inv (display session_bytes)
              match tabs_bytes with Some b => display b | None => [] end
              (dict_comprehension Group.SessionTabGroup groups)
              (tag_occurrence_to_assigned_urls_of index
                 (confirmed_interleaved_records_of (display session_bytes)))
              (assigned_urls_before index (display session_bytes))
              occs 0 (initial_state groups) Hsorted)
    as [st [lo [Hrun Hinv]]].
  - intros o Ho. split; [lia|]. destruct (Htags o Ho) as [g [Hin ->]].
    exact (dict_comprehension_keys (fun _ => 0) groups g Hin).
  - apply rows_inv_initial.
  - rewrite Hrun. cbn [bind]. eexists. exists st, lo.
    split; [reflexivity|]. split; [reflexivity|]. split; [reflexivity | exact Hinv].
Qed.

(** ** The properties of the specification *)

Lemma tag_accepted_iff_exact_repeat_count_witness :
  exists detected,
    detect_tags 0 (session_tab_group_block_text_of sample_session) = Some detected
    /\ accepted detected sample_tag.
Proof.
  destruct (tag_accepted_iff_exact_repeat_count 0
              (session_tab_group_block_text_of sample_session))
    as [detected [Hd [Hiff _]]].
  exists detected. split; [exact Hd|].
  apply (Hiff 0 sample_tag).
  - split; [vm_compute; now left|]. split; vm_compute; reflexivity.
  - exists [0; 72; 91; 110; 129]. split; vm_compute; reflexivity.
Defined.

Lemma tag_occurrence_index_covers_block_without_straddle_witness :
  exists occs,
    index_list_of (display sample_session) sample_tag = Some occs
    /\ index_covers_block sample_session sample_detected occs.
Proof.
  assert (Hdet : detect_tags (block_start_abs_of sample_session)
                   (session_tab_group_block_text_of sample_session)
                 = Some [sample_detected]) by (vm_compute; reflexivity).
  destruct (tag_occurrence_index_covers_block_without_straddle sample_session
              [sample_detected] sample_detected Hdet (or_introl eq_refl))
    as [occs [Hocc [_ [_ [Hcov _]]]]].
  exists occs. split; [exact Hocc|]. apply Hcov.
  intros j _ Hlt.
  assert (Hbs : block_start_abs_of sample_session = 0) by (vm_compute; reflexivity).
  rewrite Hbs in Hlt. lia.
Defined.

(** C2 as stated fails on [straddling_session]: the detector accepts the tag
    with the in-block occurrence 12, that is offset 16 of the full text, and
    the list the index holds for the tag starts with the hit at offset 0
    and does not hold 16. *)
Lemma tag_occurrence_index_misses_block_occurrence :
  detect_tags (block_start_abs_of straddling_session)
              (session_tab_group_block_text_of straddling_session)
  = Some [straddling_detected]
  /\ (exists groups index,
        session_tags_and_groups_of straddling_session = Some groups
        /\ tag_to_all_occurrences_of (display straddling_session) groups = Some index
        /\ Dict.lookup text_eqb (Detected.SessionTabGroupTag straddling_detected) index
           = Some [0; 90; 109; 128; 147; 206])
  /\ ~ index_covers_block straddling_session straddling_detected
         [0; 90; 109; 128; 147; 206].
Proof.
  split; [vm_compute; reflexivity|]. split.
  - eexists. eexists. split; [vm_compute; reflexivity|].
    split; vm_compute; reflexivity.
  - intros Hcov. specialize (Hcov 12 (or_introl eq_refl)).
    vm_compute in Hcov. intuition discriminate.
Qed.

Lemma interleaved_confirmation_two_tries_witness :
  confirms (display sample_session) (url_finditer (display sample_session))
    148 160 (txt "http://a.b/c")
    (confirm_url (display sample_session) (url_finditer (display sample_session))
                 (148, 160, txt "http://a.b/c")).
Proof.
  refine (proj1 (proj2 (interleaved_confirmation_two_tries (display sample_session)
                          148 160 (txt "http://a.b/c") _))).
  vm_compute. now left.
Defined.

Lemma group_name_reconstruction_rule_witness :
  exists second_rel marker,
    nth_error (Detected.PositionsRelInBlock sample_detected) 1 = Some second_rel
    /\ marker_offset_spec (session_tab_group_block_text_of sample_session)
                          second_rel marker.
Proof.
  assert (Hdet : detect_tags (block_start_abs_of sample_session)
                   (session_tab_group_block_text_of sample_session)
                 = Some [sample_detected]) by (vm_compute; reflexivity).
  destruct (group_name_reconstruction_rule sample_session [sample_detected]
              sample_detected Hdet (or_introl eq_refl))
    as [second_rel [marker [H1 [_ [H3 _]]]]].
  exists second_rel, marker. split; [exact H1 | exact H3].
Defined.

Lemma empty_group_name_never_ungrouped_witness :
  final_group_name_of (display sample_tabs) [] (txt "http://a.b/c") = [].
Proof.
  refine (proj1 (proj2 (proj2 (proj2
            (empty_group_name_never_ungrouped (display sample_tabs)
               (txt "http://a.b/c") 12 _ _))))).
  - discriminate.
  - vm_compute. reflexivity.
Defined.

(** *** The gate over a whole run *)

Lemma last_error_app {A : Type} (l1 l2 : list A) :
  last_error (l1 ++ l2)
  = match last_error l2 with
    | Some x => Some x
    | None => last_error l1
    end.
Proof.
  induction l2 as [|x l2 _] using rev_ind.
  - rewrite app_nil_r. reflexivity.
  - rewrite app_assoc, !last_error_snoc. reflexivity.
Qed.

Lemma gate_app : forall l1 l2 prev,
  gate prev (l1 ++ l2)
  = gate prev l1
    ++ gate (match last_error (gate prev l1) with
             | Some r => Some r
             | None => prev
             end) l2.
Proof.
  assert (Hcons : forall (r : Row.t) e (d : option Row.t),
             match last_error (r :: e) with Some x => Some x | None => d end
             = match last_error e with Some x => Some x | None => Some r end).
  { intros r e d. change (r :: e) with ([r] ++ e). rewrite last_error_app.
    destruct (last_error e); reflexivity. }
  induction l1 as [|r l1 IH]; intros l2 prev; [reflexivity|].
  cbn [app gate]. destruct prev as [p|].
  - destruct (Row.TagEndPos p <? Row.URL_StartPos r).
    + rewrite IH. cbn [app]. do 3 f_equal. symmetry. apply Hcons.
    + apply IH.
  - rewrite IH. cbn [app]. do 3 f_equal. symmetry. apply Hcons.
Qed.

Section GateRunFacts.
Variable session_text_with_pipes : text.
Variable tabs_text_with_pipes : text.
Variable tag_to_groupname : list (text * text).
Variable tag_occurrence_to_assigned_urls : list (text * nat * list Assigned.t).

Lemma url_fold_gate tag_text occ_pos tag_end_pos : forall l st,
  tracker_ok st ->
  exists st',
    foldM (url_step session_text_with_pipes tabs_text_with_pipes tag_to_groupname
             tag_text occ_pos tag_end_pos) l st = Some st'
    /\ produced_rows st'
       = produced_rows st
         ++ gate (last_error (produced_rows st))
              (map (candidate_row session_text_with_pipes tabs_text_with_pipes
                      tag_to_groupname tag_text occ_pos tag_end_pos) l)
    /\ tracker_ok st'
    /\ consecutive_empty_count_by_tag st' = consecutive_empty_count_by_tag st
    /\ finished_tags st' = finished_tags st.
Proof.
  induction l as [|a l IH]; intros st Hok; cbn [foldM map gate].
  - exists st. rewrite app_nil_r. repeat (split; [reflexivity|]).
    split; [exact Hok | split; reflexivity].
  - rewrite (url_step_gate session_text_with_pipes tabs_text_with_pipes
               tag_to_groupname tag_text occ_pos tag_end_pos st a Hok).
    cbn [bind].
    set (c := candidate_row session_text_with_pipes tabs_text_with_pipes
                tag_to_groupname tag_text occ_pos tag_end_pos a).
    assert (Hemit : forall st1,
               st1 = mkLoop (consecutive_empty_count_by_tag st) (finished_tags st)
                       (produced_rows st ++ [c]) (Some tag_end_pos) true ->
               exists st',
                 foldM (url_step session_text_with_pipes tabs_text_with_pipes
                          tag_to_groupname tag_text occ_pos tag_end_pos) l st1
                 = Some st'
                 /\ produced_rows st'
                    = produced_rows st
                      ++ c :: gate (Some c)
                                (map (candidate_row session_text_with_pipes
                                        tabs_text_with_pipes tag_to_groupname
                                        tag_text occ_pos tag_end_pos) l)
                 /\ tracker_ok st'
                 /\ consecutive_empty_count_by_tag st'
                    = consecutive_empty_count_by_tag st
                 /\ finished_tags st' = finished_tags st).
    { intros st1 ->.
      destruct (IH (mkLoop (consecutive_empty_count_by_tag st) (finished_tags st)
                      (produced_rows st ++ [c]) (Some tag_end_pos) true))
        as [st' [Hf [Hr [Hok' [Hc Hfin]]]]].
      - unfold tracker_ok. cbn [produced_rows first_row_written
                                 prev_accepted_tag_end_pos].
        rewrite last_error_snoc. split; reflexivity.
      - exists st'. split; [exact Hf|]. split.
        + rewrite Hr. cbn [produced_rows]. rewrite last_error_snoc, <- app_assoc.
          reflexivity.
        + split; [exact Hok'|]. split; [exact Hc | exact Hfin]. }
    destruct (last_error (produced_rows st)) as [r|] eqn:El.
    + change (Row.URL_StartPos c) with (Assigned.u_start a).
      destruct (Row.TagEndPos r <? Assigned.u_start a).
      * now apply Hemit.
      * destruct (IH st Hok) as [st' [Hf [Hr [Hok' [Hc Hfin]]]]].
        exists st'. split; [exact Hf|]. rewrite El in Hr.
        split; [exact Hr|]. split; [exact Hok'|]. split; [exact Hc | exact Hfin].
    + now apply Hemit.
Qed.

Lemma run_gate : forall occs st st',
  tracker_ok st ->
  run_occurrences session_text_with_pipes tabs_text_with_pipes tag_to_groupname
    tag_occurrence_to_assigned_urls occs st = Some st' ->
  produced_rows st'
  = produced_rows st
    ++ gate (last_error (produced_rows st))
         (candidate_rows session_text_with_pipes tabs_text_with_pipes
            tag_to_groupname tag_occurrence_to_assigned_urls occs
            (consecutive_empty_count_by_tag st) (finished_tags st))
  /\ tracker_ok st'.
Proof.
  unfold run_occurrences.
  induction occs as [|[occ_pos tag_text] occs IH]; intros st st' Hok;
    cbn [foldM candidate_rows].
  - intros Hs. assert (st' = st) by congruence. subst st'.
    cbn [gate]. rewrite app_nil_r. split; [reflexivity | exact Hok].
  - destruct (is_finished tag_text st) eqn:Efin.
    + rewrite occ_step_skip by exact Efin. cbn [bind].
      unfold is_finished in Efin. rewrite Efin. now apply IH.
    + pose proof Efin as Efin'. unfold is_finished in Efin'. rewrite Efin'.
      destruct (Dict.get key_eqb (tag_text, occ_pos)
                  tag_occurrence_to_assigned_urls []) as [|a0 l0] eqn:Ea.
      * rewrite occ_step_empty by assumption.
        destruct (Dict.lookup text_eqb tag_text (consecutive_empty_count_by_tag st))
          as [count|] eqn:Ec; [|discriminate].
        cbn [bind]. intros Hrun.
        apply IH in Hrun.
        -- cbn [produced_rows consecutive_empty_count_by_tag finished_tags] in Hrun.
           unfold Dict.get. rewrite Ec. cbv zeta. exact Hrun.
        -- exact Hok.
      * rewrite occ_step_assigned
          by (try rewrite Ea; try discriminate; assumption).
        rewrite Ea.
        destruct (url_fold_gate tag_text occ_pos (occ_pos + length tag_text)
                    (sort_by Assigned.u_start (a0 :: l0))
                    (mkLoop (Dict.set text_eqb tag_text 0
                               (consecutive_empty_count_by_tag st))
                       (finished_tags st) (produced_rows st)
                       (prev_accepted_tag_end_pos st) (first_row_written st)) Hok)
          as [st1 [Hf [Hr [Hok1 [Hc Hfin]]]]].
        rewrite Hf. cbn [bind]. intros Hrun.
        destruct (IH st1 st' Hok1 Hrun) as [Hrows Hok'].
        split; [|exact Hok'].
        rewrite Hrows, Hr, Hc, Hfin.
        cbn [produced_rows consecutive_empty_count_by_tag finished_tags].
        rewrite <- app_assoc. f_equal. rewrite gate_app. f_equal. f_equal.
        rewrite last_error_app.
        destruct (last_error (gate (last_error (produced_rows st))
                    (map (candidate_row session_text_with_pipes tabs_text_with_pipes
                            tag_to_groupname tag_text occ_pos
                            (occ_pos + length tag_text))
                         (sort_by Assigned.u_start (a0 :: l0)))));
          reflexivity.
Qed.
End GateRunFacts.

Lemma main_core_gate (session_bytes : list byte) (tabs_bytes : option (list byte)) :
  exists out groups index occs,
    main_core session_bytes tabs_bytes = Some out
    /\ session_tags_and_groups_of session_bytes = Some groups
    /\ tag_to_all_occurrences_of (display session_bytes) groups = Some index
    /\ combined_tag_occurrence_list_of index groups = Some occs
    /\ out_produced_rows out
       = gate None
           (candidate_rows (display session_bytes)
              match tabs_bytes with Some b => display b | None => [] end
              (dict_comprehension Group.SessionTabGroup groups)
              (tag_occurrence_to_assigned_urls_of index
                 (confirmed_interleaved_records_of (display session_bytes)))
              occs (dict_comprehension (fun _ => 0) groups) []).
Proof.
  destruct (main_core_spec session_bytes tabs_bytes) as [out [_ [_ [Hmain0 _]]]].
  exists out. pose proof Hmain0 as Hmain. unfold main_core in Hmain.
  destruct (session_tags_and_groups_of session_bytes) as [groups|]; [|discriminate].
  cbn [bind] in Hmain.
  destruct (tag_to_all_occurrences_of (display session_bytes) groups)
    as [index|] eqn:Hi; [|discriminate].
  cbn [bind] in Hmain.
  destruct (combined_tag_occurrence_list_of index groups) as [occs|] eqn:Ho;
    [|discriminate].
  cbn [bind] in Hmain.
  destruct (run_occurrences (display session_bytes)
              match tabs_bytes with Some b => display b | None => [] end
              (dict_comprehension Group.SessionTabGroup groups)
              (tag_occurrence_to_assigned_urls_of index
                 (confirmed_interleaved_records_of (display session_bytes)))
              occs (initial_state groups)) as [final|] eqn:Hrun; [|discriminate].
  cbn [bind] in Hmain.
  exists groups, index, occs. split; [exact Hmain0|].
  split; [reflexivity|]. split; [exact Hi|]. split; [exact Ho|].
  assert (Hout : out = mkOutput groups (produced_rows final)) by congruence.
  rewrite Hout. cbn [out_produced_rows].
  apply run_gate in Hrun as [Hrows _]; [exact Hrows | reflexivity].
Qed.

(** C1. The gate of step C: while no row has been accepted the candidate row
    is emitted unconditionally; afterwards it is emitted exactly when its URL
    start offset is strictly greater than the tag end offset of the row
    accepted last, and a rejected candidate leaves the state, tracker
    included, as it was.  In every run of the occurrence loop the rows added
    are exactly those [gate] lets through of the candidate rows the loop
    considers, in their order, and the tracker stays the tag end offset of
    the row emitted last.  For every pair of buffers the core returns; its
    rows are the candidate rows of the run passed through [gate] with no row
    accepted before; each emitted row has
    [TagEndPos = TagOccurrencePos + len(TagText)], and each row after the
    first has a URL start beyond the tag end of the row before it. *)
Theorem global_monotonicity_gate :
  (forall (session_text_with_pipes tabs_text_with_pipes : text)
          (tag_to_groupname : list (text * text))
          (tag_text : text) (occ_pos tag_end_pos : nat)
          (st : LoopState) (a : Assigned.t),
      tracker_ok st ->
      url_step session_text_with_pipes tabs_text_with_pipes tag_to_groupname
               tag_text occ_pos tag_end_pos st a
      = Some
          (match last_error (produced_rows st) with
           | None =>
               mkLoop (consecutive_empty_count_by_tag st) (finished_tags st)
                 (produced_rows st
                  ++ [candidate_row session_text_with_pipes tabs_text_with_pipes
                        tag_to_groupname tag_text occ_pos tag_end_pos a])
                 (Some tag_end_pos) true
           | Some r =>
               if Row.TagEndPos r <? Assigned.u_start a then
                 mkLoop (consecutive_empty_count_by_tag st) (finished_tags st)
                   (produced_rows st
                    ++ [candidate_row session_text_with_pipes tabs_text_with_pipes
                          tag_to_groupname tag_text occ_pos tag_end_pos a])
                   (Some tag_end_pos) true
               else st
           end))
  /\ (forall (session_text_with_pipes tabs_text_with_pipes : text)
             (tag_to_groupname : list (text * text))
             (tag_occurrence_to_assigned_urls : list (text * nat * list Assigned.t))
             (combined_tag_occurrence_list : list (nat * text))
             (st st' : LoopState),
        tracker_ok st ->
        run_occurrences session_text_with_pipes tabs_text_with_pipes
          tag_to_groupname tag_occurrence_to_assigned_urls
          combined_tag_occurrence_list st = Some st' ->
        produced_rows st'
        = produced_rows st
          ++ gate (last_error (produced_rows st))
               (candidate_rows session_text_with_pipes tabs_text_with_pipes
                  tag_to_groupname tag_occurrence_to_assigned_urls
                  combined_tag_occurrence_list
                  (consecutive_empty_count_by_tag st) (finished_tags st))
        /\ tracker_ok st')
  /\ (forall (session_bytes : list byte) (tabs_bytes : option (list byte)),
        exists out groups index occs,
          main_core session_bytes tabs_bytes = Some out
          /\ session_tags_and_groups_of session_bytes = Some groups
          /\ tag_to_all_occurrences_of (display session_bytes) groups = Some index
          /\ combined_tag_occurrence_list_of index groups = Some occs
          /\ out_produced_rows out
             = gate None
                 (candidate_rows (display session_bytes)
                    match tabs_bytes with Some b => display b | None => [] end
                    (dict_comprehension Group.SessionTabGroup groups)
                    (tag_occurrence_to_assigned_urls_of index
                       (confirmed_interleaved_records_of (display session_bytes)))
                    occs (dict_comprehension (fun _ => 0) groups) [])
          /\ monotone_rows (out_produced_rows out)
          /\ forall r, In r (out_produced_rows out) ->
               Row.TagEndPos r = Row.TagOccurrencePos r + length (Row.TagText r)).
Proof.
  split; [|split].
  - intros. now apply url_step_gate.
  - intros text tabs t2g assigned occs st st' Hok Hrun.
    exact (run_gate text tabs t2g assigned occs st st' Hok Hrun).
  - intros session_bytes tabs_bytes.
    destruct (main_core_gate session_bytes tabs_bytes)
      as [out [groups [index [occs [Hout [Hg [Hi [Ho Hgate]]]]]]]].
    destruct (main_core_spec session_bytes tabs_bytes)
      as [out' [st [lo [Hout' [_ [Hrows [_ [_ [_ [_ [Hm He]]]]]]]]]]].
    assert (out' = out) by congruence. subst out'.
    exists out, groups, index, occs.
    split; [exact Hout|]. split; [exact Hg|]. split; [exact Hi|].
    split; [exact Ho|]. split; [exact Hgate|].
    rewrite Hrows. split; [exact Hm | exact He].
Qed.

Lemma global_monotonicity_gate_witness :
  url_step [] [] [] sample_tag 186 205 sample_state (Assigned.mk 148 160 [] [])
  = Some (mkLoop [(sample_tag, 0)] [] 
            [candidate_row [] [] [] sample_tag 186 205 (Assigned.mk 148 160 [] [])]
            (Some 205) true)
  /\ (exists st',
        run_occurrences [] [] []
          [((sample_tag, 186), [Assigned.mk 148 160 [] []; Assigned.mk 150 170 [] []])]
          [(186, sample_tag)] sample_state = Some st'
        /\ produced_rows st'
           = [candidate_row [] [] [] sample_tag 186 205 (Assigned.mk 148 160 [] [])])
  /\ exists out, main_core sample_session None = Some out
                 /\ out_produced_rows out = sample_rows
                 /\ length (out_produced_rows out) = 2
                 /\ monotone_rows (out_produced_rows out).
Proof.
  destruct global_monotonicity_gate as [Hgate [Hrun Hmain]]. split; [|split].
  - apply (Hgate [] [] [] sample_tag 186 205 sample_state (Assigned.mk 148 160 [] [])).
    reflexivity.
  - eexists. split; [vm_compute; reflexivity|].
    refine (eq_trans
              (proj1 (Hrun [] [] []
                        [((sample_tag, 186),
                          [Assigned.mk 148 160 [] []; Assigned.mk 150 170 [] []])]
                        [(186, sample_tag)] sample_state _ _ _)) _).
    + reflexivity.
    + vm_compute. reflexivity.
    + vm_compute. reflexivity.
  - destruct (Hmain sample_session None)
      as [out [groups [index [occs [Hout [Hg [Hi [Ho [Hrows [Hm _]]]]]]]]]].
    exists out. split; [exact Hout|].
    assert (Hgroups : groups = sample_groups)
      by (vm_compute in Hg; injection Hg as <-; reflexivity).
    subst groups.
    assert (Hindex : index = [(sample_tag, [0; 72; 91; 110; 129; 186; 244])])
      by (vm_compute in Hi; injection Hi as <-; reflexivity).
    subst index.
    assert (Hoccs : occs = [(129, sample_tag); (186, sample_tag); (244, sample_tag)])
      by (vm_compute in Ho; injection Ho as <-; reflexivity).
    subst occs.
    assert (Hsample : out_produced_rows out = sample_rows)
      by (rewrite Hrows; vm_compute; reflexivity).
    split; [exact Hsample|]. split; [rewrite Hsample; reflexivity | exact Hm].
Defined.

(** C3. For every pair of buffers the core returns, and of any two emitted
    rows the one emitted later has a tag-occurrence offset that is not
    smaller and a URL start offset that is strictly greater. *)
Theorem rows_in_chronological_order :
  forall (session_bytes : list byte) (tabs_bytes : option (list byte)),
  exists out,
    main_core session_bytes tabs_bytes = Some out
    /\ forall i j r r',
         i < j ->
         nth_error (out_produced_rows out) i = Some r ->
         nth_error (out_produced_rows out) j = Some r' ->
         Row.TagOccurrencePos r <= Row.TagOccurrencePos r'
         /\ Row.URL_StartPos r < Row.URL_StartPos r'.
Proof.
  intros session_bytes tabs_bytes.
  destruct (main_core_spec session_bytes tabs_bytes)
    as [out [st [lo [Hout [_ [Hrows [_ [_ [_ [Hs _]]]]]]]]]].
  exists out. rewrite Hrows. split; [exact Hout|].
  intros i j r r' Hij Hi Hj. exact (StronglySorted_nth _ _ Hs i j r r' Hij Hi Hj).
Qed.

Lemma rows_in_chronological_order_witness :
  exists r r',
    nth_error sample_rows 0 = Some r /\ nth_error sample_rows 1 = Some r'
    /\ Row.TagOccurrencePos r <= Row.TagOccurrencePos r'
    /\ Row.URL_StartPos r < Row.URL_StartPos r'.
Proof.
  destruct (rows_in_chronological_order sample_session None) as [out [Hout Hord]].
  assert (Hrows : out_produced_rows out = sample_rows).
  { vm_compute in Hout. injection Hout as <-. reflexivity. }
  rewrite Hrows in Hord.
  eexists. eexists. split; [reflexivity|]. split; [reflexivity|].
  apply (Hord 0 1); [lia | reflexivity | reflexivity].
Defined.

Lemma no_new_rows_of_trans tag st1 st2 st3 :
  no_new_rows_of tag st1 st2 -> no_new_rows_of tag st2 st3 ->
  no_new_rows_of tag st1 st3.
Proof.
  intros [n1 [H1 Ht1]] [n2 [H2 Ht2]]. exists (n1 ++ n2).
  split; [rewrite H2, H1, app_assoc; reflexivity|].
  intros r Hr. apply in_app_or in Hr as [Hr | Hr]; auto.
Qed.

(** C4. The termination rule of step C, for an occurrence [(occ_pos, tag)]
    of the eligible sequence: (1) an unfinished tag without assigned URLs has
    its counter incremented and becomes finished when the counter reaches 2;
    (2) an unfinished tag with assigned URLs has its counter reset to 0;
    (3) a finished tag is skipped; (4) once a tag is finished it stays
    finished and no later occurrence adds a row of it; (5) two eligible
    occurrences of a tag in a row without assigned URLs finish it, so that
    the whole pass adds no row of the tag from the first of them on. *)
Theorem per_tag_termination_rule :
  forall (session_text_with_pipes tabs_text_with_pipes : text)
         (tag_to_groupname : list (text * text))
         (tag_occurrence_to_assigned_urls : list (text * nat * list Assigned.t)),
    let step := occ_step session_text_with_pipes tabs_text_with_pipes
                         tag_to_groupname tag_occurrence_to_assigned_urls in
    let run := run_occurrences session_text_with_pipes tabs_text_with_pipes
                               tag_to_groupname tag_occurrence_to_assigned_urls in
    let assigned_at := fun occ_pos tag =>
      Dict.get key_eqb (tag, occ_pos) tag_occurrence_to_assigned_urls [] in
    (forall st occ_pos tag,
        is_finished tag st = false -> assigned_at occ_pos tag = [] ->
        step st (occ_pos, tag)
        = (count <- Dict.lookup text_eqb tag (consecutive_empty_count_by_tag st) ;;
           Some (mkLoop
                   (Dict.set text_eqb tag (count + 1)
                             (consecutive_empty_count_by_tag st))
                   (if 2 <=? count + 1 then tag :: finished_tags st
                    else finished_tags st)
                   (produced_rows st) (prev_accepted_tag_end_pos st)
                   (first_row_written st))))
    /\ (forall st occ_pos tag st',
          is_finished tag st = false -> assigned_at occ_pos tag <> [] ->
          step st (occ_pos, tag) = Some st' ->
          Dict.lookup text_eqb tag (consecutive_empty_count_by_tag st') = Some 0)
    /\ (forall st occ_pos tag,
          is_finished tag st = true -> step st (occ_pos, tag) = Some st)
    /\ (forall tag occs st st',
          is_finished tag st = true -> run occs st = Some st' ->
          is_finished tag st' = true /\ no_new_rows_of tag st st')
    /\ (forall tag p1 p2 mid rest st st',
          assigned_at p1 tag = [] -> assigned_at p2 tag = [] ->
          (forall o, In o mid -> snd o <> tag) ->
          run ((p1, tag) :: mid ++ (p2, tag) :: rest) st = Some st' ->
          is_finished tag st' = true /\ no_new_rows_of tag st st').
Proof.
  intros session_text_with_pipes tabs_text_with_pipes tag_to_groupname
         tag_occurrence_to_assigned_urls step run assigned_at.
  split; [|split; [|split; [|split]]].
  - intros st occ_pos tag Hf Ha. now apply occ_step_empty.
  - intros st occ_pos tag st' Hf Ha Hs. unfold step in Hs.
    rewrite occ_step_assigned in Hs by assumption.
    apply url_fold_frame in Hs as [Hc _]. rewrite Hc.
    cbn [consecutive_empty_count_by_tag].
    apply (lookup_set_eq text_eqb text_eqb_eq).
  - intros st occ_pos tag Hf. now apply occ_step_skip.
  - intros tag occs st st' Hf Hr. eapply finished_is_final; eassumption.
  - intros tag p1 p2 mid rest st st' Ha1 Ha2 Hmid Hrun.
    unfold run, run_occurrences in Hrun.
    change ((p1, tag) :: mid ++ (p2, tag) :: rest)
      with (((p1, tag) :: mid) ++ ((p2, tag) :: rest)) in Hrun.
    replace (((p1, tag) :: mid) ++ ((p2, tag) :: rest))
      with (((p1, tag) :: mid ++ [(p2, tag)]) ++ rest) in Hrun
      by (simpl; rewrite <- app_assoc; reflexivity).
    rewrite foldM_app in Hrun.
    destruct (foldM _ ((p1, tag) :: mid ++ [(p2, tag)]) st) as [st2|] eqn:E2;
      [|discriminate].
    cbn [bind] in Hrun.
    destruct (two_empty_finish session_text_with_pipes tabs_text_with_pipes
                tag_to_groupname tag_occurrence_to_assigned_urls
                tag p1 p2 mid st st2 Ha1 Ha2 Hmid E2) as [Hf2 Hn2].
    destruct (finished_is_final session_text_with_pipes tabs_text_with_pipes
                tag_to_groupname tag_occurrence_to_assigned_urls
                tag rest st2 st' Hf2 Hrun) as [Hf' Hn'].
    split; [exact Hf' | exact (no_new_rows_of_trans _ _ _ _ Hn2 Hn')].
Qed.

Lemma per_tag_termination_rule_witness :
  exists st',
    run_occurrences [] [] [] []
      [(129, sample_tag); (186, sample_tag); (244, sample_tag)] sample_state
    = Some st'
    /\ is_finished sample_tag st' = true
    /\ no_new_rows_of sample_tag sample_state st'.
Proof.
  eexists. split; [vm_compute; reflexivity|].
  apply (proj2 (proj2 (proj2 (proj2 (per_tag_termination_rule [] [] [] []))))
         sample_tag 129 186 [] [(244, sample_tag)] sample_state).
  - reflexivity.
  - reflexivity.
  - intros o [].
  - vm_compute. reflexivity.
Defined.

(** C9. When the block start is not below the first-URL offset the block is
    empty, no tag group is produced, and the core returns the empty
    catalogue and no rows, whatever the tabs buffer is. *)
Theorem empty_block_degrades_gracefully :
  forall (session_bytes : list byte) (tabs_bytes : option (list byte)),
    find_earliest_lowercase_http_position_in_bytes session_bytes
    <= block_start_abs_of session_bytes ->
    session_tab_group_block_text_of session_bytes = []
    /\ detect_range (session_tab_group_block_text_of session_bytes) = []
    /\ session_tags_and_groups_of session_bytes = Some []
    /\ main_core session_bytes tabs_bytes = Some (mkOutput [] []).
Proof.
  intros session_bytes tabs_bytes Hge.
  assert (Hb : session_tab_group_block_text_of session_bytes = []).
  { destruct (block_text_cases session_bytes) as [[Hlt _] | [_ Hb]]; [lia | exact Hb]. }
  assert (Hg : session_tags_and_groups_of session_bytes = Some []).
  { unfold session_tags_and_groups_of. rewrite Hb. reflexivity. }
  split; [exact Hb|]. split; [rewrite Hb; reflexivity|]. split; [exact Hg|].
  unfold main_core. rewrite Hg. reflexivity.
Qed.

Lemma empty_block_degrades_gracefully_witness :
  session_tags_and_groups_of degenerate_session = Some []
  /\ main_core degenerate_session (Some sample_tabs) = Some (mkOutput [] []).
Proof.
  destruct (empty_block_degrades_gracefully degenerate_session (Some sample_tabs))
    as [_ [_ [Hg Hm]]].
  - vm_compute. lia.
  - split; [exact Hg | exact Hm].
Defined.

(** ** Scenarios of the specification, evaluated *)

(** P3: the pattern repeated 5 times is detected, repeated 4 or 6 times it
    is not. *)
Example tag_repeated_five_times_detected :
  detect_tags 0 (concat (repeat sample_tag 5))
  = Some [Detected.mk sample_tag [0; 19; 38; 57; 76] 0].
Proof. vm_compute. reflexivity. Qed.

Example tag_repeated_four_times_rejected :
  detect_tags 0 (concat (repeat sample_tag 4)) = Some [].
Proof. vm_compute. reflexivity. Qed.

Example tag_repeated_six_times_rejected :
  detect_tags 0 (concat (repeat sample_tag 6)) = Some [].
Proof. vm_compute. reflexivity. Qed.

(** P5: the plain URL followed by its interleaved form is confirmed, and a
    URL between the two makes the confirmation fail. *)
Example interleaved_twin_confirmed :
  let full_text := txt "https://a.b/c |h|t|t|p|s|:|/|/|a|.|b|/|c|" in
  confirm_url full_text (url_finditer full_text) (0, 13, txt "https://a.b/c")
  = Some (Confirmed.mk 0 13 (txt "https://a.b/c") 14 41 (txt "https://a.b/c")).
Proof. vm_compute. reflexivity. Qed.

Example interleaved_twin_blocked_by_url :
  let full_text :=
    txt "https://a.b/c http://q.q/ |h|t|t|p|s|:|/|/|a|.|b|/|c|" in
  confirm_url full_text (url_finditer full_text) (0, 13, txt "https://a.b/c")
  = None.
Proof. vm_compute. reflexivity. Qed.

(** The sample session yields one row per URL, both in the group [Grp]. *)
Example sample_session_rows :
  map (fun r => (Row.SessionTabGroup r, Row.URL r, Row.TagOccurrencePos r,
                 Row.URL_StartPos r)) sample_rows
  = [(txt "Grp", txt "http://a.b/c", 186, 148);
     (txt "Grp", txt "http://d.e/f", 244, 206)].
Proof. vm_compute. reflexivity. Qed.

(** With the tabs buffer, the first URL is preceded there by another URL and
    no interleaved group name: its row becomes ["Ungrouped"]. *)
Example sample_session_tabs_override :
  option_map (fun out => map (fun r => (Row.SessionTabGroup r, Row.URL r))
                             (out_produced_rows out))
             (main_core sample_session (Some sample_tabs))
  = Some [(Ungrouped, txt "http://a.b/c"); (txt "Grp", txt "http://d.e/f")].
Proof. vm_compute. reflexivity. Qed.

(** P7 on the sample tag: after two eligible occurrences without URLs the
    third one adds no row although a URL is assigned to it. *)
Example finished_tag_ignores_assigned_url :
  option_map produced_rows
    (run_occurrences [] [] []
       [((sample_tag, 244), [Assigned.mk 206 218 (txt "http://d.e/f")
                                         (txt "http://d.e/f")])]
       [(129, sample_tag); (186, sample_tag); (244, sample_tag)] sample_state)
  = Some [].
Proof. vm_compute. reflexivity. Qed.

(** * Further properties of the code *)

(** ** Byte display mapper (lines 73-79, 214) *)

Lemma convert_printable_range (b : byte) :
  32 <= nat_of_ascii (convert_single_byte_to_display_char b) <= 126.
Proof. destruct b; vm_compute; split; repeat constructor. Qed.

Lemma convert_printable (b : byte) :
  printable b = true -> convert_single_byte_to_display_char b = ascii_of_byte b.
Proof.
  unfold convert_single_byte_to_display_char, printable. cbv zeta. intros ->.
  reflexivity.
Qed.

Lemma convert_not_printable (b : byte) :
  printable b = false ->
  convert_single_byte_to_display_char b = REPLACEMENT_CHAR_PIPE.
Proof.
  unfold convert_single_byte_to_display_char, printable. cbv zeta. intros ->.
  reflexivity.
Qed.

Lemma convert_encode_fixed (b : byte) :
  convert_single_byte_to_display_char
    (byte_of_ascii (convert_single_byte_to_display_char b))
  = convert_single_byte_to_display_char b.
Proof. destruct b; vm_compute; reflexivity. Qed.

(** X1. The display text has one character per byte, at the same offset: the
    byte itself when it is in 32..126 and the pipe otherwise.  Every display
    character is in 32..126, and a display text written out as bytes and
    mapped again is unchanged. *)
Theorem display_text_one_printable_char_per_byte :
  forall (session_bytes : list byte),
    length (display session_bytes) = length session_bytes
    /\ (forall i,
          nth_error (display session_bytes) i
          = option_map (fun b => if printable b then ascii_of_byte b
                                 else REPLACEMENT_CHAR_PIPE)
                       (nth_error session_bytes i))
    /\ (forall c, In c (display session_bytes) ->
                  32 <= nat_of_ascii c <= 126)
    /\ display (encode_text (display session_bytes)) = display session_bytes.
Proof.
  intros session_bytes. unfold display, encode_text.
  split; [apply length_map|]. split; [|split].
  - intros i. rewrite nth_error_map.
    destruct (nth_error session_bytes i) as [b|]; reflexivity.
  - intros c Hc. apply in_map_iff in Hc as [b [<- _]]. apply convert_printable_range.
  - rewrite !map_map. apply map_ext. intros b. apply convert_encode_fixed.
Qed.

(** ** Block locator (lines 62-70, 217-225) *)

Lemma first_http_spec (byte_buffer : list byte) :
  let first_http_abs := find_earliest_lowercase_http_position_in_bytes byte_buffer in
  first_http_abs <= length byte_buffer
  /\ (forall j, j < first_http_abs ->
        Py.occurs_at (bytes_of "http://") byte_buffer j = false
        /\ Py.occurs_at (bytes_of "https://") byte_buffer j = false)
  /\ (first_http_abs < length byte_buffer ->
        Py.occurs_at (bytes_of "http://") byte_buffer first_http_abs = true
        \/ Py.occurs_at (bytes_of "https://") byte_buffer first_http_abs = true)
  /\ (first_http_abs = length byte_buffer ->
        forall j, Py.occurs_at (bytes_of "http://") byte_buffer j = false
                  /\ Py.occurs_at (bytes_of "https://") byte_buffer j = false).
Proof.
  cbv zeta. split; [apply first_http_le_length|].
  unfold find_earliest_lowercase_http_position_in_bytes.
  assert (Hlate : forall (sub : list byte) j,
             sub <> [] -> length byte_buffer <= j ->
             Py.occurs_at sub byte_buffer j = false).
  { intros sub j Hne Hj. destruct (Py.occurs_at sub byte_buffer j) eqn:E; [|reflexivity].
    apply occurs_at_bound in E. destruct sub; [congruence | simpl in E; lia]. }
  destruct (Py.find byte_buffer (bytes_of "http://") 0) as [p|] eqn:E1;
    destruct (Py.find byte_buffer (bytes_of "https://") 0) as [q|] eqn:E2.
  - pose proof (find_some _ _ _ _ E1) as [_ [Hp Hpm]].
    pose proof (find_some _ _ _ _ E2) as [_ [Hq Hqm]].
    pose proof (occurs_at_bound _ _ _ Hp) as Hpb. simpl in Hpb.
    split; [|split].
    + intros j Hj. split; [apply Hpm | apply Hqm]; lia.
    + intros _. destruct (Nat.le_ge_cases p q) as [Hle | Hle].
      * rewrite Nat.min_l by exact Hle. now left.
      * rewrite Nat.min_r by exact Hle. now right.
    + intros Heq. lia.
  - pose proof (find_some _ _ _ _ E1) as [_ [Hp Hpm]].
    pose proof (occurs_at_bound _ _ _ Hp) as Hpb. simpl in Hpb.
    split; [|split].
    + intros j Hj. split; [apply Hpm; lia | apply (find_none _ _ _ E2); lia].
    + intros _. now left.
    + intros Heq. lia.
  - pose proof (find_some _ _ _ _ E2) as [_ [Hq Hqm]].
    pose proof (occurs_at_bound _ _ _ Hq) as Hqb. simpl in Hqb.
    split; [|split].
    + intros j Hj. split; [apply (find_none _ _ _ E1); lia | apply Hqm; lia].
    + intros _. now right.
    + intros Heq. lia.
  - split; [|split].
    + intros j Hj. split; [apply (find_none _ _ _ E1) | apply (find_none _ _ _ E2)]; lia.
    + intros Hlt. lia.
    + intros _ j. split; [apply (find_none _ _ _ E1) | apply (find_none _ _ _ E2)]; lia.
Qed.

(** X2. [find_earliest_lowercase_http_position_in_bytes] returns the least
    offset at which [b'http://'] or [b'https://'] occurs: neither occurs
    below it, one of them occurs at it when it is inside the buffer, and it
    is the buffer length exactly when neither occurs at all. *)
Theorem first_http_offset_is_least_scheme_offset :
  forall (byte_buffer : list byte),
    let first_http_abs := find_earliest_lowercase_http_position_in_bytes byte_buffer in
    first_http_abs <= length byte_buffer
    /\ (forall j, j < first_http_abs ->
          Py.occurs_at (bytes_of "http://") byte_buffer j = false
          /\ Py.occurs_at (bytes_of "https://") byte_buffer j = false)
    /\ (first_http_abs < length byte_buffer ->
          Py.occurs_at (bytes_of "http://") byte_buffer first_http_abs = true
          \/ Py.occurs_at (bytes_of "https://") byte_buffer first_http_abs = true)
    /\ (first_http_abs = length byte_buffer ->
          forall j, Py.occurs_at (bytes_of "http://") byte_buffer j = false
                    /\ Py.occurs_at (bytes_of "https://") byte_buffer j = false).
Proof. exact first_http_spec. Qed.

Lemma convert_inv (b : byte) (c : ascii) :
  convert_single_byte_to_display_char b = c -> c <> REPLACEMENT_CHAR_PIPE ->
  b = byte_of_ascii c.
Proof.
  unfold convert_single_byte_to_display_char. cbv zeta.
  destruct ((32 <=? Byte.to_N b)%N && (Byte.to_N b <=? 126)%N).
  - intros <- _. symmetry. apply byte_of_ascii_of_byte.
  - intros <- Hne. congruence.
Qed.

Lemma display_eq_text (m : list byte) (p : text) :
  ~ In REPLACEMENT_CHAR_PIPE p -> display m = p -> m = encode_text p.
Proof.
  revert p; induction m as [|b m IH]; intros [|c p] Hp; simpl; try discriminate;
    [reflexivity|].
  intros [= Hc Hm]. f_equal.
  - apply convert_inv; [exact Hc|]. intros ->. apply Hp. now left.
  - apply IH; [|exact Hm]. intros Hin. apply Hp. now right.
Qed.

(** A pipe-free text found in the display text is found, as bytes, at the
    same offset of the buffer. *)
Lemma display_occurrence (p : text) (bs : list byte) (j : nat) :
  ~ In REPLACEMENT_CHAR_PIPE p ->
  Py.occurs_at p (display bs) j = true ->
  Py.occurs_at (encode_text p) bs j = true.
Proof.
  intros Hp Ho. apply occurs_at_split in Ho as [pre [post [Hd Hl]]].
  unfold display in Hd. apply map_eq_app in Hd as [b1 [b23 [-> [H1 H23]]]].
  apply map_eq_app in H23 as [b2 [b3 [-> [H2 H3]]]].
  apply (display_eq_text b2 p Hp) in H2. subst b2.
  apply occurs_at_split. exists b1, b3. split; [reflexivity|].
  rewrite <- Hl, <- H1. symmetry. apply length_map.
Qed.

Lemma block_has_no_scheme (session_bytes : list byte) (scheme : text) (j : nat) :
  ~ In REPLACEMENT_CHAR_PIPE scheme -> scheme <> [] ->
  (forall k, k < find_earliest_lowercase_http_position_in_bytes session_bytes ->
             Py.occurs_at (encode_text scheme) session_bytes k = false) ->
  Py.occurs_at scheme (session_tab_group_block_text_of session_bytes) j = false.
Proof.
  intros Hp Hne Hmin.
  destruct (Py.occurs_at scheme (session_tab_group_block_text_of session_bytes) j)
    eqn:E; [|reflexivity]. exfalso.
  assert (Hlen : 0 < length scheme) by (destruct scheme; [congruence | simpl; lia]).
  unfold session_tab_group_block_text_of in E.
  destruct (block_start_abs_of session_bytes
            <? find_earliest_lowercase_http_position_in_bytes session_bytes) eqn:Eb.
  - apply Nat.ltb_lt in Eb. apply display_occurrence in E; [|exact Hp].
    unfold Py.slice in E. apply occurs_at_firstn in E as [E Hj].
    rewrite occurs_at_shift in E
      by (pose proof (first_http_le_length session_bytes); lia).
    unfold encode_text in Hj. rewrite length_map in Hj.
    rewrite Hmin in E by lia. discriminate.
  - apply occurs_at_bound in E. simpl in E. lia.
Qed.

(** X3. The tab-group block, which ends at the first lowercase URL scheme,
    holds no occurrence of [http://] or [https://] itself. *)
Theorem block_holds_no_lowercase_scheme :
  forall (session_bytes : list byte) (j : nat),
    Py.occurs_at (txt "http://") (session_tab_group_block_text_of session_bytes) j
    = false
    /\ Py.occurs_at (txt "https://") (session_tab_group_block_text_of session_bytes) j
       = false.
Proof.
  intros session_bytes j.
  destruct (first_http_spec session_bytes) as [_ [Hmin _]].
  split; apply block_has_no_scheme;
    try (intros Hin; vm_compute in Hin; intuition discriminate);
    try discriminate;
    intros k Hk; apply (Hmin k Hk).
Qed.

(** ** The non-overlapping position finder, further (lines 82-97) *)

Section ScanCover.
Context {A : Type} `{Eqb A}.
Implicit Types s sub : list A.

(** Every occurrence from [start] on lies inside the reach of a hit. *)
Lemma greedy_covers s sub start l :
  greedy s sub start l ->
  forall j, start <= j -> Py.occurs_at sub s j = true ->
  exists p, In p l /\ p <= j /\ j < p + length sub.
Proof.
  induction 1 as [start E | start found l E Hg IH]; intros j Hj Ho.
  - rewrite (find_none _ _ _ E j Hj) in Ho. discriminate.
  - pose proof (find_some _ _ _ _ E) as [H1 [H2 H3]].
    destruct (Nat.lt_ge_cases j found) as [Hlt | Hge].
    { rewrite (H3 j Hj Hlt) in Ho. discriminate. }
    destruct (Nat.lt_ge_cases j (found + length sub)) as [Hin | Hout].
    + exists found. split; [now left | lia].
    + destruct (IH j Hout Ho) as [p [Hp Hb]]. exists p. split; [now right | exact Hb].
Qed.

Lemma greedy_fits s sub start l :
  greedy s sub start l -> l <> [] ->
  start + length l * length sub <= length s.
Proof.
  induction 1 as [start E | start found l E Hg IH]; intros Hne; [congruence|].
  pose proof (find_some _ _ _ _ E) as [H1 [H2 _]].
  apply occurs_at_bound in H2. destruct l as [|q l].
  - simpl. lia.
  - specialize (IH ltac:(discriminate)). simpl in *. lia.
Qed.

(** No set of pairwise non-overlapping occurrences is larger than the one
    the scan returns. *)
Lemma greedy_maximal s sub start l :
  greedy s sub start l ->
  forall lo qs, start <= lo -> spaced (length sub) lo qs ->
  (forall q, In q qs -> Py.occurs_at sub s q = true) ->
  length qs <= length l.
Proof.
  induction 1 as [start E | start found l E Hg IH]; intros lo qs Hlo Hs Hocc.
  - destruct qs as [|q qs]; [simpl; lia|]. simpl in Hs. destruct Hs as [Hq _].
    specialize (Hocc q (or_introl eq_refl)).
    rewrite (find_none _ _ _ E q) in Hocc; [discriminate | lia].
  - destruct qs as [|q qs]; [simpl; lia|]. simpl in Hs. destruct Hs as [Hq Hs].
    pose proof (find_some _ _ _ _ E) as [H1 [H2 H3]].
    assert (Hfq : found <= q).
    { destruct (Nat.lt_ge_cases q found) as [Hlt | Hge]; [|exact Hge].
      specialize (Hocc q (or_introl eq_refl)).
      rewrite (H3 q) in Hocc; [discriminate | lia | exact Hlt]. }
    simpl. apply le_n_S.
    apply (IH (q + length sub) qs); [lia | exact Hs |].
    intros q' Hq'. apply Hocc. now right.
Qed.
End ScanCover.

(** X4. The positions [find_non_overlapping_positions_in_text] returns are
    occurrences of the substring; every occurrence of the substring in the
    text starts inside the reach of a returned one; and the returned
    occurrences fit in the text side by side. *)
Theorem find_non_overlapping_positions_cover_all_occurrences :
  forall (full_text substring : text) (positions : list nat),
    find_non_overlapping_positions_in_text full_text substring = Some positions ->
    (forall p, In p positions -> Py.occurs_at substring full_text p = true)
    /\ (forall j, Py.occurs_at substring full_text j = true ->
          exists p, In p positions /\ p <= j /\ j < p + length substring)
    /\ length positions * length substring <= length full_text.
Proof.
  intros full_text substring positions Hp.
  apply find_non_overlapping_greedy in Hp. split; [|split].
  - exact (greedy_occurs _ _ _ _ Hp).
  - intros j Hj. exact (greedy_covers _ _ _ _ Hp j (Nat.le_0_l j) Hj).
  - destruct positions as [|p positions]; [simpl; lia|].
    exact (greedy_fits _ _ _ _ Hp ltac:(discriminate)).
Qed.

Lemma find_non_overlapping_positions_cover_all_occurrences_witness :
  exists p, In p [0; 2] /\ p <= 3 /\ 3 < p + 2.
Proof.
  refine (proj1 (proj2 (find_non_overlapping_positions_cover_all_occurrences
                          (txt "aaaaa") (txt "aa") [0; 2] _)) 3 _);
    vm_compute; reflexivity.
Defined.

(** X5. The scan returns as many occurrences as any set of pairwise
    non-overlapping occurrences of the substring can have. *)
Theorem find_non_overlapping_positions_is_maximum :
  forall (full_text substring : text) (positions others : list nat),
    find_non_overlapping_positions_in_text full_text substring = Some positions ->
    spaced (length substring) 0 others ->
    (forall q, In q others -> Py.occurs_at substring full_text q = true) ->
    length others <= length positions.
Proof.
  intros full_text substring positions others Hp Hs Hocc.
  apply find_non_overlapping_greedy in Hp.
  exact (greedy_maximal _ _ _ _ Hp 0 others (Nat.le_refl 0) Hs Hocc).
Qed.

Lemma find_non_overlapping_positions_is_maximum_witness :
  length [1; 3] <= length [0; 2].
Proof.
  refine (find_non_overlapping_positions_is_maximum
            (txt "aaaaa") (txt "aa") [0; 2] [1; 3] _ _ _).
  - vm_compute. reflexivity.
  - simpl. lia.
  - intros q [<- | [<- | []]]; vm_compute; reflexivity.
Defined.

(** ** Tag detector, further (lines 244-262) *)

(** One pass of the detector's loop either leaves the list of entries alone or
    appends one entry whose tag had not been seen. *)
Lemma detect_step_shape block_start_abs block_text seen acc rel_pos seen' acc' :
  detect_step block_start_abs block_text (seen, acc) rel_pos = Some (seen', acc') ->
  (acc' = acc /\ forall c, In c seen -> In c seen')
  \/ (exists d, acc' = acc ++ [d] /\ ~ In (Detected.SessionTabGroupTag d) seen
                /\ seen' = Detected.SessionTabGroupTag d :: seen).
Proof.
  unfold detect_step.
  destruct (text_eqb (Py.slice block_text rel_pos (rel_pos + 3)) _); cbn [negb].
  2:{ intros [= <- <-]. left. auto. }
  destruct (existsb (text_eqb (Py.slice block_text rel_pos (rel_pos + TAG_LENGTH_CHARS)))
                    seen) eqn:Eseen.
  { intros [= <- <-]. left. auto. }
  assert (Hnew : ~ In (Py.slice block_text rel_pos (rel_pos + TAG_LENGTH_CHARS)) seen).
  { intros Hin. apply existsb_text_eqb in Hin. congruence. }
  destruct (find_non_overlapping_positions_in_text block_text
              (Py.slice block_text rel_pos (rel_pos + TAG_LENGTH_CHARS)))
    as [ps|]; [|discriminate].
  cbn [bind]. destruct (length ps =? REPEAT_COUNT_REQUIRED).
  - destruct (nth_error ps 0) as [p0|]; [|discriminate]. cbn [bind].
    intros [= <- <-]. right. eexists. split; [reflexivity|]. split; [exact Hnew|].
    reflexivity.
  - intros [= <- <-]. left. split; [reflexivity|]. intros c Hc. now right.
Qed.

Lemma detect_fold_nodup block_start_abs block_text : forall xs seen acc seen' acc',
  foldM (detect_step block_start_abs block_text) xs (seen, acc) = Some (seen', acc') ->
  NoDup (map Detected.SessionTabGroupTag acc) ->
  (forall d, In d acc -> In (Detected.SessionTabGroupTag d) seen) ->
  NoDup (map Detected.SessionTabGroupTag acc').
Proof.
  induction xs as [|x xs IH]; intros seen acc seen' acc'; cbn [foldM].
  - intros [= <- <-] Hnd _. exact Hnd.
  - destruct (detect_step block_start_abs block_text (seen, acc) x)
      as [[seen1 acc1]|] eqn:E; [|discriminate].
    cbn [bind]. intros Hf Hnd Hsub.
    apply detect_step_shape in E as [[-> Hmono] | [d [-> [Hnew ->]]]].
    + apply (IH _ _ _ _ Hf Hnd). intros d Hd. apply Hmono, Hsub, Hd.
    + apply (IH _ _ _ _ Hf).
      * rewrite map_app. simpl. apply NoDup_app; [exact Hnd | | ].
        -- constructor; [intros [] | constructor].
        -- intros t Ht [<- | []]. apply in_map_iff in Ht as [d' [Hd' Hin]].
           apply Hnew. rewrite <- Hd'. now apply Hsub.
      * intros d' Hd'. apply in_app_or in Hd' as [Hd' | [<- | []]];
          [right; now apply Hsub | now left].
Qed.

Lemma detect_tags_nodup block_start_abs block_text detected :
  detect_tags block_start_abs block_text = Some detected ->
  NoDup (map Detected.SessionTabGroupTag detected).
Proof.
  unfold detect_tags.
  destruct (foldM (detect_step block_start_abs block_text)
              (detect_range block_text) ([], [])) as [[seen acc]|] eqn:E;
    [|discriminate].
  cbn [bind snd]. intros [= <-].
  apply (detect_fold_nodup _ _ _ _ _ _ _ E); [constructor | intros d []].
Qed.

(** An occurrence inside the block is an occurrence of the full text, shifted
    by the block start. *)
Lemma block_occurrence_in_full (session_bytes : list byte) (sub : text) (j : nat) :
  Py.occurs_at sub (session_tab_group_block_text_of session_bytes) j = true ->
  Py.occurs_at sub (display session_bytes) (block_start_abs_of session_bytes + j)
  = true.
Proof.
  intros Ho. pose proof (block_start_le_length session_bytes) as Hb.
  assert (Hbl : block_start_abs_of session_bytes <= length (display session_bytes))
    by (unfold display; rewrite length_map; exact Hb).
  destruct (block_text_cases session_bytes) as [[_ Heq] | [_ Heq]]; rewrite Heq in Ho.
  - apply occurs_at_firstn in Ho as [Ho _]. now rewrite occurs_at_shift in Ho.
  - pose proof (occurs_at_bound _ _ _ Ho) as Hbd. simpl in Hbd.
    assert (j = 0) by lia. assert (sub = []) by (destruct sub; [reflexivity | simpl in Hbd; lia]).
    subst. unfold Py.occurs_at. rewrite Nat.add_0_r.
    apply andb_true_iff. split; [now apply Nat.leb_le | reflexivity].
Qed.

Lemma startswith_firstn {A : Type} `{Eqb A} (sub t : list A) :
  Py.startswith sub t = true -> firstn (length sub) t = sub.
Proof.
  intros Hs. apply startswith_app in Hs as [rest ->].
  rewrite firstn_app, Nat.sub_diag, firstn_all. simpl. apply app_nil_r.
Qed.

Lemma detected_entries_are_well_formed_aux (session_bytes : list byte) detected :
  detect_tags (block_start_abs_of session_bytes)
              (session_tab_group_block_text_of session_bytes) = Some detected ->
  forall d, In d detected ->
    length (Detected.SessionTabGroupTag d) = TAG_LENGTH_CHARS
    /\ Py.occurs_at (Detected.SessionTabGroupTag d) (display session_bytes)
         (Detected.TagFirstPosAbs d) = true.
Proof.
  intros Hdet d Hd.
  destruct (detect_tags_spec (block_start_abs_of session_bytes)
              (session_tab_group_block_text_of session_bytes))
    as [detected' [Hdet' [Hok _]]].
  rewrite Hdet in Hdet'. injection Hdet' as <-.
  destruct (Hok d Hd) as [[rel_pos Hc] [Hps [Hlen [p0 [Hp0 Hfirst]]]]].
  split; [exact (tag_candidate_length _ _ _ Hc)|].
  rewrite Hfirst. apply block_occurrence_in_full.
  apply (greedy_occurs _ _ _ _ (find_non_overlapping_greedy _ _ _ Hps)).
  eapply nth_error_In. exact Hp0.
Qed.

(** X6. Every entry the tag detector appends has a tag of 19 characters that
    begins with three sentinels; its position list holds exactly five
    offsets, pairwise non-overlapping occurrences of the tag in the block;
    [TagFirstPosAbs] is the block start plus the first of them, and the tag
    stands there in the full text.  No two entries have the same tag. *)
Theorem detected_entries_are_well_formed :
  forall (session_bytes : list byte) detected,
    detect_tags (block_start_abs_of session_bytes)
                (session_tab_group_block_text_of session_bytes) = Some detected ->
    NoDup (map Detected.SessionTabGroupTag detected)
    /\ forall d, In d detected ->
         length (Detected.SessionTabGroupTag d) = TAG_LENGTH_CHARS
         /\ firstn 3 (Detected.SessionTabGroupTag d) = repeat REPLACEMENT_CHAR_PIPE 3
         /\ length (Detected.PositionsRelInBlock d) = REPEAT_COUNT_REQUIRED
         /\ non_overlapping TAG_LENGTH_CHARS (Detected.PositionsRelInBlock d)
         /\ (forall p, In p (Detected.PositionsRelInBlock d) ->
               Py.occurs_at (Detected.SessionTabGroupTag d)
                 (session_tab_group_block_text_of session_bytes) p = true)
         /\ nth_error (Detected.PositionsRelInBlock d) 0
            = Some (Detected.TagFirstPosAbs d - block_start_abs_of session_bytes)
         /\ block_start_abs_of session_bytes <= Detected.TagFirstPosAbs d
         /\ Py.occurs_at (Detected.SessionTabGroupTag d) (display session_bytes)
              (Detected.TagFirstPosAbs d) = true.
Proof.
  intros session_bytes detected Hdet. split; [exact (detect_tags_nodup _ _ _ Hdet)|].
  destruct (detect_tags_spec (block_start_abs_of session_bytes)
              (session_tab_group_block_text_of session_bytes))
    as [detected' [Hdet' [Hok _]]].
  rewrite Hdet in Hdet'. injection Hdet' as <-.
  intros d Hd. destruct (Hok d Hd) as [[rel_pos Hc] [Hps [Hlen [p0 [Hp0 Hfirst]]]]].
  pose proof (tag_candidate_length _ _ _ Hc) as Htl.
  pose proof (find_non_overlapping_greedy _ _ _ Hps) as Hg.
  split; [exact Htl|]. split.
  { destruct Hc as [Hr [Hpre Heq]]. rewrite Heq. apply detect_range_In in Hr.
    rewrite <- Hpre. unfold Py.slice, TAG_LENGTH_CHARS in *.
    rewrite firstn_firstn. f_equal. lia. }
  split; [exact Hlen|]. split.
  { rewrite <- Htl. exact (spaced_non_overlapping _ _ _ (greedy_spaced _ _ _ _ Hg)). }
  split; [exact (greedy_occurs _ _ _ _ Hg)|].
  split; [rewrite Hfirst, Hp0; f_equal; lia|]. split; [lia|].
  rewrite Hfirst. apply block_occurrence_in_full.
  apply (greedy_occurs _ _ _ _ Hg). eapply nth_error_In. exact Hp0.
Qed.

Lemma detected_entries_are_well_formed_witness :
  length (Detected.PositionsRelInBlock sample_detected) = REPEAT_COUNT_REQUIRED
  /\ Py.occurs_at sample_tag (display sample_session) 0 = true.
Proof.
  assert (Hdet : detect_tags (block_start_abs_of sample_session)
                   (session_tab_group_block_text_of sample_session)
                 = Some [sample_detected]) by (vm_compute; reflexivity).
  destruct (detected_entries_are_well_formed sample_session [sample_detected] Hdet)
    as [_ Hall].
  destruct (Hall sample_detected (or_introl eq_refl))
    as [_ [_ [Hlen [_ [_ [_ [_ Hocc]]]]]]].
  split; [exact Hlen | exact Hocc].
Defined.

(** ** Group name reconstructor and catalogue, further (lines 264-306) *)

Lemma reconstruct_fold_origin (session_bytes : list byte) : forall l acc reconstructed,
  foldM (reconstruct_step (display session_bytes)
           (session_tab_group_block_text_of session_bytes)
           (block_start_abs_of session_bytes)) l acc = Some reconstructed ->
  (forall g d,
      reconstruct_one (display session_bytes)
        (session_tab_group_block_text_of session_bytes)
        (block_start_abs_of session_bytes) d = Some (Some g) ->
      Group.SessionTabGroupTag g = Detected.SessionTabGroupTag d) ->
  NoDup (map Group.SessionTabGroupTag acc ++ map Detected.SessionTabGroupTag l) ->
  NoDup (map Group.SessionTabGroupTag reconstructed)
  /\ forall g, In g reconstructed ->
       In g acc
       \/ exists d, In d l
            /\ reconstruct_one (display session_bytes)
                 (session_tab_group_block_text_of session_bytes)
                 (block_start_abs_of session_bytes) d = Some (Some g).
Proof.
  induction l as [|d l IH]; intros acc reconstructed; cbn [foldM].
  - intros [= <-] _ Hnd. simpl in Hnd. rewrite app_nil_r in Hnd.
    split; [exact Hnd | auto].
  - unfold reconstruct_step at 1.
    destruct (reconstruct_one (display session_bytes)
                (session_tab_group_block_text_of session_bytes)
                (block_start_abs_of session_bytes) d) as [[g|]|] eqn:E;
      cbn [bind]; [| |discriminate].
    + intros Hf Htag Hnd.
      destruct (IH (acc ++ [g]) reconstructed Hf Htag) as [Hnd' Hor].
      { rewrite map_app, <- app_assoc. simpl. rewrite (Htag g d E). exact Hnd. }
      split; [exact Hnd'|]. intros g' Hg'. destruct (Hor g' Hg') as [Ha | [d' [Hd' Hr]]].
      * apply in_app_or in Ha as [Ha | [<- | []]]; [now left | right].
        exists d. split; [now left | exact E].
      * right. exists d'. split; [now right | exact Hr].
    + intros Hf Htag Hnd.
      destruct (IH acc reconstructed Hf Htag) as [Hnd' Hor].
      { simpl in Hnd. now apply NoDup_remove_1 in Hnd. }
      split; [exact Hnd'|]. intros g' Hg'. destruct (Hor g' Hg') as [Ha | [d' [Hd' Hr]]];
        [now left | right]. exists d'. split; [now right | exact Hr].
Qed.

Lemma reconstruct_one_fields full_text block_text block_start_abs d g :
  reconstruct_one full_text block_text block_start_abs d = Some (Some g) ->
  Group.SessionTabGroupTag g = Detected.SessionTabGroupTag d
  /\ Group.TagFirstPosAbs g = Detected.TagFirstPosAbs d
  /\ Group.GroupStartAbs g
     = Detected.TagFirstPosAbs d + TAG_LENGTH_CHARS + ADVANCE_AFTER_TAG_TO_GROUP_START
  /\ Group.GroupSpaced g
     = Py.slice full_text (Group.GroupStartAbs g) (Group.GroupEndAbs g + 1)
  /\ Group.SessionTabGroup g = strip (every_other (Group.GroupSpaced g)).
Proof.
  unfold reconstruct_one.
  destruct (length (Detected.PositionsRelInBlock d) <? 2); [discriminate|].
  destruct (nth_error (Detected.PositionsRelInBlock d) 1) as [second_rel|];
    [|discriminate].
  cbn [bind].
  destruct (scan_back_loop full_text _) as [[ge|]|]; cbn [bind]; try discriminate.
  destruct (_ || _); [discriminate|].
  intros [= <-]. cbn. repeat split; reflexivity.
Qed.

(** Every entry of the catalogue is the result of the reconstructor on an
    entry of the detector, and the tags of the catalogue are distinct. *)
Lemma catalogue_origin (session_bytes : list byte) detected groups :
  detect_tags (block_start_abs_of session_bytes)
              (session_tab_group_block_text_of session_bytes) = Some detected ->
  session_tags_and_groups_of session_bytes = Some groups ->
  NoDup (map Group.SessionTabGroupTag groups)
  /\ StronglySorted (fun a b => Group.TagFirstPosAbs a <= Group.TagFirstPosAbs b) groups
  /\ forall g, In g groups ->
       exists d, In d detected
         /\ reconstruct_one (display session_bytes)
              (session_tab_group_block_text_of session_bytes)
              (block_start_abs_of session_bytes) d = Some (Some g).
Proof.
  intros Hdet. unfold session_tags_and_groups_of.
  destruct (session_tab_group_block_text_of session_bytes) as [|c0 b0] eqn:Eb.
  { intros [= <-]. split; [constructor|]. split; [constructor | intros g []]. }
  rewrite <- Eb in *. rewrite Hdet. cbn [bind].
  destruct (foldM _ detected []) as [rec|] eqn:Ef; [|discriminate].
  cbn [bind]. intros [= <-].
  destruct (reconstruct_fold_origin session_bytes detected [] rec Ef) as [Hnd Hor].
  { intros g d Hr. now apply reconstruct_one_fields in Hr. }
  { simpl. exact (detect_tags_nodup _ _ _ Hdet). }
  split; [|split].
  - eapply Permutation_NoDup; [|exact Hnd].
    apply Permutation_map. symmetry. apply sort_by_perm.
  - apply (sort_by_sorted Group.TagFirstPosAbs).
  - intros g Hg. apply sort_by_In in Hg. destruct (Hor g Hg) as [[] | Hex]. exact Hex.
Qed.

Lemma dict_comprehension_lookup {V : Type} (f : Group.t -> V) : forall groups g d0,
  NoDup (map Group.SessionTabGroupTag groups) -> In g groups ->
  Dict.lookup text_eqb (Group.SessionTabGroupTag g)
    (fold_left (fun d ent => Dict.set text_eqb (Group.SessionTabGroupTag ent) (f ent) d)
               groups d0)
  = Some (f g).
Proof.
  assert (Hkeep : forall l t d,
             ~ In t (map Group.SessionTabGroupTag l) ->
             Dict.lookup text_eqb t
               (fold_left (fun d ent =>
                  Dict.set text_eqb (Group.SessionTabGroupTag ent) (f ent) d) l d)
             = Dict.lookup text_eqb t d).
  { induction l as [|ent l IH]; intros t d Hnot; simpl; [reflexivity|].
    rewrite IH by (intros Hin; apply Hnot; now right).
    apply (lookup_set_ne text_eqb text_eqb_eq). intros Heq. apply Hnot. now left. }
  induction groups as [|ent groups IH]; intros g d0 Hnd Hin; [destruct Hin|].
  simpl. inversion Hnd; subst. destruct Hin as [<- | Hin].
  - rewrite Hkeep by assumption. apply (lookup_set_eq text_eqb text_eqb_eq).
  - now apply IH.
Qed.

Lemma tag_is_text_at (s tag : text) (p : nat) :
  Py.occurs_at tag s p = true -> tag = firstn (length tag) (skipn p s).
Proof.
  unfold Py.occurs_at. rewrite andb_true_iff. intros [_ Hs].
  symmetry. now apply startswith_firstn.
Qed.

Lemma sorted_groups_strict (full_text : text) groups :
  StronglySorted (fun a b => Group.TagFirstPosAbs a <= Group.TagFirstPosAbs b) groups ->
  NoDup (map Group.SessionTabGroupTag groups) ->
  (forall g, In g groups ->
     Group.SessionTabGroupTag g
     = firstn TAG_LENGTH_CHARS (skipn (Group.TagFirstPosAbs g) full_text)) ->
  StronglySorted (fun a b => Group.TagFirstPosAbs a < Group.TagFirstPosAbs b) groups.
Proof.
  induction 1 as [|a l Hs IH Ha]; intros Hnd Htext; [constructor|].
  inversion Hnd as [|? ? Hnotin Hnd']; subst.
  constructor; [apply IH; [exact Hnd' | intros; apply Htext; now right]|].
  apply Forall_forall. intros b Hb. rewrite Forall_forall in Ha.
  specialize (Ha b Hb).
  destruct (Nat.eq_dec (Group.TagFirstPosAbs a) (Group.TagFirstPosAbs b))
    as [Heq | Hne]; [|lia].
  exfalso. apply Hnotin. apply in_map_iff. exists b. split; [|exact Hb].
  rewrite (Htext a (or_introl eq_refl)), (Htext b (or_intror Hb)), Heq. reflexivity.
Qed.

(** X7. The catalogue [session_tags_and_groups] is in strictly increasing
    order of [TagFirstPosAbs] and holds no tag twice, so the two dictionaries
    built from it have one key per entry: [tag_to_groupname] maps the tag of
    each entry to the name reconstructed for it, and the counter of each tag
    starts at 0. *)
Theorem catalogue_is_strictly_sorted_with_distinct_tags :
  forall (session_bytes : list byte) groups,
    session_tags_and_groups_of session_bytes = Some groups ->
    StronglySorted (fun a b => Group.TagFirstPosAbs a < Group.TagFirstPosAbs b) groups
    /\ NoDup (map Group.SessionTabGroupTag groups)
    /\ forall g, In g groups ->
         Dict.get text_eqb (Group.SessionTabGroupTag g)
           (dict_comprehension Group.SessionTabGroup groups) []
         = Group.SessionTabGroup g
         /\ Dict.lookup text_eqb (Group.SessionTabGroupTag g)
              (consecutive_empty_count_by_tag (initial_state groups))
            = Some 0.
Proof.
  intros session_bytes groups Hg.
  destruct (detect_tags_spec (block_start_abs_of session_bytes)
              (session_tab_group_block_text_of session_bytes))
    as [detected [Hdet [Hok _]]].
  destruct (catalogue_origin session_bytes detected groups Hdet Hg)
    as [Hnd [Hsorted Horigin]].
  assert (Htext : forall g, In g groups ->
            Group.SessionTabGroupTag g
            = firstn TAG_LENGTH_CHARS
                (skipn (Group.TagFirstPosAbs g) (display session_bytes))).
  { intros g Hin. destruct (Horigin g Hin) as [d [Hd Hr]].
    apply reconstruct_one_fields in Hr as [Ht [Hf _]].
    destruct (detected_entries_are_well_formed_aux session_bytes detected Hdet d Hd)
      as [Hlen Hocc].
    rewrite Ht, Hf, <- Hlen. now apply tag_is_text_at. }
  split; [|split; [exact Hnd|]].
  - exact (sorted_groups_strict (display session_bytes) groups Hsorted Hnd Htext).
  - intros g Hin. unfold Dict.get, dict_comprehension, initial_state.
    cbn [consecutive_empty_count_by_tag]. unfold dict_comprehension.
    rewrite (dict_comprehension_lookup Group.SessionTabGroup groups g [] Hnd Hin).
    rewrite (dict_comprehension_lookup (fun _ => 0) groups g [] Hnd Hin).
    split; reflexivity.
Qed.

Lemma catalogue_is_strictly_sorted_with_distinct_tags_witness :
  NoDup (map Group.SessionTabGroupTag sample_groups)
  /\ Dict.get text_eqb sample_tag
       (dict_comprehension Group.SessionTabGroup sample_groups) [] = txt "Grp".
Proof.
  destruct (catalogue_is_strictly_sorted_with_distinct_tags sample_session
              sample_groups) as [_ [Hnd Hall]].
  - vm_compute. reflexivity.
  - split; [exact Hnd|].
    refine (proj1 (Hall (Group.mk sample_tag (txt "G|r|p") (txt "Grp") 0 23 27) _)).
    now left.
Defined.

Lemma every_other_length {A : Type} (t : list A) :
  2 * length (every_other t) <= length t + 1.
Proof.
  assert (Hgen : forall n (u : list A), length u <= n ->
                                        2 * length (every_other u) <= length u + 1).
  { induction n as [|n IH]; intros u Hu.
    - destruct u; [simpl; lia | simpl in Hu; lia].
    - destruct u as [|a [|b u]]; [simpl; lia | simpl; lia |].
      change (every_other (a :: b :: u)) with (a :: every_other u).
      simpl in Hu. specialize (IH u ltac:(lia)). simpl in *. lia. }
  now apply (Hgen (length t)).
Qed.

Lemma lstrip_length (t : text) : length (lstrip t) <= length t.
Proof.
  induction t as [|c t IH]; simpl; [lia|]. destruct (py_isspace c); simpl; lia.
Qed.

Lemma strip_length (t : text) : length (strip t) <= length t.
Proof.
  unfold strip. rewrite length_rev.
  etransitivity; [apply lstrip_length|]. rewrite length_rev. apply lstrip_length.
Qed.

Lemma catalogue_entry_bounds (session_bytes : list byte) groups g :
  session_tags_and_groups_of session_bytes = Some groups -> In g groups ->
  Group.GroupStartAbs g
  = Group.TagFirstPosAbs g + TAG_LENGTH_CHARS + ADVANCE_AFTER_TAG_TO_GROUP_START
  /\ Group.GroupStartAbs g <= Group.GroupEndAbs g
  /\ Group.GroupEndAbs g < length (display session_bytes)
  /\ (exists c, nth_error (display session_bytes) (Group.GroupEndAbs g) = Some c
                /\ c <> REPLACEMENT_CHAR_PIPE)
  /\ Group.GroupSpaced g
     = Py.slice (display session_bytes) (Group.GroupStartAbs g)
                (Group.GroupEndAbs g + 1)
  /\ length (Group.GroupSpaced g)
     = Group.GroupEndAbs g - Group.GroupStartAbs g + 1
  /\ trimmed_of (every_other (Group.GroupSpaced g)) (Group.SessionTabGroup g)
  /\ 2 * length (Group.SessionTabGroup g) <= length (Group.GroupSpaced g) + 1
  /\ exists second_abs,
       Group.GroupEndAbs g < second_abs
       /\ Group.TagFirstPosAbs g + TAG_LENGTH_CHARS <= second_abs
       /\ Py.occurs_at (Group.SessionTabGroupTag g) (display session_bytes) second_abs
          = true.
Proof.
  intros Hg Hin.
  destruct (detect_tags_spec (block_start_abs_of session_bytes)
              (session_tab_group_block_text_of session_bytes))
    as [detected [Hdet [Hok _]]].
  destruct (catalogue_origin session_bytes detected groups Hdet Hg)
    as [_ [_ Horigin]].
  destruct (Horigin g Hin) as [d [Hd Hr]].
  pose proof (reconstruct_one_fields _ _ _ _ _ Hr) as [Htag [Hfirst [Hgs [Hsp Hname]]]].
  destruct (reconstruct_one_spec session_bytes detected d Hdet Hd)
    as [second_rel [marker [Hsec [_ [Hm [Hcase | [Hnone _]]]]]]];
    [|rewrite Hr in Hnone; discriminate].
  destruct Hcase as [ge [name [Hge [Hle [_ Hr']]]]].
  rewrite Hr in Hr'. injection Hr' as Hr'. 
  assert (Hend : Group.GroupEndAbs g = ge) by (rewrite Hr'; reflexivity).
  pose proof (marker_offset_bounds _ _ _ Hm) as Hmb.
  destruct (Hok d Hd) as [[rel_pos Hc] [Hps [Hlen [p0 [Hp0 Hfirstd]]]]].
  pose proof (find_non_overlapping_greedy _ _ _ Hps) as Hgr.
  pose proof (spaced_non_overlapping _ _ _ (greedy_spaced _ _ _ _ Hgr)) as Hno.
  rewrite (tag_candidate_length _ _ _ Hc) in Hno.
  pose proof (Hno 0 1 p0 second_rel ltac:(lia) Hp0 Hsec) as Hgap.
  assert (Hsin : In second_rel (Detected.PositionsRelInBlock d))
    by (eapply nth_error_In; exact Hsec).
  pose proof (detected_position_bound _ _ _ _ (Hok d Hd) Hsin) as Hpb.
  pose proof (block_within_full session_bytes) as Hbf.
  destruct Hge as [Hlt [Hchar Hpipes]].
  assert (Hgelen : ge < length (display session_bytes)) by lia.
  split; [rewrite Hgs, Hfirst; reflexivity|].
  split; [rewrite Hgs, Hend; exact Hle|].
  split; [lia|].
  split; [rewrite Hend; exact Hchar|].
  split; [exact Hsp|].
  split; [rewrite Hsp; rewrite slice_length by lia; lia|].
  split; [rewrite Hname; apply strip_trimmed|].
  split.
  { rewrite Hname. pose proof (strip_length (every_other (Group.GroupSpaced g))).
    pose proof (every_other_length (Group.GroupSpaced g)). lia. }
  exists (block_start_abs_of session_bytes + second_rel).
  split; [lia|]. split; [lia|].
  rewrite Htag. apply block_occurrence_in_full. exact (greedy_occurs _ _ _ _ Hgr _ Hsin).
Qed.

Lemma catalogue_entry_second_occurrence (session_bytes : list byte) groups g :
  session_tags_and_groups_of session_bytes = Some groups -> In g groups ->
  exists pos_list_rel first_rel second_rel,
    find_non_overlapping_positions_in_text
      (session_tab_group_block_text_of session_bytes) (Group.SessionTabGroupTag g)
    = Some pos_list_rel
    /\ nth_error pos_list_rel 0 = Some first_rel
    /\ nth_error pos_list_rel 1 = Some second_rel
    /\ Group.TagFirstPosAbs g = block_start_abs_of session_bytes + first_rel
    /\ Group.GroupEndAbs g < block_start_abs_of session_bytes + second_rel
    /\ Group.TagFirstPosAbs g + TAG_LENGTH_CHARS
       <= block_start_abs_of session_bytes + second_rel
    /\ Py.occurs_at (Group.SessionTabGroupTag g) (display session_bytes)
         (block_start_abs_of session_bytes + second_rel) = true
    /\ forall j,
         Group.TagFirstPosAbs g + TAG_LENGTH_CHARS <= j ->
         j < block_start_abs_of session_bytes + second_rel ->
         Py.occurs_at (Group.SessionTabGroupTag g) (display session_bytes) j = false.
Proof.
  intros Hg Hin.
  destruct (detect_tags_spec (block_start_abs_of session_bytes)
              (session_tab_group_block_text_of session_bytes))
    as [detected [Hdet [Hok _]]].
  destruct (catalogue_origin session_bytes detected groups Hdet Hg)
    as [_ [_ Horigin]].
  destruct (Horigin g Hin) as [d [Hd Hr]].
  pose proof (reconstruct_one_fields _ _ _ _ _ Hr) as [Htag [Hfirst _]].
  destruct (reconstruct_one_spec session_bytes detected d Hdet Hd)
    as [second_rel [marker [Hsec [_ [Hm [Hcase | [Hnone _]]]]]]];
    [|rewrite Hr in Hnone; discriminate].
  destruct Hcase as [ge [name [Hge [Hle [_ Hr']]]]].
  rewrite Hr in Hr'. injection Hr' as Hr'.
  assert (Hend : Group.GroupEndAbs g = ge) by (rewrite Hr'; reflexivity).
  pose proof (marker_offset_bounds _ _ _ Hm) as Hmb.
  destruct (Hok d Hd) as [[rel_pos Hc] [Hps [Hlen [p0 [Hp0 Hfirstd]]]]].
  pose proof (find_non_overlapping_greedy _ _ _ Hps) as Hgr.
  pose proof (tag_candidate_length _ _ _ Hc) as Htl.
  pose proof (spaced_non_overlapping _ _ _ (greedy_spaced _ _ _ _ Hgr)) as Hno.
  rewrite Htl in Hno.
  pose proof (Hno 0 1 p0 second_rel ltac:(lia) Hp0 Hsec) as Hgap.
  assert (Hsin : In second_rel (Detected.PositionsRelInBlock d))
    by (eapply nth_error_In; exact Hsec).
  pose proof (detected_position_bound _ _ _ _ (Hok d Hd) Hsin) as Hpb.
  destruct Hge as [Hlt _].
  assert (Hmin : forall k, p0 + TAG_LENGTH_CHARS <= k -> k < second_rel ->
            Py.occurs_at (Detected.SessionTabGroupTag d)
              (session_tab_group_block_text_of session_bytes) k = false).
  { destruct (Detected.PositionsRelInBlock d) as [|q0 [|q1 rest]];
      [discriminate Hp0 | discriminate Hsec|].
    injection Hp0 as ->. injection Hsec as ->.
    inversion Hgr as [|start found l E0 Hg0]; subst.
    inversion Hg0 as [|start found l E1 Hg1]; subst.
    apply find_some in E1 as [_ [_ Hnone]].
    intros k Hk1 Hk2. apply Hnone; [rewrite Htl; exact Hk1 | exact Hk2]. }
  exists (Detected.PositionsRelInBlock d), p0, second_rel.
  rewrite Htag. split; [exact Hps|]. split; [exact Hp0|]. split; [exact Hsec|].
  split; [rewrite Hfirst; exact Hfirstd|]. split; [lia|].
  split; [rewrite Hfirst, Hfirstd; lia|]. split.
  { apply block_occurrence_in_full. exact (greedy_occurs _ _ _ _ Hgr _ Hsin). }
  intros j Hj1 Hj2. rewrite Hfirst, Hfirstd in Hj1.
  destruct (Py.occurs_at (Detected.SessionTabGroupTag d) (display session_bytes) j)
    eqn:Eocc; [|reflexivity].
  exfalso.
  assert (Hblock : Py.occurs_at (Detected.SessionTabGroupTag d)
                     (session_tab_group_block_text_of session_bytes)
                     (j - block_start_abs_of session_bytes) = true).
  { pose proof (block_start_le_length session_bytes) as Hbs.
    assert (Hbs' : block_start_abs_of session_bytes <= length (display session_bytes))
      by (unfold display; rewrite length_map; exact Hbs).
    pose proof (block_text_cases session_bytes) as Hcases. cbv zeta in Hcases.
    destruct Hcases as [[_ Hb] | [_ Hb]].
    - assert (Hblen : length (session_tab_group_block_text_of session_bytes)
                      <= find_earliest_lowercase_http_position_in_bytes session_bytes
                         - block_start_abs_of session_bytes)
        by (rewrite Hb, length_firstn; lia).
      rewrite Hb. apply occurs_at_firstn. split.
      + rewrite occurs_at_shift by exact Hbs'.
        replace (block_start_abs_of session_bytes
                 + (j - block_start_abs_of session_bytes)) with j by lia.
        exact Eocc.
      + rewrite Htl. lia.
    - rewrite Hb in Hpb. simpl in Hpb. unfold TAG_LENGTH_CHARS in Hpb. lia. }
  rewrite Hmin in Hblock; [discriminate | lia | lia].
Qed.

(** X8. Every entry of the catalogue has a non-empty spaced region inside the
    text: it starts 23 characters after the first occurrence of the tag, ends
    at a character that is not the sentinel, and ends before the second
    occurrence of the tag.  That second occurrence is the second offset of the
    detector's scan of the block, the first being the entry's
    [TagFirstPosAbs]; the tag stands there in the text, and nowhere in the
    text between the end of the first occurrence and it.  [GroupSpaced] is
    the text of the region, and the name is its even-index characters without
    surrounding whitespace, hence at most half as long (rounded up). *)
Theorem catalogue_entries_lie_between_first_two_tag_occurrences :
  forall (session_bytes : list byte) groups g,
    session_tags_and_groups_of session_bytes = Some groups -> In g groups ->
    Group.GroupStartAbs g
    = Group.TagFirstPosAbs g + TAG_LENGTH_CHARS + ADVANCE_AFTER_TAG_TO_GROUP_START
    /\ Group.GroupStartAbs g <= Group.GroupEndAbs g
    /\ Group.GroupEndAbs g < length (display session_bytes)
    /\ (exists c, nth_error (display session_bytes) (Group.GroupEndAbs g) = Some c
                  /\ c <> REPLACEMENT_CHAR_PIPE)
    /\ Group.GroupSpaced g
       = Py.slice (display session_bytes) (Group.GroupStartAbs g)
                  (Group.GroupEndAbs g + 1)
    /\ length (Group.GroupSpaced g)
       = Group.GroupEndAbs g - Group.GroupStartAbs g + 1
    /\ trimmed_of (every_other (Group.GroupSpaced g)) (Group.SessionTabGroup g)
    /\ 2 * length (Group.SessionTabGroup g) <= length (Group.GroupSpaced g) + 1
    /\ exists pos_list_rel first_rel second_rel,
         find_non_overlapping_positions_in_text
           (session_tab_group_block_text_of session_bytes)
           (Group.SessionTabGroupTag g)
         = Some pos_list_rel
         /\ nth_error pos_list_rel 0 = Some first_rel
         /\ nth_error pos_list_rel 1 = Some second_rel
         /\ Group.TagFirstPosAbs g = block_start_abs_of session_bytes + first_rel
         /\ Group.GroupEndAbs g < block_start_abs_of session_bytes + second_rel
         /\ Group.TagFirstPosAbs g + TAG_LENGTH_CHARS
            <= block_start_abs_of session_bytes + second_rel
         /\ Py.occurs_at (Group.SessionTabGroupTag g) (display session_bytes)
              (block_start_abs_of session_bytes + second_rel) = true
         /\ forall j,
              Group.TagFirstPosAbs g + TAG_LENGTH_CHARS <= j ->
              j < block_start_abs_of session_bytes + second_rel ->
              Py.occurs_at (Group.SessionTabGroupTag g) (display session_bytes) j
              = false.
Proof.
  intros session_bytes groups g Hg Hin.
  destruct (catalogue_entry_bounds session_bytes groups g Hg Hin)
    as [H1 [H2 [H3 [H4 [H5 [H6 [H7 [H8 _]]]]]]]].
  split; [exact H1|]. split; [exact H2|]. split; [exact H3|]. split; [exact H4|].
  split; [exact H5|]. split; [exact H6|]. split; [exact H7|]. split; [exact H8|].
  exact (catalogue_entry_second_occurrence session_bytes groups g Hg Hin).
Qed.

Lemma catalogue_entries_lie_between_first_two_tag_occurrences_witness :
  exists pos_list_rel first_rel second_rel,
    find_non_overlapping_positions_in_text
      (session_tab_group_block_text_of sample_session) sample_tag
    = Some pos_list_rel
    /\ nth_error pos_list_rel 0 = Some first_rel
    /\ nth_error pos_list_rel 1 = Some second_rel
    /\ 0 = block_start_abs_of sample_session + first_rel
    /\ 27 < block_start_abs_of sample_session + second_rel
    /\ 0 + TAG_LENGTH_CHARS <= block_start_abs_of sample_session + second_rel
    /\ Py.occurs_at sample_tag (display sample_session)
         (block_start_abs_of sample_session + second_rel) = true
    /\ forall j,
         0 + TAG_LENGTH_CHARS <= j ->
         j < block_start_abs_of sample_session + second_rel ->
         Py.occurs_at sample_tag (display sample_session) j = false.
Proof.
  refine (proj2 (proj2 (proj2 (proj2 (proj2 (proj2 (proj2 (proj2
            (catalogue_entries_lie_between_first_two_tag_occurrences sample_session
               sample_groups
               (Group.mk sample_tag (txt "G|r|p") (txt "Grp") 0 23 27) _ _))))))))).
  - vm_compute. reflexivity.
  - now left.
Defined.

(** ** Tag occurrence index and step B, further (lines 308-315, 389-399) *)

Lemma index_fold_has full_text : forall groups index0 index,
  foldM (index_step full_text) groups index0 = Some index ->
  forall t,
    (exists occs, Dict.lookup text_eqb t index0 = Some occs)
    \/ (exists g, In g groups /\ Group.SessionTabGroupTag g = t) ->
    exists occs, Dict.lookup text_eqb t index = Some occs.
Proof.
  induction groups as [|g groups IH]; intros index0 index; cbn [foldM].
  - intros [= <-] t [Hex | [g [[] _]]]. exact Hex.
  - unfold index_step at 1.
    destruct (find_non_overlapping_positions_in_text full_text
                (Group.SessionTabGroupTag g)) as [all|]; [|discriminate].
    cbn [bind]. intros Hf t Ht. apply (IH _ _ Hf t).
    destruct Ht as [[occs Hocc] | [g' [[<- | Hin] Htag]]].
    + left. rewrite (lookup_set text_eqb text_eqb_eq).
      destruct (text_eqb (Group.SessionTabGroupTag g) t); eauto.
    + left. rewrite <- Htag, (lookup_set_eq text_eqb text_eqb_eq). eauto.
    + right. now exists g'.
Qed.

Lemma spaced_map_add L b lo l :
  spaced L lo l -> spaced L (b + lo) (map (Nat.add b) l).
Proof.
  revert lo; induction l as [|p l IH]; intros lo; simpl; [tauto|].
  intros [Hp Hs]. split; [lia|]. rewrite <- Nat.add_assoc. now apply IH.
Qed.

Lemma filter_all_ge v l :
  (forall p, In p l -> v <= p) -> filter (fun p => v <=? p) l = l.
Proof.
  induction l as [|x l IH]; intros Hall; simpl; [reflexivity|].
  replace (v <=? x) with true
    by (symmetry; apply Nat.leb_le; apply Hall; now left).
  f_equal. apply IH. intros p Hp. apply Hall. now right.
Qed.

(** On a list with gaps, keeping the entries not below the [k]-th one is
    dropping the first [k]. *)
Lemma filter_from_nth L : forall l lo k v,
  0 < L -> spaced L lo l -> nth_error l k = Some v ->
  filter (fun p => v <=? p) l = skipn k l.
Proof.
  induction l as [|x l IH]; intros lo k v HL Hs Hk; [destruct k; discriminate|].
  simpl in Hs. destruct Hs as [Hx Hs]. destruct k as [|k].
  - simpl in Hk. injection Hk as <-. simpl skipn. apply filter_all_ge.
    intros p [<- | Hp]; [lia|]. pose proof (spaced_In _ _ _ _ Hs Hp). lia.
  - simpl in Hk. simpl skipn. simpl filter.
    pose proof (spaced_In _ _ _ _ Hs (nth_error_In _ _ Hk)) as Hv.
    replace (v <=? x) with false by (symmetry; apply Nat.leb_gt; lia).
    exact (IH _ _ _ HL Hs Hk).
Qed.

Lemma index_entry_of_group (session_bytes : list byte) groups index g :
  session_tags_and_groups_of session_bytes = Some groups ->
  tag_to_all_occurrences_of (display session_bytes) groups = Some index ->
  In g groups ->
  exists occs,
    Dict.lookup text_eqb (Group.SessionTabGroupTag g) index = Some occs
    /\ greedy (display session_bytes) (Group.SessionTabGroupTag g) 0 occs
    /\ REPEAT_COUNT_REQUIRED <= length occs.
Proof.
  intros Hg Hidx Hin.
  destruct (detect_tags_spec (block_start_abs_of session_bytes)
              (session_tab_group_block_text_of session_bytes))
    as [detected [Hdet [Hok _]]].
  destruct (catalogue_origin session_bytes detected groups Hdet Hg)
    as [_ [_ Horigin]].
  destruct (Horigin g Hin) as [d [Hd Hr]].
  apply reconstruct_one_fields in Hr as [Htag _].
  pose proof (catalogue_entry_bounds session_bytes groups g Hg Hin)
    as [_ [_ [Hlen _]]].
  pose proof (group_tags_nonempty session_bytes groups Hg g Hin) as Hne.
  assert (Hhas : exists occs,
             Dict.lookup text_eqb (Group.SessionTabGroupTag g) index = Some occs).
  { unfold tag_to_all_occurrences_of in Hidx.
    destruct groups as [|g0 groups]; [destruct Hin|].
    destruct (display session_bytes) as [|c t] eqn:Ed; [simpl in Hlen; lia|].
    apply (index_fold_has _ _ _ _ Hidx). right. now exists g. }
  destruct Hhas as [occs Hocc]. exists occs. split; [exact Hocc|].
  pose proof (index_lookup _ _ _ _ _ Hidx Hocc) as Hlist.
  destruct (index_list_of_spec (display session_bytes) _ Hne) as [occs' [Hl' Hgr]].
  rewrite Hlist in Hl'. injection Hl' as <-. split; [exact Hgr|].
  destruct (Hok d Hd) as [[rel_pos Hc] [Hps [Hcount _]]].
  pose proof (find_non_overlapping_greedy _ _ _ Hps) as Hblock.
  rewrite <- Hcount.
  rewrite <- (length_map (Nat.add (block_start_abs_of session_bytes))).
  apply (greedy_maximal _ _ _ _ Hgr 0); [lia | |].
  - rewrite Htag. apply (spaced_weaken _ (block_start_abs_of session_bytes + 0));
      [lia|]. apply spaced_map_add. exact (greedy_spaced _ _ _ _ Hblock).
  - intros q Hq. apply in_map_iff in Hq as [p [<- Hp]]. rewrite Htag.
    apply block_occurrence_in_full. exact (greedy_occurs _ _ _ _ Hblock p Hp).
Qed.

(** X9. For every tag of the catalogue the index holds a list of at least
    five occurrences, so the test [len(occs) >= 5] of step B never fails for
    a catalogued tag, and the eligible occurrences of the tag are its index
    entries from the fifth on. *)
Theorem catalogued_tag_has_five_indexed_occurrences :
  forall (session_bytes : list byte) groups index g,
    session_tags_and_groups_of session_bytes = Some groups ->
    tag_to_all_occurrences_of (display session_bytes) groups = Some index ->
    In g groups ->
    exists occs,
      Dict.lookup text_eqb (Group.SessionTabGroupTag g) index = Some occs
      /\ REPEAT_COUNT_REQUIRED <= length occs
      /\ eligible_of_tag index g
         = Some (map (fun p => (p, Group.SessionTabGroupTag g)) (skipn 4 occs)).
Proof.
  intros session_bytes groups index g Hg Hidx Hin.
  destruct (index_entry_of_group session_bytes groups index g Hg Hidx Hin)
    as [occs [Hocc [Hgr Hfive]]].
  exists occs. split; [exact Hocc|]. split; [exact Hfive|].
  unfold eligible_of_tag, Dict.get. rewrite Hocc.
  unfold REPEAT_COUNT_REQUIRED in Hfive.
  replace (5 <=? length occs) with true by (symmetry; now apply Nat.leb_le).
  destruct (nth_error occs 4) as [fifth_pos|] eqn:E5.
  2:{ apply nth_error_None in E5. lia. }
  cbn [bind]. do 2 f_equal.
  apply (filter_from_nth (length (Group.SessionTabGroupTag g)) occs 0 4 fifth_pos);
    [|exact (greedy_spaced _ _ _ _ Hgr) | exact E5].
  pose proof (group_tags_nonempty session_bytes groups Hg g Hin) as Hne.
  destruct (Group.SessionTabGroupTag g); [congruence | simpl; lia].
Qed.

Lemma catalogued_tag_has_five_indexed_occurrences_witness :
  exists occs,
    Dict.lookup text_eqb sample_tag [(sample_tag, [0; 72; 91; 110; 129; 186; 244])]
    = Some occs
    /\ REPEAT_COUNT_REQUIRED <= length occs.
Proof.
  destruct (catalogued_tag_has_five_indexed_occurrences sample_session sample_groups
              [(sample_tag, [0; 72; 91; 110; 129; 186; 244])]
              (Group.mk sample_tag (txt "G|r|p") (txt "Grp") 0 23 27))
    as [occs [Hocc [Hfive _]]].
  - vm_compute. reflexivity.
  - vm_compute. reflexivity.
  - now left.
  - exists occs. split; [exact Hocc | exact Hfive].
Defined.

(** ** Interleaved texts (lines 100-117, 296) *)

Lemma interleaved_form_cons (c : ascii) (t : text) :
  interleaved_form (c :: t) = REPLACEMENT_CHAR_PIPE :: c :: interleaved_form t.
Proof. reflexivity. Qed.

Lemma every_other_tl_interleaved_form (t : text) :
  every_other (tl (interleaved_form t)) = t.
Proof.
  induction t as [|c t IH]; [reflexivity|].
  rewrite interleaved_form_cons. cbn [tl].
  destruct t as [|c' t]; [reflexivity|].
  rewrite interleaved_form_cons in *. cbn [tl] in IH.
  change (every_other (c :: REPLACEMENT_CHAR_PIPE :: c' :: interleaved_form t))
    with (c :: every_other (c' :: interleaved_form t)).
  now rewrite IH.
Qed.

Lemma every_other_interleaved_form (t : text) :
  every_other (interleaved_form t) = repeat REPLACEMENT_CHAR_PIPE (S (length t)).
Proof.
  induction t as [|c t IH]; [reflexivity|].
  rewrite interleaved_form_cons.
  change (every_other (REPLACEMENT_CHAR_PIPE :: c :: interleaved_form t))
    with (REPLACEMENT_CHAR_PIPE :: every_other (interleaved_form t)).
  rewrite IH. reflexivity.
Qed.

Lemma interleaved_form_length (t : text) :
  length (interleaved_form t) = 2 * length t + 1.
Proof.
  induction t as [|c t IH]; [reflexivity|].
  rewrite interleaved_form_cons. simpl length. rewrite IH. lia.
Qed.

Lemma every_other_join (t : text) :
  every_other (Py.join REPLACEMENT_CHAR_PIPE t) = t.
Proof.
  induction t as [|c t IH]; [reflexivity|].
  destruct t as [|c' t]; [reflexivity|].
  change (Py.join REPLACEMENT_CHAR_PIPE (c :: c' :: t))
    with (c :: REPLACEMENT_CHAR_PIPE :: Py.join REPLACEMENT_CHAR_PIPE (c' :: t)).
  change (every_other (c :: REPLACEMENT_CHAR_PIPE
                         :: Py.join REPLACEMENT_CHAR_PIPE (c' :: t)))
    with (c :: every_other (Py.join REPLACEMENT_CHAR_PIPE (c' :: t))).
  now rewrite IH.
Qed.

Lemma build_url_cases (t : text) :
  build_pipe_interleaved_text_for_url t
  = match t with [] => [] | _ :: _ => interleaved_form t end.
Proof.
  destruct t as [|c t]; [reflexivity|].
  apply build_url_interleaved_form. discriminate.
Qed.

(** X10. The two interleaving functions agree.  The interleaved text of a
    non-empty text of [n] characters has [2n + 1] characters, sentinels at the
    even offsets and the text itself at the odd ones, so dropping the leading
    sentinel and taking every other character gives the text back, and two
    texts with the same interleaved text are equal.  Taking every other
    character of a text joined with sentinels, the decoding step of the name
    reconstructor, gives the text back as well. *)
Theorem interleaved_text_decodes_to_the_text :
  forall (t : text),
    build_pipe_interleaved_text_for_group_name t
    = build_pipe_interleaved_text_for_url t
    /\ length (build_pipe_interleaved_text_for_url t)
       = match t with [] => 0 | _ :: _ => 2 * length t + 1 end
    /\ every_other (build_pipe_interleaved_text_for_url t)
       = match t with
         | [] => []
         | _ :: _ => repeat REPLACEMENT_CHAR_PIPE (length t + 1)
         end
    /\ every_other (tl (build_pipe_interleaved_text_for_url t)) = t
    /\ every_other (Py.join REPLACEMENT_CHAR_PIPE t) = t
    /\ forall t', build_pipe_interleaved_text_for_url t
                  = build_pipe_interleaved_text_for_url t' -> t = t'.
Proof.
  intros t. split; [reflexivity|].
  assert (Hdec : forall u, every_other (tl (build_pipe_interleaved_text_for_url u)) = u).
  { intros u. rewrite build_url_cases. destruct u; [reflexivity|].
    apply every_other_tl_interleaved_form. }
  split; [|split; [|split; [apply Hdec|split; [apply every_other_join|]]]].
  - rewrite build_url_cases. destruct t; [reflexivity | apply interleaved_form_length].
  - rewrite build_url_cases. destruct t as [|c t]; [reflexivity|].
    rewrite every_other_interleaved_form. f_equal. simpl. lia.
  - intros t' Heq. rewrite <- (Hdec t), <- (Hdec t'), Heq. reflexivity.
Qed.

(** ** URL candidates, further (lines 317-322) *)

Lemma run_length_spec (t : text) :
  Forall (fun c => url_char c = true) (firstn (run_length t) t)
  /\ forall c, nth_error t (run_length t) = Some c -> url_char c = false.
Proof.
  induction t as [|c t [IH1 IH2]]; simpl.
  - split; [constructor | intros c; discriminate].
  - destruct (url_char c) eqn:E; simpl.
    + split; [now constructor | exact IH2].
    + split; [constructor | intros c' [= <-]; exact E].
Qed.

Lemma scheme_char_is_url_char (x y : ascii) :
  In x (txt "https://") ->
  Ascii.eqb (ascii_lower x) (ascii_lower y) = true -> url_char y = true.
Proof.
  intros Hx He. apply Ascii.eqb_eq in He.
  simpl in Hx.
  destruct y as [[] [] [] [] [] [] [] []]; try reflexivity;
    vm_compute in He;
    repeat (destruct Hx as [<- | Hx]; [discriminate He|]); destruct Hx.
Qed.

Lemma startswith_ignorecase_chars (pat t : text) :
  (forall x, In x pat -> In x (txt "https://")) ->
  startswith_ignorecase pat t = true ->
  Forall (fun c => url_char c = true) (firstn (length pat) t).
Proof.
  revert t; induction pat as [|x pat IH]; intros t Hpat; [constructor|].
  destruct t as [|y t]; simpl; [discriminate|].
  rewrite andb_true_iff. intros [Hxy Hrest]. constructor.
  - apply (scheme_char_is_url_char x y); [apply Hpat; now left | exact Hxy].
  - apply IH; [intros; apply Hpat; now right | exact Hrest].
Qed.

Lemma firstn_add_split {A} (k r : nat) (l : list A) :
  firstn (k + r) l = firstn k l ++ firstn r (skipn k l).
Proof.
  revert l; induction k as [|k IH]; intros [|x l]; simpl;
    try reflexivity; [now rewrite firstn_nil | now rewrite IH].
Qed.

Lemma url_regex_match_chars (t : text) (len : nat) :
  url_regex_match t = Some len ->
  Forall (fun c => url_char c = true) (firstn len t)
  /\ forall c, nth_error t len = Some c -> url_char c = false.
Proof.
  unfold url_regex_match.
  assert (Hgen : forall k pat,
             length pat = k -> (forall x, In x pat -> In x (txt "https://")) ->
             startswith_ignorecase pat t = true ->
             Forall (fun c => url_char c = true)
                    (firstn (k + run_length (skipn k t)) t)
             /\ forall c, nth_error t (k + run_length (skipn k t)) = Some c ->
                          url_char c = false).
  { intros k pat Hk Hpat Hs.
    pose proof (startswith_ignorecase_length _ _ Hs) as Hlen. rewrite Hk in Hlen.
    pose proof (startswith_ignorecase_chars _ _ Hpat Hs) as Hhead. rewrite Hk in Hhead.
    destruct (run_length_spec (skipn k t)) as [Hrun Hnext].
    split.
    - rewrite firstn_add_split. apply Forall_app. split; [exact Hhead | exact Hrun].
    - intros c Hc. apply Hnext. rewrite nth_error_skipn. exact Hc. }
  destruct (startswith_ignorecase (txt "https://") t) eqn:E1.
  - destruct (run_length (skipn 8 t) =? 0); [discriminate|]. intros [= <-].
    apply (Hgen 8 (txt "https://")); [reflexivity | auto | exact E1].
  - destruct (startswith_ignorecase (txt "http://") t) eqn:E2; [|discriminate].
    destruct (run_length (skipn 7 t) =? 0); [discriminate|]. intros [= <-].
    apply (Hgen 7 (txt "http://")); [reflexivity | | exact E2].
    intros x Hx. simpl in Hx. simpl. intuition.
Qed.

Lemma url_finditer_from_spec (full : text) : forall t i skip,
  t = skipn i full -> i + length t = length full ->
  (forall s e g, In (s, e, g) (url_finditer_from t i skip) ->
      i + skip <= s /\ g = Py.slice full s e
      /\ Forall (fun c => url_char c = true) g
      /\ forall c, nth_error full e = Some c -> url_char c = false)
  /\ StronglySorted (fun m1 m2 : nat * nat * text => snd (fst m1) <= fst (fst m2))
       (url_finditer_from t i skip).
Proof.
  induction t as [|c t IH]; intros i skip Ht Hlen; simpl.
  - split; [intros s e g [] | constructor].
  - assert (Ht' : t = skipn (S i) full).
    { replace (S i) with (1 + i) by lia. rewrite <- skipn_skipn, <- Ht. reflexivity. }
    assert (Hlen' : S i + length t = length full) by (simpl in Hlen; lia).
    destruct skip as [|k].
    + destruct (url_regex_match (c :: t)) as [len|] eqn:E.
      * pose proof (url_regex_match_bounds _ _ E) as [H8 Hle].
        pose proof (url_regex_match_chars _ _ E) as [Hchars Hnext].
        destruct (IH (S i) (len - 1) Ht' Hlen') as [IH1 IH2].
        split.
        -- intros s e g [Heq | Hin].
           ++ injection Heq as <- <- <-. split; [lia|]. split.
              ** unfold Py.slice. rewrite <- Ht. f_equal. lia.
              ** split; [exact Hchars|]. intros c' Hc'. apply Hnext.
                 rewrite Ht, nth_error_skipn. exact Hc'.
           ++ destruct (IH1 s e g Hin) as [Hs Hrest]. split; [lia | exact Hrest].
        -- constructor; [exact IH2|]. apply Forall_forall. intros [[s e] g] Hin.
           destruct (IH1 s e g Hin) as [Hs _]. cbn [fst snd]. lia.
      * destruct (IH (S i) 0 Ht' Hlen') as [IH1 IH2]. split; [|exact IH2].
        intros s e g Hin. destruct (IH1 s e g Hin) as [Hs Hrest].
        split; [lia | exact Hrest].
    + destruct (IH (S i) k Ht' Hlen') as [IH1 IH2]. split; [|exact IH2].
      intros s e g Hin. destruct (IH1 s e g Hin) as [Hs Hrest].
      split; [lia | exact Hrest].
Qed.

Lemma url_char_spec (c : ascii) :
  url_char c = true <-> c <> REPLACEMENT_CHAR_PIPE /\ py_isspace c = false.
Proof.
  unfold url_char. rewrite andb_true_iff, !negb_true_iff, Ascii.eqb_neq. tauto.
Qed.

Lemma url_matches_spec (session_text_with_pipes : text) :
  (forall s e raw, In (s, e, raw) (url_finditer session_text_with_pipes) ->
      s + 8 <= e /\ e <= length session_text_with_pipes
      /\ raw = Py.slice session_text_with_pipes s e
      /\ (forall c, In c raw -> c <> REPLACEMENT_CHAR_PIPE /\ py_isspace c = false)
      /\ (forall c, nth_error session_text_with_pipes e = Some c ->
                    c = REPLACEMENT_CHAR_PIPE \/ py_isspace c = true))
  /\ StronglySorted (fun m1 m2 : nat * nat * text => snd (fst m1) <= fst (fst m2))
       (url_finditer session_text_with_pipes).
Proof.
  destruct (url_finditer_from_spec session_text_with_pipes session_text_with_pipes 0 0
              eq_refl eq_refl) as [H1 H2].
  split; [|exact H2]. intros s e raw Hin.
  pose proof (url_finditer_bounds _ _ _ _ Hin) as [Hb1 [Hb2 _]].
  destruct (H1 s e raw Hin) as [_ [Hraw [Hchars Hnext]]].
  split; [exact Hb1|]. split; [exact Hb2|]. split; [exact Hraw|]. split.
  - intros c Hc. rewrite Forall_forall in Hchars. now apply url_char_spec, Hchars.
  - intros c Hc. specialize (Hnext c Hc). unfold url_char in Hnext.
    apply andb_false_iff in Hnext as [Hp | Hw].
    + left. apply negb_false_iff, Ascii.eqb_eq in Hp. exact Hp.
    + right. now apply negb_false_iff in Hw.
Qed.

(** X11. Every URL candidate [(s, e, raw)] of the session text spans at least
    8 characters inside the text, [raw] is the text from [s] to [e], it holds
    neither the sentinel nor whitespace, and it is maximal: the character at
    [e], if there is one, is the sentinel or whitespace.  The candidates are
    listed from left to right and do not overlap. *)
Theorem url_candidates_are_disjoint_sentinel_free_runs :
  forall (session_text_with_pipes : text),
    (forall s e raw, In (s, e, raw) (url_finditer session_text_with_pipes) ->
        s + 8 <= e /\ e <= length session_text_with_pipes
        /\ raw = Py.slice session_text_with_pipes s e
        /\ (forall c, In c raw -> c <> REPLACEMENT_CHAR_PIPE /\ py_isspace c = false)
        /\ (forall c, nth_error session_text_with_pipes e = Some c ->
                      c = REPLACEMENT_CHAR_PIPE \/ py_isspace c = true))
    /\ StronglySorted (fun m1 m2 : nat * nat * text => snd (fst m1) <= fst (fst m2))
         (url_finditer session_text_with_pipes).
Proof. exact url_matches_spec. Qed.

(** ** Confirmed records (lines 324-356) *)

Lemma try_succeeds_located full_text url_list e c idx :
  try_succeeds full_text url_list e c idx ->
  e <= idx
  /\ idx + length (interleaved_form c) <= length full_text
  /\ Py.slice full_text idx (idx + length (interleaved_form c)) = interleaved_form c.
Proof.
  intros [Hf _]. apply find_some in Hf as [Hle [Hocc _]].
  split; [exact Hle|]. split; [now apply occurs_at_bound|].
  unfold Py.slice. replace (idx + length (interleaved_form c) - idx)
    with (length (interleaved_form c)) by lia.
  symmetry. now apply tag_is_text_at.
Qed.

Lemma confirm_url_record full_text url_list s e raw_url r :
  raw_url <> [] ->
  confirm_url full_text url_list (s, e, raw_url) = Some r ->
  Confirmed.simple_start r = s /\ Confirmed.simple_end r = e
  /\ Confirmed.raw_url_original r = raw_url
  /\ (Confirmed.canonical_url_used r = raw_url
      \/ 1 < length raw_url /\ Confirmed.canonical_url_used r = removelast raw_url)
  /\ Confirmed.canonical_url_used r <> []
  /\ e <= Confirmed.interleaved_start r
  /\ Confirmed.interleaved_end r
     = Confirmed.interleaved_start r + 2 * length (Confirmed.canonical_url_used r) + 1
  /\ Confirmed.interleaved_end r <= length full_text
  /\ Py.slice full_text (Confirmed.interleaved_start r) (Confirmed.interleaved_end r)
     = interleaved_form (Confirmed.canonical_url_used r).
Proof.
  intros Hne Hc.
  pose proof (confirm_url_confirms full_text url_list s e raw_url Hne) as Hcf.
  rewrite Hc in Hcf.
  inversion Hcf as [idx Hok Hr | idx _ Hlen Hok Hr | ]; subst r;
    destruct (try_succeeds_located _ _ _ _ _ Hok) as [H1 [H2 H3]];
    cbn [Confirmed.simple_start Confirmed.simple_end Confirmed.raw_url_original
         Confirmed.canonical_url_used Confirmed.interleaved_start
         Confirmed.interleaved_end];
    rewrite interleaved_form_length in *.
  - split; [reflexivity|]. split; [reflexivity|]. split; [reflexivity|].
    split; [now left|]. split; [exact Hne|]. split; [exact H1|].
    split; [lia|]. split; [exact H2 | exact H3].
  - split; [reflexivity|]. split; [reflexivity|]. split; [reflexivity|].
    split; [right; now split|]. split.
    + destruct raw_url as [|a [|b t]]; simpl in Hlen; try lia. discriminate.
    + split; [exact H1|]. split; [lia|]. split; [exact H2 | exact H3].
Qed.

Lemma flat_map_option_length {A B : Type} (f : A -> option B) (l : list A) :
  length (flat_map (fun m => option_to_list (f m)) l) <= length l.
Proof.
  induction l as [|x l IH]; simpl; [lia|].
  rewrite length_app. destruct (f x); simpl; lia.
Qed.

Lemma confirmed_records_spec (session_text_with_pipes : text) :
  (forall r, In r (confirmed_interleaved_records_of session_text_with_pipes) ->
     In (Confirmed.simple_start r, Confirmed.simple_end r, Confirmed.raw_url_original r)
        (url_finditer session_text_with_pipes)
     /\ (Confirmed.canonical_url_used r = Confirmed.raw_url_original r
         \/ 1 < length (Confirmed.raw_url_original r)
            /\ Confirmed.canonical_url_used r = removelast (Confirmed.raw_url_original r))
     /\ Confirmed.canonical_url_used r <> []
     /\ Confirmed.simple_end r <= Confirmed.interleaved_start r
     /\ Confirmed.interleaved_end r
        = Confirmed.interleaved_start r + 2 * length (Confirmed.canonical_url_used r) + 1
     /\ Confirmed.interleaved_end r <= length session_text_with_pipes
     /\ Py.slice session_text_with_pipes
          (Confirmed.interleaved_start r) (Confirmed.interleaved_end r)
        = interleaved_form (Confirmed.canonical_url_used r))
  /\ StronglySorted
       (fun a b => Confirmed.interleaved_start a <= Confirmed.interleaved_start b)
       (confirmed_interleaved_records_of session_text_with_pipes)
  /\ length (confirmed_interleaved_records_of session_text_with_pipes)
     <= length (url_finditer session_text_with_pipes).
Proof.
  unfold confirmed_interleaved_records_of. split; [|split].
  - intros r Hin.
    apply sort_by_In, in_flat_map in Hin as [[[s e] raw_url] [Hm Hr]].
    pose proof (url_finditer_bounds _ _ _ _ Hm) as [H1 [_ H3]].
    destruct (confirm_url session_text_with_pipes
                (url_finditer session_text_with_pipes) (s, e, raw_url))
      as [r'|] eqn:E; [|destruct Hr].
    destruct Hr as [<- | []].
    assert (Hne : raw_url <> []) by (intros ->; simpl in H3; lia).
    destruct (confirm_url_record _ _ _ _ _ _ Hne E)
      as [-> [-> [-> [Hcan [Hnn [Hle [Hend [Hlen Hsl]]]]]]]].
    split; [exact Hm|]. split; [exact Hcan|]. split; [exact Hnn|].
    split; [exact Hle|]. split; [exact Hend|]. split; [exact Hlen | exact Hsl].
  - apply sort_by_sorted.
  - rewrite (Permutation_length (sort_by_perm _ _)). apply flat_map_option_length.
Qed.

(** X12. Every confirmed record comes from a URL candidate of the session
    text; its canonical URL is the raw text or, for a raw text of two or more
    characters, the raw text without its last character, and is never empty;
    the interleaved twin starts at or after the candidate's end, lies inside
    the text, spans [2 * len + 1] characters and is the interleaved form
    of the canonical URL.  The records are in the order of their twins'
    offsets, and there are no more of them than candidates. *)
Theorem confirmed_records_are_located_twins_in_offset_order :
  forall (session_text_with_pipes : text),
    (forall r, In r (confirmed_interleaved_records_of session_text_with_pipes) ->
       In (Confirmed.simple_start r, Confirmed.simple_end r, Confirmed.raw_url_original r)
          (url_finditer session_text_with_pipes)
       /\ (Confirmed.canonical_url_used r = Confirmed.raw_url_original r
           \/ 1 < length (Confirmed.raw_url_original r)
              /\ Confirmed.canonical_url_used r
                 = removelast (Confirmed.raw_url_original r))
       /\ Confirmed.canonical_url_used r <> []
       /\ Confirmed.simple_end r <= Confirmed.interleaved_start r
       /\ Confirmed.interleaved_end r
          = Confirmed.interleaved_start r
            + 2 * length (Confirmed.canonical_url_used r) + 1
       /\ Confirmed.interleaved_end r <= length session_text_with_pipes
       /\ Py.slice session_text_with_pipes
            (Confirmed.interleaved_start r) (Confirmed.interleaved_end r)
          = interleaved_form (Confirmed.canonical_url_used r))
    /\ StronglySorted
         (fun a b => Confirmed.interleaved_start a <= Confirmed.interleaved_start b)
         (confirmed_interleaved_records_of session_text_with_pipes)
    /\ length (confirmed_interleaved_records_of session_text_with_pipes)
       <= length (url_finditer session_text_with_pipes).
Proof. exact confirmed_records_spec. Qed.

(** ** Nearest tag occurrence after an offset (lines 358-379) *)

Lemma bisect_right_partition (a : list nat) (x : nat) :
  sorted_nat a ->
  bisect_right a x <= length a
  /\ (forall i v, i < bisect_right a x -> nth_error a i = Some v -> v <= x)
  /\ (forall i v, bisect_right a x <= i -> nth_error a i = Some v -> x < v).
Proof.
  intros Hs. unfold bisect_right.
  apply (bisect_right_loop_spec a x (length a) 0 (length a) Hs); try lia.
  intros i w Hi Hw. assert (i < length a) by (apply nth_error_Some; congruence). lia.
Qed.

Lemma combined_all_In (tag_to_all_occurrences : list (text * list nat)) pos tag :
  In (pos, tag) (combined_tag_occurrences_all_of tag_to_all_occurrences)
  <-> exists occ_list, In (tag, occ_list) tag_to_all_occurrences /\ In pos occ_list.
Proof.
  unfold combined_tag_occurrences_all_of. rewrite sort_by_In, in_flat_map. split.
  - intros [[tag' occ_list] [Hin Hm]]. apply in_map_iff in Hm as [p [[= -> ->] Hp]].
    now exists occ_list.
  - intros [occ_list [Hin Hp]]. exists (tag, occ_list). split; [exact Hin|].
    apply in_map_iff. now exists pos.
Qed.

Lemma find_first_tag_occurrence_spec (combined : list (nat * text)) (position_abs : nat) :
  StronglySorted (fun x y : nat * text => fst x <= fst y) combined ->
  match find_first_tag_occurrence_after_abs_bisect
          (map fst combined) (map snd combined) position_abs with
  | Some (pos, tag) =>
      In (pos, tag) combined /\ position_abs < pos
      /\ forall p t, In (p, t) combined -> position_abs < p -> pos <= p
  | None => forall p t, In (p, t) combined -> p <= position_abs
  end.
Proof.
  intros Hsorted. pose proof (sorted_nat_map_fst _ Hsorted) as Hs.
  destruct (bisect_right_partition (map fst combined) position_abs Hs)
    as [Hidx [Hlow Hhigh]].
  unfold find_first_tag_occurrence_after_abs_bisect.
  set (idx := bisect_right (map fst combined) position_abs) in *. clearbody idx.
  rewrite length_map in *.
  destruct (idx <? length combined) eqn:E.
  - apply Nat.ltb_lt in E. rewrite !nth_error_map.
    destruct (nth_error combined idx) as [[pos tag]|] eqn:En;
      [|apply nth_error_None in En; lia].
    cbn [option_map fst snd]. split; [eapply nth_error_In; exact En|]. split.
    + apply (Hhigh idx pos (Nat.le_refl _)). rewrite nth_error_map, En. reflexivity.
    + intros p t Hin Hp. apply In_nth_error in Hin as [j Hj].
      assert (Hjp : nth_error (map fst combined) j = Some p)
        by (rewrite nth_error_map, Hj; reflexivity).
      assert (Hip : nth_error (map fst combined) idx = Some pos)
        by (rewrite nth_error_map, En; reflexivity).
      destruct (Nat.lt_ge_cases j idx) as [Hlt | Hge].
      * pose proof (Hlow j p Hlt Hjp). lia.
      * exact (Hs idx j pos p Hge Hip Hjp).
  - apply Nat.ltb_ge in E. intros p t Hin. apply In_nth_error in Hin as [j Hj].
    assert (j < length combined) by (apply nth_error_Some; congruence).
    apply (Hlow j p); [lia|]. rewrite nth_error_map, Hj. reflexivity.
Qed.

(** X13. The lookup over the combined list built from the occurrence index
    returns, for an offset, an indexed occurrence [(pos, tag)] with [pos]
    strictly behind the offset and no indexed occurrence of any tag strictly
    between the offset and [pos]; it returns nothing exactly when no indexed
    occurrence lies strictly behind the offset. *)
Theorem lookup_returns_nearest_occurrence_behind_offset :
  forall (tag_to_all_occurrences : list (text * list nat)) (position_abs : nat),
    let combined := combined_tag_occurrences_all_of tag_to_all_occurrences in
    match find_first_tag_occurrence_after_abs_bisect
            (map fst combined) (map snd combined) position_abs with
    | Some (pos, tag) =>
        (exists occ_list, In (tag, occ_list) tag_to_all_occurrences /\ In pos occ_list)
        /\ position_abs < pos
        /\ forall tag' occ_list p,
             In (tag', occ_list) tag_to_all_occurrences -> In p occ_list ->
             position_abs < p -> pos <= p
    | None =>
        forall tag' occ_list p,
          In (tag', occ_list) tag_to_all_occurrences -> In p occ_list ->
          p <= position_abs
    end.
Proof.
  intros index position_abs combined.
  pose proof (find_first_tag_occurrence_spec combined position_abs
                (sort_by_sorted fst _)) as Hspec.
  destruct (find_first_tag_occurrence_after_abs_bisect
              (map fst combined) (map snd combined) position_abs) as [[pos tag]|].
  - destruct Hspec as [Hin [Hlt Hmin]]. split; [now apply combined_all_In|].
    split; [exact Hlt|]. intros tag' occ_list p Ht Hp.
    apply (Hmin p tag'). apply combined_all_In. now exists occ_list.
  - intros tag' occ_list p Ht Hp. apply (Hspec p tag').
    apply combined_all_In. now exists occ_list.
Qed.

(** ** Assignment of confirmed URLs to tag occurrences (lines 381-387) *)

Section SetdefaultFacts.
Context {V : Type}.

Lemma setdefault_append_keys (key : text * nat) (x : V) d :
  map fst (setdefault_append key x d)
  = if existsb (fun k => key_eqb k key) (map fst d) then map fst d
    else map fst d ++ [key].
Proof.
  induction d as [|[k v] d IH]; simpl; [reflexivity|].
  destruct (key_eqb k key) eqn:E; simpl; [reflexivity|].
  rewrite IH. destruct (existsb _ (map fst d)); reflexivity.
Qed.

Lemma setdefault_append_nodup (key : text * nat) (x : V) d :
  NoDup (map fst d) -> NoDup (map fst (setdefault_append key x d)).
Proof.
  intros Hnd. rewrite setdefault_append_keys.
  destruct (existsb (fun k => key_eqb k key) (map fst d)) eqn:E; [exact Hnd|].
  apply NoDup_app; [exact Hnd | repeat constructor; intros [] |].
  intros k Hk [-> | []].
  assert (existsb (fun k' => key_eqb k' k) (map fst d) = true); [|congruence].
  apply existsb_exists. exists k. split; [exact Hk | now apply key_eqb_eq].
Qed.

Lemma setdefault_append_inv (key : text * nat) (x : V) d k v :
  In (k, v) (setdefault_append key x d) ->
  In (k, v) d
  \/ (k = key /\ exists v0, v = v0 ++ [x] /\ (v0 = [] \/ In (k, v0) d)).
Proof.
  induction d as [|[k' v'] d IH]; simpl.
  - intros [[= <- <-] | []]. right. split; [reflexivity|]. exists []. now split; [|left].
  - destruct (key_eqb k' key) eqn:E.
    + apply key_eqb_eq in E. subst k'. intros [[= <- <-] | Hin].
      * right. split; [reflexivity|]. exists v'. split; [reflexivity|]. right. now left.
      * left. now right.
    + intros [[= <- <-] | Hin]; [left; now left|].
      destruct (IH Hin) as [H | [-> [v0 [-> [-> | H]]]]].
      * left. now right.
      * right. split; [reflexivity|]. exists []. now split; [|left].
      * right. split; [reflexivity|]. exists v0. split; [reflexivity|]. right. now right.
Qed.

Lemma setdefault_append_has (key : text * nat) (x : V) d :
  exists v, In (key, v) (setdefault_append key x d) /\ In x v.
Proof.
  induction d as [|[k' v'] d [v [IH1 IH2]]]; simpl.
  - exists [x]. split; now left.
  - destruct (key_eqb k' key) eqn:E.
    + apply key_eqb_eq in E. subst k'. exists (v' ++ [x]). split; [now left|].
      apply in_or_app. right. now left.
    + exists v. split; [now right | exact IH2].
Qed.

Lemma setdefault_append_mono (key : text * nat) (x : V) d k v :
  In (k, v) d ->
  exists v', In (k, v') (setdefault_append key x d) /\ forall a, In a v -> In a v'.
Proof.
  induction d as [|[k' v'] d IH]; simpl; [intros []|].
  intros [[= -> ->] | Hin].
  - destruct (key_eqb k key).
    + exists (v ++ [x]). split; [now left|]. intros a Ha. apply in_or_app. now left.
    + exists v. split; [now left | auto].
  - destruct (IH Hin) as [v'' [H1 H2]].
    destruct (key_eqb k' key).
    + exists v. split; [now right | auto].
    + exists v''. split; [now right | exact H2].
Qed.
End SetdefaultFacts.

Lemma assign_step_inv combined_positions combined_tags seen d r :
  assignment_inv combined_positions combined_tags seen d ->
  assignment_inv combined_positions combined_tags (seen ++ [r])
    (assign_step combined_positions combined_tags d r).
Proof.
  intros [Hnd [Hsound Hcompl]]. unfold assign_step.
  destruct (find_first_tag_occurrence_after_abs_bisect combined_positions combined_tags
              (Confirmed.interleaved_end r)) as [[tag_pos tag_text]|] eqn:E.
  - split; [now apply setdefault_append_nodup|]. split.
    + intros key v Hin.
      apply setdefault_append_inv in Hin as [Hin | [-> [v0 [-> Hv0]]]].
      * destruct (Hsound key v Hin) as [Hne Hall]. split; [exact Hne|].
        intros a Ha. destruct (Hall a Ha) as [r' [Hr' H]].
        exists r'. split; [apply in_or_app; now left | exact H].
      * split; [intros H; now apply app_eq_nil in H as [_ H]|].
        intros a Ha. apply in_app_or in Ha as [Ha | [<- | []]].
        -- destruct Hv0 as [-> | Hin]; [destruct Ha|].
           destruct (Hsound _ _ Hin) as [_ Hall].
           destruct (Hall a Ha) as [r' [Hr' H]].
           exists r'. split; [apply in_or_app; now left | exact H].
        -- exists r. split; [apply in_or_app; right; now left|].
           split; [reflexivity | exact E].
    + intros r' pos tag Hr' Hf. apply in_app_or in Hr' as [Hr' | [<- | []]].
      * destruct (Hcompl r' pos tag Hr' Hf) as [v [Hin Hv]].
        destruct (setdefault_append_mono (tag_text, tag_pos)
                    (Assigned.mk (Confirmed.simple_start r) (Confirmed.simple_end r)
                       (Confirmed.canonical_url_used r) (Confirmed.raw_url_original r))
                    d _ _ Hin) as [v' [Hin' Hsub]].
        exists v'. split; [exact Hin' | now apply Hsub].
      * rewrite E in Hf. injection Hf as <- <-. apply setdefault_append_has.
  - split; [exact Hnd|]. split.
    + intros key v Hin. destruct (Hsound key v Hin) as [Hne Hall]. split; [exact Hne|].
      intros a Ha. destruct (Hall a Ha) as [r' [Hr' H]].
      exists r'. split; [apply in_or_app; now left | exact H].
    + intros r' pos tag Hr' Hf. apply in_app_or in Hr' as [Hr' | [<- | []]].
      * exact (Hcompl r' pos tag Hr' Hf).
      * congruence.
Qed.

Lemma assign_fold_inv combined_positions combined_tags : forall records seen d,
  assignment_inv combined_positions combined_tags seen d ->
  assignment_inv combined_positions combined_tags (seen ++ records)
    (fold_left (assign_step combined_positions combined_tags) records d).
Proof.
  induction records as [|r records IH]; intros seen d Hinv; simpl.
  - now rewrite app_nil_r.
  - replace (seen ++ r :: records) with ((seen ++ [r]) ++ records)
      by (rewrite <- app_assoc; reflexivity).
    apply IH. now apply assign_step_inv.
Qed.

(** X14. After step A the dictionary of assigned URLs has distinct keys and no
    empty value; a URL is listed under the key [(tag, pos)] only if it comes
    from a confirmed record whose lookup, taken from the end of its
    interleaved twin, returns [(pos, tag)]; and every record whose lookup
    returns an occurrence is listed under that occurrence's key. *)
Theorem assignment_dictionary_is_the_graph_of_the_lookup :
  forall (tag_to_all_occurrences : list (text * list nat))
         (confirmed_interleaved_records : list Confirmed.t),
    let combined := combined_tag_occurrences_all_of tag_to_all_occurrences in
    assignment_inv (map fst combined) (map snd combined)
      confirmed_interleaved_records
      (tag_occurrence_to_assigned_urls_of tag_to_all_occurrences
         confirmed_interleaved_records).
Proof.
  intros index records combined. unfold tag_occurrence_to_assigned_urls_of.
  apply (assign_fold_inv (map fst combined) (map snd combined) records [] []).
  split; [constructor|]. split; [intros key v []|]. intros r pos tag [].
Qed.

(** ** Tabs cross-confirmer, further (lines 429-453) *)

Lemma final_group_name_of_cases (tabs_text_with_pipes tentative_group_name
    canonical_url_used : text) :
  let interleaved_group :=
    build_pipe_interleaved_text_for_group_name tentative_group_name in
  (final_group_name_of tabs_text_with_pipes tentative_group_name canonical_url_used
   = Ungrouped
   /\ exists tab_index ms me g,
        tabs_text_with_pipes <> []
        /\ Py.find tabs_text_with_pipes canonical_url_used 0 = Some tab_index
        /\ last (map Some (url_finditer (firstn tab_index tabs_text_with_pipes))) None
           = Some (ms, me, g)
        /\ forall j, Py.occurs_at interleaved_group tabs_text_with_pipes j = true ->
                     j + length interleaved_group <= tab_index -> j <= ms)
  \/ (final_group_name_of tabs_text_with_pipes tentative_group_name canonical_url_used
      = tentative_group_name
      /\ ~ exists tab_index ms me g,
        tabs_text_with_pipes <> []
        /\ Py.find tabs_text_with_pipes canonical_url_used 0 = Some tab_index
        /\ last (map Some (url_finditer (firstn tab_index tabs_text_with_pipes))) None
           = Some (ms, me, g)
        /\ forall j, Py.occurs_at interleaved_group tabs_text_with_pipes j = true ->
                     j + length interleaved_group <= tab_index -> j <= ms).
Proof.
  intros interleaved_group. unfold final_group_name_of.
  destruct tabs_text_with_pipes as [|c0 t0] eqn:Et.
  { right. split; [reflexivity|]. intros [ti [ms [me [g [Hne _]]]]]. now apply Hne. }
  rewrite <- Et. assert (Hne : tabs_text_with_pipes <> []) by (rewrite Et; discriminate).
  clear c0 t0 Et.
  destruct (Py.find tabs_text_with_pipes canonical_url_used 0) as [tab_index|] eqn:Ef.
  2:{ right. split; [reflexivity|]. intros [ti [ms [me [g [_ [Hf _]]]]]]. discriminate. }
  assert (Hle : tab_index <= length tabs_text_with_pipes)
    by (pose proof (find_le_length _ _ _ _ Ef); lia).
  fold interleaved_group.
  destruct (last (map Some (url_finditer (firstn tab_index tabs_text_with_pipes))) None)
    as [[[ms me] g]|] eqn:El.
  2:{ right. split.
      - destruct (Py.rfind tabs_text_with_pipes interleaved_group 0 tab_index);
          reflexivity.
      - intros [ti [ms [me [g [_ [Hf [Hl _]]]]]]].
        injection Hf as <-. rewrite El in Hl. discriminate. }
  destruct (Py.rfind tabs_text_with_pipes interleaved_group 0 tab_index)
    as [pos|] eqn:Er.
  - apply rfind_some in Er as [_ [Hfit [Hocc Hmax]]].
    rewrite Nat.min_l in Hfit, Hmax by exact Hle.
    destruct (ms <? pos) eqn:Elt.
    + apply Nat.ltb_lt in Elt. right. split; [reflexivity|].
      intros [ti [ms' [me' [g' [_ [Hf [Hl Hall]]]]]]].
      injection Hf as <-. rewrite El in Hl. injection Hl as <- <- <-.
      specialize (Hall pos Hocc Hfit). lia.
    + apply Nat.ltb_ge in Elt. left. split; [reflexivity|].
      exists tab_index, ms, me, g. split; [exact Hne|]. split; [reflexivity|].
      split; [exact El|]. intros j Hj Hjfit.
      destruct (Nat.le_gt_cases j pos) as [Hjp | Hjp]; [lia|].
      rewrite (Hmax j Hjp Hjfit) in Hj. discriminate.
  - left. split; [reflexivity|].
    exists tab_index, ms, me, g. split; [exact Hne|]. split; [reflexivity|].
    split; [exact El|]. intros j Hj Hjfit.
    rewrite (rfind_none _ _ _ _ Er j) in Hj; [discriminate | lia|].
    rewrite Nat.min_l by exact Hle. exact Hjfit.
Qed.

(** X15. The final group name of a row is the tentative name or
    ["Ungrouped"].  For a tentative name other than ["Ungrouped"] it is
    ["Ungrouped"] exactly when the tabs text is not empty, holds the URL, has
    a URL candidate in the part before the URL's first occurrence, and no
    occurrence of the interleaved tentative name that ends at or before that
    occurrence starts behind the start of the last such candidate. *)
Theorem final_group_name_is_ungrouped_iff_url_intervenes :
  forall (tabs_text_with_pipes tentative_group_name canonical_url_used : text),
    let interleaved_group :=
      build_pipe_interleaved_text_for_group_name tentative_group_name in
    let final_group_name :=
      final_group_name_of tabs_text_with_pipes tentative_group_name
        canonical_url_used in
    (final_group_name = tentative_group_name \/ final_group_name = Ungrouped)
    /\ (tentative_group_name <> Ungrouped ->
        (final_group_name = Ungrouped
         <-> exists tab_index ms me g,
               tabs_text_with_pipes <> []
               /\ Py.find tabs_text_with_pipes canonical_url_used 0 = Some tab_index
               /\ last (map Some (url_finditer
                                    (firstn tab_index tabs_text_with_pipes))) None
                  = Some (ms, me, g)
               /\ forall j,
                    Py.occurs_at interleaved_group tabs_text_with_pipes j = true ->
                    j + length interleaved_group <= tab_index -> j <= ms)).
Proof.
  intros tabs tentative url. cbv zeta.
  pose proof (final_group_name_of_cases tabs tentative url) as Hcases.
  cbv zeta in Hcases. destruct Hcases as [[Hu Hex] | [Ht Hnex]].
  - split; [now right|]. intros _. split; [intros _; exact Hex | intros _; exact Hu].
  - split; [now left|]. intros Hne. split.
    + intros Hu. congruence.
    + intros Hex. contradiction.
Qed.

(** ** Counters and finished tags of step C (lines 402-403, 413-423) *)

Lemma dict_comprehension_zero groups tag c :
  Dict.lookup text_eqb tag (dict_comprehension (fun _ => 0) groups) = Some c -> c = 0.
Proof.
  unfold dict_comprehension.
  assert (Hgen : forall l d,
             (forall c', Dict.lookup text_eqb tag d = Some c' -> c' = 0) ->
             forall c', Dict.lookup text_eqb tag
                          (fold_left (fun d ent =>
                             Dict.set text_eqb (Group.SessionTabGroupTag ent) 0 d) l d)
                        = Some c' -> c' = 0).
  { induction l as [|ent l IH]; intros d Hd c'; simpl; [apply Hd|].
    apply IH. intros c''. rewrite (lookup_set text_eqb text_eqb_eq).
    destruct (text_eqb _ _); [congruence | apply Hd]. }
  apply Hgen. intros c'. discriminate.
Qed.

Lemma counters_inv_initial groups : counters_inv (initial_state groups).
Proof.
  unfold counters_inv, initial_state. cbn [consecutive_empty_count_by_tag finished_tags].
  split; [|split].
  - intros tag c Hc. apply dict_comprehension_zero in Hc. lia.
  - intros tag. split; [intros [] | intros Hc].
    apply dict_comprehension_zero in Hc. discriminate.
  - constructor.
Qed.

Section CounterFacts.
Variable session_text_with_pipes : text.
Variable tabs_text_with_pipes : text.
Variable tag_to_groupname : list (text * text).
Variable tag_occurrence_to_assigned_urls : list (text * nat * list Assigned.t).

Lemma occ_step_counters st occ st' :
  counters_inv st ->
  occ_step session_text_with_pipes tabs_text_with_pipes tag_to_groupname
    tag_occurrence_to_assigned_urls st occ = Some st' ->
  counters_inv st'.
Proof.
  destruct occ as [occ_pos tag_text]. intros Hinv Hstep.
  destruct (is_finished tag_text st) eqn:Efin.
  { rewrite occ_step_skip in Hstep by exact Efin. now injection Hstep as <-. }
  assert (Hnot : ~ In tag_text (finished_tags st)).
  { intros Hin. apply is_finished_In in Hin. congruence. }
  destruct Hinv as [Hbound [Hiff Hnd]].
  destruct (Dict.get key_eqb (tag_text, occ_pos) tag_occurrence_to_assigned_urls [])
    as [|a0 l0] eqn:Ea.
  - rewrite occ_step_empty in Hstep by assumption.
    destruct (Dict.lookup text_eqb tag_text (consecutive_empty_count_by_tag st))
      as [count|] eqn:Ec; [|discriminate].
    cbn [bind] in Hstep.
    assert (Hsome : forall x y : LoopState, Some x = Some y -> x = y)
      by (intros x y Hxy; congruence).
    apply Hsome in Hstep. subst st'. clear Hsome.
    assert (Hcount : count <= 1).
    { pose proof (Hbound _ _ Ec). destruct (Nat.eq_dec count 2) as [-> | Hne]; [|lia].
      exfalso. apply Hnot. now apply Hiff. }
    unfold counters_inv.
    cbn [consecutive_empty_count_by_tag finished_tags]. split; [|split].
    + intros tag c. rewrite (lookup_set text_eqb text_eqb_eq).
      destruct (text_eqb tag_text tag); [intros [= <-]; lia | apply Hbound].
    + intros tag. rewrite (lookup_set text_eqb text_eqb_eq).
      destruct (text_eqb tag_text tag) eqn:Et.
      * apply text_eqb_eq in Et. subst tag.
        destruct (2 <=? count + 1) eqn:E2.
        -- apply Nat.leb_le in E2. split; [intros _; f_equal; lia | intros _; now left].
        -- apply Nat.leb_gt in E2. split; [intros Hin; contradiction|].
           intros [= H2]. lia.
      * assert (Hne : tag_text <> tag).
        { intros ->. assert (text_eqb tag tag = true) by now apply text_eqb_eq.
          congruence. }
        rewrite <- Hiff. destruct (2 <=? count + 1); [|reflexivity].
        split; [intros [H | H]; [contradiction | exact H] | intros H; now right].
    + destruct (2 <=? count + 1); [now constructor | exact Hnd].
  - rewrite occ_step_assigned in Hstep by (try rewrite Ea; try discriminate; assumption).
    apply url_fold_frame in Hstep as [Hc [Hf _]].
    unfold counters_inv. rewrite Hc, Hf.
    cbn [consecutive_empty_count_by_tag finished_tags]. split; [|split].
    + intros tag c. rewrite (lookup_set text_eqb text_eqb_eq).
      destruct (text_eqb tag_text tag); [intros [= <-]; lia | apply Hbound].
    + intros tag. rewrite (lookup_set text_eqb text_eqb_eq).
      destruct (text_eqb tag_text tag) eqn:Et; [|apply Hiff].
      apply text_eqb_eq in Et. subst tag. split; [contradiction | discriminate].
    + exact Hnd.
Qed.

Lemma run_counters : forall occs st st',
  counters_inv st ->
  run_occurrences session_text_with_pipes tabs_text_with_pipes tag_to_groupname
    tag_occurrence_to_assigned_urls occs st = Some st' ->
  counters_inv st'.
Proof.
  unfold run_occurrences.
  induction occs as [|occ occs IH]; intros st st' Hinv; cbn [foldM].
  - now intros [= <-].
  - destruct (occ_step session_text_with_pipes tabs_text_with_pipes tag_to_groupname
                tag_occurrence_to_assigned_urls st occ) as [st1|] eqn:E;
      [|discriminate].
    cbn [bind]. apply IH. exact (occ_step_counters _ _ _ Hinv E).
Qed.
End CounterFacts.

(** X16. In every state the occurrence loop reaches from its initial state,
    no counter of consecutive empty occurrences exceeds 2, a tag is in the
    finished set exactly when its counter stands at 2, and the finished set
    holds no tag twice. *)
Theorem finished_tags_are_the_tags_with_counter_two :
  forall (session_text_with_pipes tabs_text_with_pipes : text)
         (tag_to_groupname : list (text * text))
         (tag_occurrence_to_assigned_urls : list (text * nat * list Assigned.t))
         (session_tags_and_groups : list Group.t)
         (combined_tag_occurrence_list : list (nat * text)) (st' : LoopState),
    run_occurrences session_text_with_pipes tabs_text_with_pipes tag_to_groupname
      tag_occurrence_to_assigned_urls combined_tag_occurrence_list
      (initial_state session_tags_and_groups) = Some st' ->
    (forall tag c,
        Dict.lookup text_eqb tag (consecutive_empty_count_by_tag st') = Some c ->
        c <= 2)
    /\ (forall tag,
          In tag (finished_tags st')
          <-> Dict.lookup text_eqb tag (consecutive_empty_count_by_tag st') = Some 2)
    /\ NoDup (finished_tags st').
Proof.
  intros text tabs t2g assigned groups occs st' Hrun.
  exact (run_counters text tabs t2g assigned occs _ st'
           (counters_inv_initial groups) Hrun).
Qed.

Lemma finished_tags_are_the_tags_with_counter_two_witness :
  exists st',
    run_occurrences [] [] [] []
      [(129, sample_tag); (186, sample_tag); (244, sample_tag)]
      (initial_state sample_groups) = Some st'
    /\ finished_tags st' = [sample_tag]
    /\ (forall tag c,
          Dict.lookup text_eqb tag (consecutive_empty_count_by_tag st') = Some c ->
          c <= 2)
    /\ (forall tag,
          In tag (finished_tags st')
          <-> Dict.lookup text_eqb tag (consecutive_empty_count_by_tag st') = Some 2)
    /\ NoDup (finished_tags st').
Proof.
  eexists. split; [vm_compute; reflexivity|]. split; [reflexivity|].
  apply (finished_tags_are_the_tags_with_counter_two [] [] [] [] sample_groups
           [(129, sample_tag); (186, sample_tag); (244, sample_tag)]).
  vm_compute. reflexivity.
Defined.

(** ** Where the rows come from (lines 413-485) *)

Section OriginFacts.
Variable session_text_with_pipes : text.
Variable tabs_text_with_pipes : text.
Variable tag_to_groupname : list (text * text).
Variable tag_occurrence_to_assigned_urls : list (text * nat * list Assigned.t).
Variable all_occs : list (nat * text).

Lemma make_row_origin tag_text occ_pos a :
  In (occ_pos, tag_text) all_occs ->
  In a (Dict.get key_eqb (tag_text, occ_pos) tag_occurrence_to_assigned_urls []) ->
  row_origin session_text_with_pipes tabs_text_with_pipes tag_to_groupname
    tag_occurrence_to_assigned_urls all_occs
    (make_row session_text_with_pipes
       (final_group_name_of tabs_text_with_pipes
          (Dict.get text_eqb tag_text tag_to_groupname [])
          (Assigned.canonical_url_used a))
       tag_text occ_pos (occ_pos + length tag_text) a).
Proof.
  intros Hocc Ha. unfold row_origin, make_row.
  cbn [Row.TagOccurrencePos Row.TagText]. split; [exact Hocc|].
  exists a. split; [exact Ha | reflexivity].
Qed.

Lemma url_step_origin tag_text occ_pos st a st' :
  In (occ_pos, tag_text) all_occs ->
  In a (Dict.get key_eqb (tag_text, occ_pos) tag_occurrence_to_assigned_urls []) ->
  url_step session_text_with_pipes tabs_text_with_pipes tag_to_groupname
    tag_text occ_pos (occ_pos + length tag_text) st a = Some st' ->
  Forall (row_origin session_text_with_pipes tabs_text_with_pipes tag_to_groupname
            tag_occurrence_to_assigned_urls all_occs) (produced_rows st) ->
  Forall (row_origin session_text_with_pipes tabs_text_with_pipes tag_to_groupname
            tag_occurrence_to_assigned_urls all_occs) (produced_rows st').
Proof.
  intros Hocc Ha Hstep Hrows. unfold url_step in Hstep.
  pose proof (make_row_origin tag_text occ_pos a Hocc Ha) as Hrow.
  destruct (negb (first_row_written st)).
  - assert (Hs : produced_rows st' = produced_rows st ++ [make_row session_text_with_pipes
       (final_group_name_of tabs_text_with_pipes
          (Dict.get text_eqb tag_text tag_to_groupname [])
          (Assigned.canonical_url_used a))
       tag_text occ_pos (occ_pos + length tag_text) a])
      by (assert (Hsome : forall x y : LoopState, Some x = Some y -> x = y)
            by (intros x y Hxy; congruence);
          apply Hsome in Hstep; subst st'; reflexivity).
    rewrite Hs. apply Forall_app. split; [exact Hrows | now constructor].
  - destruct (prev_accepted_tag_end_pos st) as [prev|]; [|discriminate].
    cbn [bind] in Hstep. destruct (prev <? Assigned.u_start a).
    + assert (Hs : produced_rows st' = produced_rows st ++ [make_row session_text_with_pipes
       (final_group_name_of tabs_text_with_pipes
          (Dict.get text_eqb tag_text tag_to_groupname [])
          (Assigned.canonical_url_used a))
       tag_text occ_pos (occ_pos + length tag_text) a])
        by (assert (Hsome : forall x y : LoopState, Some x = Some y -> x = y)
              by (intros x y Hxy; congruence);
            apply Hsome in Hstep; subst st'; reflexivity).
      rewrite Hs. apply Forall_app. split; [exact Hrows | now constructor].
    + assert (st' = st) by congruence. subst st'. exact Hrows.
Qed.

Lemma url_fold_origin tag_text occ_pos : forall l st st',
  In (occ_pos, tag_text) all_occs ->
  (forall a, In a l ->
     In a (Dict.get key_eqb (tag_text, occ_pos) tag_occurrence_to_assigned_urls [])) ->
  foldM (url_step session_text_with_pipes tabs_text_with_pipes tag_to_groupname
           tag_text occ_pos (occ_pos + length tag_text)) l st = Some st' ->
  Forall (row_origin session_text_with_pipes tabs_text_with_pipes tag_to_groupname
            tag_occurrence_to_assigned_urls all_occs) (produced_rows st) ->
  Forall (row_origin session_text_with_pipes tabs_text_with_pipes tag_to_groupname
            tag_occurrence_to_assigned_urls all_occs) (produced_rows st').
Proof.
  induction l as [|a l IH]; intros st st' Hocc Hl; cbn [foldM].
  - intros Hs Hrows. assert (st' = st) by congruence. now subst st'.
  - destruct (url_step session_text_with_pipes tabs_text_with_pipes tag_to_groupname
                tag_text occ_pos (occ_pos + length tag_text) st a) as [st1|] eqn:E;
      [|discriminate].
    cbn [bind]. intros Hf Hrows.
    apply (IH st1 st' Hocc); [intros a' Ha'; apply Hl; now right | exact Hf|].
    apply (url_step_origin tag_text occ_pos st a st1 Hocc); [|exact E | exact Hrows].
    apply Hl. now left.
Qed.

Lemma occ_step_origin st occ st' :
  In occ all_occs ->
  occ_step session_text_with_pipes tabs_text_with_pipes tag_to_groupname
    tag_occurrence_to_assigned_urls st occ = Some st' ->
  Forall (row_origin session_text_with_pipes tabs_text_with_pipes tag_to_groupname
            tag_occurrence_to_assigned_urls all_occs) (produced_rows st) ->
  Forall (row_origin session_text_with_pipes tabs_text_with_pipes tag_to_groupname
            tag_occurrence_to_assigned_urls all_occs) (produced_rows st').
Proof.
  destruct occ as [occ_pos tag_text]. intros Hocc Hstep Hrows.
  destruct (is_finished tag_text st) eqn:Efin.
  { rewrite occ_step_skip in Hstep by exact Efin.
    assert (st' = st) by congruence. now subst st'. }
  destruct (Dict.get key_eqb (tag_text, occ_pos) tag_occurrence_to_assigned_urls [])
    as [|a0 l0] eqn:Ea.
  - rewrite occ_step_empty in Hstep by assumption.
    destruct (Dict.lookup text_eqb tag_text (consecutive_empty_count_by_tag st))
      as [count|]; [|discriminate].
    cbn [bind] in Hstep.
    assert (Hsome : forall x y : LoopState, Some x = Some y -> x = y)
      by (intros x y Hxy; congruence).
    apply Hsome in Hstep. subst st'. exact Hrows.
  - rewrite occ_step_assigned in Hstep by (try rewrite Ea; try discriminate; assumption).
    apply (url_fold_origin tag_text occ_pos _ _ st' Hocc) in Hstep;
      [exact Hstep | | exact Hrows].
    intros a Ha. now apply sort_by_In in Ha.
Qed.

Lemma run_origin : forall occs st st',
  (forall o, In o occs -> In o all_occs) ->
  run_occurrences session_text_with_pipes tabs_text_with_pipes tag_to_groupname
    tag_occurrence_to_assigned_urls occs st = Some st' ->
  Forall (row_origin session_text_with_pipes tabs_text_with_pipes tag_to_groupname
            tag_occurrence_to_assigned_urls all_occs) (produced_rows st) ->
  Forall (row_origin session_text_with_pipes tabs_text_with_pipes tag_to_groupname
            tag_occurrence_to_assigned_urls all_occs) (produced_rows st').
Proof.
  unfold run_occurrences.
  induction occs as [|occ occs IH]; intros st st' Hincl; cbn [foldM].
  - intros Hs Hrows. assert (st' = st) by congruence. now subst st'.
  - destruct (occ_step session_text_with_pipes tabs_text_with_pipes tag_to_groupname
                tag_occurrence_to_assigned_urls st occ) as [st1|] eqn:E;
      [|discriminate].
    cbn [bind]. intros Hf Hrows.
    apply (IH st1 st'); [intros o Ho; apply Hincl; now right | exact Hf|].
    apply (occ_step_origin st occ st1); [apply Hincl; now left | exact E | exact Hrows].
Qed.
End OriginFacts.

Lemma eligible_of_tag_members index g l o :
  eligible_of_tag index g = Some l -> In o l ->
  snd o = Group.SessionTabGroupTag g
  /\ In (fst o) (Dict.get text_eqb (Group.SessionTabGroupTag g) index []).
Proof.
  unfold eligible_of_tag.
  destruct (5 <=? length (Dict.get text_eqb (Group.SessionTabGroupTag g) index [])).
  - destruct (nth_error (Dict.get text_eqb (Group.SessionTabGroupTag g) index []) 4)
      as [fifth_pos|]; [|discriminate].
    cbn [bind]. intros Hl Ho.
    assert (Hl' : l = map (fun p => (p, Group.SessionTabGroupTag g))
                        (filter (fun p => fifth_pos <=? p)
                           (Dict.get text_eqb (Group.SessionTabGroupTag g) index [])))
      by congruence.
    rewrite Hl' in Ho. apply in_map_iff in Ho as [p [<- Hp]].
    apply filter_In in Hp as [Hp _]. split; [reflexivity | exact Hp].
  - intros Hl Ho. assert (l = []) by congruence. subst l. destruct Ho.
Qed.

Lemma eligible_fold_members index : forall groups acc l,
  foldM (eligible_step index) groups acc = Some l ->
  forall o, In o l ->
    In o acc
    \/ exists g, In g groups /\ snd o = Group.SessionTabGroupTag g
         /\ In (fst o) (Dict.get text_eqb (Group.SessionTabGroupTag g) index []).
Proof.
  induction groups as [|g groups IH]; intros acc l; cbn [foldM].
  - intros Hl o Ho. left. congruence.
  - unfold eligible_step at 1.
    destruct (eligible_of_tag index g) as [lg|] eqn:Eg; [|discriminate].
    cbn [bind]. intros Hf o Ho.
    destruct (IH _ _ Hf o Ho) as [Ha | [g' [Hg' Ht]]].
    + apply in_app_or in Ha as [Ha | Ha]; [now left | right].
      exists g. split; [now left | exact (eligible_of_tag_members _ _ _ _ Eg Ha)].
    + right. exists g'. split; [now right | exact Ht].
Qed.

Lemma combined_list_members index groups occs o :
  combined_tag_occurrence_list_of index groups = Some occs -> In o occs ->
  exists g, In g groups /\ snd o = Group.SessionTabGroupTag g
    /\ In (fst o) (Dict.get text_eqb (Group.SessionTabGroupTag g) index []).
Proof.
  unfold combined_tag_occurrence_list_of.
  destruct (foldM (eligible_step index) groups []) as [l|] eqn:El; [|discriminate].
  cbn [bind]. intros Hs Ho. assert (Hoccs : occs = sort_by fst l) by congruence.
  rewrite Hoccs in Ho. apply sort_by_In in Ho.
  destruct (eligible_fold_members index groups [] l El o Ho) as [[] | Hex]. exact Hex.
Qed.

Lemma catalogue_groupname_lookup (session_bytes : list byte) groups g :
  session_tags_and_groups_of session_bytes = Some groups -> In g groups ->
  Dict.get text_eqb (Group.SessionTabGroupTag g)
    (dict_comprehension Group.SessionTabGroup groups) []
  = Group.SessionTabGroup g.
Proof.
  intros Hg Hin.
  destruct (detect_tags_spec (block_start_abs_of session_bytes)
              (session_tab_group_block_text_of session_bytes))
    as [detected [Hdet _]].
  destruct (catalogue_origin session_bytes detected groups Hdet Hg) as [Hnd _].
  unfold Dict.get, dict_comprehension.
  now rewrite (dict_comprehension_lookup Group.SessionTabGroup groups g [] Hnd Hin).
Qed.

Lemma get_In {V : Type} (key : text * nat) (d : list (text * nat * list V)) a :
  In a (Dict.get key_eqb key d []) -> exists v, In (key, v) d /\ In a v.
Proof.
  unfold Dict.get. destruct (Dict.lookup key_eqb key d) as [v|] eqn:E; [|intros []].
  intros Ha. exists v. split; [now apply lookup_In | exact Ha].
Qed.

Lemma main_core_rows_backed (session_bytes : list byte)
    (tabs_bytes : option (list byte)) out r :
  main_core session_bytes tabs_bytes = Some out ->
  In r (out_produced_rows out) ->
  row_backed session_bytes tabs_bytes out r.
Proof.
  unfold main_core. intros Hmain Hin.
  destruct (session_tags_and_groups_of session_bytes) as [groups|] eqn:Hg;
    [|discriminate].
  cbn [bind] in Hmain.
  destruct (tag_to_all_occurrences_of (display session_bytes) groups)
    as [index|] eqn:Hidx; [|discriminate].
  cbn [bind] in Hmain.
  destruct (combined_tag_occurrence_list_of index groups) as [occs|] eqn:Hoccs;
    [|discriminate].
  cbn [bind] in Hmain.
  set (tabs := match tabs_bytes with Some b => display b | None => [] end) in *.
  set (assigned := tag_occurrence_to_assigned_urls_of index
                     (confirmed_interleaved_records_of (display session_bytes))) in *.
  destruct (run_occurrences (display session_bytes) tabs
              (dict_comprehension Group.SessionTabGroup groups) assigned occs
              (initial_state groups)) as [final|] eqn:Hrun; [|discriminate].
  cbn [bind] in Hmain.
  assert (Hout : out = mkOutput groups (produced_rows final)) by congruence.
  subst out. cbn [out_produced_rows] in Hin. clear Hmain.
  pose proof (run_origin (display session_bytes) tabs
                (dict_comprehension Group.SessionTabGroup groups) assigned occs
                occs (initial_state groups) final (fun o H => H) Hrun
                (Forall_nil _)) as Horigin.
  rewrite Forall_forall in Horigin.
  destruct (Horigin r Hin) as [Hocc [a [Ha Hr]]].
  destruct (combined_list_members index groups occs _ Hoccs Hocc)
    as [g [Hing [Htag Hpos]]].
  cbn [fst snd] in Htag, Hpos.
  destruct (index_entry_of_group session_bytes groups index g Hg Hidx Hing)
    as [occs_g [Hlook [Hgreedy _]]].
  unfold Dict.get in Hpos. rewrite Hlook in Hpos.
  apply get_In in Ha as [v [Hkv Hav]].
  pose proof (assign_fold_inv
                (map fst (combined_tag_occurrences_all_of index))
                (map snd (combined_tag_occurrences_all_of index))
                (confirmed_interleaved_records_of (display session_bytes)) [] []) as Hinv.
  destruct Hinv as [_ [Hsound _]].
  { split; [constructor|]. split; [intros key v' []|]. intros r0 pos tag []. }
  destruct (Hsound _ _ Hkv) as [_ Hall].
  destruct (Hall a Hav) as [r0 [Hr0 [Hmk Hfind]]]. cbn [app fst snd] in Hr0, Hfind.
  pose proof (find_first_tag_occurrence_spec (combined_tag_occurrences_all_of index)
                (Confirmed.interleaved_end r0) (sort_by_sorted fst _)) as Hnear.
  rewrite Hfind in Hnear. destruct Hnear as [_ [Hbehind _]].
  destruct (confirmed_records_spec (display session_bytes)) as [Hrec _].
  destruct (Hrec r0 Hr0) as [Hcand [Hcan [Hnn [Hle [Hend [Hlen Hslice]]]]]].
  pose proof (url_finditer_bounds _ _ _ _ Hcand) as [Hb1 [Hb2 _]].
  assert (Htext : display session_bytes <> []).
  { intros Hnil. rewrite Hnil in Hb2. simpl in Hb2. lia. }
  assert (HURL : Row.URL r = Confirmed.canonical_url_used r0)
    by (rewrite Hr, Hmk; reflexivity).
  assert (Hraw : Row.URL_Raw r = Confirmed.raw_url_original r0)
    by (rewrite Hr, Hmk; reflexivity).
  assert (Hstart : Row.URL_StartPos r = Confirmed.simple_start r0)
    by (rewrite Hr, Hmk; reflexivity).
  assert (Hendp : Row.URL_EndPos r = Confirmed.simple_end r0)
    by (rewrite Hr, Hmk; reflexivity).
  assert (Htagend : Row.TagEndPos r = Row.TagOccurrencePos r + length (Row.TagText r))
    by (rewrite Hr at 1; reflexivity).
  assert (Hctx : Row.URL_RightContext r
                 = firstn URL_RIGHTCONTEXT_MAX_CHARS
                     (Py.slice (display session_bytes) (Row.URL_StartPos r)
                        (Row.TagOccurrencePos r))).
  { rewrite Hstart. rewrite Hr at 1. unfold make_row. cbn [Row.URL_RightContext].
    rewrite Hmk. cbn [Assigned.u_start].
    destruct (display session_bytes); [congruence | reflexivity]. }
  assert (Hgroup : Row.SessionTabGroup r
                   = final_group_name_of tabs (Group.SessionTabGroup g) (Row.URL r)).
  { rewrite HURL. rewrite Hr at 1. unfold make_row. cbn [Row.SessionTabGroup].
    rewrite Htag, (catalogue_groupname_lookup session_bytes groups g Hg Hing), Hmk.
    reflexivity. }
  unfold row_backed. cbv zeta. cbn [out_session_tags_and_groups].
  split; [|split; [|split; [|split; [|split; [|split]]]]].
  - exists g. split; [exact Hing|]. split; [now symmetry|]. split.
    + rewrite Hgroup.
      pose proof (final_group_name_of_cases tabs (Group.SessionTabGroup g) (Row.URL r))
        as Hcases.
      cbv zeta in Hcases. destruct Hcases as [[Hu _] | [Ht _]]; [now right | now left].
    + intros Hnone. rewrite Hgroup. unfold tabs. rewrite Hnone. reflexivity.
  - rewrite Htag. exact (greedy_occurs _ _ _ _ Hgreedy _ Hpos).
  - exact Htagend.
  - rewrite Hstart, Hendp, Hraw. exact Hcand.
  - rewrite HURL, Hraw. destruct Hcan as [Hc | [_ Hc]]; [now left | now right].
  - exists (Confirmed.interleaved_start r0). rewrite HURL, Hendp.
    rewrite interleaved_form_length.
    split; [exact Hle|]. split; [lia|].
    replace (Confirmed.interleaved_start r0
             + (2 * length (Confirmed.canonical_url_used r0) + 1))
      with (Confirmed.interleaved_end r0) by lia.
    exact Hslice.
  - exact Hctx.
Qed.

(** X17. Every row of the output is backed by the session text: its tag is a
    catalogued tag that occurs in the text at the row's occurrence offset; its
    group name is that tag's catalogued name or ["Ungrouped"], and the
    catalogued name when no tabs buffer is given; its raw URL is a URL
    candidate of the text at the row's URL offsets; its URL is the raw URL or
    the raw URL without its last character; the interleaved form of the URL
    stands in the text at or after the candidate's end and ends before the tag
    occurrence; and the right context is the text from the URL's start to the
    tag occurrence, cut to 30000 characters. *)
Theorem output_rows_are_backed_by_the_session_text :
  forall (session_bytes : list byte) (tabs_bytes : option (list byte))
         (out : Output) (r : Row.t),
    main_core session_bytes tabs_bytes = Some out ->
    In r (out_produced_rows out) ->
    row_backed session_bytes tabs_bytes out r.
Proof. exact main_core_rows_backed. Qed.

Lemma output_rows_are_backed_by_the_session_text_witness :
  exists out r,
    main_core sample_session None = Some out
    /\ nth_error (out_produced_rows out) 0 = Some r
    /\ Row.URL r = txt "http://a.b/c"
    /\ row_backed sample_session None out r.
Proof.
  eexists. eexists. split; [vm_compute; reflexivity|].
  split; [reflexivity|]. split; [reflexivity|].
  apply (output_rows_are_backed_by_the_session_text sample_session None).
  - vm_compute. reflexivity.
  - left. reflexivity.
Defined.

(** ** File name sanitiser (lines 120-127) *)

Lemma sub_illegal_runs_legal : forall s in_run,
  Forall (fun c => illegal_filename_char c = false) (sub_illegal_runs in_run s).
Proof.
  induction s as [|c s IH]; intros in_run; simpl; [constructor|].
  destruct (illegal_filename_char c) eqn:E.
  - destruct in_run; [apply IH|]. constructor; [reflexivity | apply IH].
  - constructor; [exact E | apply IH].
Qed.

Lemma sub_illegal_runs_fixed : forall s in_run,
  Forall (fun c => illegal_filename_char c = false) s ->
  sub_illegal_runs in_run s = s.
Proof.
  induction s as [|c s IH]; intros in_run Hs; simpl; [reflexivity|].
  inversion Hs as [|? ? Hc Hs']; subst. rewrite Hc. f_equal. now apply IH.
Qed.

Lemma sub_illegal_runs_length : forall s in_run,
  length (sub_illegal_runs in_run s) <= length s.
Proof.
  induction s as [|c s IH]; intros in_run; simpl; [lia|].
  destruct (illegal_filename_char c).
  - destruct in_run; simpl; [specialize (IH true) | specialize (IH true)]; lia.
  - simpl. specialize (IH false). lia.
Qed.

Lemma sub_illegal_runs_nonempty (s : ustr) :
  s <> [] -> sub_illegal_runs false s <> [].
Proof.
  destruct s as [|c s]; [congruence|]. intros _. simpl.
  destruct (illegal_filename_char c); discriminate.
Qed.

Lemma sanitize_fixed (s : ustr) :
  s <> [] -> length s <= 200 ->
  Forall (fun c => illegal_filename_char c = false) s ->
  sanitize_filename_component s = s.
Proof.
  intros Hne Hlen Hs. unfold sanitize_filename_component.
  destruct s as [|c s']; [congruence|].
  rewrite sub_illegal_runs_fixed by exact Hs. now apply firstn_all2.
Qed.

Lemma sanitize_spec (s : ustr) :
  sanitize_filename_component s <> []
  /\ length (sanitize_filename_component s) <= 200
  /\ Forall (fun c => illegal_filename_char c = false) (sanitize_filename_component s).
Proof.
  unfold sanitize_filename_component. destruct s as [|c s'].
  - split; [discriminate|]. split; [simpl; lia|]. repeat constructor.
  - set (s := c :: s'). split; [|split].
    + pose proof (sub_illegal_runs_nonempty s ltac:(discriminate)) as Hne.
      destruct (sub_illegal_runs false s); [congruence | discriminate].
    + rewrite length_firstn. lia.
    + apply Forall_forall. intros x Hx.
      pose proof (sub_illegal_runs_legal s false) as Hall.
      rewrite Forall_forall in Hall. apply Hall.
      rewrite <- (firstn_skipn 200 (sub_illegal_runs false s)).
      apply in_or_app. now left.
Qed.

(** X18. [sanitize_filename_component] never returns the empty string, never
    more than 200 characters and never a character of its illegal class; it
    shortens or keeps the length of a non-empty name; it leaves a non-empty
    name of at most 200 legal characters unchanged; and sanitising twice is
    the same as sanitising once. *)
Theorem sanitized_name_is_nonempty_legal_and_stable :
  forall (s : ustr),
    sanitize_filename_component s <> []
    /\ length (sanitize_filename_component s) <= 200
    /\ (forall c, In c (sanitize_filename_component s) ->
                  illegal_filename_char c = false)
    /\ (s <> [] -> length (sanitize_filename_component s) <= length s)
    /\ (s <> [] -> length s <= 200 ->
        (forall c, In c s -> illegal_filename_char c = false) ->
        sanitize_filename_component s = s)
    /\ sanitize_filename_component (sanitize_filename_component s)
       = sanitize_filename_component s.
Proof.
  intros s. destruct (sanitize_spec s) as [Hne [Hlen Hlegal]].
  split; [exact Hne|]. split; [exact Hlen|].
  split; [now apply Forall_forall|]. split; [|split].
  - intros Hs. unfold sanitize_filename_component.
    destruct s as [|c s']; [congruence|].
    rewrite length_firstn. pose proof (sub_illegal_runs_length (c :: s') false). lia.
  - intros Hs Hl Hall. apply sanitize_fixed; [exact Hs | exact Hl|].
    now apply Forall_forall.
  - now apply sanitize_fixed.
Qed.

(** ** Bookmark titles (lines 140-161) *)

Section TakeWhileFacts.
Context {A : Type} (p : A -> bool).

Lemma take_while_app (l : list A) :
  l = take_while p l ++ skipn (length (take_while p l)) l.
Proof.
  induction l as [|x l IH]; simpl; [reflexivity|].
  destruct (p x); simpl; [now f_equal | reflexivity].
Qed.

Lemma take_while_Forall (l : list A) :
  Forall (fun x => p x = true) (take_while p l).
Proof.
  induction l as [|x l IH]; simpl; [constructor|].
  destruct (p x) eqn:E; [now constructor | constructor].
Qed.

Lemma take_while_next (l : list A) c r :
  skipn (length (take_while p l)) l = c :: r -> p c = false.
Proof.
  induction l as [|x l IH]; simpl; [discriminate|].
  destruct (p x) eqn:E; simpl; [exact IH | intros [= <- _]; exact E].
Qed.

Lemma filter_nil_Forall (l : list A) :
  filter p l = [] -> Forall (fun x => p x = false) l.
Proof.
  induction l as [|x l IH]; simpl; [constructor|].
  destruct (p x) eqn:E; [discriminate | now constructor; [|apply IH]].
Qed.

Lemma last_filter_split (l : list A) (d : A) :
  filter p l <> [] ->
  exists l1 l2,
    l = l1 ++ last (filter p l) d :: l2
    /\ p (last (filter p l) d) = true
    /\ Forall (fun x => p x = false) l2.
Proof.
  induction l as [|x l IH]; simpl; [congruence|].
  destruct (filter p l) as [|y ys] eqn:Ef.
  - destruct (p x) eqn:E; [|congruence]. intros _.
    exists [], l. split; [reflexivity|]. split; [exact E|].
    now apply filter_nil_Forall.
  - intros _. destruct IH as [l1 [l2 [Hl [Hp Hall]]]]; [discriminate|].
    exists (x :: l1), l2.
    assert (Hlast : last (if p x then x :: y :: ys else y :: ys) d = last (y :: ys) d)
      by (destruct (p x); reflexivity).
    rewrite Hlast. split; [simpl; now f_equal|]. split; assumption.
Qed.
End TakeWhileFacts.

Lemma split_on_flat (sep : ascii) (t : text) :
  flat_map (cons sep) (split_on sep t) = sep :: t.
Proof.
  induction t as [|c t IH]; simpl; [reflexivity|].
  destruct (Ascii.eqb c sep) eqn:E.
  - apply Ascii.eqb_eq in E. subst c. simpl. now rewrite IH.
  - destruct (split_on sep t) as [|q qs]; simpl in *; [discriminate|].
    injection IH as IH. now rewrite IH.
Qed.

Lemma split_on_no_sep (sep : ascii) (t : text) :
  Forall (fun part => ~ In sep part) (split_on sep t).
Proof.
  induction t as [|c t IH]; simpl; [repeat constructor; intros []|].
  destruct (Ascii.eqb c sep) eqn:E.
  - constructor; [intros [] | exact IH].
  - apply Ascii.eqb_neq in E.
    destruct (split_on sep t) as [|q qs]; [repeat constructor; intros [H | []]; auto|].
    inversion IH as [|? ? Hq Hqs]; subst. constructor; [|exact Hqs].
    intros [H | H]; [congruence | contradiction].
Qed.

Lemma flat_map_empty_parts (sep : ascii) (l : list text) :
  Forall (fun part => negb (Nat.eqb (length part) 0) = false) l ->
  Forall (eq sep) (flat_map (cons sep) l).
Proof.
  induction 1 as [|part l Hp Hl IH]; simpl; [constructor|].
  destruct part; [|discriminate]. constructor; [reflexivity | exact IH].
Qed.

Lemma last_segment_cases (p' : text) :
  let parts := filter (fun part => negb (Nat.eqb (length part) 0))
                      (split_on "/" ("/"%char :: p')) in
  (parts = [] /\ Forall (eq "/"%char) ("/"%char :: p'))
  \/ (exists before slashes,
        parts <> []
        /\ "/"%char :: p' = before ++ "/"%char :: last parts [] ++ slashes
        /\ last parts [] <> []
        /\ ~ In "/"%char (last parts [])
        /\ Forall (eq "/"%char) slashes).
Proof.
  intros parts.
  assert (Hsplit : split_on "/" ("/"%char :: p') = [] :: split_on "/" p') by reflexivity.
  pose proof (split_on_flat "/" p') as Hflat.
  pose proof (split_on_no_sep "/" p') as Hnosep.
  assert (Hparts : parts = filter (fun part => negb (Nat.eqb (length part) 0))
                                  (split_on "/" p'))
    by (unfold parts; rewrite Hsplit; reflexivity).
  clearbody parts. subst parts.
  destruct (filter (fun part => negb (Nat.eqb (length part) 0)) (split_on "/" p'))
    as [|y ys] eqn:Ef.
  - left. split; [reflexivity|]. rewrite <- Hflat.
    apply flat_map_empty_parts. now apply filter_nil_Forall.
  - right. rewrite <- Ef.
    destruct (last_filter_split (fun part => negb (Nat.eqb (length part) 0))
                (split_on "/" p') [])
      as [l1 [l2 [Hl [Hp Hall]]]]; [rewrite Ef; discriminate|].
    set (seg := last (filter (fun part => negb (Nat.eqb (length part) 0))
                             (split_on "/" p')) []) in *.
    clearbody seg.
    exists (flat_map (cons "/"%char) l1), (flat_map (cons "/"%char) l2).
    split; [rewrite Ef; discriminate|]. split.
    + rewrite <- Hflat, Hl, flat_map_app. reflexivity.
    + split; [intros Hnil; rewrite Hnil in Hp; discriminate|]. split.
      * rewrite Forall_forall in Hnosep. apply Hnosep. rewrite Hl.
        apply in_or_app. right. now left.
      * now apply flat_map_empty_parts.
Qed.

Lemma scheme_exclusive (u : text) :
  startswith_ignorecase (txt "https://") u = true ->
  startswith_ignorecase (txt "http://") u = false.
Proof.
  destruct u as [|c1 [|c2 [|c3 [|c4 [|c5 u]]]]];
    cbn [startswith_ignorecase txt list_ascii_of_string]; intros H;
    try (repeat (apply andb_true_iff in H; destruct H as [_ H]); discriminate).
  do 4 (apply andb_true_iff in H; destruct H as [_ H]).
  apply andb_true_iff in H. destruct H as [H5 _].
  apply Ascii.eqb_eq in H5. rewrite <- H5.
  change (Ascii.eqb (ascii_lower ":") (ascii_lower "s")) with false.
  cbn [andb]. now rewrite !andb_false_r.
Qed.

Lemma title_regex_match_cases (u : text) :
  (title_regex_match u = None
   /\ forall k, has_scheme k u ->
        nth_error u k = None \/ nth_error u k = Some "/"%char)
  \/ exists k domain,
       has_scheme k u /\ domain <> [] /\ ~ In "/"%char domain
       /\ ((title_regex_match u = Some (domain, None) /\ skipn k u = domain)
           \/ exists p' tail,
                title_regex_match u = Some (domain, Some ("/"%char :: p'))
                /\ skipn k u = domain ++ ("/"%char :: p') ++ tail
                /\ ~ In LINE_FEED p'
                /\ (tail = [] \/ exists t', tail = LINE_FEED :: t')).
Proof.
  assert (Hrest : forall k, has_scheme k u ->
            (forall k', has_scheme k' u -> k' = k) ->
            let rest := skipn k u in
            let domain := take_while (fun c => negb (Ascii.eqb c "/")) rest in
            match domain with
            | [] => forall k', has_scheme k' u ->
                      nth_error u k' = None \/ nth_error u k' = Some "/"%char
            | _ =>
                domain <> [] /\ ~ In "/"%char domain
                /\ match skipn (length domain) rest with
                   | [] => rest = domain
                   | c :: after =>
                       c = "/"%char
                       /\ rest = domain
                                 ++ ("/"%char
                                     :: take_while
                                          (fun c => negb (Ascii.eqb c LINE_FEED)) after)
                                 ++ skipn (length (take_while
                                             (fun c => negb (Ascii.eqb c LINE_FEED))
                                             after)) after
                       /\ ~ In LINE_FEED
                            (take_while (fun c => negb (Ascii.eqb c LINE_FEED)) after)
                       /\ (skipn (length (take_while
                                    (fun c => negb (Ascii.eqb c LINE_FEED)) after))
                                 after = []
                           \/ exists t',
                                skipn (length (take_while
                                         (fun c => negb (Ascii.eqb c LINE_FEED)) after))
                                      after = LINE_FEED :: t')
                   end
            end).
  { intros k Hk Huniq rest domain.
    pose proof (take_while_app (fun c => negb (Ascii.eqb c "/")) rest) as Happ.
    pose proof (take_while_Forall (fun c => negb (Ascii.eqb c "/")) rest) as Hall.
    pose proof (take_while_next (fun c => negb (Ascii.eqb c "/")) rest) as Hnext.
    fold domain in Happ, Hall, Hnext.
    destruct domain as [|d0 dom] eqn:Ed.
    - intros k' Hk'. rewrite (Huniq k' Hk'). simpl in Happ.
      rewrite <- (Nat.add_0_r k). rewrite <- nth_error_skipn. fold rest.
      destruct rest as [|c r]; [now left|]. right. simpl.
      specialize (Hnext c r eq_refl). apply negb_false_iff, Ascii.eqb_eq in Hnext.
      now subst c.
    - rewrite <- Ed in *. split; [rewrite Ed; discriminate|]. split.
      + intros Hin. rewrite Forall_forall in Hall. specialize (Hall _ Hin).
        apply negb_true_iff, Ascii.eqb_neq in Hall. congruence.
      + destruct (skipn (length domain) rest) as [|c after] eqn:Es.
        * rewrite app_nil_r in Happ. exact Happ.
        * specialize (Hnext c after eq_refl).
          apply negb_false_iff, Ascii.eqb_eq in Hnext. subst c.
          split; [reflexivity|]. split.
          -- rewrite Happ at 1. f_equal. cbn [app]. f_equal.
             apply take_while_app.
          -- split.
             ++ intros Hin.
                pose proof (take_while_Forall
                              (fun c => negb (Ascii.eqb c LINE_FEED)) after) as Hlf.
                rewrite Forall_forall in Hlf. specialize (Hlf _ Hin).
                apply negb_true_iff, Ascii.eqb_neq in Hlf. congruence.
             ++ destruct (skipn (length (take_while
                                   (fun c => negb (Ascii.eqb c LINE_FEED)) after))
                                after) as [|c' t'] eqn:Et; [now left|].
                right. exists t'.
                pose proof (take_while_next
                              (fun c => negb (Ascii.eqb c LINE_FEED)) after c' t' Et)
                  as Hc'.
                apply negb_false_iff, Ascii.eqb_eq in Hc'. now subst c'. }
  unfold title_regex_match.
  destruct (startswith_ignorecase (txt "https://") u) eqn:E8.
  - specialize (Hrest 8 (or_introl (conj eq_refl E8))).
    cbv zeta in Hrest.
    assert (Huniq : forall k', has_scheme k' u -> k' = 8).
    { intros k' [[-> _] | [_ H7]]; [reflexivity|].
      rewrite (scheme_exclusive u E8) in H7. discriminate. }
    specialize (Hrest Huniq).
    destruct (take_while (fun c => negb (Ascii.eqb c "/")) (skipn 8 u))
      as [|d0 dom] eqn:Ed.
    + left. split; [reflexivity | exact Hrest].
    + rewrite <- Ed in *. destruct Hrest as [Hne [Hns Hsk]].
      right. exists 8, (take_while (fun c => negb (Ascii.eqb c "/")) (skipn 8 u)).
      split; [left; now split|]. split; [exact Hne|]. split; [exact Hns|].
      rewrite Ed at 1. rewrite <- Ed.
      destruct (skipn (length (take_while (fun c => negb (Ascii.eqb c "/"))
                                          (skipn 8 u))) (skipn 8 u))
        as [|c after]; [left; now split|].
      destruct Hsk as [-> [Hr [Hlf Htail]]]. right.
      eexists. eexists. split; [reflexivity|]. split; [exact Hr|].
      split; [exact Hlf | exact Htail].
  - destruct (startswith_ignorecase (txt "http://") u) eqn:E7.
    + specialize (Hrest 7 (or_intror (conj eq_refl E7))).
      cbv zeta in Hrest.
      assert (Huniq : forall k', has_scheme k' u -> k' = 7).
      { intros k' [[_ H8] | [-> _]]; [congruence | reflexivity]. }
      specialize (Hrest Huniq).
      destruct (take_while (fun c => negb (Ascii.eqb c "/")) (skipn 7 u))
        as [|d0 dom] eqn:Ed.
      * left. split; [reflexivity | exact Hrest].
      * rewrite <- Ed in *. destruct Hrest as [Hne [Hns Hsk]].
        right. exists 7, (take_while (fun c => negb (Ascii.eqb c "/")) (skipn 7 u)).
        split; [right; now split|]. split; [exact Hne|]. split; [exact Hns|].
        rewrite Ed at 1. rewrite <- Ed.
        destruct (skipn (length (take_while (fun c => negb (Ascii.eqb c "/"))
                                            (skipn 7 u))) (skipn 7 u))
          as [|c after]; [left; now split|].
        destruct Hsk as [-> [Hr [Hlf Htail]]]. right.
        eexists. eexists. split; [reflexivity|]. split; [exact Hr|].
        split; [exact Hlf | exact Htail].
    + left. split; [reflexivity|]. intros k [[_ H] | [_ H]]; congruence.
Qed.

Lemma bookmark_title_shape (u : text) :
  (make_bookmark_title_from_url u = u
   /\ forall k, has_scheme k u ->
        nth_error u k = None \/ nth_error u k = Some "/"%char)
  \/ exists k domain path tail,
       has_scheme k u
       /\ skipn k u = domain ++ path ++ tail
       /\ domain <> [] /\ ~ In "/"%char domain
       /\ ~ In LINE_FEED path
       /\ (path = [] /\ tail = []
           \/ (exists p', path = "/"%char :: p')
              /\ (tail = [] \/ exists t', tail = LINE_FEED :: t'))
       /\ ((make_bookmark_title_from_url u = domain
            /\ (Forall (eq "/"%char) path
                \/ exists before c slashes,
                     path = before ++ "/"%char :: c :: slashes
                     /\ c <> "/"%char /\ Forall (eq "/"%char) slashes))
           \/ exists before seg slashes,
                path = before ++ "/"%char :: seg ++ slashes
                /\ 1 < length seg /\ ~ In "/"%char seg
                /\ Forall (eq "/"%char) slashes
                /\ make_bookmark_title_from_url u = domain ++ "/"%char :: seg).
Proof.
  unfold make_bookmark_title_from_url.
  destruct (title_regex_match_cases u)
    as [[Hnone Hk] | [k [domain [Hk [Hne [Hns [[Hm Hsk] | [p' [tail [Hm [Hsk [Hlf Htail]]]]]]]]]]]].
  - left. rewrite Hnone. split; [reflexivity | exact Hk].
  - right. exists k, domain, [], []. rewrite Hm, !app_nil_r.
    split; [exact Hk|]. split; [exact Hsk|]. split; [exact Hne|]. split; [exact Hns|].
    split; [intros []|]. split; [left; now split|].
    left. split; [|left; constructor].
    destruct domain; [congruence | reflexivity].
  - right. exists k, domain, ("/"%char :: p'), tail. rewrite Hm.
    split; [exact Hk|]. split; [exact Hsk|]. split; [exact Hne|]. split; [exact Hns|].
    split.
    { intros [H | H]; [discriminate H | contradiction]. }
    split; [right; split; [now exists p' | exact Htail]|].
    pose proof (last_segment_cases p') as Hcases. cbv zeta in Hcases.
    destruct Hcases as [[Hparts Hall] | [before [slashes [Hparts [Hpath [Hseg [Hnos Hsl]]]]]]].
    + left. rewrite Hparts, app_nil_r. split; [|left; exact Hall].
      destruct domain; [congruence | reflexivity].
    + set (parts := filter (fun part => negb (Nat.eqb (length part) 0))
                           (split_on "/" ("/"%char :: p'))) in *.
      clearbody parts.
      assert (Hbody : match parts with
                      | [] => []
                      | _ :: _ =>
                          if 1 <? length (last parts [])
                          then "/"%char :: last parts [] else []
                      end
                      = if 1 <? length (last parts [])
                        then "/"%char :: last parts [] else [])
        by (destruct parts; [congruence | reflexivity]).
      rewrite Hbody. clear Hbody.
      destruct (1 <? length (last parts [])) eqn:E1.
      * apply Nat.ltb_lt in E1. right. exists before, (last parts []), slashes.
        split; [exact Hpath|]. split; [exact E1|]. split; [exact Hnos|].
        split; [exact Hsl|]. destruct domain; [congruence | reflexivity].
      * apply Nat.ltb_ge in E1. left. rewrite app_nil_r.
        split; [destruct domain; [congruence | reflexivity]|].
        right. destruct (last parts []) as [|c [|c' rest]] eqn:El;
          [congruence | | simpl in E1; lia].
        exists before, c, slashes. split; [exact Hpath|]. split; [|exact Hsl].
        intros ->. apply Hnos. now left.
Qed.

(** X19. [make_bookmark_title_from_url] returns the URL itself when the URL
    does not begin, in any letter case, with [http://] or [https://] followed
    by a character other than the slash.  Otherwise the text behind the scheme
    is a non-empty domain without a slash, then a path that is empty or begins
    with a slash and runs to the end or the first line feed; the title is the
    domain, followed by a slash and the last non-empty segment of the path
    exactly when that segment has more than one character. *)
Theorem bookmark_title_is_domain_and_last_long_segment :
  forall (u : text),
    (make_bookmark_title_from_url u = u
     /\ forall k, has_scheme k u ->
          nth_error u k = None \/ nth_error u k = Some "/"%char)
    \/ exists k domain path tail,
         has_scheme k u
         /\ skipn k u = domain ++ path ++ tail
         /\ domain <> [] /\ ~ In "/"%char domain
         /\ ~ In LINE_FEED path
         /\ (path = [] /\ tail = []
             \/ (exists p', path = "/"%char :: p')
                /\ (tail = [] \/ exists t', tail = LINE_FEED :: t'))
         /\ ((make_bookmark_title_from_url u = domain
              /\ (Forall (eq "/"%char) path
                  \/ exists before c slashes,
                       path = before ++ "/"%char :: c :: slashes
                       /\ c <> "/"%char /\ Forall (eq "/"%char) slashes))
             \/ exists before seg slashes,
                  path = before ++ "/"%char :: seg ++ slashes
                  /\ 1 < length seg /\ ~ In "/"%char seg
                  /\ Forall (eq "/"%char) slashes
                  /\ make_bookmark_title_from_url u = domain ++ "/"%char :: seg).
Proof. exact bookmark_title_shape. Qed.

(** ** Grouping the rows for the bookmarks file (lines 555-559) *)

Lemma group_append_lookup (grp url g : text) (d : list (text * list text)) :
  Dict.lookup text_eqb g (group_append grp url d)
  = if text_eqb grp g then Some (Dict.get text_eqb grp d [] ++ [url])
    else Dict.lookup text_eqb g d.
Proof.
  unfold Dict.get. induction d as [|[k v] d IH]; simpl.
  - destruct (text_eqb grp g); reflexivity.
  - destruct (text_eqb k grp) eqn:E; simpl.
    + apply text_eqb_eq in E. subst k. destruct (text_eqb grp g); reflexivity.
    + destruct (text_eqb k g) eqn:Eg.
      * apply text_eqb_eq in Eg. subst k.
        destruct (text_eqb grp g) eqn:E'; [|reflexivity].
        apply text_eqb_eq in E'. subst grp. rewrite text_eqb_refl in E. discriminate.
      * exact IH.
Qed.

Lemma setdefault_empty_lookup (grp g : text) (d : list (text * list text)) :
  Dict.lookup text_eqb g (setdefault_empty grp d)
  = if text_eqb grp g then Some (Dict.get text_eqb grp d [])
    else Dict.lookup text_eqb g d.
Proof.
  unfold Dict.get. induction d as [|[k v] d IH]; simpl.
  - destruct (text_eqb grp g); reflexivity.
  - destruct (text_eqb k grp) eqn:E; simpl.
    + apply text_eqb_eq in E. subst k. destruct (text_eqb grp g); reflexivity.
    + destruct (text_eqb k g) eqn:Eg.
      * apply text_eqb_eq in Eg. subst k.
        destruct (text_eqb grp g) eqn:E'; [|reflexivity].
        apply text_eqb_eq in E'. subst grp. rewrite text_eqb_refl in E. discriminate.
      * exact IH.
Qed.

Lemma lookup_key_In {V : Type} (g : text) (d : list (text * V)) :
  In g (map fst d) <-> exists v, Dict.lookup text_eqb g d = Some v.
Proof.
  induction d as [|[k v] d IH]; simpl.
  - split; [intros [] | intros [v Hv]; discriminate].
  - destruct (text_eqb k g) eqn:E.
    + apply text_eqb_eq in E. split; [intros _; now exists v | intros _; now left].
    + rewrite <- IH. split; [intros [H | H]; [|exact H] | intros H; now right].
      subst k. rewrite text_eqb_refl in E. discriminate.
Qed.

Lemma group_append_nodup (grp url : text) (d : list (text * list text)) :
  NoDup (map fst d) -> NoDup (map fst (group_append grp url d)).
Proof.
  induction d as [|[k v] d IH]; simpl; [intros _; repeat constructor; intros []|].
  intros Hnd. inversion Hnd as [|? ? Hk Hd]; subst.
  destruct (text_eqb k grp) eqn:E; simpl; [now constructor|].
  constructor; [|now apply IH].
  intros Hin. apply lookup_key_In in Hin as [v' Hv'].
  rewrite group_append_lookup in Hv'.
  destruct (text_eqb grp k) eqn:E'.
  - apply text_eqb_eq in E'. subst grp. rewrite text_eqb_refl in E. discriminate.
  - apply Hk. apply lookup_key_In. now exists v'.
Qed.

Lemma setdefault_empty_nodup (grp : text) (d : list (text * list text)) :
  NoDup (map fst d) -> NoDup (map fst (setdefault_empty grp d)).
Proof.
  induction d as [|[k v] d IH]; simpl; [intros _; repeat constructor; intros []|].
  intros Hnd. inversion Hnd as [|? ? Hk Hd]; subst.
  destruct (text_eqb k grp) eqn:E; simpl; [now constructor|].
  constructor; [|now apply IH].
  intros Hin. apply lookup_key_In in Hin as [v' Hv'].
  rewrite setdefault_empty_lookup in Hv'.
  destruct (text_eqb grp k) eqn:E'.
  - apply text_eqb_eq in E'. subst grp. rewrite text_eqb_refl in E. discriminate.
  - apply Hk. apply lookup_key_In. now exists v'.
Qed.

Lemma existsb_false_filter {A : Type} (f : A -> bool) (l : list A) :
  existsb f l = false -> filter f l = [].
Proof.
  induction l as [|x l IH]; simpl; [reflexivity|].
  destruct (f x); simpl; [discriminate | exact IH].
Qed.

Lemma grouping_fold (rows : list Row.t) : forall seen d,
  NoDup (map fst d) ->
  (forall g, Dict.lookup text_eqb g d
             = if existsb (fun r => text_eqb (grp_of_row r) g) seen
               then Some (map Row.URL
                            (filter (fun r => text_eqb (grp_of_row r) g) seen))
               else None) ->
  let d' := fold_left (fun groups_to_urls r =>
                         group_append (grp_of_row r) (Row.URL r) groups_to_urls)
                      rows d in
  NoDup (map fst d')
  /\ forall g, Dict.lookup text_eqb g d'
               = if existsb (fun r => text_eqb (grp_of_row r) g) (seen ++ rows)
                 then Some (map Row.URL
                              (filter (fun r => text_eqb (grp_of_row r) g)
                                      (seen ++ rows)))
                 else None.
Proof.
  induction rows as [|r rows IH]; intros seen d Hnd Hd; cbv zeta; simpl.
  - rewrite app_nil_r. split; [exact Hnd | exact Hd].
  - replace (seen ++ r :: rows) with ((seen ++ [r]) ++ rows)
      by (rewrite <- app_assoc; reflexivity).
    apply IH; [now apply group_append_nodup|].
    intros g. rewrite group_append_lookup, existsb_app, filter_app, map_app.
    cbn [existsb filter]. unfold Dict.get. rewrite Hd.
    destruct (text_eqb (grp_of_row r) g) eqn:E.
    + apply text_eqb_eq in E. rewrite E.
      cbn [orb]. rewrite orb_true_r. cbn [map]. f_equal. f_equal.
      destruct (existsb (fun r0 => text_eqb (grp_of_row r0) g) seen) eqn:Ex;
        [reflexivity|].
      now rewrite (existsb_false_filter _ _ Ex).
    + cbn [orb]. rewrite orb_false_r. cbn [map]. now rewrite app_nil_r.
Qed.

Lemma grp_of_row_nonempty (r : Row.t) : grp_of_row r <> [].
Proof.
  unfold grp_of_row. destruct (Row.SessionTabGroup r); discriminate.
Qed.

Lemma groups_to_urls_spec (produced_rows : list Row.t) :
  NoDup (map fst (groups_to_urls_of produced_rows))
  /\ (forall grp,
        In grp (map fst (groups_to_urls_of produced_rows))
        <-> grp = Ungrouped \/ exists r, In r produced_rows /\ grp_of_row r = grp)
  /\ ~ In [] (map fst (groups_to_urls_of produced_rows))
  /\ (forall grp,
        Dict.get text_eqb grp (groups_to_urls_of produced_rows) []
        = map Row.URL
            (filter (fun r => text_eqb (grp_of_row r) grp) produced_rows)).
Proof.
  unfold groups_to_urls_of.
  destruct (grouping_fold produced_rows [] [] (NoDup_nil _) (fun g => eq_refl))
    as [Hnd Hlook].
  cbv zeta in Hnd, Hlook. cbn [app] in Hlook.
  set (d := fold_left (fun groups_to_urls r =>
                         group_append (grp_of_row r) (Row.URL r) groups_to_urls)
                      produced_rows []) in *.
  clearbody d.
  assert (Hget : forall grp,
             Dict.get text_eqb grp (setdefault_empty Ungrouped d) []
             = map Row.URL
                 (filter (fun r => text_eqb (grp_of_row r) grp) produced_rows)).
  { intros grp. unfold Dict.get at 1. rewrite setdefault_empty_lookup.
    destruct (text_eqb Ungrouped grp) eqn:E.
    - apply text_eqb_eq in E. subst grp. unfold Dict.get. rewrite Hlook.
      destruct (existsb (fun r => text_eqb (grp_of_row r) Ungrouped) produced_rows)
        eqn:Ex; [reflexivity|].
      now rewrite (existsb_false_filter _ _ Ex).
    - rewrite Hlook.
      destruct (existsb (fun r => text_eqb (grp_of_row r) grp) produced_rows)
        eqn:Ex; [reflexivity|].
      now rewrite (existsb_false_filter _ _ Ex). }
  assert (Hkeys : forall grp,
             In grp (map fst (setdefault_empty Ungrouped d))
             <-> grp = Ungrouped
                 \/ exists r, In r produced_rows /\ grp_of_row r = grp).
  { intros grp. rewrite lookup_key_In. rewrite setdefault_empty_lookup, Hlook.
    destruct (text_eqb Ungrouped grp) eqn:E.
    - apply text_eqb_eq in E. split; [intros _; now left | intros _; eauto].
    - destruct (existsb (fun r => text_eqb (grp_of_row r) grp) produced_rows) eqn:Ex.
      + apply existsb_exists in Ex as [r [Hr Hg]]. apply text_eqb_eq in Hg.
        split; [intros _; right; now exists r | intros _; eauto].
      + split; [intros [v Hv]; discriminate|].
        intros [-> | [r [Hr Hg]]].
        * rewrite text_eqb_refl in E. discriminate.
        * assert (existsb (fun r => text_eqb (grp_of_row r) grp) produced_rows = true);
            [|congruence].
          apply existsb_exists. exists r. split; [exact Hr|]. now apply text_eqb_eq. }
  split; [now apply setdefault_empty_nodup|]. split; [exact Hkeys|].
  split; [|exact Hget].
  intros Hin. apply Hkeys in Hin as [H | [r [_ H]]]; [discriminate H|].
  now apply (grp_of_row_nonempty r).
Qed.

(** X20. The dictionary [groups_to_urls] has one key per group name: its keys
    are ["Ungrouped"] and the group names of the rows, the empty name counted
    as ["Ungrouped"]; no key is the empty name; and the list of each key holds
    the URLs of the rows of that group, all of them and in the order of the
    rows. *)
Theorem groups_to_urls_lists_each_group_in_row_order :
  forall (produced_rows : list Row.t),
    NoDup (map fst (groups_to_urls_of produced_rows))
    /\ (forall grp,
          In grp (map fst (groups_to_urls_of produced_rows))
          <-> grp = Ungrouped \/ exists r, In r produced_rows /\ grp_of_row r = grp)
    /\ ~ In [] (map fst (groups_to_urls_of produced_rows))
    /\ (forall grp,
          Dict.get text_eqb grp (groups_to_urls_of produced_rows) []
          = map Row.URL
              (filter (fun r => text_eqb (grp_of_row r) grp) produced_rows)).
Proof. exact groups_to_urls_spec. Qed.

(** ** Folders and bookmark lines (lines 564-589) *)

Lemma text_leb_total (a b : text) : text_leb a b = false -> text_leb b a = true.
Proof.
  revert b; induction a as [|x a IH]; intros [|y b]; simpl; try congruence.
  destruct (nat_of_ascii x <? nat_of_ascii y) eqn:E1; [discriminate|].
  destruct (nat_of_ascii y <? nat_of_ascii x) eqn:E2; [reflexivity|]. apply IH.
Qed.

Lemma text_leb_trans (a b c : text) :
  text_leb a b = true -> text_leb b c = true -> text_leb a c = true.
Proof.
  revert b c; induction a as [|x a IH]; intros [|y b] [|z c]; simpl; try congruence.
  destruct (nat_of_ascii x <? nat_of_ascii y) eqn:E1;
    destruct (nat_of_ascii y <? nat_of_ascii x) eqn:E2;
    destruct (nat_of_ascii y <? nat_of_ascii z) eqn:E3;
    destruct (nat_of_ascii z <? nat_of_ascii y) eqn:E4;
    destruct (nat_of_ascii x <? nat_of_ascii z) eqn:E5;
    destruct (nat_of_ascii z <? nat_of_ascii x) eqn:E6;
    try reflexivity; try discriminate;
    rewrite ?Nat.ltb_lt, ?Nat.ltb_ge in *; try lia.
  apply IH.
Qed.

Lemma text_leb_antisym (a b : text) :
  text_leb a b = true -> text_leb b a = true -> a = b.
Proof.
  revert b; induction a as [|x a IH]; intros [|y b]; simpl; try congruence.
  destruct (nat_of_ascii x <? nat_of_ascii y) eqn:E1;
    destruct (nat_of_ascii y <? nat_of_ascii x) eqn:E2;
    try discriminate; rewrite ?Nat.ltb_lt, ?Nat.ltb_ge in *; try lia.
  intros H1 H2. f_equal; [|now apply IH].
  rewrite <- (ascii_nat_embedding x), <- (ascii_nat_embedding y). f_equal. lia.
Qed.

Lemma insert_text_perm (x : text) (l : list text) :
  Permutation (insert_text x l) (x :: l).
Proof.
  induction l as [|y l IH]; simpl; [reflexivity|].
  destruct (text_leb x y); [reflexivity|]. rewrite IH. apply perm_swap.
Qed.

Lemma sorted_texts_perm (l : list text) : Permutation (sorted_texts l) l.
Proof.
  induction l as [|x l IH]; simpl; [reflexivity|].
  rewrite insert_text_perm. now apply perm_skip.
Qed.

Lemma insert_text_sorted (x : text) (l : list text) :
  StronglySorted (fun a b => text_leb a b = true) l ->
  StronglySorted (fun a b => text_leb a b = true) (insert_text x l).
Proof.
  induction 1 as [|y l Hs IH Hy]; simpl.
  - constructor; constructor.
  - destruct (text_leb x y) eqn:E.
    + constructor; [now constructor|]. constructor; [exact E|].
      eapply Forall_impl; [|exact Hy]. intros a Ha. simpl in Ha.
      exact (text_leb_trans _ _ _ E Ha).
    + apply text_leb_total in E. constructor; [exact IH|].
      eapply Permutation_Forall; [symmetry; apply insert_text_perm|].
      constructor; [exact E | exact Hy].
Qed.

Lemma sorted_texts_sorted (l : list text) :
  StronglySorted (fun a b => text_leb a b = true) (sorted_texts l).
Proof.
  induction l as [|x l IH]; simpl; [constructor | now apply insert_text_sorted].
Qed.

Lemma sorted_texts_strict (l : list text) :
  NoDup l ->
  StronglySorted (fun a b => text_leb a b = true /\ a <> b) (sorted_texts l).
Proof.
  intros Hnd.
  assert (Hnd' : NoDup (sorted_texts l))
    by (eapply Permutation_NoDup; [symmetry; apply sorted_texts_perm | exact Hnd]).
  pose proof (sorted_texts_sorted l) as Hs.
  induction Hs as [|x s Hs IH Hx]; [constructor|].
  inversion Hnd' as [|? ? Hnot Hnd'']; subst.
  constructor; [now apply IH|].
  rewrite Forall_forall in *. intros y Hy. split; [now apply Hx|].
  intros ->. contradiction.
Qed.

Lemma unseen_urls_spec : forall urls seen,
  NoDup (unseen_urls seen urls)
  /\ forall u, In u (unseen_urls seen urls) <-> In u urls /\ ~ In u seen.
Proof.
  induction urls as [|url rest IH]; intros seen; simpl.
  - split; [constructor | intros u; tauto].
  - destruct (existsb (text_eqb url) seen) eqn:E.
    + apply existsb_text_eqb in E. destruct (IH seen) as [Hnd Hin].
      split; [exact Hnd|]. intros u. rewrite Hin. split.
      * intros [H1 H2]. split; [now right | exact H2].
      * intros [[<- | H1] H2]; [contradiction | now split].
    + assert (Hnot : ~ In url seen).
      { intros Hin. apply existsb_text_eqb in Hin. congruence. }
      destruct (IH (url :: seen)) as [Hnd Hin]. split.
      * constructor; [|exact Hnd]. intros H. apply Hin in H as [_ H].
        apply H. now left.
      * intros u. simpl. rewrite Hin. simpl. split.
        -- intros [<- | [H1 H2]]; [split; [now left | exact Hnot]|].
           split; [now right | tauto].
        -- intros [[<- | H1] H2]; [now left|].
           destruct (text_eqb url u) eqn:Eu.
           ++ apply text_eqb_eq in Eu. now left.
           ++ right. split; [exact H1|]. intros [-> | H]; [|contradiction].
              rewrite text_eqb_refl in Eu. discriminate.
Qed.

Lemma length_flat_map_sum {A B : Type} (f : A -> list B) (l : list A) :
  length (flat_map f l) = list_sum (map (fun x => length (f x)) l).
Proof.
  induction l as [|x l IH]; simpl; [reflexivity|]. now rewrite length_app, IH.
Qed.

Lemma bookmark_lines_spec (generated_comment parent_folder_name : text)
    (produced_rows : list Row.t) :
  let groups_to_urls := groups_to_urls_of produced_rows in
  let folders := sorted_texts (map fst groups_to_urls) in
  StronglySorted (fun a b => text_leb a b = true /\ a <> b) folders
  /\ (forall grp,
        In grp folders
        <-> grp = Ungrouped \/ exists r, In r produced_rows /\ grp_of_row r = grp)
  /\ (forall grp,
        NoDup (unseen_urls [] (Dict.get text_eqb grp groups_to_urls []))
        /\ forall u,
             In u (unseen_urls [] (Dict.get text_eqb grp groups_to_urls []))
             <-> exists r, In r produced_rows /\ grp_of_row r = grp /\ Row.URL r = u)
  /\ (forall r, In r produced_rows ->
        In (bookmark_line (Row.URL r))
           (bookmark_lines generated_comment parent_folder_name produced_rows))
  /\ length (bookmark_lines generated_comment parent_folder_name produced_rows)
     = 10 + list_sum
              (map (fun grp =>
                      3 + length (unseen_urls []
                                    (Dict.get text_eqb grp groups_to_urls [])))
                   folders).
Proof.
  intros groups_to_urls folders.
  destruct (groups_to_urls_spec produced_rows) as [Hnd [Hkeys [_ Hget]]].
  fold groups_to_urls in Hnd, Hkeys, Hget.
  assert (Hfolders : forall grp,
             In grp folders
             <-> grp = Ungrouped
                 \/ exists r, In r produced_rows /\ grp_of_row r = grp).
  { intros grp. rewrite <- Hkeys. unfold folders. split; apply Permutation_in;
      [apply sorted_texts_perm | symmetry; apply sorted_texts_perm]. }
  assert (Hurls : forall grp u,
             In u (unseen_urls [] (Dict.get text_eqb grp groups_to_urls []))
             <-> exists r, In r produced_rows /\ grp_of_row r = grp /\ Row.URL r = u).
  { intros grp u.
    destruct (unseen_urls_spec (Dict.get text_eqb grp groups_to_urls []) [])
      as [_ Hin].
    rewrite Hin, Hget, in_map_iff. split.
    - intros [[r [Hu Hr]] _]. apply filter_In in Hr as [Hr Hg].
      apply text_eqb_eq in Hg. now exists r.
    - intros [r [Hr [Hg Hu]]]. split; [|intros []]. exists r. split; [exact Hu|].
      apply filter_In. split; [exact Hr | now apply text_eqb_eq]. }
  split; [now apply sorted_texts_strict|]. split; [exact Hfolders|]. split; [|split].
  - intros grp. split; [|apply Hurls].
    apply (unseen_urls_spec (Dict.get text_eqb grp groups_to_urls []) []).
  - intros r Hr. unfold bookmark_lines. fold groups_to_urls. fold folders.
    apply in_or_app. right. apply in_or_app. left.
    apply in_flat_map. exists (grp_of_row r). split.
    + apply Hfolders. right. now exists r.
    + unfold group_lines. apply in_or_app. right. apply in_or_app. left.
      apply in_map. apply Hurls. now exists r.
  - unfold bookmark_lines. fold groups_to_urls. fold folders.
    rewrite !length_app, length_flat_map_sum. cbn [length].
    assert (Hsum : map (fun grp =>
                          length (group_lines grp
                                    (Dict.get text_eqb grp groups_to_urls [])))
                       folders
                   = map (fun grp =>
                            3 + length (unseen_urls []
                                          (Dict.get text_eqb grp groups_to_urls [])))
                         folders).
    { apply map_ext. intros grp. unfold group_lines.
      rewrite !length_app, length_map. cbn [length]. lia. }
    rewrite Hsum. lia.
Qed.

(** X21. The bookmarks file has one folder per key of [groups_to_urls], in
    strictly increasing code-point order; the folder of a group lists the URLs
    of the group's rows, each exactly once; every row's URL has its bookmark
    line in the file; and the file has 10 fixed lines and, for each folder, 3
    lines and one line per listed URL. *)
Theorem bookmarks_file_lists_every_row_once_per_folder :
  forall (generated_comment parent_folder_name : text) (produced_rows : list Row.t),
    let groups_to_urls := groups_to_urls_of produced_rows in
    let folders := sorted_texts (map fst groups_to_urls) in
    StronglySorted (fun a b => text_leb a b = true /\ a <> b) folders
    /\ (forall grp,
          In grp folders
          <-> grp = Ungrouped \/ exists r, In r produced_rows /\ grp_of_row r = grp)
    /\ (forall grp,
          NoDup (unseen_urls [] (Dict.get text_eqb grp groups_to_urls []))
          /\ forall u,
               In u (unseen_urls [] (Dict.get text_eqb grp groups_to_urls []))
               <-> exists r,
                     In r produced_rows /\ grp_of_row r = grp /\ Row.URL r = u)
    /\ (forall r, In r produced_rows ->
          In (bookmark_line (Row.URL r))
             (bookmark_lines generated_comment parent_folder_name produced_rows))
    /\ length (bookmark_lines generated_comment parent_folder_name produced_rows)
       = 10 + list_sum
                (map (fun grp =>
                        3 + length (unseen_urls []
                                      (Dict.get text_eqb grp groups_to_urls [])))
                     folders).
Proof. exact bookmark_lines_spec. Qed.

(** ** Escaping in the bookmark lines (lines 583-585) *)

Lemma replace_char_app (old : ascii) (new a b : text) :
  replace_char old new (a ++ b) = replace_char old new a ++ replace_char old new b.
Proof. unfold replace_char. apply flat_map_app. Qed.

Lemma html_escape_app (a b : text) :
  html_escape (a ++ b) = html_escape a ++ html_escape b.
Proof. unfold html_escape. cbv zeta. now rewrite !replace_char_app. Qed.

Lemma html_escape_cons (c : ascii) (s : text) :
  html_escape (c :: s) = html_escape [c] ++ html_escape s.
Proof. exact (html_escape_app [c] s). Qed.

Lemma html_escape_char_cases (c : ascii) :
  (html_escape [c] = [c]
   /\ c <> "&"%char /\ c <> "<"%char /\ c <> ">"%char
   /\ c <> DOUBLE_QUOTE /\ c <> "'"%char)
  \/ (c = "&"%char \/ c = "<"%char \/ c = ">"%char
      \/ c = DOUBLE_QUOTE \/ c = "'"%char).
Proof.
  destruct c as [[] [] [] [] [] [] [] []];
    first [ left; split; [reflexivity|];
            repeat split; intros H; vm_compute in H; discriminate H
          | right; left; reflexivity
          | right; right; left; reflexivity
          | right; right; right; left; reflexivity
          | right; right; right; right; left; reflexivity
          | right; right; right; right; right; reflexivity ].
Qed.

Lemma html_escape_char_safe (c x : ascii) :
  In x (html_escape [c]) ->
  x <> "<"%char /\ x <> ">"%char /\ x <> DOUBLE_QUOTE /\ x <> "'"%char.
Proof.
  destruct (html_escape_char_cases c)
    as [[-> [_ [H1 [H2 [H3 H4]]]]] | [-> | [-> | [-> | [-> | ->]]]]].
  - intros [<- | []]. repeat split; assumption.
  - intros Hin. vm_compute in Hin.
    repeat (destruct Hin as [<- | Hin];
            [repeat split; intros H; vm_compute in H; discriminate H|]).
    destruct Hin.
  - intros Hin. vm_compute in Hin.
    repeat (destruct Hin as [<- | Hin];
            [repeat split; intros H; vm_compute in H; discriminate H|]).
    destruct Hin.
  - intros Hin. vm_compute in Hin.
    repeat (destruct Hin as [<- | Hin];
            [repeat split; intros H; vm_compute in H; discriminate H|]).
    destruct Hin.
  - intros Hin. vm_compute in Hin.
    repeat (destruct Hin as [<- | Hin];
            [repeat split; intros H; vm_compute in H; discriminate H|]).
    destruct Hin.
  - intros Hin. vm_compute in Hin.
    repeat (destruct Hin as [<- | Hin];
            [repeat split; intros H; vm_compute in H; discriminate H|]).
    destruct Hin.
Qed.

Lemma html_escape_safe (s : text) (x : ascii) :
  In x (html_escape s) ->
  x <> "<"%char /\ x <> ">"%char /\ x <> DOUBLE_QUOTE /\ x <> "'"%char.
Proof.
  induction s as [|c s IH]; [intros []|].
  rewrite html_escape_cons. intros Hin. apply in_app_or in Hin as [Hin | Hin];
    [exact (html_escape_char_safe c x Hin) | now apply IH].
Qed.

Lemma html_escape_fixed (s : text) :
  (forall c, In c s ->
     c <> "&"%char /\ c <> "<"%char /\ c <> ">"%char
     /\ c <> DOUBLE_QUOTE /\ c <> "'"%char) ->
  html_escape s = s.
Proof.
  induction s as [|c s IH]; intros Hs; [reflexivity|].
  rewrite html_escape_cons, IH by (intros c' Hc'; apply Hs; now right).
  destruct (html_escape_char_cases c) as [[-> _] | Hc]; [reflexivity|].
  destruct (Hs c (or_introl eq_refl)) as [H1 [H2 [H3 [H4 H5]]]].
  destruct Hc as [-> | [-> | [-> | [-> | ->]]]]; congruence.
Qed.

Lemma html_escape_char_inj (c c' : ascii) (r r' : text) :
  html_escape [c] ++ r = html_escape [c'] ++ r' -> c = c' /\ r = r'.
Proof.
  destruct (html_escape_char_cases c) as [[Hc [Hamp _]] | Hc];
    destruct (html_escape_char_cases c') as [[Hc' [Hamp' _]] | Hc'].
  - rewrite Hc, Hc'. intros [= -> ->]. now split.
  - rewrite Hc. intros H. exfalso.
    destruct Hc' as [-> | [-> | [-> | [-> | ->]]]]; cbv in H;
      injection H as H _; apply Hamp; exact H.
  - rewrite Hc'. intros H. exfalso.
    destruct Hc as [-> | [-> | [-> | [-> | ->]]]]; cbv in H;
      injection H as H _; apply Hamp'; symmetry; exact H.
  - intros H.
    destruct Hc as [-> | [-> | [-> | [-> | ->]]]];
      destruct Hc' as [-> | [-> | [-> | [-> | ->]]]]; cbv in H;
      first [ discriminate H
            | injection H as H; split; [reflexivity | exact H] ].
Qed.

Lemma html_escape_char_nonempty (c : ascii) : html_escape [c] <> [].
Proof.
  destruct (html_escape_char_cases c) as [[-> _] | Hc]; [discriminate|].
  destruct Hc as [-> | [-> | [-> | [-> | ->]]]]; discriminate.
Qed.

Lemma html_escape_inj : forall s s', html_escape s = html_escape s' -> s = s'.
Proof.
  induction s as [|c s IH]; intros [|c' s'].
  - reflexivity.
  - rewrite html_escape_cons. intros H. symmetry in H.
    apply app_eq_nil in H as [H _]. now apply html_escape_char_nonempty in H.
  - rewrite html_escape_cons. intros H.
    apply app_eq_nil in H as [H _]. now apply html_escape_char_nonempty in H.
  - rewrite (html_escape_cons c s), (html_escape_cons c' s'). intros H.
    apply html_escape_char_inj in H as [-> H]. f_equal. now apply IH.
Qed.

Lemma split_at_first {A : Type} (x : A) : forall a a' b b',
  ~ In x a -> ~ In x a' -> a ++ x :: b = a' ++ x :: b' -> a = a'.
Proof.
  induction a as [|y a IH]; intros [|y' a'] b b' Ha Ha'; simpl.
  - reflexivity.
  - intros [= <- _]. exfalso. apply Ha'. now left.
  - intros [= -> _]. exfalso. apply Ha. now left.
  - intros [= -> H]. f_equal. apply (IH a' b b'); [| |exact H].
    + intros Hin. apply Ha. now right.
    + intros Hin. apply Ha'. now right.
Qed.

Lemma html_escape_no_quote (s : text) : ~ In DOUBLE_QUOTE (html_escape s).
Proof.
  intros Hin. apply html_escape_safe in Hin as [_ [_ [H _]]]. now apply H.
Qed.

Lemma bookmark_line_quotes (url : text) :
  count_occ ascii_dec (bookmark_line url) DOUBLE_QUOTE = 2.
Proof.
  unfold bookmark_line. rewrite !count_occ_app.
  rewrite (proj1 (count_occ_not_In ascii_dec _ _) (html_escape_no_quote url)).
  rewrite (proj1 (count_occ_not_In ascii_dec _ _)
             (html_escape_no_quote (make_bookmark_title_from_url url))).
  reflexivity.
Qed.

Lemma bookmark_line_inj (url url' : text) :
  bookmark_line url = bookmark_line url' -> url = url'.
Proof.
  unfold bookmark_line. intros H. apply app_inv_head in H.
  cbn [app] in H. injection H as H.
  apply split_at_first in H; [now apply html_escape_inj | |];
    apply html_escape_no_quote.
Qed.

(** X22. The escaped form of a text holds none of [<], [>], the double quote
    and the apostrophe, equals the text when the text holds none of the five
    special characters, and determines the text.  Hence a bookmark line holds
    exactly two double quotes, those around the [HREF] value, and two URLs
    with the same bookmark line are equal. *)
Theorem bookmark_line_quotes_the_url_and_determines_it :
  (forall s x, In x (html_escape s) ->
     x <> "<"%char /\ x <> ">"%char /\ x <> DOUBLE_QUOTE /\ x <> "'"%char)
  /\ (forall s,
        (forall c, In c s ->
           c <> "&"%char /\ c <> "<"%char /\ c <> ">"%char
           /\ c <> DOUBLE_QUOTE /\ c <> "'"%char) ->
        html_escape s = s)
  /\ (forall s s', html_escape s = html_escape s' -> s = s')
  /\ (forall url, count_occ ascii_dec (bookmark_line url) DOUBLE_QUOTE = 2)
  /\ (forall url url', bookmark_line url = bookmark_line url' -> url = url').
Proof.
  split; [exact html_escape_safe|]. split; [exact html_escape_fixed|].
  split; [exact html_escape_inj|]. split; [exact bookmark_line_quotes|].
  exact bookmark_line_inj.
Qed.

(** ** What the tabs buffer can change (lines 413-485) *)

Lemma foldM_projection {S X P : Type} (proj : S -> P) (f f' : S -> X -> option S) :
  (forall s s' x, proj s = proj s' ->
     option_map proj (f s x) = option_map proj (f' s' x)) ->
  forall l s s', proj s = proj s' ->
    option_map proj (foldM f l s) = option_map proj (foldM f' l s').
Proof.
  intros Hstep. induction l as [|x l IH]; intros s s' Hs; cbn [foldM].
  - simpl. now rewrite Hs.
  - specialize (Hstep s s' x Hs).
    destruct (f s x) as [s1|]; destruct (f' s' x) as [s1'|]; simpl in Hstep;
      try discriminate; cbn [bind]; [|reflexivity].
    apply IH. congruence.
Qed.

Section TabsFacts.
Variable session_text_with_pipes : text.
Variables tabs_text_with_pipes tabs_text_with_pipes' : text.
Variable tag_to_groupname : list (text * text).
Variable tag_occurrence_to_assigned_urls : list (text * nat * list Assigned.t).

Lemma url_step_tabs tag_text occ_pos tag_end_pos st st' a :
  state_without_groups st = state_without_groups st' ->
  option_map state_without_groups
    (url_step session_text_with_pipes tabs_text_with_pipes tag_to_groupname
       tag_text occ_pos tag_end_pos st a)
  = option_map state_without_groups
      (url_step session_text_with_pipes tabs_text_with_pipes' tag_to_groupname
         tag_text occ_pos tag_end_pos st' a).
Proof.
  unfold state_without_groups. intros [= Hc Hf Hr Hp Hw]. unfold url_step.
  rewrite Hw, Hp, Hc, Hf.
  destruct (negb (first_row_written st')).
  - cbn [option_map consecutive_empty_count_by_tag finished_tags produced_rows
         prev_accepted_tag_end_pos first_row_written].
    now rewrite !map_app, Hr.
  - destruct (prev_accepted_tag_end_pos st') as [prev|] eqn:Eprev; [|reflexivity].
    cbn [bind]. destruct (prev <? Assigned.u_start a).
    + cbn [option_map consecutive_empty_count_by_tag finished_tags produced_rows
           prev_accepted_tag_end_pos first_row_written].
      now rewrite !map_app, Hr.
    + cbn [option_map]. now rewrite Hc, Hf, Hr, Hp, Hw, Eprev.
Qed.

Lemma occ_step_tabs st st' occ :
  state_without_groups st = state_without_groups st' ->
  option_map state_without_groups
    (occ_step session_text_with_pipes tabs_text_with_pipes tag_to_groupname
       tag_occurrence_to_assigned_urls st occ)
  = option_map state_without_groups
      (occ_step session_text_with_pipes tabs_text_with_pipes' tag_to_groupname
         tag_occurrence_to_assigned_urls st' occ).
Proof.
  intros Hs. pose proof Hs as Hs'. unfold state_without_groups in Hs'.
  injection Hs' as Hc Hf Hr Hp Hw.
  destruct occ as [occ_pos tag_text]. unfold occ_step. rewrite Hf.
  destruct (existsb (text_eqb tag_text) (finished_tags st')).
  - cbn [option_map]. now rewrite Hs.
  - destruct (Dict.get key_eqb (tag_text, occ_pos) tag_occurrence_to_assigned_urls [])
      as [|a0 l0].
    + rewrite Hc.
      destruct (Dict.lookup text_eqb tag_text (consecutive_empty_count_by_tag st'))
        as [count|]; [|reflexivity].
      cbn [bind option_map]. unfold state_without_groups.
      cbn [consecutive_empty_count_by_tag finished_tags produced_rows
           prev_accepted_tag_end_pos first_row_written].
      now rewrite Hr, Hp, Hw.
    + apply foldM_projection.
      * intros s s' x Hss. now apply url_step_tabs.
      * unfold state_without_groups.
        cbn [consecutive_empty_count_by_tag finished_tags produced_rows
             prev_accepted_tag_end_pos first_row_written].
        now rewrite Hc, Hr, Hp, Hw.
Qed.

Lemma run_tabs occs st :
  option_map state_without_groups
    (run_occurrences session_text_with_pipes tabs_text_with_pipes tag_to_groupname
       tag_occurrence_to_assigned_urls occs st)
  = option_map state_without_groups
      (run_occurrences session_text_with_pipes tabs_text_with_pipes' tag_to_groupname
         tag_occurrence_to_assigned_urls occs st).
Proof.
  unfold run_occurrences. apply foldM_projection; [|reflexivity].
  intros s s' x Hss. now apply occ_step_tabs.
Qed.
End TabsFacts.

(** X23. The tabs buffer changes nothing but group names: for one session
    buffer and any two tabs buffers, given or not, the core returns the same
    catalogue and rows that agree in every field other than
    [SessionTabGroup]. *)
Theorem tabs_buffer_changes_group_names_only :
  forall (session_bytes : list byte) (tabs_bytes tabs_bytes' : option (list byte)),
    option_map (fun out => (out_session_tags_and_groups out,
                            map row_without_group (out_produced_rows out)))
               (main_core session_bytes tabs_bytes)
    = option_map (fun out => (out_session_tags_and_groups out,
                              map row_without_group (out_produced_rows out)))
                 (main_core session_bytes tabs_bytes').
Proof.
  intros session_bytes tabs_bytes tabs_bytes'. unfold main_core.
  destruct (session_tags_and_groups_of session_bytes) as [groups|]; [|reflexivity].
  cbn [bind].
  destruct (tag_to_all_occurrences_of (display session_bytes) groups) as [index|];
    [|reflexivity].
  cbn [bind].
  destruct (combined_tag_occurrence_list_of index groups) as [occs|]; [|reflexivity].
  cbn [bind].
  pose proof (run_tabs (display session_bytes)
                match tabs_bytes with Some b => display b | None => [] end
                match tabs_bytes' with Some b => display b | None => [] end
                (dict_comprehension Group.SessionTabGroup groups)
                (tag_occurrence_to_assigned_urls_of index
                   (confirmed_interleaved_records_of (display session_bytes)))
                occs (initial_state groups)) as Hrun.
  destruct (run_occurrences (display session_bytes)
              match tabs_bytes with Some b => display b | None => [] end
              (dict_comprehension Group.SessionTabGroup groups)
              (tag_occurrence_to_assigned_urls_of index
                 (confirmed_interleaved_records_of (display session_bytes)))
              occs (initial_state groups)) as [final|];
    destruct (run_occurrences (display session_bytes)
                match tabs_bytes' with Some b => display b | None => [] end
                (dict_comprehension Group.SessionTabGroup groups)
                (tag_occurrence_to_assigned_urls_of index
                   (confirmed_interleaved_records_of (display session_bytes)))
                occs (initial_state groups)) as [final'|];
    simpl in Hrun; try discriminate; cbn [bind option_map]; [|reflexivity].
  cbn [out_session_tags_and_groups out_produced_rows].
  unfold state_without_groups in Hrun. injection Hrun as _ _ Hr _ _.
  now rewrite Hr.
Qed.

(** ** How many rows there can be *)

Lemma row_before_starts_nodup (rows : list Row.t) :
  StronglySorted row_before rows -> NoDup (map Row.URL_StartPos rows).
Proof.
  induction 1 as [|r rows Hs IH Hr]; simpl; constructor; [|exact IH].
  intros Hin. apply in_map_iff in Hin as [r' [Heq Hr']].
  rewrite Forall_forall in Hr. destruct (Hr r' Hr') as [_ Hlt]. lia.
Qed.

(** X24. The core emits no two rows for one URL occurrence: the start offsets
    of the rows' URLs are pairwise distinct, so there are at most as many rows
    as URL candidates in the session text, and none when the text holds no
    candidate. *)
Theorem at_most_one_row_per_url_candidate :
  forall (session_bytes : list byte) (tabs_bytes : option (list byte)),
    exists out,
      main_core session_bytes tabs_bytes = Some out
      /\ NoDup (map Row.URL_StartPos (out_produced_rows out))
      /\ length (out_produced_rows out)
         <= length (url_finditer (display session_bytes))
      /\ (url_finditer (display session_bytes) = [] -> out_produced_rows out = []).
Proof.
  intros session_bytes tabs_bytes.
  destruct (main_core_spec session_bytes tabs_bytes)
    as [out [st [lo [Hmain [_ [Hrows [_ [_ [_ [Hsorted _]]]]]]]]]].
  exists out. split; [exact Hmain|].
  rewrite <- Hrows in Hsorted.
  pose proof (row_before_starts_nodup _ Hsorted) as Hnd.
  split; [exact Hnd|].
  assert (Hlen : length (out_produced_rows out)
                 <= length (url_finditer (display session_bytes))).
  { rewrite <- (length_map (fun r => (Row.URL_StartPos r, Row.URL_EndPos r,
                                       Row.URL_Raw r)) (out_produced_rows out)).
    apply NoDup_incl_length.
    - apply (NoDup_map_inv (fun m : nat * nat * text => fst (fst m))).
      rewrite map_map. exact Hnd.
    - intros m Hm. apply in_map_iff in Hm as [r [<- Hr]].
      pose proof (main_core_rows_backed session_bytes tabs_bytes out r Hmain Hr)
        as Hb.
      unfold row_backed in Hb. cbv zeta in Hb. tauto. }
  split; [exact Hlen|].
  intros Hnil. rewrite Hnil in Hlen. simpl in Hlen.
  destruct (out_produced_rows out); [reflexivity | simpl in Hlen; lia].
Qed.

(** ** The scan and the empty substring (lines 82-97, 255, 314) *)

(** X25. With an empty substring the [while True] loop of
    [find_non_overlapping_positions_in_text] never ends: no number of
    iterations reaches the [break].  The callers never pass one: a candidate
    of the tag detector and a tag of the catalogue are never empty. *)
Theorem scan_never_ends_on_empty_substring_and_is_never_given_one :
  (forall (fuel : nat) (full_text : text),
      find_non_overlapping_loop fuel full_text [] 0 [] = None)
  /\ (forall (block_text : text) rel_pos candidate,
        tag_candidate_at block_text rel_pos candidate -> candidate <> [])
  /\ (forall (session_bytes : list byte) groups g,
        session_tags_and_groups_of session_bytes = Some groups ->
        In g groups -> Group.SessionTabGroupTag g <> []).
Proof.
  split; [|split].
  - intros fuel full_text. apply find_non_overlapping_loop_empty. lia.
  - exact tag_candidate_nonempty.
  - intros session_bytes groups g Hg Hin.
    exact (group_tags_nonempty session_bytes groups Hg g Hin).
Qed.

(** ** The list of eligible occurrences (lines 389-399) *)

Lemma eligible_of_catalogued_tag (session_bytes : list byte) groups index g :
  session_tags_and_groups_of session_bytes = Some groups ->
  tag_to_all_occurrences_of (display session_bytes) groups = Some index ->
  In g groups ->
  exists occs,
    Dict.lookup text_eqb (Group.SessionTabGroupTag g) index = Some occs
    /\ greedy (display session_bytes) (Group.SessionTabGroupTag g) 0 occs
    /\ eligible_of_tag index g
       = Some (map (fun p => (p, Group.SessionTabGroupTag g)) (skipn 4 occs)).
Proof.
  intros Hg Hidx Hin.
  destruct (index_entry_of_group session_bytes groups index g Hg Hidx Hin)
    as [occs [Hocc [Hgr Hfive]]].
  exists occs. split; [exact Hocc|]. split; [exact Hgr|].
  unfold eligible_of_tag, Dict.get. rewrite Hocc.
  unfold REPEAT_COUNT_REQUIRED in Hfive.
  replace (5 <=? length occs) with true by (symmetry; now apply Nat.leb_le).
  destruct (nth_error occs 4) as [fifth_pos|] eqn:E5.
  2:{ apply nth_error_None in E5. lia. }
  cbn [bind]. do 2 f_equal.
  apply (filter_from_nth (length (Group.SessionTabGroupTag g)) occs 0 4 fifth_pos);
    [|exact (greedy_spaced _ _ _ _ Hgr) | exact E5].
  pose proof (group_tags_nonempty session_bytes groups Hg g Hin) as Hne.
  destruct (Group.SessionTabGroupTag g); [congruence | simpl; lia].
Qed.

Lemma catalogue_tag_length (session_bytes : list byte) groups g :
  session_tags_and_groups_of session_bytes = Some groups -> In g groups ->
  length (Group.SessionTabGroupTag g) = TAG_LENGTH_CHARS.
Proof.
  intros Hg Hin.
  destruct (detect_tags_spec (block_start_abs_of session_bytes)
              (session_tab_group_block_text_of session_bytes))
    as [detected [Hdet _]].
  destruct (catalogue_origin session_bytes detected groups Hdet Hg)
    as [_ [_ Horigin]].
  destruct (Horigin g Hin) as [d [Hd Hr]].
  apply reconstruct_one_fields in Hr as [Ht _]. rewrite Ht.
  now destruct (detected_entries_are_well_formed_aux session_bytes detected Hdet d Hd).
Qed.

Lemma spaced_nodup L : forall l lo, 0 < L -> spaced L lo l -> NoDup l.
Proof.
  induction l as [|p l IH]; intros lo HL Hs; [constructor|].
  destruct Hs as [_ Hs]. constructor; [|exact (IH _ HL Hs)].
  intros Hin. pose proof (spaced_In _ _ _ _ Hs Hin). lia.
Qed.

Lemma In_skipn_In {A : Type} (k : nat) (l : list A) (x : A) :
  In x (skipn k l) -> In x l.
Proof.
  intros Hin. rewrite <- (firstn_skipn k l). apply in_or_app. now right.
Qed.

Lemma NoDup_skipn {A : Type} (k : nat) (l : list A) : NoDup l -> NoDup (skipn k l).
Proof.
  intros Hnd. rewrite <- (firstn_skipn k l) in Hnd.
  exact (NoDup_app_remove_l _ _ Hnd).
Qed.

Lemma eligible_fold_exact index : forall groups acc l,
  foldM (eligible_step index) groups acc = Some l ->
  exists parts,
    Forall2 (fun g lg => eligible_of_tag index g = Some lg) groups parts
    /\ l = acc ++ concat parts.
Proof.
  induction groups as [|g groups IH]; intros acc l; cbn [foldM].
  - intros Hl. exists []. split; [constructor|]. rewrite app_nil_r. congruence.
  - unfold eligible_step at 1.
    destruct (eligible_of_tag index g) as [lg|] eqn:Eg; [|discriminate].
    cbn [bind]. intros Hf. destruct (IH _ _ Hf) as [parts [Hparts ->]].
    exists (lg :: parts). split; [now constructor|].
    simpl. now rewrite app_assoc.
Qed.

Lemma concat_parts_In {A B : Type} (f : A -> option (list B)) (x : B) :
  forall groups parts, Forall2 (fun g lg => f g = Some lg) groups parts ->
  (In x (concat parts) <-> exists g lg, In g groups /\ f g = Some lg /\ In x lg).
Proof.
  induction 1 as [|g lg groups parts Hg Hrest IH]; simpl.
  - split; [intros [] | intros [g [lg [[] _]]]].
  - rewrite in_app_iff, IH. split.
    + intros [Hx | [g' [lg' [Hg' [HR Hx]]]]].
      * exists g, lg. split; [now left | now split].
      * exists g', lg'. split; [now right | now split].
    + intros [g' [lg' [[<- | Hg'] [HR Hx]]]].
      * left. assert (lg' = lg) by congruence. now subst lg'.
      * right. exists g', lg'. split; [exact Hg' | now split].
Qed.

Lemma concat_parts_nodup (index : list (text * list nat)) :
  forall groups parts,
  Forall2 (fun g lg => eligible_of_tag index g = Some lg) groups parts ->
  NoDup (map Group.SessionTabGroupTag groups) ->
  (forall g lg, In g groups -> eligible_of_tag index g = Some lg ->
     NoDup lg /\ forall o, In o lg -> snd o = Group.SessionTabGroupTag g) ->
  NoDup (concat parts).
Proof.
  induction 1 as [|g lg groups parts Hg Hrest IH]; intros Hnd Hparts; simpl;
    [constructor|].
  inversion Hnd as [|? ? Hnot Hnd']; subst.
  destruct (Hparts g lg (or_introl eq_refl) Hg) as [Hlg Htag].
  apply NoDup_app; [exact Hlg | |].
  - apply IH; [exact Hnd'|]. intros g' lg' Hg' He. apply Hparts; [now right | exact He].
  - intros o Ho Ho'.
    apply (concat_parts_In (eligible_of_tag index) o groups parts Hrest) in Ho'
      as [g' [lg' [Hg' [He Ho']]]].
    destruct (Hparts g' lg' (or_intror Hg') He) as [_ Htag'].
    apply Hnot. rewrite <- (Htag o Ho), (Htag' o Ho'). now apply in_map.
Qed.

Lemma NoDup_map_inj_on {A B : Type} (f : A -> B) (l : list A) :
  NoDup l -> (forall x y, In x l -> In y l -> f x = f y -> x = y) ->
  NoDup (map f l).
Proof.
  induction 1 as [|x l Hx Hnd IH]; intros Hinj; simpl; constructor.
  - intros Hin. apply in_map_iff in Hin as [y [Hy Hyl]].
    assert (y = x) by (apply Hinj; [now right | now left | exact Hy]).
    subst y. contradiction.
  - apply IH. intros a b Ha Hb. apply Hinj; now right.
Qed.

Lemma sorted_by_strict {A : Type} (f : A -> nat) (l : list A) :
  StronglySorted (fun a b => f a <= f b) l -> NoDup (map f l) ->
  StronglySorted (fun a b => f a < f b) l.
Proof.
  induction 1 as [|x l Hs IH Hx]; intros Hnd; [constructor|].
  simpl in Hnd. inversion Hnd as [|? ? Hnot Hnd']; subst.
  constructor; [now apply IH|].
  rewrite Forall_forall in *. intros y Hy. specialize (Hx y Hy).
  destruct (Nat.eq_dec (f x) (f y)) as [Heq | Hne]; [|lia].
  exfalso. apply Hnot. rewrite Heq. now apply in_map.
Qed.

Lemma eligible_list_spec (session_bytes : list byte) groups index occs :
  session_tags_and_groups_of session_bytes = Some groups ->
  tag_to_all_occurrences_of (display session_bytes) groups = Some index ->
  combined_tag_occurrence_list_of index groups = Some occs ->
  StronglySorted (fun a b : nat * text => fst a < fst b) occs
  /\ forall p tag,
       In (p, tag) occs
       <-> exists g all_occs,
             In g groups /\ Group.SessionTabGroupTag g = tag
             /\ Dict.lookup text_eqb tag index = Some all_occs
             /\ In p (skipn 4 all_occs).
Proof.
  intros Hg Hidx Hoccs. unfold combined_tag_occurrence_list_of in Hoccs.
  destruct (foldM (eligible_step index) groups []) as [l|] eqn:El; [|discriminate].
  cbn [bind] in Hoccs. assert (Ho : occs = sort_by fst l) by congruence.
  clear Hoccs. subst occs.
  destruct (eligible_fold_exact index groups [] l El) as [parts [Hparts Hl]].
  cbn [app] in Hl. subst l.
  assert (Hmem : forall p tag,
             In (p, tag) (concat parts)
             <-> exists g all_occs,
                   In g groups /\ Group.SessionTabGroupTag g = tag
                   /\ Dict.lookup text_eqb tag index = Some all_occs
                   /\ In p (skipn 4 all_occs)).
  { intros p tag.
    rewrite (concat_parts_In (eligible_of_tag index) (p, tag) groups parts Hparts).
    split.
    - intros [g [lg [Hin [He Hp]]]].
      destruct (eligible_of_catalogued_tag session_bytes groups index g Hg Hidx Hin)
        as [all_occs [Hlook [_ He']]].
      rewrite He' in He. injection He as <-.
      apply in_map_iff in Hp as [p' [[= -> <-] Hp']].
      exists g, all_occs. split; [exact Hin|]. split; [reflexivity|].
      split; [exact Hlook | exact Hp'].
    - intros [g [all_occs [Hin [Htag [Hlook Hp]]]]]. subst tag.
      destruct (eligible_of_catalogued_tag session_bytes groups index g Hg Hidx Hin)
        as [all_occs' [Hlook' [_ He']]].
      rewrite Hlook in Hlook'. injection Hlook' as <-.
      exists g. eexists. split; [exact Hin|]. split; [exact He'|].
      apply in_map_iff. now exists p. }
  assert (Hocc : forall p tag, In (p, tag) (concat parts) ->
             length tag = TAG_LENGTH_CHARS
             /\ Py.occurs_at tag (display session_bytes) p = true).
  { intros p tag Hin. apply Hmem in Hin as [g [all_occs [Hin [<- [Hlook Hp]]]]].
    split; [exact (catalogue_tag_length session_bytes groups g Hg Hin)|].
    destruct (eligible_of_catalogued_tag session_bytes groups index g Hg Hidx Hin)
      as [all_occs' [Hlook' [Hgr _]]].
    rewrite Hlook in Hlook'. injection Hlook' as <-.
    apply (greedy_occurs _ _ _ _ Hgr). now apply In_skipn_In in Hp. }
  assert (Hnd : NoDup (concat parts)).
  { destruct (detect_tags_spec (block_start_abs_of session_bytes)
                (session_tab_group_block_text_of session_bytes))
      as [detected [Hdet _]].
    destruct (catalogue_origin session_bytes detected groups Hdet Hg) as [Hndt _].
    apply (concat_parts_nodup index groups parts Hparts Hndt).
    intros g lg Hin He.
    destruct (eligible_of_catalogued_tag session_bytes groups index g Hg Hidx Hin)
      as [all_occs [_ [Hgr He']]].
    assert (Hlg : lg = map (fun p => (p, Group.SessionTabGroupTag g))
                           (skipn 4 all_occs)) by congruence.
    subst lg. split.
    - apply NoDup_map_inj_on.
      + apply NoDup_skipn.
        apply (spaced_nodup (length (Group.SessionTabGroupTag g)) all_occs 0);
          [|exact (greedy_spaced _ _ _ _ Hgr)].
        rewrite (catalogue_tag_length session_bytes groups g Hg Hin).
        unfold TAG_LENGTH_CHARS. lia.
      + intros x y _ _ [= ->]. reflexivity.
    - intros o Ho. apply in_map_iff in Ho as [p [<- _]]. reflexivity. }
  assert (Hndf : NoDup (map fst (concat parts))).
  { apply NoDup_map_inj_on; [exact Hnd|].
    intros [p t1] [p' t2] H1 H2 Hp. cbn [fst] in Hp. subst p'.
    destruct (Hocc _ _ H1) as [Hl1 Ho1]. destruct (Hocc _ _ H2) as [Hl2 Ho2].
    apply tag_is_text_at in Ho1. apply tag_is_text_at in Ho2.
    rewrite Hl1 in Ho1. rewrite Hl2 in Ho2. congruence. }
  split.
  - apply sorted_by_strict; [apply sort_by_sorted|].
    eapply Permutation_NoDup; [|exact Hndf].
    apply Permutation_map. symmetry. apply sort_by_perm.
  - intros p tag. rewrite sort_by_In. apply Hmem.
Qed.

(** X26. The list of eligible occurrences is in strictly increasing order of
    offset, so no two eligible occurrences, of one tag or of two, share an
    offset; and it holds [(p, tag)] exactly when [tag] is a tag of the
    catalogue and [p] is one of its indexed occurrences from the fifth on. *)
Theorem eligible_occurrences_are_strictly_ordered :
  forall (session_bytes : list byte) groups index occs,
    session_tags_and_groups_of session_bytes = Some groups ->
    tag_to_all_occurrences_of (display session_bytes) groups = Some index ->
    combined_tag_occurrence_list_of index groups = Some occs ->
    StronglySorted (fun a b : nat * text => fst a < fst b) occs
    /\ forall p tag,
         In (p, tag) occs
         <-> exists g all_occs,
               In g groups /\ Group.SessionTabGroupTag g = tag
               /\ Dict.lookup text_eqb tag index = Some all_occs
               /\ In p (skipn 4 all_occs).
Proof. exact eligible_list_spec. Qed.

Lemma eligible_occurrences_are_strictly_ordered_witness :
  StronglySorted (fun a b : nat * text => fst a < fst b)
    [(129, sample_tag); (186, sample_tag); (244, sample_tag)]
  /\ forall p tag,
       In (p, tag) [(129, sample_tag); (186, sample_tag); (244, sample_tag)]
       <-> exists g all_occs,
             In g sample_groups /\ Group.SessionTabGroupTag g = tag
             /\ Dict.lookup text_eqb tag
                  [(sample_tag, [0; 72; 91; 110; 129; 186; 244])] = Some all_occs
             /\ In p (skipn 4 all_occs).
Proof.
  apply (eligible_occurrences_are_strictly_ordered sample_session sample_groups
           [(sample_tag, [0; 72; 91; 110; 129; 186; 244])]).
  - vm_compute. reflexivity.
  - vm_compute. reflexivity.
  - vm_compute. reflexivity.
Defined.

(** ** The URLs of the rows *)

Lemma startswith_ignorecase_firstn : forall pat t n,
  startswith_ignorecase pat t = true -> length pat <= n ->
  startswith_ignorecase pat (firstn n t) = true.
Proof.
  induction pat as [|x pat IH]; intros t n Hs Hn; [reflexivity|].
  destruct t as [|y t]; [discriminate Hs|].
  destruct n as [|n]; [simpl in Hn; lia|].
  simpl in *. apply andb_true_iff in Hs as [Hxy Hs]. rewrite Hxy. cbn [andb].
  apply IH; [exact Hs | lia].
Qed.

Lemma url_regex_match_scheme (t : text) (len : nat) :
  url_regex_match t = Some len ->
  exists k, has_scheme k (firstn len t) /\ k < len.
Proof.
  unfold url_regex_match.
  destruct (startswith_ignorecase (txt "https://") t) eqn:E8.
  - destruct (run_length (skipn 8 t)) as [|r] eqn:Er; [discriminate|].
    cbn [Nat.eqb]. intros [= <-]. exists 8. split; [|lia].
    left. split; [reflexivity|].
    apply startswith_ignorecase_firstn; [exact E8 | simpl; lia].
  - destruct (startswith_ignorecase (txt "http://") t) eqn:E7; [|discriminate].
    destruct (run_length (skipn 7 t)) as [|r] eqn:Er; [discriminate|].
    cbn [Nat.eqb]. intros [= <-]. exists 7. split; [|lia].
    right. split; [reflexivity|].
    apply startswith_ignorecase_firstn; [exact E7 | simpl; lia].
Qed.

Lemma url_finditer_from_scheme : forall t i skip s e g,
  In (s, e, g) (url_finditer_from t i skip) ->
  exists k, has_scheme k g /\ k < length g.
Proof.
  induction t as [|c t IH]; intros i skip s e g; simpl; [intros []|].
  destruct skip as [|k]; [|apply IH].
  destruct (url_regex_match (c :: t)) as [len|] eqn:E; [|apply IH].
  intros [Heq | Hin]; [|exact (IH _ _ _ _ _ Hin)].
  assert (Hg : g = firstn len (c :: t)) by congruence.
  destruct (url_regex_match_scheme _ _ E) as [k [Hk Hlt]].
  pose proof (url_regex_match_bounds _ _ E) as [_ Hle].
  exists k. rewrite Hg. split; [exact Hk|].
  rewrite length_firstn. lia.
Qed.

Lemma has_scheme_removelast (k : nat) (g : text) :
  has_scheme k g -> k < length g -> has_scheme k (removelast g).
Proof.
  intros Hk Hlt. rewrite removelast_firstn_len.
  destruct Hk as [[-> Hs] | [-> Hs]]; [left | right]; (split; [reflexivity|]);
    apply startswith_ignorecase_firstn; try exact Hs; simpl; lia.
Qed.

Lemma In_removelast {A : Type} (l : list A) (x : A) :
  In x (removelast l) -> In x l.
Proof.
  rewrite removelast_firstn_len. intros Hin.
  rewrite <- (firstn_skipn (pred (length l)) l). apply in_or_app. now left.
Qed.

Lemma display_char_range (bs : list byte) (c : ascii) :
  In c (display bs) -> 32 <= nat_of_ascii c <= 126.
Proof.
  unfold display. intros Hin. apply in_map_iff in Hin as [b [<- _]].
  apply convert_printable_range.
Qed.

Lemma In_slice {A : Type} (l : list A) (i j : nat) (x : A) :
  In x (Py.slice l i j) -> In x l.
Proof.
  unfold Py.slice. intros Hin.
  apply In_skipn_In with (k := i).
  rewrite <- (firstn_skipn (j - i) (skipn i l)). apply in_or_app. now left.
Qed.

Lemma row_urls_spec (session_bytes : list byte) (tabs_bytes : option (list byte))
    out r :
  main_core session_bytes tabs_bytes = Some out ->
  In r (out_produced_rows out) ->
  (exists k, has_scheme k (Row.URL_Raw r) /\ k < length (Row.URL_Raw r))
  /\ (exists k, has_scheme k (Row.URL r) /\ k <= length (Row.URL r))
  /\ Row.URL_Raw r
     = Py.slice (display session_bytes) (Row.URL_StartPos r) (Row.URL_EndPos r)
  /\ length (Row.URL_Raw r) = Row.URL_EndPos r - Row.URL_StartPos r
  /\ (forall c, In c (Row.URL_Raw r) ->
        c <> REPLACEMENT_CHAR_PIPE /\ py_isspace c = false
        /\ 33 <= nat_of_ascii c <= 126)
  /\ (forall c, In c (Row.URL r) -> In c (Row.URL_Raw r))
  /\ Row.URL_StartPos r + 8 <= Row.URL_EndPos r
  /\ Row.URL_EndPos r < Row.TagOccurrencePos r
  /\ Row.TagOccurrencePos r < Row.TagEndPos r
  /\ Row.TagEndPos r <= length (display session_bytes).
Proof.
  intros Hmain Hin.
  pose proof (main_core_rows_backed session_bytes tabs_bytes out r Hmain Hin) as Hb.
  unfold row_backed in Hb. cbv zeta in Hb.
  destruct Hb as [[g [Hg [Htag _]]] [Hocc [Hend [Hcand [Hurl [[istart [Hi1 [Hi2 _]]] _]]]]]].
  destruct (url_matches_spec (display session_bytes)) as [Hspec _].
  destruct (Hspec _ _ _ Hcand) as [Hb1 [Hb2 [Hraw [Hchars _]]]].
  pose proof (url_finditer_bounds _ _ _ _ Hcand) as [_ [_ Hlen]].
  destruct (url_finditer_from_scheme _ _ _ _ _ _ Hcand) as [k [Hk Hlt]].
  assert (Htaglen : length (Row.TagText r) = TAG_LENGTH_CHARS).
  { rewrite <- Htag.
    destruct (main_core_spec session_bytes tabs_bytes)
      as [out' [st [lo [Hmain' [Hcat _]]]]].
    assert (out' = out) by congruence. subst out'.
    exact (catalogue_tag_length session_bytes _ g Hcat Hg). }
  pose proof (occurs_at_bound _ _ _ Hocc) as Hfit.
  split; [now exists k|]. split.
  { destruct Hurl as [-> | ->]; [exists k; split; [exact Hk | lia]|].
    exists k. split; [now apply has_scheme_removelast|].
    rewrite removelast_firstn_len, length_firstn. lia. }
  split; [exact Hraw|]. split; [exact Hlen|]. split.
  { intros c Hc. destruct (Hchars c Hc) as [Hp Hw].
    split; [exact Hp|]. split; [exact Hw|].
    assert (Hr : 32 <= nat_of_ascii c <= 126).
    { apply (display_char_range session_bytes). rewrite Hraw in Hc.
      exact (In_slice _ _ _ _ Hc). }
    destruct (Nat.eq_dec (nat_of_ascii c) 32) as [H32 | H32]; [|lia].
    unfold py_isspace in Hw. cbv zeta in Hw. rewrite H32 in Hw. discriminate Hw. }
  split.
  { intros c Hc. destruct Hurl as [Heq | Heq]; rewrite Heq in Hc;
      [exact Hc | now apply In_removelast]. }
  split; [exact Hb1|].
  rewrite interleaved_form_length in Hi2.
  split; [lia|]. rewrite Hend, Htaglen. unfold TAG_LENGTH_CHARS in *.
  split; [lia|]. rewrite <- Htaglen. exact Hfit.
Qed.

(** X27. Every row's raw URL is the text between its two URL offsets, begins,
    in any letter case, with [http://] or [https://] followed by at least one
    more character, and consists of printable characters that are neither a
    space nor the sentinel; the row's URL keeps the scheme and uses only
    characters of the raw URL; and the offsets of a row are ordered: the URL
    spans at least 8 characters and ends before the tag occurrence, which
    ends inside the text. *)
Theorem row_urls_are_scheme_prefixed_printable_runs :
  forall (session_bytes : list byte) (tabs_bytes : option (list byte))
         (out : Output) (r : Row.t),
    main_core session_bytes tabs_bytes = Some out ->
    In r (out_produced_rows out) ->
    (exists k, has_scheme k (Row.URL_Raw r) /\ k < length (Row.URL_Raw r))
    /\ (exists k, has_scheme k (Row.URL r) /\ k <= length (Row.URL r))
    /\ Row.URL_Raw r
       = Py.slice (display session_bytes) (Row.URL_StartPos r) (Row.URL_EndPos r)
    /\ length (Row.URL_Raw r) = Row.URL_EndPos r - Row.URL_StartPos r
    /\ (forall c, In c (Row.URL_Raw r) ->
          c <> REPLACEMENT_CHAR_PIPE /\ py_isspace c = false
          /\ 33 <= nat_of_ascii c <= 126)
    /\ (forall c, In c (Row.URL r) -> In c (Row.URL_Raw r))
    /\ Row.URL_StartPos r + 8 <= Row.URL_EndPos r
    /\ Row.URL_EndPos r < Row.TagOccurrencePos r
    /\ Row.TagOccurrencePos r < Row.TagEndPos r
    /\ Row.TagEndPos r <= length (display session_bytes).
Proof. exact row_urls_spec. Qed.

Lemma row_urls_are_scheme_prefixed_printable_runs_witness :
  exists out r,
    main_core sample_session (Some sample_tabs) = Some out
    /\ nth_error (out_produced_rows out) 1 = Some r
    /\ Row.URL_Raw r = txt "http://d.e/f"
    /\ Row.URL_StartPos r + 8 <= Row.URL_EndPos r
    /\ Row.URL_EndPos r < Row.TagOccurrencePos r
    /\ Row.TagOccurrencePos r < Row.TagEndPos r
    /\ Row.TagEndPos r <= length (display sample_session).
Proof.
  eexists. eexists. split; [vm_compute; reflexivity|].
  split; [reflexivity|]. split; [reflexivity|].
  refine (proj2 (proj2 (proj2 (proj2 (proj2 (proj2
            (row_urls_are_scheme_prefixed_printable_runs sample_session
               (Some sample_tabs) _ _ _ _))))))).
  - vm_compute. reflexivity.
  - right. left. reflexivity.
Defined.

(** ** The replaced-text files as inputs (lines 214-225, 538-549) *)

Lemma display_encode_display (bs : list byte) :
  display (encode_text (display bs)) = display bs.
Proof.
  unfold display, encode_text. rewrite !map_map. apply map_ext.
  exact convert_encode_fixed.
Qed.

Lemma convert_byte_of_ascii (c : ascii) :
  32 <= nat_of_ascii c <= 126 ->
  convert_single_byte_to_display_char (byte_of_ascii c) = c.
Proof.
  intros H. destruct c as [[] [] [] [] [] [] [] []];
    try reflexivity; vm_compute in H; lia.
Qed.

Lemma display_encode_text (p : text) :
  Forall (fun c => c <> REPLACEMENT_CHAR_PIPE /\ 32 <= nat_of_ascii c <= 126) p ->
  display (encode_text p) = p.
Proof.
  induction 1 as [|c p [_ Hc] Hp IH]; [reflexivity|].
  unfold display, encode_text in *. simpl. rewrite IH.
  now rewrite convert_byte_of_ascii.
Qed.

Lemma occurs_at_display (m bs : list byte) (j : nat) :
  Py.occurs_at m bs j = true -> Py.occurs_at (display m) (display bs) j = true.
Proof.
  intros Ho. apply occurs_at_split in Ho as [pre [post [-> Hl]]].
  apply occurs_at_split. exists (display pre), (display post).
  unfold display. rewrite !map_app, length_map. now split.
Qed.

Lemma occurs_at_bytes_roundtrip (p : text) (bs : list byte) (j : nat) :
  Forall (fun c => c <> REPLACEMENT_CHAR_PIPE /\ 32 <= nat_of_ascii c <= 126) p ->
  Py.occurs_at (encode_text p) bs j
  = Py.occurs_at (encode_text p) (encode_text (display bs)) j.
Proof.
  intros Hp.
  assert (Hnp : ~ In REPLACEMENT_CHAR_PIPE p).
  { intros Hin. rewrite Forall_forall in Hp. destruct (Hp _ Hin) as [H _]. now apply H. }
  assert (Hiff : forall cs, Py.occurs_at (encode_text p) cs j = true
                            <-> Py.occurs_at p (display cs) j = true).
  { intros cs. split.
    - intros Ho. apply occurs_at_display in Ho.
      now rewrite (display_encode_text p Hp) in Ho.
    - now apply display_occurrence. }
  destruct (Py.occurs_at (encode_text p) bs j) eqn:E1;
    destruct (Py.occurs_at (encode_text p) (encode_text (display bs)) j) eqn:E2;
    try reflexivity.
  - apply Hiff in E1. rewrite <- (display_encode_display bs) in E1.
    apply Hiff in E1. congruence.
  - apply Hiff in E2. rewrite display_encode_display in E2.
    apply Hiff in E2. congruence.
Qed.

Lemma find_ext {A : Type} `{Eqb A} (s s' sub : list A) (start : nat) :
  (forall j, Py.occurs_at sub s j = Py.occurs_at sub s' j) ->
  Py.find s sub start = Py.find s' sub start.
Proof.
  intros Hext. destruct (Py.find s sub start) as [r|] eqn:E.
  - apply find_some in E as [H1 [H2 H3]]. symmetry.
    apply find_least; [exact H1 | now rewrite <- Hext|].
    intros j Hj1 Hj2. rewrite <- Hext. now apply H3.
  - symmetry. apply find_absent. intros j Hj. rewrite <- Hext.
    exact (find_none _ _ _ E j Hj).
Qed.

Lemma find_bytes_roundtrip (p : text) (bs : list byte) (start : nat) :
  Forall (fun c => c <> REPLACEMENT_CHAR_PIPE /\ 32 <= nat_of_ascii c <= 126) p ->
  Py.find (encode_text (display bs)) (encode_text p) start
  = Py.find bs (encode_text p) start.
Proof.
  intros Hp. apply find_ext. intros j. symmetry.
  now apply occurs_at_bytes_roundtrip.
Qed.

Lemma block_start_roundtrip (bs : list byte) :
  block_start_abs_of (encode_text (display bs)) = block_start_abs_of bs.
Proof.
  unfold block_start_abs_of.
  change (bytes_of "}") with (encode_text (txt "}")).
  rewrite find_bytes_roundtrip; [reflexivity|].
  repeat (constructor; [split; [discriminate | vm_compute; lia]|]). constructor.
Qed.

Lemma first_http_roundtrip (bs : list byte) :
  find_earliest_lowercase_http_position_in_bytes (encode_text (display bs))
  = find_earliest_lowercase_http_position_in_bytes bs.
Proof.
  unfold find_earliest_lowercase_http_position_in_bytes.
  change (bytes_of "http://") with (encode_text (txt "http://")).
  change (bytes_of "https://") with (encode_text (txt "https://")).
  rewrite !find_bytes_roundtrip.
  - unfold encode_text, display. now rewrite !length_map.
  - repeat (constructor; [split; [discriminate | vm_compute; lia]|]). constructor.
  - repeat (constructor; [split; [discriminate | vm_compute; lia]|]). constructor.
Qed.

Lemma block_text_roundtrip (bs : list byte) :
  session_tab_group_block_text_of (encode_text (display bs))
  = session_tab_group_block_text_of bs.
Proof.
  unfold session_tab_group_block_text_of.
  rewrite block_start_roundtrip, first_http_roundtrip.
  now rewrite !display_slice, display_encode_display.
Qed.

Lemma catalogue_roundtrip (bs : list byte) :
  session_tags_and_groups_of (encode_text (display bs))
  = session_tags_and_groups_of bs.
Proof.
  unfold session_tags_and_groups_of.
  now rewrite block_text_roundtrip, block_start_roundtrip, display_encode_display.
Qed.

(** X28. The replaced-text files are faithful substitutes for the files they
    were made from: given the bytes of the display text of the session buffer,
    and of the tabs buffer if there is one, the core returns the same
    catalogue and the same rows as for the buffers themselves. *)
Theorem replaced_text_gives_the_same_output :
  forall (session_bytes : list byte) (tabs_bytes : option (list byte)),
    main_core (encode_text (display session_bytes))
              (option_map (fun b => encode_text (display b)) tabs_bytes)
    = main_core session_bytes tabs_bytes.
Proof.
  intros session_bytes tabs_bytes. unfold main_core.
  rewrite catalogue_roundtrip, display_encode_display.
  destruct tabs_bytes as [b|]; cbn [option_map];
    [rewrite (display_encode_display b)|]; reflexivity.
Qed.
